(** * Agent orchestration core: sessions, workspaces and the continuation loop

    A shallow embedding of [backend/src/lib/terminal.ts],
    [backend/src/lib/worktree.ts] and [backend/src/lib/orchestrator.ts],
    of the event hub [backend/src/lib/websocket.ts], whose text the
    sources carry at the end of [backend/src/routes/tickets.ts], of the
    socket server of [backend/src/index.ts], and of the routes that call
    them.

    JavaScript strings are modelled by [string]; a character stands for one
    code unit below 256.  Objects held by reference (sessions in the
    registry, the orchestrator singleton) are modelled by the store that
    holds them, so that every mutation is visible to every later reader.
    Time stamps ([Date]) are not modelled unless a definition says so. *)

From Stdlib Require Import String Ascii List Arith Lia Bool.
From stdpp Require Import base option list gmap sets strings pretty.

#[local] Set Warnings "-clear-no-such-hyp".

Local Open Scope string_scope.
Local Open Scope list_scope.
Local Open Scope nat_scope.

(** ** JavaScript string primitives used by the sources *)

Module Js.

(** ["\n"] *)
Definition nl : ascii := Ascii.ascii_of_nat 10.

(** [s.split(sep)] for a one-character separator: never empty, and a
    trailing separator yields a trailing empty piece. *)
Fixpoint split (sep : ascii) (s : string) : list string :=
  match s with
  | EmptyString => [EmptyString]
  | String c s' =>
      if Ascii.eqb c sep then EmptyString :: split sep s'
      else match split sep s' with
           | [] => [String c EmptyString]
           | l :: ls => String c l :: ls
           end
  end.

(** [xs.join('')] *)
Definition join (xs : list string) : string := String.concat "" xs.

(** [s.includes(needle)] *)
Fixpoint includes (s needle : string) : bool :=
  if String.prefix needle s then true
  else match s with
       | EmptyString => false
       | String _ s' => includes s' needle
       end.

(** White space as matched by [\s] and removed by [trim()], restricted to
    code units below 256: TAB, LF, VT, FF, CR, SPACE and NBSP. *)
Definition isWhitespace (c : ascii) : bool :=
  let n := Ascii.nat_of_ascii c in
  (Nat.leb 9 n && Nat.leb n 13) || Nat.eqb n 32 || Nat.eqb n 160.

Fixpoint trimStart (s : string) : string :=
  match s with
  | String c s' => if isWhitespace c then trimStart s' else s
  | EmptyString => EmptyString
  end.

(** [trimEnd] drops a character when it is white space and everything
    after it has been dropped as well. *)
Fixpoint trimEnd (s : string) : string :=
  match s with
  | EmptyString => EmptyString
  | String c s' =>
      match trimEnd s' with
      | EmptyString => if isWhitespace c then EmptyString else String c EmptyString
      | t => String c t
      end
  end.

(** [s.trim()] *)
Definition trim (s : string) : string := trimEnd (trimStart s).

Fixpoint all_whitespace (s : string) : bool :=
  match s with
  | EmptyString => true
  | String c s' => isWhitespace c && all_whitespace s'
  end.

Fixpoint drop (n : nat) (s : string) : string :=
  match n, s with
  | S n', String _ s' => drop n' s'
  | _, _ => s
  end.

Definition upper (c : ascii) : ascii :=
  let n := Ascii.nat_of_ascii c in
  if Nat.leb 97 n && Nat.leb n 122 then Ascii.ascii_of_nat (n - 32) else c.

(** [s.toUpperCase()] on the ASCII letters *)
Fixpoint toUpperCase (s : string) : string :=
  match s with
  | EmptyString => EmptyString
  | String c s' => String (upper c) (toUpperCase s')
  end.

(** Exceptions: the constructor name and the message; [String(e)] prints
    both. *)
Record Exn := mkExn { exn_name : string; exn_message : string }.

Definition Error (msg : string) : Exn := mkExn "Error" msg.

(** Writing a property of [null] ([this.currentJob!.x = v] when
    [currentJob] is [null]).  The message text is the engine's. *)
Definition TypeError_null : Exn := mkExn "TypeError" "null is not an object".

Definition String_ (e : Exn) : string := exn_name e +:+ ": " +:+ exn_message e.

(** [s.startsWith(p)] *)
Definition startsWith (s p : string) : bool := String.prefix p s.

(** [s.replace(needle, repl)] for a string [needle]: the first occurrence
    is replaced, and [repl] holds no replacement pattern. *)
Fixpoint replaceFirst (needle repl s : string) : string :=
  if String.prefix needle s then repl +:+ drop (String.length needle) s
  else match s with
       | EmptyString => EmptyString
       | String c s' => String c (replaceFirst needle repl s')
       end.

(** A string is falsy when it is empty, and so is [undefined]. *)
Definition truthy (s : option string) : bool :=
  match s with
  | Some (String _ _) => true
  | _ => false
  end.

(** No character of [s] is [c]. *)
Fixpoint free (c : ascii) (s : string) : bool :=
  match s with
  | EmptyString => true
  | String c' s' => negb (Ascii.eqb c' c) && free c s'
  end.

(** Every character of [s] satisfies [p]. *)
Fixpoint allChars (p : ascii → bool) (s : string) : bool :=
  match s with
  | EmptyString => true
  | String c s' => p c && allChars p s'
  end.

End Js.

(** The last [n] elements of a list. *)
Definition lastn {A} (n : nat) (l : list A) : list A := drop (length l - n) l.


(** ** Effects: mutable state with exceptions

    A computation reads and updates a store and either returns a value or
    throws; the updates made before a [throw] stay in the store, as in
    JavaScript.  [try_catch] is [try { m } catch (e) { h e }]. *)

Definition M (S A : Type) : Type := S → (Js.Exn + A) * S.

Global Instance M_ret {S} : MRet (M S) := λ A a s, (inr a, s).

Global Instance M_bind {S} : MBind (M S) := λ A B f m s,
  match m s with
  | (inr a, s') => f a s'
  | (inl e, s') => (inl e, s')
  end.

Definition throw {S A} (e : Js.Exn) : M S A := λ s, (inl e, s).

Definition try_catch {S A} (m : M S A) (h : Js.Exn → M S A) : M S A := λ s,
  match m s with
  | (inr a, s') => (inr a, s')
  | (inl e, s') => h e s'
  end.

(** [try { m } catch { }] *)
Definition ignore_errors {S} (m : M S ()) : M S () := try_catch m (λ _, mret ()).

Definition get {S} : M S S := λ s, (inr s, s).
Definition gets {S A} (f : S → A) : M S A := λ s, (inr (f s), s).
Definition modify {S} (f : S → S) : M S () := λ s, (inr (), f s).

(** Running a computation on a component of the store. *)
Definition zoom {S T A} (proj : S → T) (inj : T → S → S) (m : M T A) : M S A := λ s,
  let '(r, t') := m (proj s) in (r, inj t' s).

(** ** Output fan-out and session registry ([terminal.ts]) *)

Module Terminal.

(** A [ServerWebSocket], by identity. *)
Definition Client := nat.
(** A [Subprocess] handle, by identity. *)
Definition Pid := nat.

Inductive Status := starting | running | stopped | error_.

Record TerminalSession := mkSession {
  ticketId : string;
  process : option Pid;
  clients : gset Client;
  outputBuffer : list string;
  maxBufferLines : nat;
  status : Status;
  startedAt : option nat;
  error : option string
}.

(** The module-level [sessions] map together with the part of the outside
    world the module acts on: what every socket has been sent so far
    ([received]), the sockets whose [send] throws ([closed]) and the
    processes on which [kill()] was called ([killed]). *)
Record Registry := mkRegistry {
  sessions : gmap string TerminalSession;
  received : gmap Client (list string);
  closed : gset Client;
  killed : gset Pid
}.

Definition set_sessions (f : gmap string TerminalSession → gmap string TerminalSession)
    (r : Registry) : Registry :=
  mkRegistry (f (sessions r)) (received r) (closed r) (killed r).

Definition set_clients (f : gset Client → gset Client) (s : TerminalSession) : TerminalSession :=
  mkSession (ticketId s) (process s) (f (clients s)) (outputBuffer s)
            (maxBufferLines s) (status s) (startedAt s) (error s).

Definition set_outputBuffer (b : list string) (s : TerminalSession) : TerminalSession :=
  mkSession (ticketId s) (process s) (clients s) b
            (maxBufferLines s) (status s) (startedAt s) (error s).

(** What the socket [ws] has been sent, oldest first. *)
Definition observed (r : Registry) (ws : Client) : list string :=
  default [] (received r !! ws).

(** The session object created by [getOrCreateTerminalSession]. *)
Definition newSession (t : string) : TerminalSession :=
  mkSession t None ∅ [] 1000 stopped None None.

Definition getOrCreateTerminalSession (t : string) (r : Registry)
    : TerminalSession * Registry :=
  match sessions r !! t with
  | Some s => (s, r)
  | None => (newSession t, set_sessions (insert t (newSession t)) r)
  end.

Definition getTerminalSession (t : string) (r : Registry) : option TerminalSession :=
  sessions r !! t.

(** [while (buffer.length > max) buffer.shift()] *)
Fixpoint trimBuffer (max : nat) (buf : list string) : list string :=
  match buf with
  | [] => []
  | _ :: rest => if Nat.ltb max (length buf) then trimBuffer max rest else buf
  end.

Definition bufferOutput (s : TerminalSession) (data : string) : TerminalSession :=
  let lines := Js.split Js.nl data in
  set_outputBuffer (trimBuffer (maxBufferLines s) (outputBuffer s ++ lines)) s.

(** [ws.send(data)]: [None] when it throws. *)
Definition send (ws : Client) (data : string) (r : Registry) : option Registry :=
  if decide (ws ∈ closed r) then None
  else Some (mkRegistry (sessions r) (<[ws := observed r ws ++ [data]]> (received r))
                        (closed r) (killed r)).

(** One turn of the loop in [broadcastToSession]: a client whose [send]
    throws is deleted from the session. *)
Definition broadcastTo (t : string) (data : string) (r : Registry) (ws : Client) : Registry :=
  match send ws data r with
  | Some r' => r'
  | None => set_sessions (alter (set_clients (λ cs, cs ∖ {[ws]})) t) r
  end.

Definition broadcastToSession (t : string) (data : string) (r : Registry) : Registry :=
  match sessions r !! t with
  | Some s => foldl (broadcastTo t data) r (elements (clients s))
  | None => r
  end.

(** The body of the stdout read loop of [startTerminalSession] for one
    chunk: buffer it, then broadcast it.  The loop closes over the session
    object, which is the registry's entry for the ticket. *)
Definition onStdout (t : string) (text : string) (r : Registry) : Registry :=
  broadcastToSession t text (set_sessions (alter (λ s, bufferOutput s text) t) r).

Definition addClientToSession (t : string) (ws : Client) (r : Registry) : Registry :=
  let '(s, r1) := getOrCreateTerminalSession t r in
  let r2 := set_sessions (alter (set_clients (λ cs, cs ∪ {[ws]})) t) r1 in
  match outputBuffer s with
  | [] => r2
  | _ :: _ =>
      match send ws (Js.join (outputBuffer s)) r2 with
      | Some r3 => r3
      | None => r2
      end
  end.

Definition removeClientFromSession (t : string) (ws : Client) (r : Registry) : Registry :=
  match sessions r !! t with
  | Some _ => set_sessions (alter (set_clients (λ cs, cs ∖ {[ws]})) t) r
  | None => r
  end.

Definition killTerminalSession (t : string) (r : Registry) : Registry :=
  match sessions r !! t with
  | Some s =>
      match process s with
      | Some p =>
          mkRegistry
            (<[t := mkSession (ticketId s) None (clients s) (outputBuffer s)
                      (maxBufferLines s) stopped (startedAt s) (error s)]> (sessions r))
            (received r) (closed r) (killed r ∪ {[p]})
      | None => r
      end
  | None => r
  end.

(** [startTerminalSession] with the process handle [Bun.spawn] returns
    and the time of the call: nothing happens when the session already
    runs a process; otherwise the process is attached and the session
    runs.  How the command line is put together is not modelled. *)
Definition startTerminalSession (t : string) (proc : Pid) (now : nat) (r : Registry)
    : Registry :=
  let '(s, r1) := getOrCreateTerminalSession t r in
  match process s, status s with
  | Some _, running => r1
  | _, _ =>
      set_sessions (insert t (mkSession (ticketId s) (Some proc) (clients s) (outputBuffer s)
                                        (maxBufferLines s) running (Some now) (error s))) r1
  end.

(** The notice put out when the process has exited. *)
Definition exitMessage (code : nat) : string :=
  let cr := String (Ascii.ascii_of_nat 13) "" in
  let lf := String Js.nl "" in
  let esc := String (Ascii.ascii_of_nat 27) "" in
  cr +:+ lf +:+ esc +:+ "[33m[Terminal session ended (code " +:+ pretty code +:+ ")]"
  +:+ esc +:+ "[0m" +:+ cr +:+ lf.

(** The handler of [proc.exited]. *)
Definition onExit (t : string) (code : nat) (r : Registry) : Registry :=
  let detach s :=
    mkSession (ticketId s) None (clients s) (outputBuffer s)
              (maxBufferLines s) stopped (startedAt s) (error s) in
  broadcastToSession t (exitMessage code)
    (set_sessions (alter (λ s, bufferOutput (detach s) (exitMessage code)) t) r).

(** A run of the stdout loop over several chunks. *)
Definition relay (t : string) (chunks : list string) (r : Registry) : Registry :=
  foldl (λ r text, onStdout t text r) r chunks.

(** The lines a list of chunks is split into. *)
Definition linesOf (chunks : list string) : list string :=
  concat (map (Js.split Js.nl) chunks).

(** *** Status report *)

Definition statusString (s : Status) : string :=
  match s with
  | starting => "starting" | running => "running" | stopped => "stopped" | error_ => "error"
  end.

(** The object [getSessionStatus] returns.  Without a session
    [session?.process !== null] holds, but [session?.status === 'running']
    does not. *)
Record SessionStatus := mkSessionStatus {
  ss_running : bool;
  ss_status : string;
  ss_clients : nat;
  ss_startedAt : option nat
}.

Definition getSessionStatus (t : string) (r : Registry) : SessionStatus :=
  match sessions r !! t with
  | Some s =>
      mkSessionStatus
        (match process s, status s with
         | Some _, running => true
         | _, _ => false
         end)
        (statusString (status s)) (size (clients s)) (startedAt s)
  | None => mkSessionStatus false "none" 0 None
  end.

(** *** Everything that happens to the registry

    The calls the socket handlers and the routes make, the events of a
    session's process, and a socket going away, after which a [send] to
    it throws. *)
Inductive Op :=
| AddClient (t : string) (ws : Client)
| RemoveClient (t : string) (ws : Client)
| StartSession (t : string) (proc : Pid) (now : nat)
| Stdout (t : string) (text : string)
| Exited (t : string) (code : nat)
| Kill (t : string)
| SocketGone (ws : Client).

Definition apply (r : Registry) (o : Op) : Registry :=
  match o with
  | AddClient t ws => addClientToSession t ws r
  | RemoveClient t ws => removeClientFromSession t ws r
  | StartSession t proc now => startTerminalSession t proc now r
  | Stdout t text => onStdout t text r
  | Exited t code => onExit t code r
  | Kill t => killTerminalSession t r
  | SocketGone ws => mkRegistry (sessions r) (received r) (closed r ∪ {[ws]}) (killed r)
  end.

Definition applyAll (r : Registry) (ops : list Op) : Registry := foldl apply r ops.

(** *** Input *)

(** The standard input of the processes: what has been written to each,
    oldest first, and the processes whose input no longer takes a write,
    so that [write] throws. *)
Record Inputs := mkInputs {
  written : gmap Pid (list string);
  broken : gset Pid
}.

Definition typedInto (i : Inputs) (p : Pid) : list string := default [] (written i !! p).

(** [sendToTerminal]: the data goes to the process of the session; it is
    dropped when the ticket has no session, when the session has no
    process, and when the write throws. *)
Definition sendToTerminal (t : string) (data : string) (r : Registry) (i : Inputs) : Inputs :=
  match sessions r !! t with
  | Some s =>
      match process s with
      | Some p =>
          if decide (p ∈ broken i) then i
          else mkInputs (<[p := typedInto i p ++ [data]]> (written i)) (broken i)
      | None => i
      end
  | None => i
  end.

(** *** Starting a session that may fail *)

(** [startTerminalSession] together with its failure.  [spawned] is what
    the ticket lookup and [Bun.spawn] come to: the process handle, or the
    exception one of them throws.  Neither is reached when the session
    already runs a process.  When they are reached the session is
    ['starting'] by then, and nothing in the function catches what they
    throw. *)
Definition startTerminalSessionM (t : string) (spawned : Js.Exn + Pid) (now : nat)
    : M Registry () := λ r,
  let '(s, r1) := getOrCreateTerminalSession t r in
  match process s, status s with
  | Some _, running => (inr (), r1)
  | _, _ =>
      match spawned with
      | inr proc =>
          (inr (), set_sessions (insert t (mkSession (ticketId s) (Some proc) (clients s)
                                             (outputBuffer s) (maxBufferLines s) running
                                             (Some now) (error s))) r1)
      | inl e =>
          (inl e, set_sessions (insert t (mkSession (ticketId s) (process s) (clients s)
                                            (outputBuffer s) (maxBufferLines s) starting
                                            (startedAt s) (error s))) r1)
      end
  end.

End Terminal.


(** ** Workspace manager ([worktree.ts]) *)

Module Worktree.

Record Worktree := mkWorktree {
  path : string;
  branch : string;
  head : string;
  locked : bool;
  ticketId : option string
}.

(** What git and the disk decide on their own: whether [git fetch origin
    <base>] fails, whether [git worktree add] fails for a reason outside
    the worktree registry (and then whether it leaves the directory
    behind), the hash [git log -1] reports in a worktree ([None] when it
    fails), and which worktrees and branches hold work that an unforced
    removal refuses to discard. *)
Record GitEnv := mkGitEnv {
  fetchFails : string → bool;
  addFails : string → option bool;
  logHead : string → option string;
  dirty : gset string;
  unmerged : gset string
}.

(** The manager's view of the world: its configuration, the directories
    present on disk, git's worktree registry (path to lock flag) and the
    local branches. *)
Record Repo := mkRepo {
  worktreesDir : string;
  dirs : gset string;
  registered : gmap string bool;
  branches : gset string;
  env : GitEnv
}.

Definition set_dirs (f : gset string → gset string) (g : Repo) : Repo :=
  mkRepo (worktreesDir g) (f (dirs g)) (registered g) (branches g) (env g).
Definition set_registered (f : gmap string bool → gmap string bool) (g : Repo) : Repo :=
  mkRepo (worktreesDir g) (dirs g) (f (registered g)) (branches g) (env g).
Definition set_branches (f : gset string → gset string) (g : Repo) : Repo :=
  mkRepo (worktreesDir g) (dirs g) (registered g) (f (branches g)) (env g).

(** An error reported by the git executable. *)
Definition GitError (msg : string) : Js.Exn := Js.Error msg.

(** *** The git commands the manager issues *)

(** [git fetch origin <base>] *)
Definition gitFetch (base : string) : M Repo () := λ g,
  if fetchFails (env g) base
  then (inl (GitError ("fatal: couldn't find remote ref " +:+ base)), g)
  else (inr (), g).

(** [git worktree add -b <branch> <path> <start>] *)
Definition gitWorktreeAdd (branch path start : string) : M Repo () := λ g,
  if decide (branch ∈ branches g)
  then (inl (GitError ("fatal: a branch named '" +:+ branch +:+ "' already exists")), g)
  else if decide (path ∈ dom (registered g))
  then (inl (GitError ("fatal: '" +:+ path +:+ "' is a missing but already registered worktree")), g)
  else if decide (path ∈ dirs g)
  then (inl (GitError ("fatal: '" +:+ path +:+ "' already exists")), g)
  else match addFails (env g) path with
       | Some leftover =>
           (inl (GitError ("fatal: could not check out " +:+ start)),
            if leftover then set_dirs (λ d, d ∪ {[path]}) g else g)
       | None =>
           (inr (), set_branches (λ b, b ∪ {[branch]})
                      (set_registered (insert path false)
                         (set_dirs (λ d, d ∪ {[path]}) g)))
       end.

(** [git worktree lock <path> [--reason <reason>]] *)
Definition gitWorktreeLock (path : string) (reason : option string) : M Repo () := λ g,
  match registered g !! path with
  | Some false => (inr (), set_registered (insert path true) g)
  | Some true => (inl (GitError ("fatal: '" +:+ path +:+ "' is already locked")), g)
  | None => (inl (GitError ("fatal: '" +:+ path +:+ "' is not a working tree")), g)
  end.

(** [git worktree unlock <path>] *)
Definition gitWorktreeUnlock (path : string) : M Repo () := λ g,
  match registered g !! path with
  | Some true => (inr (), set_registered (insert path false) g)
  | Some false => (inl (GitError ("fatal: '" +:+ path +:+ "' is not locked")), g)
  | None => (inl (GitError ("fatal: '" +:+ path +:+ "' is not a working tree")), g)
  end.

(** [git worktree remove <path> [--force]]: a locked worktree is refused
    (one [--force] does not override a lock), an unforced removal refuses
    a worktree with changes; otherwise the directory and the registration
    go. *)
Definition gitWorktreeRemove (path : string) (force : bool) : M Repo () := λ g,
  match registered g !! path with
  | None => (inl (GitError ("fatal: '" +:+ path +:+ "' is not a working tree")), g)
  | Some true => (inl (GitError ("fatal: cannot remove a locked working tree")), g)
  | Some false =>
      if negb force && bool_decide (path ∈ dirty (env g))
      then (inl (GitError ("fatal: '" +:+ path +:+ "' contains modified or untracked files, use --force to delete it")), g)
      else (inr (), set_registered (delete path) (set_dirs (λ d, d ∖ {[path]}) g))
  end.

(** [git branch -d|-D <branch>] *)
Definition deleteLocalBranch (branch : string) (force : bool) : M Repo () := λ g,
  if decide (branch ∈ branches g)
  then if negb force && bool_decide (branch ∈ unmerged (env g))
       then (inl (GitError ("error: the branch '" +:+ branch +:+ "' is not fully merged")), g)
       else (inr (), set_branches (λ b, b ∖ {[branch]}) g)
  else (inl (GitError ("error: branch '" +:+ branch +:+ "' not found")), g).

(** [existsSync(path)] and [rmSync(path, { recursive: true, force: true })] *)
Definition existsSync (path : string) : M Repo bool := gets (λ g, bool_decide (path ∈ dirs g)).
Definition rmSync (path : string) : M Repo () := modify (set_dirs (λ d, d ∖ {[path]})).

(** *** The manager *)

(** [join(this.worktreesDir, `ticket-${ticketId}`)] *)
Definition worktreePathOf (g : Repo) (ticketId : string) : string :=
  worktreesDir g +:+ "/" +:+ "ticket-" +:+ ticketId.

Definition branchNameOf (ticketId : string) : string := "ticket/" +:+ ticketId.

Definition lock (ticketId : string) (reason : option string) : M Repo () :=
  g ← get; gitWorktreeLock (worktreePathOf g ticketId) reason.

Definition unlock (ticketId : string) : M Repo () :=
  g ← get; gitWorktreeUnlock (worktreePathOf g ticketId).

(** [log.latest?.hash || ''] of [git log -1] run in the worktree *)
Definition getHead (worktreePath : string) : M Repo string := λ g,
  match logHead (env g) worktreePath with
  | Some h => (inr h, g)
  | None => (inl (GitError "fatal: unable to read the log"), g)
  end.

Definition create (ticketId : string) (baseBranch : string) : M Repo Worktree :=
  g ← get;
  let worktreePath := worktreePathOf g ticketId in
  let branchName := branchNameOf ticketId in
  present ← existsSync worktreePath;
  if present : bool
  then throw (Js.Error ("Worktree already exists for ticket " +:+ ticketId))
  else
    try_catch
      (gitFetch baseBranch;;
       gitWorktreeAdd branchName worktreePath ("origin/" +:+ baseBranch);;
       lock ticketId (Some ("Agent working on ticket " +:+ ticketId));;
       h ← getHead worktreePath;
       mret (mkWorktree worktreePath branchName h true (Some ticketId)))
      (λ error,
         present ← existsSync worktreePath;
         (if present : bool then rmSync worktreePath else mret ());;
         throw error).

Definition remove (ticketId : string) (force : bool) : M Repo () :=
  g ← get;
  let worktreePath := worktreePathOf g ticketId in
  let branchName := branchNameOf ticketId in
  ignore_errors (unlock ticketId);;
  gitWorktreeRemove worktreePath force;;
  ignore_errors (deleteLocalBranch branchName force).

(** *** Listing the worktrees *)

(** The object [list()] fills in while it reads one block of the output
    of [git worktree list --porcelain]: the initial [{}] has no field,
    [{ path, locked: false }] is what a [worktree] line starts, and the
    [HEAD], [branch] and [locked] lines set the other fields. *)
Record Partial := mkPartial {
  c_path : option string;
  c_head : option string;
  c_branch : option string;
  c_locked : option bool
}.

(** One turn of the loop over the lines: the entries pushed so far and
    the current object. *)
Definition readLine (acc : list Partial * Partial) (line : string) : list Partial * Partial :=
  let '(worktrees, current) := acc in
  if Js.startsWith line "worktree " then
    (if Js.truthy (c_path current) then worktrees ++ [current] else worktrees,
     mkPartial (Some (Js.drop 9 line)) None None (Some false))
  else if Js.startsWith line "HEAD " then
    (worktrees,
     mkPartial (c_path current) (Some (Js.drop 5 line)) (c_branch current) (c_locked current))
  else if Js.startsWith line "branch " then
    (worktrees,
     mkPartial (c_path current) (c_head current)
               (Some (Js.replaceFirst "refs/heads/" "" (Js.drop 7 line))) (c_locked current))
  else if String.eqb line "locked" then
    (worktrees,
     mkPartial (c_path current) (c_head current) (c_branch current) (Some true))
  else acc.

(** The entries [list()] has collected when the lines are read. *)
Definition parseWorktrees (result : string) : list Partial :=
  let '(worktrees, current) :=
    foldl readLine ([], mkPartial None None None None) (Js.split Js.nl result) in
  if Js.truthy (c_path current) then worktrees ++ [current] else worktrees.

Fixpoint noSlash (s : string) : bool :=
  match s with
  | EmptyString => true
  | String c s' => negb (Ascii.eqb c "/") && noSlash s'
  end.

(** [path.match(/ticket-([^/]+)$/)?.[1]]: the group of the leftmost
    match.  The group has to reach the end of the path, so a match starts
    where [ticket-] is followed by at least one character and by no slash
    up to the end. *)
Fixpoint ticketIdOf (path : string) : option string :=
  match (if String.prefix "ticket-" path
         then match Js.drop 7 path with
              | String c rest => if noSlash (String c rest) then Some (String c rest) else None
              | EmptyString => None
              end
         else None) with
  | Some id => Some id
  | None =>
      match path with
      | String _ rest => ticketIdOf rest
      | EmptyString => None
      end
  end.

(** An entry as [list()] returns it. *)
Record Listed := mkListed { l_entry : Partial; l_ticketId : option string }.

(** The path of a pushed entry; every pushed entry has one. *)
Definition pathOf (w : Partial) : string := default "" (c_path w).

(** [list()], given the output of [git worktree list --porcelain]. *)
Definition listWorktrees (result : string) : list Listed :=
  map (λ w, mkListed w (ticketIdOf (pathOf w)))
      (filter (λ w, Js.includes (pathOf w) "ticket-" = true) (parseWorktrees result)).

(** [get(ticketId)], given the same output: [null] is [None]. *)
Definition getWorktree (result : string) (ticketId : string) : option Listed :=
  List.find (λ w, bool_decide (l_ticketId w = Some ticketId)) (listWorktrees result).

End Worktree.


(** ** Event hub ([websocket.ts]) *)

Module Hub.

(** A [ServerWebSocket], by identity. *)
Definition Socket := nat.

(** [ws.data] *)
Record WebSocketData := mkData { clientId : string; subscribedTickets : gset string }.

(** What a socket is sent: [JSON.stringify(event)], represented by the
    event, or the answer to a ping. *)
Inductive Message (E : Type) :=
| Json (event : E)
| Pong.
Arguments Json {E} event.
Arguments Pong {E}.

(** The module-level [clients] map, in insertion order, and
    [clientIdCounter]; with them the sockets: the data every socket
    carries, what every socket has been sent so far, and the sockets whose
    [send] throws. *)
Record State (E : Type) := mkState {
  clients : list (string * Socket);
  clientIdCounter : nat;
  data : gmap Socket WebSocketData;
  sent : gmap Socket (list (Message E));
  closed : gset Socket
}.
Arguments mkState {E} clients clientIdCounter data sent closed.
Arguments clients {E} s.
Arguments clientIdCounter {E} s.
Arguments data {E} s.
Arguments sent {E} s.
Arguments closed {E} s.

Section Hub.
Context {E : Type}.

Definition set_clients (f : list (string * Socket) → list (string * Socket))
    (h : State E) : State E :=
  mkState (f (clients h)) (clientIdCounter h) (data h) (sent h) (closed h).
Definition set_data (f : gmap Socket WebSocketData → gmap Socket WebSocketData)
    (h : State E) : State E :=
  mkState (clients h) (clientIdCounter h) (f (data h)) (sent h) (closed h).

(** [map.set(key, value)]: a key that is in the map keeps its place. *)
Fixpoint mapSet (key : string) (value : Socket) (m : list (string * Socket))
    : list (string * Socket) :=
  match m with
  | [] => [(key, value)]
  | (k, v) :: m' =>
      if decide (k = key) then (key, value) :: m' else (k, v) :: mapSet key value m'
  end.

(** [map.delete(key)] *)
Definition mapDelete (key : string) (m : list (string * Socket)) : list (string * Socket) :=
  filter (λ kv, kv.1 ≠ key) m.

(** What the socket [ws] has been sent, oldest first. *)
Definition sentTo (h : State E) (ws : Socket) : list (Message E) :=
  default [] (sent h !! ws).

(** The exception of a [send] that throws; the message text is the
    engine's. *)
Definition SendError : Js.Exn := Js.Error "WebSocket is closed".

(** [ws.send(message)] *)
Definition send (ws : Socket) (message : Message E) : M (State E) () := λ h,
  if decide (ws ∈ closed h) then (inl SendError, h)
  else (inr (), mkState (clients h) (clientIdCounter h) (data h)
                        (<[ws := sentTo h ws ++ [message]]> (sent h)) (closed h)).

(** [for (const x of xs) { f(x) }]: an exception ends the loop. *)
Fixpoint forEach {A} (f : A → M (State E) ()) (xs : list A) : M (State E) () :=
  match xs with
  | [] => mret ()
  | x :: xs' => f x;; forEach f xs'
  end.

Definition broadcast (event : E) : M (State E) () :=
  h ← get;
  forEach (λ ws, send ws (Json event)) (clients h).*2.

(** [ws.data.subscribedTickets.has(ticketId)] *)
Definition subscribed (h : State E) (ws : Socket) (ticketId : string) : bool :=
  match data h !! ws with
  | Some d => bool_decide (ticketId ∈ subscribedTickets d)
  | None => false
  end.

Definition broadcastToTicket (ticketId : string) (event : E) : M (State E) () :=
  h ← get;
  forEach (λ ws, h ← get;
                 if subscribed h ws ticketId then send ws (Json event) else mret ())
          (clients h).*2.

(** *** The handlers *)

(** What [JSON.parse] makes of a message, as far as the handler looks at
    it: [Malformed] when parsing or the access to [data.type] throws,
    otherwise [data.type] and [data.ticketId], a ticket id being a string
    when it is there. *)
Inductive Incoming :=
| Malformed
| Request (type : string) (ticketId : option string).

Definition open (ws : Socket) (h : State E) : State E :=
  match data h !! ws with
  | Some d => set_clients (mapSet (clientId d) ws) h
  | None => h
  end.

Definition set_subscribed (f : gset string → gset string) (d : WebSocketData) : WebSocketData :=
  mkData (clientId d) (f (subscribedTickets d)).

Definition message (ws : Socket) (incoming : Incoming) (h : State E) : State E :=
  match incoming with
  | Malformed => h
  | Request type ticketId =>
      if String.eqb type "subscribe" then
        match ticketId with
        | Some (String c t) =>
            set_data (alter (set_subscribed (λ s, s ∪ {[String c t]})) ws) h
        | _ => h
        end
      else if String.eqb type "unsubscribe" then
        match ticketId with
        | Some (String c t) =>
            set_data (alter (set_subscribed (λ s, s ∖ {[String c t]})) ws) h
        | _ => h
        end
      else if String.eqb type "ping" then snd (ignore_errors (send ws Pong) h)
      else h
  end.

Definition close (ws : Socket) (h : State E) : State E :=
  match data h !! ws with
  | Some d => set_clients (mapDelete (clientId d)) h
  | None => h
  end.

(** [generateClientId()], called at the time [now]: the identifier and
    the hub with the counter put up. *)
Definition generateClientId (now : nat) (h : State E) : string * State E :=
  let counter := S (clientIdCounter h) in
  ("client-" +:+ pretty now +:+ "-" +:+ pretty counter,
   mkState (clients h) counter (data h) (sent h) (closed h)).

End Hub.

End Hub.


(** ** Orchestrator ([orchestrator.ts]) *)

Module Orchestrator.

Inductive AgentStatus := idle | starting | running | blocked | completed | failed.

(** The string a status is in the source. *)
Definition statusString (s : AgentStatus) : string :=
  match s with
  | idle => "idle" | starting => "starting" | running => "running"
  | blocked => "blocked" | completed => "completed" | failed => "failed"
  end.

(** A [Subprocess] handle is the position of its [Bun.spawn] call. *)
Definition Pid := nat.

Record AgentJob := mkJob {
  ticketId : string;
  agentId : string;
  status : AgentStatus;
  process : option Pid;
  iterations : nat;
  lastOutput : option string
}.

(** [maxIterations] bounds a counter that starts at 0 and goes up in
    steps of 1; it is taken to be a natural number. *)
Record OrchestratorConfig := mkConfig {
  maxIterations : nat;
  timeoutMs : nat;
  claudePath : string
}.

Definition DEFAULT_CONFIG : OrchestratorConfig := mkConfig 50 (30 * 60 * 1000) "claude".

(** *** The record store ([schema.ts]), as far as the orchestrator uses it *)

Record TicketRow := mkTicket {
  title : string;
  description : option string;
  columnId : option string
}.

Record AgentRow := mkAgentRow {
  a_ticketId : string;
  a_status : string;
  iterationCount : nat;
  a_maxIterations : nat;
  a_completed : bool
}.

Inductive SenderType := human | agent | system.

Record Message := mkMessage {
  m_id : string;
  m_ticketId : string;
  content : string;
  senderType : SenderType
}.

(** [prds] maps a ticket to the content of its first requirements
    document; [messages] is in insertion order. *)
Record Db := mkDb {
  tickets : gmap string TicketRow;
  prds : gmap string string;
  agents : gmap string AgentRow;
  messages : list Message
}.

(** *** Events handed to [broadcast] and [broadcastToTicket] *)

Inductive Event :=
| queue_updated (queue : list string) (currentTicketId : option string)
| agent_started (ticketId agentId : string)
| agent_progress (ticketId agentId : string) (iteration maxIterations : nat)
| agent_completed (ticketId agentId : string)
| agent_blocked (ticketId agentId question : string)
| agent_failed (ticketId agentId error : string)
| ticket_updated (ticketId columnId : string)
| message_created (ticketId content : string) (senderType : SenderType).

(** A call of [Bun.spawn]. *)
Record Spawn := mkSpawn { args : list string; cwd : string }.

(** The orchestrator singleton with its collaborators: the record store,
    the workspace manager's repository, the events emitted so far, the
    workers spawned so far, the processes killed, and the source of
    [nanoid()] identifiers. *)
Record State := mkState {
  config : OrchestratorConfig;
  currentJob : option AgentJob;
  queue : list string;
  isProcessing : bool;
  db : Db;
  repo : Worktree.Repo;
  events : list Event;
  spawned : list Spawn;
  killedProcs : gset Pid;
  nextId : nat
}.

Definition set_currentJob (j : option AgentJob) (s : State) : State :=
  mkState (config s) j (queue s) (isProcessing s) (db s) (repo s) (events s)
          (spawned s) (killedProcs s) (nextId s).
Definition set_queue (q : list string) (s : State) : State :=
  mkState (config s) (currentJob s) q (isProcessing s) (db s) (repo s) (events s)
          (spawned s) (killedProcs s) (nextId s).
Definition set_isProcessing (b : bool) (s : State) : State :=
  mkState (config s) (currentJob s) (queue s) b (db s) (repo s) (events s)
          (spawned s) (killedProcs s) (nextId s).
Definition set_db (f : Db → Db) (s : State) : State :=
  mkState (config s) (currentJob s) (queue s) (isProcessing s) (f (db s)) (repo s)
          (events s) (spawned s) (killedProcs s) (nextId s).
Definition set_repo (g : Worktree.Repo) (s : State) : State :=
  mkState (config s) (currentJob s) (queue s) (isProcessing s) (db s) g (events s)
          (spawned s) (killedProcs s) (nextId s).
Definition set_events (f : list Event → list Event) (s : State) : State :=
  mkState (config s) (currentJob s) (queue s) (isProcessing s) (db s) (repo s)
          (f (events s)) (spawned s) (killedProcs s) (nextId s).
Definition set_spawned (f : list Spawn → list Spawn) (s : State) : State :=
  mkState (config s) (currentJob s) (queue s) (isProcessing s) (db s) (repo s)
          (events s) (f (spawned s)) (killedProcs s) (nextId s).
Definition set_killedProcs (f : gset Pid → gset Pid) (s : State) : State :=
  mkState (config s) (currentJob s) (queue s) (isProcessing s) (db s) (repo s)
          (events s) (spawned s) (f (killedProcs s)) (nextId s).
Definition set_nextId (n : nat) (s : State) : State :=
  mkState (config s) (currentJob s) (queue s) (isProcessing s) (db s) (repo s)
          (events s) (spawned s) (killedProcs s) n.

Definition set_tickets (f : gmap string TicketRow → gmap string TicketRow) (d : Db) : Db :=
  mkDb (f (tickets d)) (prds d) (agents d) (messages d).
Definition set_agents (f : gmap string AgentRow → gmap string AgentRow) (d : Db) : Db :=
  mkDb (tickets d) (prds d) (f (agents d)) (messages d).
Definition set_messages (f : list Message → list Message) (d : Db) : Db :=
  mkDb (tickets d) (prds d) (agents d) (f (messages d)).

(** [new Orchestrator(config)] next to a record store and a repository. *)
Definition initOrchestrator (cfg : OrchestratorConfig) (d : Db) (g : Worktree.Repo) : State :=
  mkState cfg None [] false d g [] [] ∅ 0.

(** *** Collaborators *)

(** [nanoid()]: an identifier not handed out before. *)
Definition nanoid : M State string := λ s,
  (inr ("id-" +:+ pretty (nextId s)), set_nextId (S (nextId s)) s).

(** [broadcast] of [./websocket], as the orchestrator meets it: the event
    sink takes a global lifecycle event; the events are recorded in the
    order in which they are emitted.  What the hub does with an event is
    [Hub.broadcast]; a [send] that throws there is not followed here. *)
Definition broadcast (e : Event) : M State () := modify (set_events (λ l, l ++ [e])).

(** [broadcastToTicket] of [./websocket], as the orchestrator meets it:
    the event sink takes an event for the subscribers of one ticket; it
    is recorded with the global ones.  What the hub does with it is
    [Hub.broadcastToTicket]. *)
Definition broadcastToTicket (ticketId : string) (e : Event) : M State () :=
  modify (set_events (λ l, l ++ [e])).

(** The worktree manager works on the [repo] component. *)
Definition withWorktreeManager {A} (m : M Worktree.Repo A) : M State A :=
  zoom repo set_repo m.

(** [Bun.spawn(args, { cwd, ... })] *)
Definition spawn (args : list string) (cwd : string) : M State Pid := λ s,
  (inr (length (spawned s)), set_spawned (λ l, l ++ [mkSpawn args cwd]) s).

(** *** Helper methods for database updates *)

Definition updateAgentStatus (agentId : string) (status : AgentStatus)
    (iterations : option nat) : M State () :=
  modify (set_db (set_agents (alter (λ row,
    mkAgentRow (a_ticketId row)
               (Js.toUpperCase (statusString status))
               (default (iterationCount row) iterations)
               (a_maxIterations row)
               (match status with
                | completed | failed => true
                | _ => a_completed row
                end)) agentId))).

Definition updateTicketColumn (ticketId columnId : string) : M State () :=
  modify (set_db (set_tickets (alter (λ row,
    mkTicket (title row) (description row) (Some columnId)) ticketId)));;
  broadcast (ticket_updated ticketId columnId).

Definition addSystemMessage (ticketId content : string) : M State () :=
  id ← nanoid;
  modify (set_db (set_messages (λ l, l ++ [mkMessage id ticketId content system])));;
  broadcastToTicket ticketId (message_created ticketId content system).

Definition addAgentMessage (ticketId content : string) : M State () :=
  id ← nanoid;
  modify (set_db (set_messages (λ l, l ++ [mkMessage id ticketId content agent])));;
  broadcastToTicket ticketId (message_created ticketId content agent).

Definition addHumanMessage (ticketId content : string) : M State () :=
  id ← nanoid;
  modify (set_db (set_messages (λ l, l ++ [mkMessage id ticketId content human])));;
  broadcastToTicket ticketId (message_created ticketId content human).

(** *** Prompts *)

Definition dq : string := String (Ascii.ascii_of_nat 34) "".
Definition lf : string := String Js.nl "".

Definition buildAgentPrompt (prdContent : string) : string :=
  Js.join
    [ "You are an autonomous coding agent. Your task is to implement the following PRD (Product Requirements Document):"; lf;
      lf;
      "---"; lf;
      prdContent; lf;
      "---"; lf;
      lf;
      "IMPORTANT INSTRUCTIONS:"; lf;
      "1. Read and understand the PRD carefully"; lf;
      "2. Implement the requirements step by step"; lf;
      "3. Write tests if appropriate"; lf;
      "4. Run tests to verify your implementation"; lf;
      "5. When you are completely done, output exactly: "; dq; "TASK_COMPLETE"; dq; lf;
      "6. If you encounter a blocker or need clarification, output: "; dq;
      "NEED_HUMAN_INPUT: "; dq; " followed by your question"; lf;
      lf;
      "Start by exploring the codebase to understand the project structure, then implement the requirements." ].

Definition continuePrompt : string :=
  Js.join
    [ "Continue working on the task. If you are done, say "; dq; "TASK_COMPLETE"; dq;
      ". If you need human input, say "; dq; "NEED_HUMAN_INPUT: "; dq;
      " followed by your question." ].

Definition getPRDContent (ticketId : string) : M State string :=
  d ← gets db;
  match tickets d !! ticketId with
  | None => mret "No PRD content available"
  | Some ticket =>
      match prds d !! ticketId with
      | Some (String c rest) => mret (String c rest)
      | _ =>
          mret ("# " +:+ title ticket +:+ lf +:+ lf +:+
                match description ticket with
                | Some (String c rest) => String c rest
                | _ => "No description provided"
                end)
      end
  end.


(** *** Reading the worker's output *)

(** What [streamOutput] waits for: the chunks read from the worker's
    standard output, its standard error and its exit code; or the
    exception with which spawning or reading failed.  The relay of the
    parsed lines to the ticket's subscribers is not recorded. *)
Inductive IterResult :=
| Collected (stdout : list string) (stderr : string) (exitCode : nat)
| Failed (e : Js.Exn).

(** The string [streamOutput] returns. *)
Definition streamOutput (stdout : list string) (stderr : string) : string :=
  Js.join stdout +:+
  match stderr with
  | "" => ""
  | _ => lf +:+ "[STDERR]" +:+ lf +:+ stderr
  end.

Definition lower (c : ascii) : ascii :=
  let n := Ascii.nat_of_ascii c in
  if Nat.leb 65 n && Nat.leb n 90 then Ascii.ascii_of_nat (n + 32) else c.

(** [s] begins with [lit], letter case aside: what follows it. *)
Fixpoint stripPrefixCI (lit s : string) : option string :=
  match lit, s with
  | EmptyString, _ => Some s
  | String a lit', String b s' =>
      if Ascii.eqb (lower a) (lower b) then stripPrefixCI lit' s' else None
  | String _ _, EmptyString => None
  end.

(** The longest prefix of characters satisfying [p], and the rest. *)
Fixpoint span (p : ascii → bool) (s : string) : string * string :=
  match s with
  | String c s' =>
      if p c then let '(a, b) := span p s' in (String c a, b) else (EmptyString, s)
  | EmptyString => (EmptyString, EmptyString)
  end.

Definition isIdChar (c : ascii) : bool :=
  let n := Ascii.nat_of_ascii c in
  (Nat.leb 97 n && Nat.leb n 122) || (Nat.leb 65 n && Nat.leb n 90)
  || (Nat.leb 48 n && Nat.leb n 57) || Nat.eqb n 45.

Definition isIdSeparator (c : ascii) : bool :=
  Nat.eqb (Ascii.nat_of_ascii c) 34 || Js.isWhitespace c || Nat.eqb (Ascii.nat_of_ascii c) 58.

(** The expression [/session[_-]?id[Q\s:]+([a-zA-Z0-9-]+)/i] ([Q] standing
    for the double quote) anchored at the start of [s]: the first group.  Neither the optional character nor the two
    repetitions can give anything back that the next item would accept,
    so the greedy choice is the only one. *)
Definition sessionIdAt (s : string) : option string :=
  rest ← stripPrefixCI "session" s;
  let rest :=
    match rest with
    | String c r =>
        if Nat.eqb (Ascii.nat_of_ascii c) 95 || Nat.eqb (Ascii.nat_of_ascii c) 45
        then r else rest
    | EmptyString => rest
    end in
  rest ← stripPrefixCI "id" rest;
  let '(seps, rest) := span isIdSeparator rest in
  match seps with
  | EmptyString => None
  | String _ _ =>
      match span isIdChar rest with
      | (EmptyString, _) => None
      | (id, _) => Some id
      end
  end.

(** [output.match(...)?.[1] || null]: the leftmost match. *)
Fixpoint extractSessionId (output : string) : option string :=
  match sessionIdAt output with
  | Some id => Some id
  | None =>
      match output with
      | String _ rest => extractSessionId rest
      | EmptyString => None
      end
  end.

Definition isTaskComplete (output : string) : bool := Js.includes output "TASK_COMPLETE".

Definition needInputMarker : string := "NEED_HUMAN_INPUT:".

Definition needsHumanInput (output : string) : bool := Js.includes output needInputMarker.

Fixpoint lastChar (s : string) : option ascii :=
  match s with
  | EmptyString => None
  | String c EmptyString => Some c
  | String _ s' => lastChar s'
  end.

(** [\s*(.+)] with the [s] flag, anchored right behind the marker: the
    group.  [\s*] takes all the white space there is and [.+] all that
    follows; when nothing follows, [\s*] gives its last character back
    to [.+]; when there was no white space either, there is no match. *)
Definition questionGroup (rest : string) : option string :=
  match Js.trimStart rest with
  | String c body => Some (String c body)
  | EmptyString =>
      match lastChar rest with
      | Some c => Some (String c EmptyString)
      | None => None
      end
  end.

(** [output.match(/NEED_HUMAN_INPUT:\s*(.+)/s)?.[1]]: the leftmost match. *)
Fixpoint matchQuestion (output : string) : option string :=
  match (if String.prefix needInputMarker output
         then questionGroup (Js.drop (String.length needInputMarker) output)
         else None) with
  | Some group => Some group
  | None =>
      match output with
      | String _ rest => matchQuestion rest
      | EmptyString => None
      end
  end.

Definition extractQuestion (output : string) : string :=
  match matchQuestion output with
  | Some group =>
      match Js.trim group with
      | EmptyString => "Agent needs human input"
      | q => q
      end
  | None => "Agent needs human input"
  end.

(** *** Ending a job *)

Definition completeAgent (ticketId agentId output : string) : M State () :=
  updateAgentStatus agentId completed None;;
  updateTicketColumn ticketId "review";;
  addSystemMessage ticketId "Agent completed the task. Please review the changes.";;
  ignore_errors (withWorktreeManager (Worktree.unlock ticketId));;
  broadcast (agent_completed ticketId agentId);;
  modify (set_currentJob None).

Definition blockAgent (ticketId agentId question : string) : M State () :=
  updateAgentStatus agentId blocked None;;
  updateTicketColumn ticketId "blocked";;
  addAgentMessage ticketId question;;
  broadcast (agent_blocked ticketId agentId question).

Definition failAgent (ticketId agentId error : string) : M State () :=
  updateAgentStatus agentId failed None;;
  updateTicketColumn ticketId "blocked";;
  addSystemMessage ticketId ("Agent failed: " +:+ error);;
  ignore_errors (withWorktreeManager (Worktree.remove ticketId true));;
  broadcast (agent_failed ticketId agentId error);;
  modify (set_currentJob None).

(** *** The continuation loop *)

(** [this.currentJob!.field = value] *)
Definition updateCurrentJob (f : AgentJob → AgentJob) : M State () := λ s,
  match currentJob s with
  | Some j => (inr (), set_currentJob (Some (f j)) s)
  | None => (inl Js.TypeError_null, s)
  end.

Definition set_iterations (n : nat) (j : AgentJob) : AgentJob :=
  mkJob (ticketId j) (agentId j) (status j) (process j) n (lastOutput j).
Definition set_process (p : Pid) (j : AgentJob) : AgentJob :=
  mkJob (ticketId j) (agentId j) (status j) (Some p) (iterations j) (lastOutput j).
Definition set_lastOutput (o : string) (j : AgentJob) : AgentJob :=
  mkJob (ticketId j) (agentId j) (status j) (process j) (iterations j) (Some o).

(** The local variables of [runAgentLoop] while it waits for
    [streamOutput]. *)
Record Pending := mkPending {
  p_ticketId : string;
  p_agentId : string;
  p_worktreePath : string;
  p_prompt : string;
  p_sessionId : option string;
  p_iterations : nat;
  p_proc : Pid
}.

Definition claudeArgs (cfg : OrchestratorConfig) (sessionId : option string)
    (prompt : string) : list string :=
  [claudePath cfg; "--print"; "--output-format"; "stream-json"; "--max-turns"; "1"]
  ++ match sessionId with
     | Some (String c sid) => ["--resume"; String c sid; "--prompt"; continuePrompt]
     | _ => ["--prompt"; prompt]
     end.

Definition maxIterationsQuestion (cfg : OrchestratorConfig) : string :=
  "Reached maximum iterations (" +:+ pretty (maxIterations cfg)
  +:+ "). Please review progress and provide guidance.".

Definition iterationError (iterations : nat) (error : Js.Exn) : string :=
  "Error in iteration " +:+ pretty iterations +:+ ": " +:+ Js.String_ error.

(** The loop from its head to the point where it waits for the worker
    ([Some] of the locals) or returns ([None]).  [left] is
    [maxIterations - iterations], so the test [iterations < maxIterations]
    is [left ≠ 0]; the delay between iterations is not modelled. *)
Fixpoint loopFrom (left : nat) (ticketId agentId worktreePath prompt : string)
    (sessionId : option string) (iterations : nat) : M State (option Pending) :=
  match left with
  | 0 =>
      cfg ← gets config;
      blockAgent ticketId agentId (maxIterationsQuestion cfg);;
      mret None
  | S left' =>
      let iterations := S iterations in
      cfg ← gets config;
      updateCurrentJob (set_iterations iterations);;
      updateAgentStatus agentId running (Some iterations);;
      broadcast (agent_progress ticketId agentId iterations (maxIterations cfg));;
      try_catch
        (proc ← spawn (claudeArgs cfg sessionId prompt) worktreePath;
         updateCurrentJob (set_process proc);;
         mret (Some (mkPending ticketId agentId worktreePath prompt sessionId
                               iterations proc)))
        (λ error,
           addSystemMessage ticketId (iterationError iterations error);;
           loopFrom left' ticketId agentId worktreePath prompt sessionId iterations)
  end.

(** How the part of the loop body behind [streamOutput] ends. *)
Inductive BodyEnd := Return | Continue (sessionId : option string).

(** The loop from the arrival of the worker's output on. *)
Definition afterOutput (p : Pending) (res : IterResult) : M State (option Pending) :=
  cfg ← gets config;
  e ← try_catch
        (match res with
         | Failed error => throw error
         | Collected stdout stderr exitCode =>
             let output := streamOutput stdout stderr in
             updateCurrentJob (set_lastOutput output);;
             let sessionId :=
               match extractSessionId output with
               | Some newSessionId => Some newSessionId
               | None => p_sessionId p
               end in
             if isTaskComplete output then
               completeAgent (p_ticketId p) (p_agentId p) output;; mret Return
             else if needsHumanInput output then
               blockAgent (p_ticketId p) (p_agentId p) (extractQuestion output);;
               mret Return
             else mret (Continue sessionId)
         end)
        (λ error,
           addSystemMessage (p_ticketId p) (iterationError (p_iterations p) error);;
           mret (Continue (p_sessionId p)));
  match e with
  | Return => mret None
  | Continue sessionId =>
      loopFrom (maxIterations cfg - p_iterations p) (p_ticketId p) (p_agentId p)
               (p_worktreePath p) (p_prompt p) sessionId (p_iterations p)
  end.

Definition runAgentLoop (ticketId agentId worktreePath : string) : M State (option Pending) :=
  prdContent ← getPRDContent ticketId;
  let prompt := buildAgentPrompt prdContent in
  cfg ← gets config;
  loopFrom (maxIterations cfg - 0) ticketId agentId worktreePath prompt None 0.

(** [startAgent] up to the first wait for the worker. *)
Definition startAgent (ticketId : string) : M State (option Pending) :=
  d ← gets db;
  match tickets d !! ticketId with
  | None => throw (Js.Error ("Ticket " +:+ ticketId +:+ " not found"))
  | Some ticket =>
      agentId ← nanoid;
      cfg ← gets config;
      modify (set_db (set_agents (insert agentId
        (mkAgentRow ticketId "STARTING" 0 (maxIterations cfg) false))));;
      modify (set_currentJob (Some (mkJob ticketId agentId starting None 0 None)));;
      broadcast (agent_started ticketId agentId);;
      try_catch
        (worktree ← withWorktreeManager (Worktree.create ticketId "main");
         addSystemMessage ticketId
           ("Agent started. Working in branch: " +:+ Worktree.branch worktree);;
         runAgentLoop ticketId agentId (Worktree.path worktree))
        (λ error, failAgent ticketId agentId (Js.String_ error);; mret None)
  end.

(** [startAgent] from the arrival of the worker's output on: the loop
    goes on inside the same [try]. *)
Definition startAgentResumed (p : Pending) (res : IterResult) : M State (option Pending) :=
  try_catch (afterOutput p res)
    (λ error, failAgent (p_ticketId p) (p_agentId p) (Js.String_ error);; mret None).


(** *** The queue *)

(** The orchestrator between two calls: its state and, when a
    [processQueue] activation is waiting for a worker, the locals of that
    activation. *)
Record Sys := mkSys { st : State; pending : option Pending }.

(** The [catch] of [processQueue]. *)
Definition startFailed (ticketId : string) (error : Js.Exn) : M State () :=
  updateTicketColumn ticketId "blocked";;
  addSystemMessage ticketId ("Agent failed to start: " +:+ Js.String_ error).

(** [processQueue] up to the first wait for a worker.  Every activation
    that gets past the guard shifts the queue and nothing in between adds
    to it, so [fuel] above the queue length is never used up. *)
Fixpoint processQueue (fuel : nat) (s : State) : State * option Pending :=
  match fuel with
  | 0 => (s, None)
  | S fuel' =>
      if isProcessing s then (s, None)
      else match queue s with
           | [] => (s, None)
           | ticketId :: rest =>
               let s := set_queue rest (set_isProcessing true s) in
               match try_catch (startAgent ticketId)
                               (λ error, startFailed ticketId error;; mret None) s with
               | (inr (Some p), s') => (s', Some p)
               | (_, s') =>
                   let s' := set_isProcessing false s' in
                   match queue s' with
                   | [] => (s', None)
                   | _ :: _ => processQueue fuel' s'
                   end
               end
           end
  end.

(** A call of [processQueue()] that is not awaited. *)
Definition kickQueue (sys : Sys) : Sys :=
  let '(s', p') := processQueue (S (length (queue (st sys)))) (st sys) in
  mkSys s' (match p' with Some p => Some p | None => pending sys end).

(** The rest of a [processQueue] activation once its [startAgent] has
    returned or thrown. *)
Definition processQueueResumed (r : Js.Exn + option Pending) (ticketId : string)
    (s : State) : Sys :=
  match r with
  | inr (Some p) => mkSys s (Some p)
  | _ =>
      let s := match r with
               | inl error => snd (startFailed ticketId error s)
               | inr _ => s
               end in
      let s := set_isProcessing false s in
      match queue s with
      | [] => mkSys s None
      | _ :: _ => kickQueue (mkSys s None)
      end
  end.

Definition currentTicketId (s : State) : option string := ticketId <$> currentJob s.

Definition enqueue (ticketId : string) (sys : Sys) : Sys :=
  let s := st sys in
  if bool_decide (ticketId ∈ queue s) then sys
  else
    let s := set_queue (queue s ++ [ticketId]) s in
    let s := snd (broadcast (queue_updated (queue s) (currentTicketId s)) s) in
    kickQueue (mkSys s (pending sys)).

Definition dequeue (ticketId : string) (sys : Sys) : Sys :=
  let s := st sys in
  let s := set_queue (filter (λ id, id ≠ ticketId) (queue s)) s in
  let s := snd (broadcast (queue_updated (queue s) (currentTicketId s)) s) in
  mkSys s (pending sys).

Definition isCurrentTicket (ticketId : string) (s : State) : bool :=
  match currentJob s with
  | Some j => bool_decide (Orchestrator.ticketId j = ticketId)
  | None => false
  end.

Definition resumeAgent (ticketId response : string) (sys : Sys) : (Js.Exn + ()) * Sys :=
  if negb (isCurrentTicket ticketId (st sys))
  then (inl (Js.Error ("No blocked agent found for ticket " +:+ ticketId)), sys)
  else
    let s := snd (addHumanMessage ticketId response (st sys)) in
    let s := set_currentJob None s in
    (inr (), enqueue ticketId (mkSys s (pending sys))).

Definition killAgent (ticketId : string) (sys : Sys) : (Js.Exn + ()) * Sys :=
  match currentJob (st sys) with
  | Some j =>
      if bool_decide (Orchestrator.ticketId j = ticketId) then
        let s := match process j with
                 | Some proc => set_killedProcs (λ k, k ∪ {[proc]}) (st sys)
                 | None => st sys
                 end in
        let '(r, s) := failAgent ticketId (agentId j) "Agent killed by user" s in
        (r, mkSys s (pending sys))
      else (inl (Js.Error ("No active agent found for ticket " +:+ ticketId)), sys)
  | None => (inl (Js.Error ("No active agent found for ticket " +:+ ticketId)), sys)
  end.

Definition getStatus (sys : Sys) : list string * option AgentJob :=
  (queue (st sys),
   (λ j, mkJob (ticketId j) (agentId j) (status j) None (iterations j) (lastOutput j))
     <$> currentJob (st sys)).

(** The worker of the waiting activation has delivered (or failed):
    [startAgent] goes on, and after it [processQueue]. *)
Definition workerDone (res : IterResult) (sys : Sys) : Sys :=
  match pending sys with
  | None => sys
  | Some p =>
      let '(r, s) := startAgentResumed p res (st sys) in
      processQueueResumed r (p_ticketId p) s
  end.

(** What happens to the orchestrator from outside. *)
Inductive Call :=
| Enqueue (ticketId : string)
| Dequeue (ticketId : string)
| ResumeAgent (ticketId response : string)
| KillAgent (ticketId : string)
| WorkerDone (res : IterResult).

Definition step (sys : Sys) (c : Call) : Sys :=
  match c with
  | Enqueue t => enqueue t sys
  | Dequeue t => dequeue t sys
  | ResumeAgent t response => snd (resumeAgent t response sys)
  | KillAgent t => snd (killAgent t sys)
  | WorkerDone res => workerDone res sys
  end.

Definition run (sys : Sys) (calls : list Call) : Sys := foldl step sys calls.

Definition boot (cfg : OrchestratorConfig) (d : Db) (g : Worktree.Repo) : Sys :=
  mkSys (initOrchestrator cfg d g) None.

(** The worker's results fed one after the other to a waiting
    [startAgent]; results left over when it has returned are not used. *)
Fixpoint feed (results : list IterResult) (r : Js.Exn + option Pending) (s : State)
    : (Js.Exn + option Pending) * State :=
  match results, r with
  | res :: results', inr (Some p) =>
      let '(r', s') := startAgentResumed p res s in feed results' r' s'
  | _, _ => (r, s)
  end.

(** *** [POST /resume/:ticketId] ([routes/agents.ts]) *)

Record Response := mkResponse { httpStatus : nat; body : string }.

Definition postResume (ticketId response : string) (sys : Sys) : Response * Sys :=
  match response with
  | EmptyString => (mkResponse 400 "Response is required", sys)
  | String _ _ =>
      match resumeAgent ticketId response sys with
      | (inr _, sys') => (mkResponse 200 "Agent resumed", sys')
      | (inl error, sys') => (mkResponse 400 (Js.String_ error), sys')
      end
  end.


(** *** [POST /start/:ticketId] and [POST /kill/:ticketId] ([routes/agents.ts]) *)

Definition postStart (ticketId : string) (sys : Sys) : Response * Sys :=
  match tickets (db (st sys)) !! ticketId with
  | None => (mkResponse 404 "Ticket not found", sys)
  | Some _ =>
      let s := set_db (set_tickets (alter (λ row,
                 mkTicket (title row) (description row) (Some "in-progress")) ticketId))
                      (st sys) in
      (mkResponse 200 "Agent queued", enqueue ticketId (mkSys s (pending sys)))
  end.

Definition postKill (ticketId : string) (sys : Sys) : Response * Sys :=
  match killAgent ticketId sys with
  | (inr _, sys') => (mkResponse 200 "Agent killed", sys')
  | (inl error, sys') => (mkResponse 400 (Js.String_ error), sys')
  end.

End Orchestrator.


(** ** The socket server ([index.ts]) *)

Module Server.

(** [type] and [ticketId] of [ExtendedWebSocketData]. *)
Inductive Kind := general | terminal (ticketId : string).

(** The event hub, the terminal registry and the processes' input, and
    the kind of every socket an upgrade has made. *)
Record State (E : Type) := mkState {
  hub : Hub.State E;
  registry : Terminal.Registry;
  inputs : Terminal.Inputs;
  kinds : gmap Hub.Socket Kind
}.
Arguments mkState {E} hub registry inputs kinds.
Arguments hub {E} s.
Arguments registry {E} s.
Arguments inputs {E} s.
Arguments kinds {E} s.

(** What [fetch] answers: the connection is upgraded, a response with a
    status is sent, or the request goes to the HTTP routes. *)
Inductive Outcome := Upgraded | Status (code : nat) | Routed.

(** A message on a terminal socket, as far as the handler looks at it:
    [Input data] when it parses to an object with [type: 'input'] and
    [data], a string as the clients send it; [Raw text] when parsing or
    the access to [msg.type] throws, [text] being the message as a
    string; and [Other] for everything else, a resize request included. *)
Inductive TerminalIncoming :=
| Input (data : string)
| Raw (text : string)
| Other.

Section Server.
Context {E : Type}.

Definition set_hub (f : Hub.State E → Hub.State E) (s : State E) : State E :=
  mkState (f (hub s)) (registry s) (inputs s) (kinds s).
Definition set_registry (f : Terminal.Registry → Terminal.Registry) (s : State E) : State E :=
  mkState (hub s) (f (registry s)) (inputs s) (kinds s).
Definition set_inputs (f : Terminal.Inputs → Terminal.Inputs) (s : State E) : State E :=
  mkState (hub s) (registry s) (f (inputs s)) (kinds s).

(** [url.pathname.split('/').pop()] *)
Definition lastSegment (pathname : string) : string :=
  List.last (Js.split "/" pathname) "".

(** [server.upgrade(req, { data })] when it succeeds: [ws] is the socket
    it makes and carries [data]. *)
Definition upgrade (ws : Hub.Socket) (clientId : string) (kind : Kind) (s : State E) : State E :=
  mkState (Hub.set_data (insert ws (Hub.mkData clientId ∅)) (hub s))
          (registry s) (inputs s) (<[ws := kind]> (kinds s)).

(** The two upgrade branches of [fetch], at the time [now]; [accepted] is
    the result of [server.upgrade], and [ws] the socket it makes when it
    succeeds. *)
Definition fetch (pathname : string) (ws : Hub.Socket) (now : nat) (accepted : bool)
    (s : State E) : Outcome * State E :=
  if Js.startsWith pathname "/ws/terminal/" then
    match lastSegment pathname with
    | EmptyString => (Status 400, s)
    | String c t =>
        let '(clientId, h) := Hub.generateClientId now (hub s) in
        let s := set_hub (λ _, h) s in
        if accepted then (Upgraded, upgrade ws clientId (terminal (String c t)) s)
        else (Status 500, s)
    end
  else if String.eqb pathname "/ws" then
    let '(clientId, h) := Hub.generateClientId now (hub s) in
    let s := set_hub (λ _, h) s in
    if accepted then (Upgraded, upgrade ws clientId general s)
    else (Status 500, s)
  else (Routed, s).

(** [data.type === 'terminal' && data.ticketId] *)
Definition terminalTicket (s : State E) (ws : Hub.Socket) : option string :=
  match kinds s !! ws with
  | Some (terminal (String c t)) => Some (String c t)
  | _ => None
  end.

(** [websocket.open]; [proc] and [now] are the process [Bun.spawn] gives
    [startTerminalSession] and the time of the call.  The handler is
    taken as one step, the ticket lookup [startTerminalSession] awaits
    included. *)
Definition open (ws : Hub.Socket) (proc : Terminal.Pid) (now : nat) (s : State E) : State E :=
  match terminalTicket s ws with
  | Some t =>
      set_registry (λ r, Terminal.startTerminalSession t proc now
                           (Terminal.addClientToSession t ws r)) s
  | None => set_hub (Hub.open ws) s
  end.

(** [websocket.message] on a terminal socket. *)
Definition terminalMessage (t : string) (incoming : TerminalIncoming) (s : State E) : State E :=
  match incoming with
  | Input (String c data) =>
      set_inputs (Terminal.sendToTerminal t (String c data) (registry s)) s
  | Input EmptyString => s
  | Raw text => set_inputs (Terminal.sendToTerminal t text (registry s)) s
  | Other => s
  end.

(** [websocket.message]; [asGeneral] and [asTerminal] are what the
    message is to the one and to the other handler. *)
Definition message (ws : Hub.Socket) (asGeneral : Hub.Incoming) (asTerminal : TerminalIncoming)
    (s : State E) : State E :=
  match terminalTicket s ws with
  | Some t => terminalMessage t asTerminal s
  | None => set_hub (Hub.message ws asGeneral) s
  end.

(** [websocket.close] *)
Definition close (ws : Hub.Socket) (s : State E) : State E :=
  match terminalTicket s ws with
  | Some t => set_registry (Terminal.removeClientFromSession t ws) s
  | None => set_hub (Hub.close ws) s
  end.

(** *** Everything that happens to the server

    The requests for an upgrade and the events of the sockets, the
    events of the terminal processes, the events the routes and the
    orchestrator hand to the hub, a socket going away, after which a
    [send] to it throws, and the input of a process going away, after
    which a [write] to it throws.  An upgrade makes a new socket, and only a
    socket an upgrade has made has events: a request that names a socket
    there is already is left out, and so is an event of a socket there is
    not. *)
Inductive Op :=
| Fetch (pathname : string) (ws : Hub.Socket) (now : nat) (accepted : bool)
| Open (ws : Hub.Socket) (proc : Terminal.Pid) (now : nat)
| Message (ws : Hub.Socket) (asGeneral : Hub.Incoming) (asTerminal : TerminalIncoming)
| Close (ws : Hub.Socket)
| Broadcast (event : E)
| BroadcastToTicket (ticketId : string) (event : E)
| Stdout (ticketId : string) (text : string)
| Exited (ticketId : string) (code : nat)
| SocketGone (ws : Hub.Socket)
| StdinGone (proc : Terminal.Pid).

(** The socket [ws] is no longer there: a [send] to it throws, in the
    hub and in the registry. *)
Definition gone (ws : Hub.Socket) (s : State E) : State E :=
  mkState (Hub.mkState (Hub.clients (hub s)) (Hub.clientIdCounter (hub s))
                       (Hub.data (hub s)) (Hub.sent (hub s)) (Hub.closed (hub s) ∪ {[ws]}))
          (Terminal.apply (registry s) (Terminal.SocketGone ws))
          (inputs s) (kinds s).

Definition apply (s : State E) (o : Op) : State E :=
  match o with
  | Fetch pathname ws now accepted =>
      match kinds s !! ws with
      | Some _ => s
      | None => snd (fetch pathname ws now accepted s)
      end
  | Open ws proc now =>
      match kinds s !! ws with Some _ => open ws proc now s | None => s end
  | Message ws asGeneral asTerminal =>
      match kinds s !! ws with Some _ => message ws asGeneral asTerminal s | None => s end
  | Close ws =>
      match kinds s !! ws with Some _ => close ws s | None => s end
  | Broadcast event => set_hub (λ h, snd (Hub.broadcast event h)) s
  | BroadcastToTicket t event => set_hub (λ h, snd (Hub.broadcastToTicket t event h)) s
  | Stdout t text => set_registry (Terminal.onStdout t text) s
  | Exited t code => set_registry (Terminal.onExit t code) s
  | SocketGone ws =>
      match kinds s !! ws with Some _ => gone ws s | None => s end
  | StdinGone proc =>
      set_inputs (λ i, Terminal.mkInputs (Terminal.written i) (Terminal.broken i ∪ {[proc]})) s
  end.

Definition applyAll (s : State E) (ops : list Op) : State E := foldl apply s ops.

(** The server when it has started. *)
Definition init : State E :=
  mkState (Hub.mkState [] 0 ∅ ∅ ∅) (Terminal.mkRegistry ∅ ∅ ∅ ∅)
          (Terminal.mkInputs ∅ ∅) ∅.

End Server.

End Server.


(** ** The routes on the terminal ([routes/chat.ts], [routes/agents.ts]) *)

Module Routes.

(** The record store and the source of [nanoid()] identifiers, which the
    routes share with the orchestrator, and the server with the terminal
    registry and the event hub. *)
Record State := mkState {
  orch : Orchestrator.State;
  server : Server.State Orchestrator.Event
}.

Definition set_orch (o : Orchestrator.State) (s : State) : State := mkState o (server s).
Definition set_server (f : Server.State Orchestrator.Event → Server.State Orchestrator.Event)
    (s : State) : State :=
  mkState (orch s) (f (server s)).

(** The event hub is the [hub] component of the server. *)
Definition withHub {A} (m : M (Hub.State Orchestrator.Event) A) : M State A :=
  zoom (λ s, Server.hub (server s)) (λ h, set_server (Server.set_hub (λ _, h))) m.

(** What the chat route answers: 404, or the id of the stored message. *)
Inductive ChatResponse := ChatNotFound | ChatSent (userMsgId : string).

(** [POST /:ticketId] of [chat.ts], for a body that parses and carries
    the string [content]; [proc] and [now] are the process [Bun.spawn]
    gives [startTerminalSession] and the time of the call, should the
    session be started. *)
Definition postChat (ticketId content : string) (proc : Terminal.Pid) (now : nat)
    : M State ChatResponse :=
  d ← gets (λ s, Orchestrator.db (orch s));
  match Orchestrator.tickets d !! ticketId with
  | None => mret ChatNotFound
  | Some _ =>
      userMsgId ← zoom orch set_orch Orchestrator.nanoid;
      modify (λ s, set_orch (Orchestrator.set_db (Orchestrator.set_messages (λ l,
        l ++ [Orchestrator.mkMessage userMsgId ticketId content Orchestrator.human]))
        (orch s)) s);;
      session ← gets (λ s, Terminal.getTerminalSession ticketId (Server.registry (server s)));
      match session ≫= Terminal.process with
      | Some _ => mret ()
      | None =>
          modify (set_server (Server.set_registry
                                (Terminal.startTerminalSession ticketId proc now)))
      end;;
      modify (set_server (λ sv,
        Server.set_inputs (Terminal.sendToTerminal ticketId (content +:+ String Js.nl "")
                                                   (Server.registry sv)) sv));;
      withHub (Hub.broadcastToTicket ticketId
                 (Orchestrator.message_created ticketId content Orchestrator.human));;
      mret (ChatSent userMsgId)
  end.

(** The terminal registry is the [registry] component of the server. *)
Definition withRegistry {A} (m : M Terminal.Registry A) : M State A :=
  zoom (λ s, Server.registry (server s)) (λ r, set_server (Server.set_registry (λ _, r))) m.

(** What the route that starts a terminal answers: 404, the status
    report of the session, or 500 with the error as a string. *)
Inductive StartResponse :=
| StartNotFound
| Started (status : Terminal.SessionStatus)
| StartFailed (error : string).

(** [POST /terminal/start/:ticketId] of [agents.ts]; [spawned] is what
    the lookup and [Bun.spawn] in [startTerminalSession] come to. *)
Definition postTerminalStart (ticketId : string) (spawned : Js.Exn + Terminal.Pid) (now : nat)
    : M State StartResponse :=
  d ← gets (λ s, Orchestrator.db (orch s));
  match Orchestrator.tickets d !! ticketId with
  | None => mret StartNotFound
  | Some _ =>
      try_catch
        (withRegistry (Terminal.startTerminalSessionM ticketId spawned now);;
         status ← gets (λ s, Terminal.getSessionStatus ticketId (Server.registry (server s)));
         mret (Started status))
        (λ error, mret (StartFailed (Js.String_ error)))
  end.

End Routes.


(** ** Facts about the string primitives *)

Module JsFacts.

Lemma append_nil_l (s : string) : "" +:+ s = s.
Proof. reflexivity. Qed.

Lemma append_cons c (s t : string) : String c s +:+ t = String c (s +:+ t).
Proof. reflexivity. Qed.

Lemma append_nil_r (s : string) : s +:+ "" = s.
Proof. induction s as [|c s IH]; [done|]. by rewrite append_cons, IH. Qed.

Lemma append_assoc (s t u : string) : (s +:+ t) +:+ u = s +:+ (t +:+ u).
Proof. induction s as [|c s IH]; [done|]. by rewrite !append_cons, IH. Qed.

Lemma join_cons x xs : Js.join (x :: xs) = x +:+ Js.join xs.
Proof.
  unfold Js.join. destruct xs as [|y ys]; cbn [String.concat].
  - by rewrite append_nil_r.
  - by rewrite append_nil_l.
Qed.

Lemma join_app xs ys : Js.join (xs ++ ys) = Js.join xs +:+ Js.join ys.
Proof.
  induction xs as [|x xs IH]; [done|].
  cbn [app]. by rewrite !join_cons, IH, append_assoc.
Qed.

Example split_keeps_empty_pieces :
  Js.split Js.nl ("one" +:+ String Js.nl ("two" +:+ String Js.nl "")) = ["one"; "two"; ""].
Proof. reflexivity. Qed.

Example split_of_nothing : Js.split Js.nl "" = [""].
Proof. reflexivity. Qed.

Example trim_both_ends : Js.trim ("  a b " +:+ String Js.nl "") = "a b".
Proof. reflexivity. Qed.

Example includes_inside : Js.includes "xxTASK_COMPLETExx" "TASK_COMPLETE" = true.
Proof. reflexivity. Qed.

Example toUpperCase_status : Js.toUpperCase "blocked" = "BLOCKED".
Proof. reflexivity. Qed.

(** Splitting and joining with the separator gives the string back;
    joining with nothing, as the replay does, gives it without the
    separators. *)
Lemma split_join_sep (sep : ascii) (s : string) :
  String.concat (String sep "") (Js.split sep s) = s.
Proof.
  induction s as [|c s IH]; [done|]. cbn [Js.split].
  destruct (Ascii.eqb_spec c sep) as [->|Hne].
  - cbn [String.concat].
    destruct (Js.split sep s) as [|l ls] eqn:E.
    + destruct s as [|c0 s0]; [done|]. cbn in E. destruct (Ascii.eqb c0 sep); [done|].
      by destruct (Js.split sep s0).
    + rewrite append_nil_l. rewrite append_cons, append_nil_l. by rewrite IH.
  - destruct (Js.split sep s) as [|l ls] eqn:E.
    + destruct s as [|c0 s0]; [done|]. cbn in E. destruct (Ascii.eqb c0 sep); [done|].
      by destruct (Js.split sep s0).
    + cbn [String.concat] in *. destruct ls as [|l' ls'].
      * by rewrite IH.
      * rewrite append_cons. by rewrite IH.
Qed.

(** *** Prefixes and inclusion *)

Lemma prefix_app (p s : string) : String.prefix p (p +:+ s) = true.
Proof.
  induction p as [|a p IH]; [by destruct s|].
  rewrite append_cons. cbn [String.prefix]. by destruct (Ascii.ascii_dec a a).
Qed.

Lemma prefix_app_l (p : string) : ∀ s t,
  String.prefix p s = true → String.prefix p (s +:+ t) = true.
Proof.
  induction p as [|a p IH]; intros s t H; [by destruct (s +:+ t)|].
  destruct s as [|b s]; [done|]. rewrite append_cons. cbn [String.prefix] in *.
  destruct (Ascii.ascii_dec a b); [by apply IH|done].
Qed.

Lemma includes_eq (s needle : string) :
  Js.includes s needle
  = if String.prefix needle s then true
    else match s with
         | EmptyString => false
         | String _ s' => Js.includes s' needle
         end.
Proof. by destruct s. Qed.

Lemma includes_refl (s : string) : Js.includes s s = true.
Proof.
  pose proof (prefix_app s "") as H. rewrite append_nil_r in H.
  by rewrite includes_eq, H.
Qed.

(** A string includes whatever it was put together from. *)
Lemma includes_intro (a needle b : string) : Js.includes (a +:+ needle +:+ b) needle = true.
Proof.
  induction a as [|c a IH].
  - rewrite append_nil_l, includes_eq. by rewrite prefix_app.
  - rewrite append_cons, includes_eq.
    by destruct (String.prefix needle (String c (a +:+ needle +:+ b))).
Qed.

Lemma includes_app_l (s t needle : string) :
  Js.includes s needle = true → Js.includes (s +:+ t) needle = true.
Proof.
  induction s as [|c s IH]; rewrite includes_eq; intros H.
  - destruct (String.prefix needle "") eqn:Hp; [|done].
    rewrite includes_eq. by rewrite (prefix_app_l needle "" t Hp).
  - rewrite includes_eq. destruct (String.prefix needle (String c s)) eqn:Hp.
    + by rewrite (prefix_app_l needle (String c s) t Hp).
    + rewrite append_cons. destruct (String.prefix needle (String c (s +:+ t))); [done|].
      by apply IH.
Qed.

Lemma includes_app_r (s t needle : string) :
  Js.includes t needle = true → Js.includes (s +:+ t) needle = true.
Proof.
  intros H. induction s as [|c s IH]; [by rewrite append_nil_l|].
  rewrite append_cons, includes_eq.
  by destruct (String.prefix needle (String c (s +:+ t))).
Qed.

(** *** Splitting what was joined *)

Lemma free_app (sep : ascii) (s t : string) :
  Js.free sep (s +:+ t) = Js.free sep s && Js.free sep t.
Proof.
  induction s as [|c s IH]; [done|]. rewrite append_cons. cbn [Js.free].
  by rewrite IH, andb_assoc.
Qed.

Lemma split_free (sep : ascii) (s : string) : Js.free sep s = true → Js.split sep s = [s].
Proof.
  induction s as [|c s IH]; [done|]. cbn [Js.free Js.split].
  intros [Hc Hs]%andb_true_iff. apply negb_true_iff in Hc. rewrite Hc, (IH Hs). done.
Qed.

Lemma split_app (sep : ascii) (l rest : string) :
  Js.free sep l = true →
  Js.split sep (l +:+ String sep rest) = l :: Js.split sep rest.
Proof.
  induction l as [|c l IH]; intros Hl.
  - rewrite append_nil_l. cbn [Js.split]. by rewrite Ascii.eqb_refl.
  - cbn [Js.free] in Hl. apply andb_true_iff in Hl as [Hc Hl]. apply negb_true_iff in Hc.
    rewrite append_cons. cbn [Js.split]. rewrite Hc, (IH Hl). done.
Qed.

(** Splitting undoes joining with the separator, for pieces that do not
    hold it. *)
Lemma split_concat (sep : ascii) (ls : list string) :
  ls ≠ [] → Forall (λ l, Js.free sep l = true) ls →
  Js.split sep (String.concat (String sep "") ls) = ls.
Proof.
  induction ls as [|l ls IH]; [done|]. intros _ Hfree.
  apply Forall_cons in Hfree as [Hl Hls].
  destruct ls as [|l' ls].
  - cbn [String.concat]. by apply split_free.
  - change (String.concat (String sep "") (l :: l' :: ls))
      with (l +:+ String sep "" +:+ String.concat (String sep "") (l' :: ls)).
    change (String sep "" +:+ ?x) with (String sep x).
    rewrite split_app by done. f_equal. by apply IH.
Qed.

(** *** Pieces and separators *)

Lemma split_pieces_free (sep : ascii) (p : string) :
  Forall (λ l, Js.free sep l = true) (Js.split sep p).
Proof.
  induction p as [|c p IH]; cbn [Js.split]; [by repeat constructor|].
  destruct (Ascii.eqb c sep) eqn:Hc; [by constructor|].
  destruct (Js.split sep p) as [|l ls]; [by constructor; [cbn; rewrite Hc|]|].
  apply Forall_cons in IH as [Hl Hls]. constructor; [|done]. cbn. by rewrite Hc.
Qed.

Lemma split_app_sep (sep : ascii) (front rest : string) :
  ∃ l ls, Js.split sep (front +:+ String sep rest) = l :: ls ++ Js.split sep rest.
Proof.
  induction front as [|c front (l & ls & IH)].
  - rewrite append_nil_l. cbn [Js.split]. rewrite Ascii.eqb_refl. by exists "", [].
  - rewrite append_cons. cbn [Js.split]. rewrite IH. destruct (Ascii.eqb c sep).
    + by exists "", (l :: ls).
    + by exists (String c l), ls.
Qed.

(** *** Numbers in strings *)

Lemma pretty_N_go_free (x : N) : ∀ s, Js.free "-" s = true → Js.free "-" (pretty_N_go x s) = true.
Proof.
  induction (N.lt_wf_0 x) as [x _ IH]; intros s Hs.
  assert (x = 0 ∨ 0 < x)%N as [->|?] by lia.
  - by rewrite pretty_N_go_0.
  - rewrite pretty_N_go_step by done. apply IH.
    { by apply N.div_lt. }
    cbn [Js.free]. rewrite Hs. unfold pretty_N_char. by repeat case_match.
Qed.

Lemma pretty_free (n : nat) : Js.free "-" (pretty n) = true.
Proof.
  unfold pretty, pretty_nat, pretty, pretty_N.
  destruct (decide _); [done|]. by apply pretty_N_go_free.
Qed.

(** Two strings that agree up to and after their first [c] agree. *)
Lemma app_sep_inj (c : ascii) (a b s s' : string) :
  Js.free c a = true → Js.free c b = true →
  a +:+ String c s = b +:+ String c s' → a = b ∧ s = s'.
Proof.
  revert b. induction a as [|x a IH]; intros [|y b]; cbn; intros Ha Hb Heq.
  - by injection Heq.
  - injection Heq as <- _. apply andb_prop in Hb as [Hb _]. by rewrite Ascii.eqb_refl in Hb.
  - injection Heq as -> _. apply andb_prop in Ha as [Ha _]. by rewrite Ascii.eqb_refl in Ha.
  - injection Heq as -> Heq. apply andb_prop in Ha as [_ Ha]. apply andb_prop in Hb as [_ Hb].
    destruct (IH b Ha Hb Heq) as [-> ->]. done.
Qed.

Lemma join_free (sep : ascii) (pieces : list string) :
  Forall (λ l, Js.free sep l = true) pieces → Js.free sep (Js.join pieces) = true.
Proof.
  induction 1 as [|l ls Hl Hls IH]; [done|].
  rewrite JsFacts.join_cons, JsFacts.free_app, Hl, IH. done.
Qed.


End JsFacts.

(** ** Facts about the effect monad *)

Module MonadFacts.

Lemma ignore_errors_eq {S} (m : M S ()) (s : S) :
  ignore_errors m s = (inr (), snd (m s)).
Proof.
  unfold ignore_errors, try_catch, mret, M_ret.
  by destruct (m s) as [[e|[]] s'].
Qed.

Lemma bind_eq {S A B} (m : M S A) (f : A → M S B) (s : S) :
  (m ≫= f) s = match m s with
               | (inr a, s') => f a s'
               | (inl e, s') => (inl e, s')
               end.
Proof. reflexivity. Qed.

Lemma try_catch_eq {S A} (m : M S A) (h : Js.Exn → M S A) (s : S) :
  try_catch m h s = match m s with
                    | (inr a, s') => (inr a, s')
                    | (inl e, s') => h e s'
                    end.
Proof. reflexivity. Qed.

End MonadFacts.


(** ** Properties of the session registry *)

Module TerminalSpec.
Import Terminal.

(** *** The ring buffer *)

Lemma trimBuffer_lastn max buf : trimBuffer max buf = lastn max buf.
Proof.
  unfold lastn. induction buf as [|x rest IH]; [done|].
  cbn [trimBuffer]. destruct (Nat.ltb_spec max (length (x :: rest))) as [Hlt|Hge].
  - rewrite IH. cbn [length] in *.
    replace (S (length rest) - max) with (S (length rest - max)) by lia. done.
  - replace (length (x :: rest) - max) with 0 by lia. done.
Qed.

Lemma length_lastn {A} n (l : list A) : length (lastn n l) = n `min` length l.
Proof. unfold lastn. rewrite length_drop. lia. Qed.

Lemma lastn_app_lastn {A} n (a b : list A) : lastn n (lastn n a ++ b) = lastn n (a ++ b).
Proof.
  unfold lastn. destruct (le_lt_dec (length a) n) as [Hle|Hgt].
  - replace (length a - n) with 0 by lia. done.
  - rewrite !length_app, length_drop.
    replace (length a - (length a - n) + length b - n) with (length b) by lia.
    replace (length a + length b - n) with ((length a - n) + length b) by lia.
    rewrite <- (drop_drop (a ++ b)). by rewrite (drop_app_le a) by lia.
Qed.

Lemma lastn_app_long {A} n (a b : list A) : n ≤ length b → lastn n (a ++ b) = lastn n b.
Proof.
  intros Hn. unfold lastn. rewrite length_app.
  replace (length a + length b - n) with (length a + (length b - n)) by lia.
  by rewrite drop_app_add.
Qed.

Lemma lastn_suffix {A} n (l : list A) : take (length l - n) l ++ lastn n l = l.
Proof. unfold lastn. apply take_drop. Qed.

Lemma bufferOutput_buffer s data :
  outputBuffer (bufferOutput s data)
  = lastn (maxBufferLines s) (outputBuffer s ++ Js.split Js.nl data).
Proof. unfold bufferOutput. cbn. apply trimBuffer_lastn. Qed.

Lemma bufferOutput_max s data : maxBufferLines (bufferOutput s data) = maxBufferLines s.
Proof. done. Qed.

Lemma foldl_bufferOutput_max ds s :
  maxBufferLines (foldl bufferOutput s ds) = maxBufferLines s.
Proof. revert s. induction ds as [|d ds IH]; intros s; [done|]. cbn. by rewrite IH. Qed.

Lemma linesOf_snoc ds d : linesOf (ds ++ [d]) = linesOf ds ++ Js.split Js.nl d.
Proof. unfold linesOf. rewrite map_app, concat_app. cbn. by rewrite app_nil_r. Qed.

(** After at least one append the buffer is the tail of everything that
    was ever put into it. *)
Lemma foldl_bufferOutput_buffer ds s :
  ds ≠ [] →
  outputBuffer (foldl bufferOutput s ds)
  = lastn (maxBufferLines s) (outputBuffer s ++ linesOf ds).
Proof.
  induction ds as [|d ds IH] using rev_ind; [done|]. intros _.
  rewrite foldl_app. cbn [foldl]. rewrite bufferOutput_buffer, foldl_bufferOutput_max.
  rewrite linesOf_snoc, app_assoc.
  destruct ds as [|d0 ds'].
  - cbn. by rewrite app_nil_r.
  - rewrite IH by done. apply lastn_app_lastn.
Qed.

Lemma split_nonempty sep s : Js.split sep s ≠ [].
Proof.
  destruct s as [|c s]; cbn; [done|].
  destruct (Ascii.eqb c sep); [done|]. by destruct (Js.split sep s).
Qed.

Lemma linesOf_nonempty ds : ds ≠ [] → linesOf ds ≠ [].
Proof.
  destruct ds as [|d ds]; [done|]. intros _. unfold linesOf. cbn.
  pose proof (split_nonempty Js.nl d). by destruct (Js.split Js.nl d).
Qed.

(** C3: appending more lines than the buffer can hold leaves exactly the
    most recent [maxBufferLines] of the appended lines, in their order;
    the buffer is within its bound, and what was dropped is a prefix (the
    oldest lines) of everything buffered. *)
Theorem ring_buffer_keeps_most_recent (s : TerminalSession) (ds : list string) :
  maxBufferLines s < length (linesOf ds) →
  let s' := foldl bufferOutput s ds in
  length (outputBuffer s') ≤ maxBufferLines s'
  ∧ outputBuffer s' = lastn (maxBufferLines s) (linesOf ds)
  ∧ ∃ evicted, outputBuffer s ++ linesOf ds = evicted ++ outputBuffer s'.
Proof.
  intros Hlong s'. subst s'.
  assert (ds ≠ []) as Hne by (intros ->; cbn in Hlong; lia).
  rewrite foldl_bufferOutput_max, foldl_bufferOutput_buffer by done.
  split; [rewrite length_lastn; lia|]. split.
  - apply lastn_app_long. lia.
  - eexists. symmetry. apply lastn_suffix.
Qed.

(** A chunk of 1500 lines appended to a fresh session. *)
Definition manyLines : string :=
  String.concat (String Js.nl EmptyString) (replicate 1500 "x").

Lemma ring_buffer_keeps_most_recent_witness :
  maxBufferLines (newSession "T1") < length (linesOf [manyLines; "tail"])
  ∧ (let s' := foldl bufferOutput (newSession "T1") [manyLines; "tail"] in
     length (outputBuffer s') ≤ maxBufferLines s'
     ∧ outputBuffer s' = lastn (maxBufferLines (newSession "T1")) (linesOf [manyLines; "tail"])
     ∧ ∃ evicted, outputBuffer (newSession "T1") ++ linesOf [manyLines; "tail"]
                  = evicted ++ outputBuffer s').
Proof.
  assert (maxBufferLines (newSession "T1") < length (linesOf [manyLines; "tail"])) as H
    by (vm_compute; lia).
  split; [exact H|]. exact (ring_buffer_keeps_most_recent _ _ H).
Defined.

(** *** Fan-out *)

(** Two sessions that differ at most in their observer sets. *)
Definition sameButClients (s s' : TerminalSession) : Prop :=
  ticketId s' = ticketId s ∧ process s' = process s
  ∧ outputBuffer s' = outputBuffer s ∧ maxBufferLines s' = maxBufferLines s
  ∧ status s' = status s ∧ startedAt s' = startedAt s ∧ error s' = error s.

Lemma sameButClients_refl s : sameButClients s s.
Proof. by repeat split. Qed.

Lemma sameButClients_set f s : sameButClients s (set_clients f s).
Proof. by repeat split. Qed.

Lemma sameButClients_trans s1 s2 s3 :
  sameButClients s1 s2 → sameButClients s2 s3 → sameButClients s1 s3.
Proof. unfold sameButClients. intuition congruence. Qed.

Lemma observed_send ws data r r' c :
  send c data r = Some r' →
  observed r' ws = (if decide (ws = c) then observed r ws ++ [data] else observed r ws)
  ∧ sessions r' = sessions r ∧ closed r' = closed r ∧ killed r' = killed r.
Proof.
  unfold send. case_decide; [done|]. intros [= <-]. cbn. split; [|done].
  unfold observed at 1. cbn. case_decide as Hc.
  - subst. by rewrite lookup_insert_eq.
  - by rewrite lookup_insert_ne.
Qed.

Lemma send_closed ws data r : send ws data r = None ↔ ws ∈ closed r.
Proof. unfold send. by case_decide. Qed.

(** The loop of [broadcastToSession] over a duplicate-free list of
    clients: open sockets receive the data once, closed ones are dropped
    from the session, nothing else changes. *)
Lemma broadcast_loop t data l : ∀ r s,
  NoDup l → sessions r !! t = Some s →
  closed (foldl (broadcastTo t data) r l) = closed r
  ∧ killed (foldl (broadcastTo t data) r l) = killed r
  ∧ (∀ t', t' ≠ t → sessions (foldl (broadcastTo t data) r l) !! t' = sessions r !! t')
  ∧ (∀ ws, observed (foldl (broadcastTo t data) r l) ws
           = observed r ws ++ (if decide (ws ∈ l ∧ ws ∉ closed r) then [data] else []))
  ∧ ∃ s', sessions (foldl (broadcastTo t data) r l) !! t = Some s' ∧ sameButClients s s'
          ∧ ∀ c, c ∈ clients s' ↔ c ∈ clients s ∧ ¬ (c ∈ l ∧ c ∈ closed r).
Proof.
  induction l as [|c l IH]; intros r s Hnd Hs; cbn [foldl].
  - repeat split; try done.
    + intros ws. rewrite decide_False by (rewrite elem_of_nil; tauto).
      by rewrite app_nil_r.
    + exists s. split; [done|]. split; [apply sameButClients_refl|].
      intros c. rewrite elem_of_nil. tauto.
  - apply NoDup_cons in Hnd as [Hc Hnd].
    destruct (send c data r) as [r1|] eqn:Hsend.
    + assert (broadcastTo t data r c = r1) as ->
        by (unfold broadcastTo; by rewrite Hsend).
      destruct (observed_send c data r r1 c Hsend) as (_ & Hs1 & Hc1 & Hk1).
      assert (c ∉ closed r) as Hopen.
      { intros Hin. apply (send_closed c data r) in Hin. congruence. }
      destruct (IH r1 s Hnd) as (Hc' & Hk' & Hot & Hobs & s' & Hs' & Hsame & Hcl).
      { by rewrite Hs1. }
      rewrite Hc', Hk', Hc1, Hk1. repeat split; try done.
      * intros t' Ht'. by rewrite Hot, Hs1.
      * intros ws. rewrite Hobs, Hc1.
        destruct (observed_send ws data r r1 c Hsend) as (-> & _).
        repeat case_decide; subst; rewrite ?app_nil_r; try done; exfalso; set_solver.
      * exists s'. split; [done|]. split; [done|]. intros c0. rewrite Hcl, Hc1.
        rewrite elem_of_cons. naive_solver.
    + pose proof (proj1 (send_closed c data r) Hsend) as Hclosed.
      assert (broadcastTo t data r c
              = set_sessions (alter (set_clients (λ cs, cs ∖ {[c]})) t) r) as ->.
      { unfold broadcastTo. by rewrite Hsend. }
      set (r1 := set_sessions _ r).
      destruct (IH r1 (set_clients (λ cs, cs ∖ {[c]}) s) Hnd)
        as (Hc' & Hk' & Hot & Hobs & s' & Hs' & Hsame & Hcl).
      { subst r1. cbn. by rewrite lookup_alter_eq, Hs. }
      rewrite Hc', Hk'. repeat split; try done.
      * intros t' Ht'. rewrite Hot by done. subst r1. cbn. by rewrite lookup_alter_ne.
      * intros ws. rewrite Hobs. subst r1. cbn. unfold observed. cbn.
        repeat case_decide; try done; exfalso; set_solver.
      * exists s'. split; [done|]. split.
        { eapply sameButClients_trans; [apply sameButClients_set|done]. }
        intros c0. rewrite Hcl. subst r1. cbn. rewrite elem_of_cons.
        rewrite elem_of_difference, elem_of_singleton.
        destruct (decide (c0 = c)); naive_solver.
Qed.

Lemma broadcastToSession_spec t data r s :
  sessions r !! t = Some s →
  closed (broadcastToSession t data r) = closed r
  ∧ killed (broadcastToSession t data r) = killed r
  ∧ (∀ t', t' ≠ t → sessions (broadcastToSession t data r) !! t' = sessions r !! t')
  ∧ (∀ ws, observed (broadcastToSession t data r) ws
           = observed r ws ++ (if decide (ws ∈ clients s ∧ ws ∉ closed r) then [data] else []))
  ∧ ∃ s', sessions (broadcastToSession t data r) !! t = Some s' ∧ sameButClients s s'
          ∧ ∀ c, c ∈ clients s' ↔ c ∈ clients s ∧ c ∉ closed r.
Proof.
  intros Hs. unfold broadcastToSession. rewrite Hs.
  destruct (broadcast_loop t data (elements (clients s)) r s (NoDup_elements _) Hs)
    as (Hc & Hk & Hot & Hobs & s' & Hs' & Hsame & Hcl).
  repeat split; try done.
  - intros ws. rewrite Hobs. repeat case_decide; try done; exfalso; set_solver.
  - exists s'. split; [done|]. split; [done|]. intros c. rewrite Hcl, elem_of_elements. tauto.
Qed.

Lemma bufferOutput_sameButClients a b data :
  sameButClients a b → sameButClients (bufferOutput a data) (bufferOutput b data).
Proof.
  unfold sameButClients, bufferOutput. cbn. intros (?&?&Hb&Hm&?&?&?).
  rewrite Hb, Hm. by repeat split.
Qed.

Lemma foldl_bufferOutput_sameButClients ds : ∀ a b,
  sameButClients a b → sameButClients (foldl bufferOutput a ds) (foldl bufferOutput b ds).
Proof.
  induction ds as [|d ds IH]; intros a b Hab; [done|].
  cbn. by apply IH, bufferOutput_sameButClients.
Qed.

Lemma onStdout_spec t text r s :
  sessions r !! t = Some s →
  closed (onStdout t text r) = closed r
  ∧ killed (onStdout t text r) = killed r
  ∧ (∀ t', t' ≠ t → sessions (onStdout t text r) !! t' = sessions r !! t')
  ∧ (∀ ws, observed (onStdout t text r) ws
           = observed r ws ++ (if decide (ws ∈ clients s ∧ ws ∉ closed r) then [text] else []))
  ∧ ∃ s', sessions (onStdout t text r) !! t = Some s'
          ∧ sameButClients (bufferOutput s text) s'
          ∧ ∀ c, c ∈ clients s' ↔ c ∈ clients s ∧ c ∉ closed r.
Proof.
  intros Hs. unfold onStdout.
  set (r0 := set_sessions _ r).
  assert (sessions r0 !! t = Some (bufferOutput s text)) as Hs0.
  { subst r0. cbn. by rewrite lookup_alter_eq, Hs. }
  destruct (broadcastToSession_spec t text r0 _ Hs0)
    as (Hc & Hk & Hot & Hobs & s' & Hs' & Hsame & Hcl).
  repeat split; try done.
  - intros t' Ht'. rewrite Hot by done. subst r0. cbn. by rewrite lookup_alter_ne.
  - by exists s'.
Qed.

(** The effect of the stdout loop over a run of chunks. *)
Lemma relay_spec t chunks : ∀ r s,
  sessions r !! t = Some s →
  closed (relay t chunks r) = closed r
  ∧ killed (relay t chunks r) = killed r
  ∧ (∀ t', t' ≠ t → sessions (relay t chunks r) !! t' = sessions r !! t')
  ∧ (∀ ws, observed (relay t chunks r) ws
           = observed r ws ++ (if decide (ws ∈ clients s ∧ ws ∉ closed r) then chunks else []))
  ∧ ∃ s', sessions (relay t chunks r) !! t = Some s'
          ∧ sameButClients (foldl bufferOutput s chunks) s'
          ∧ (∀ c, c ∈ clients s' → c ∈ clients s)
          ∧ (∀ c, c ∈ clients s → c ∉ closed r → c ∈ clients s').
Proof.
  unfold relay. induction chunks as [|d chunks IH]; intros r s Hs; cbn [foldl].
  - repeat split; try done.
    + intros ws. case_decide; by rewrite app_nil_r.
    + exists s. split; [done|]. split; [apply sameButClients_refl|]. by split.
  - destruct (onStdout_spec t d r s Hs) as (Hc1 & Hk1 & Hot1 & Hobs1 & s1 & Hs1 & Hsame1 & Hcl1).
    destruct (IH _ _ Hs1) as (Hc & Hk & Hot & Hobs & s' & Hs' & Hsame & Hsub & Hsup).
    rewrite Hc, Hk. repeat split; try done.
    + intros t' Ht'. by rewrite Hot, Hot1.
    + intros ws. rewrite Hobs, Hobs1, Hc1. specialize (Hcl1 ws).
      repeat case_decide; rewrite <- ?app_assoc; cbn; try done; exfalso; tauto.
    + exists s'. split; [done|]. split.
      { eapply sameButClients_trans; [|done].
        by apply foldl_bufferOutput_sameButClients. }
      split.
      * intros c Hin. by apply Hcl1, Hsub.
      * intros c Hin Hopen. apply Hsup; [|by rewrite Hc1]. by apply Hcl1.
Qed.

(** What [addClientToSession] replays. *)
Definition replay (buffer : list string) : list string :=
  match buffer with [] => [] | _ :: _ => [Js.join buffer] end.

Lemma addClientToSession_spec t ws r :
  ws ∉ closed r →
  closed (addClientToSession t ws r) = closed r
  ∧ killed (addClientToSession t ws r) = killed r
  ∧ observed (addClientToSession t ws r) ws
    = observed r ws ++ replay (default [] (outputBuffer <$> sessions r !! t))
  ∧ ∃ s', sessions (addClientToSession t ws r) !! t = Some s'
          ∧ sameButClients (default (newSession t) (sessions r !! t)) s'
          ∧ ws ∈ clients s'.
Proof.
  intros Hopen. unfold addClientToSession, getOrCreateTerminalSession.
  destruct (sessions r !! t) as [s|] eqn:Hs; cbn [default fmap option_fmap option_map].
  - set (r2 := set_sessions _ r).
    assert (sessions r2 !! t = Some (set_clients (λ cs, cs ∪ {[ws]}) s)) as Hs2.
    { subst r2. cbn. by rewrite lookup_alter_eq, Hs. }
    destruct (outputBuffer s) as [|l ls] eqn:Hb; cbn [replay].
    + rewrite app_nil_r. repeat split; try done.
      eexists. split; [done|]. split; [apply sameButClients_set|]. cbn. set_solver.
    + destruct (send ws (Js.join (l :: ls)) r2) as [r3|] eqn:Hsend.
      * destruct (observed_send ws _ _ _ _ Hsend) as (Hobs & Hs3 & Hc3 & Hk3).
        rewrite decide_True in Hobs by done.
        rewrite Hc3, Hk3, Hobs, Hs3. repeat split; try done.
        eexists. split; [done|]. split; [apply sameButClients_set|]. cbn. set_solver.
      * apply (send_closed ws _ r2) in Hsend. done.
  - set (r2 := set_sessions _ _).
    assert (sessions r2 !! t = Some (set_clients (λ cs, cs ∪ {[ws]}) (newSession t))) as Hs2.
    { subst r2. cbn. by rewrite lookup_alter_eq, lookup_insert_eq. }
    cbn. rewrite app_nil_r. repeat split; try done.
    eexists. split; [done|]. split; [apply sameButClients_set|]. cbn. set_solver.
Qed.

Lemma linesOf_free (chunks : list string) :
  Forall (λ l, Js.free Js.nl l = true) (linesOf chunks).
Proof.
  unfold linesOf. induction chunks as [|c chunks IH]; [done|].
  cbn. apply Forall_app. split; [apply JsFacts.split_pieces_free|done].
Qed.

(** What an observer that attaches and then receives live traffic is
    sent: the entries of the buffer joined with nothing in between, as one
    message ahead of every live message, and then the live chunks in
    order. *)
Lemma attach_sends_replay_then_live (t : string) (ws : Client) (live : list string)
    (r : Registry) :
  ws ∉ closed r →
  observed (relay t live (addClientToSession t ws r)) ws
  = observed r ws ++ replay (default [] (outputBuffer <$> sessions r !! t)) ++ live.
Proof.
  intros Hopen.
  destruct (addClientToSession_spec t ws r Hopen) as (Hc & _ & Hobs & s' & Hs' & _ & Hin).
  destruct (relay_spec t live _ _ Hs') as (_ & _ & _ & Hobs' & _).
  rewrite Hobs', Hobs, <- app_assoc. rewrite decide_True; [done|].
  split; [done|]. by rewrite Hc.
Qed.

(** C2: the replay loses the line feeds.  A session with an empty buffer
    puts out the chunks [produced]; an observer attaches and then receives
    the chunks [live].  The observer has been sent the history as one
    message, ahead of the live chunks, and then the live chunks as they
    are; but the history is the buffered pieces joined with nothing in
    between: it holds no line feed, and so it is not the output whenever
    the output held one. *)
Theorem replay_loses_the_line_feeds
    (t : string) (ws : Client) (produced live : list string) (r : Registry)
    (s : TerminalSession) :
  sessions r !! t = Some s → outputBuffer s = [] → 0 < maxBufferLines s →
  produced ≠ [] → ws ∉ closed r →
  let r1 := relay t produced r in
  let history := Js.join (lastn (maxBufferLines s) (linesOf produced)) in
  observed (relay t live (addClientToSession t ws r1)) ws = observed r1 ws ++ [history] ++ live
  ∧ Js.free Js.nl history = true
  ∧ (Js.free Js.nl (Js.join produced) = false → history ≠ Js.join produced).
Proof.
  intros Hs Hempty Hmax Hne Hopen r1 history. subst r1 history.
  destruct (relay_spec t produced r s Hs) as (Hc1 & _ & _ & _ & s1 & Hs1 & Hsame1 & _).
  assert (outputBuffer s1 = lastn (maxBufferLines s) (linesOf produced)) as Hbuf.
  { destruct Hsame1 as (_ & _ & -> & _).
    by rewrite foldl_bufferOutput_buffer, Hempty. }
  assert (Js.free Js.nl (Js.join (lastn (maxBufferLines s) (linesOf produced))) = true)
    as Hfree.
  { apply JsFacts.join_free. unfold lastn. apply Forall_drop, linesOf_free. }
  split_and!; [|done|intros Hnl Heq; congruence].
  rewrite attach_sends_replay_then_live by (by rewrite Hc1).
  rewrite Hs1. cbn [fmap option_fmap option_map default]. rewrite Hbuf.
  destruct (lastn (maxBufferLines s) (linesOf produced)) as [|l ls] eqn:Hl; [|done].
  apply (f_equal length) in Hl. rewrite length_lastn in Hl.
  pose proof (linesOf_nonempty produced Hne). destruct (linesOf produced); [done|].
  cbn in Hl. lia.
Qed.

(** The buffer holds the lines without the line breaks they were split
    at, and the replay joins them with nothing in between. *)
Example replay_joins_without_line_breaks :
  replay (outputBuffer (bufferOutput (newSession "T1") ("one" +:+ String Js.nl "two")))
  = ["onetwo"].
Proof. reflexivity. Qed.

Definition emptyRegistry : Registry := mkRegistry ∅ ∅ ∅ ∅.

(** A socket has opened the terminal of T1, the session runs process 42
    and has produced three lines in front of that observer. *)
Definition busyRegistry : Registry :=
  relay "T1" ["one" +:+ String Js.nl "two"; "three"]
        (startTerminalSession "T1" 42 1000 (addClientToSession "T1" 7 emptyRegistry)).

(** The terminal of T1 has been started and nobody observes it. *)
Definition startedT1 : Registry := startTerminalSession "T1" 42 1000 emptyRegistry.

Lemma replay_loses_the_line_feeds_witness :
  observed
    (relay "T1" ["three" +:+ String Js.nl ""]
       (addClientToSession "T1" 9
          (relay "T1" ["one" +:+ String Js.nl ("two" +:+ String Js.nl "")] startedT1))) 9
  = ["onetwo"; "three" +:+ String Js.nl ""]
  ∧ "onetwo" ≠ "one" +:+ String Js.nl ("two" +:+ String Js.nl "").
Proof.
  destruct (replay_loses_the_line_feeds "T1" 9
              ["one" +:+ String Js.nl ("two" +:+ String Js.nl "")]
              ["three" +:+ String Js.nl ""] startedT1
              (mkSession "T1" (Some 42) ∅ [] 1000 running (Some 1000) None))
    as (Hobs & _ & Hdiff).
  - vm_compute. reflexivity.
  - reflexivity.
  - cbn. lia.
  - done.
  - vm_compute. set_solver.
  - split.
    + rewrite Hobs. vm_compute. reflexivity.
    + apply Hdiff. vm_compute. reflexivity.
Defined.

(** C8: detaching an observer leaves the session's process handle,
    status, buffer and start time as they were, touches no other session,
    kills no process and sends nothing; output produced while the observer
    is away goes into the buffer, that buffer is what a later
    re-attachment replays to it, and it is not empty when anything was
    produced. *)
Theorem detach_changes_only_the_observer_set
    (t : string) (ws : Client) (r : Registry) (s : TerminalSession) :
  sessions r !! t = Some s →
  let r1 := removeClientFromSession t ws r in
  (∃ s1, sessions r1 !! t = Some s1 ∧ sameButClients s s1
         ∧ clients s1 = clients s ∖ {[ws]})
  ∧ (∀ t', t' ≠ t → sessions r1 !! t' = sessions r !! t')
  ∧ killed r1 = killed r ∧ received r1 = received r ∧ closed r1 = closed r
  ∧ ∀ interim : list string,
      ws ∉ closed r →
      let r2 := relay t interim r1 in
      let r3 := addClientToSession t ws r2 in
      killed r3 = killed r
      ∧ observed r2 ws = observed r ws
      ∧ observed r3 ws
        = observed r ws ++ replay (outputBuffer (foldl bufferOutput s interim))
      ∧ (interim ≠ [] →
         outputBuffer (foldl bufferOutput s interim)
         = lastn (maxBufferLines s) (outputBuffer s ++ linesOf interim)
         ∧ (0 < maxBufferLines s → outputBuffer (foldl bufferOutput s interim) ≠ [])).
Proof.
  intros Hs r1. subst r1. unfold removeClientFromSession. rewrite Hs.
  set (r1 := set_sessions _ r).
  assert (sessions r1 !! t = Some (set_clients (λ cs, cs ∖ {[ws]}) s)) as Hs1.
  { subst r1. cbn. by rewrite lookup_alter_eq, Hs. }
  split; [|split; [|split; [|split; [|split]]]]; try done.
  - eexists. split; [done|]. split; [apply sameButClients_set|done].
  - intros t' Ht'. subst r1. cbn. by rewrite lookup_alter_ne.
  - intros interim Hopen.
    destruct (relay_spec t interim _ _ Hs1) as (Hc2 & Hk2 & _ & Hobs2 & s2 & Hs2 & Hsame2 & Hsub & _).
    assert (observed (relay t interim r1) ws = observed r ws) as Hgone.
    { rewrite Hobs2. rewrite decide_False; [by rewrite app_nil_r|].
      cbn. set_solver. }
    assert (ws ∉ closed (relay t interim r1)) as Hopen2 by (by rewrite Hc2).
    destruct (addClientToSession_spec t ws _ Hopen2) as (_ & Hk3 & Hobs3 & _).
    split; [by rewrite Hk3, Hk2|]. split; [done|]. split.
    + rewrite Hobs3, Hgone, Hs2. cbn [fmap option_fmap option_map default].
      f_equal. f_equal.
      destruct Hsame2 as (_ & _ & -> & _).
      pose proof (foldl_bufferOutput_sameButClients interim s _
                    (sameButClients_set (λ cs, cs ∖ {[ws]}) s)) as (_ & _ & -> & _).
      done.
    + intros Hne. split; [by apply foldl_bufferOutput_buffer|].
      intros Hmax Hempty. apply (f_equal length) in Hempty.
      rewrite foldl_bufferOutput_buffer, length_lastn, length_app in Hempty by done.
      pose proof (linesOf_nonempty interim Hne) as Hlines.
      destruct (linesOf interim); [done|]. cbn in Hempty. lia.
Qed.

Definition busySession : TerminalSession :=
  mkSession "T1" (Some 42) {[7]} ["one"; "two"; "three"] 1000 running (Some 1000) None.

Lemma detach_changes_only_the_observer_set_witness :
  sessions busyRegistry !! "T1" = Some busySession
  ∧ (7 ∉ closed busyRegistry)
  ∧ killed (removeClientFromSession "T1" 7 busyRegistry) = killed busyRegistry
  ∧ observed (addClientToSession "T1" 7
                (relay "T1" ["four"] (removeClientFromSession "T1" 7 busyRegistry))) 7
    = observed busyRegistry 7 ++ replay (outputBuffer (foldl bufferOutput busySession ["four"])).
Proof.
  assert (sessions busyRegistry !! "T1" = Some busySession) as H
    by (vm_compute; reflexivity).
  assert (7 ∉ closed busyRegistry) as Hopen by (vm_compute; set_solver).
  pose proof (detach_changes_only_the_observer_set "T1" 7 busyRegistry _ H)
    as (_ & _ & Hk & _ & _ & Hback).
  destruct (Hback ["four"] Hopen) as (_ & _ & Hobs & _).
  by split_and!.
Defined.

(** *** Fan-out, once more *)

(** X6: a chunk of output goes into the buffer of its session and, once,
    to every observer of that session whose socket still takes it, and to
    nobody else; an observer whose socket throws is taken off the session;
    the process and the status of the session and all other sessions are
    left alone. *)
Theorem output_reaches_the_open_observers_of_its_session
    (t text : string) (r : Registry) (s : TerminalSession) :
  sessions r !! t = Some s →
  (∀ ws, observed (onStdout t text r) ws
         = observed r ws ++ (if decide (ws ∈ clients s ∧ ws ∉ closed r) then [text] else []))
  ∧ (∀ t', t' ≠ t → sessions (onStdout t text r) !! t' = sessions r !! t')
  ∧ ∃ s', sessions (onStdout t text r) !! t = Some s'
          ∧ (∀ c, c ∈ clients s' ↔ c ∈ clients s ∧ c ∉ closed r)
          ∧ outputBuffer s' = lastn (maxBufferLines s) (outputBuffer s ++ Js.split Js.nl text)
          ∧ process s' = process s ∧ status s' = status s.
Proof.
  intros Hs.
  destruct (onStdout_spec t text r s Hs) as (_ & _ & Hot & Hobs & s' & Hs' & Hsame & Hcl).
  split; [done|]. split; [done|]. exists s'. split; [done|]. split; [done|].
  destruct Hsame as (_ & Hp & Hb & _ & Hst & _).
  rewrite Hb, Hp, Hst, bufferOutput_buffer. done.
Qed.

(** Sockets 7 and 8 observe the session of T1; socket 8 has gone away. *)
Definition twoObservers : Registry :=
  apply (addClientToSession "T1" 8 (addClientToSession "T1" 7 emptyRegistry)) (SocketGone 8).

Lemma output_reaches_the_open_observers_of_its_session_witness :
  sessions twoObservers !! "T1" = Some (mkSession "T1" None {[7; 8]} [] 1000 stopped None None)
  ∧ observed (onStdout "T1" "hello" twoObservers) 7 = ["hello"]
  ∧ observed (onStdout "T1" "hello" twoObservers) 8 = []
  ∧ ∃ s', sessions (onStdout "T1" "hello" twoObservers) !! "T1" = Some s'
          ∧ (7 ∈ clients s') ∧ (8 ∉ clients s') ∧ outputBuffer s' = ["hello"].
Proof.
  assert (sessions twoObservers !! "T1"
          = Some (mkSession "T1" None {[7; 8]} [] 1000 stopped None None)) as H.
  { vm_compute. reflexivity. }
  destruct (output_reaches_the_open_observers_of_its_session "T1" "hello" twoObservers _ H)
    as (Hobs & _ & s' & Hs' & Hcl & Hbuf & _).
  split; [exact H|]. split_and!.
  - rewrite Hobs. rewrite decide_True; [done|]. cbn. set_solver.
  - rewrite Hobs. rewrite decide_False; [done|]. cbn. set_solver.
  - exists s'. split; [done|]. split_and!.
    + apply Hcl. cbn. set_solver.
    + rewrite Hcl. cbn. set_solver.
    + by rewrite Hbuf.
Defined.

(** X8: when the process of a session has exited, the session is marked
    stopped and has no process, the notice of the exit is the newest entry
    of the buffer and has been sent to every observer whose socket takes
    it; the observers stay attached, and the status report says that the
    session does not run. *)
Theorem exit_is_recorded_and_announced (t : string) (code : nat) (r : Registry)
    (s : TerminalSession) :
  sessions r !! t = Some s →
  (∀ ws, observed (onExit t code r) ws
         = observed r ws
           ++ (if decide (ws ∈ clients s ∧ ws ∉ closed r) then [exitMessage code] else []))
  ∧ ss_running (getSessionStatus t (onExit t code r)) = false
  ∧ ∃ s', sessions (onExit t code r) !! t = Some s'
          ∧ process s' = None ∧ status s' = stopped
          ∧ outputBuffer s'
            = lastn (maxBufferLines s) (outputBuffer s ++ Js.split Js.nl (exitMessage code))
          ∧ ∀ c, c ∈ clients s' ↔ c ∈ clients s ∧ c ∉ closed r.
Proof.
  intros Hs. unfold onExit.
  set (detach := λ s0 : TerminalSession,
         mkSession (ticketId s0) None (clients s0) (outputBuffer s0)
                   (maxBufferLines s0) stopped (startedAt s0) (error s0)).
  set (r0 := set_sessions _ r).
  assert (sessions r0 !! t = Some (bufferOutput (detach s) (exitMessage code))) as Hs0.
  { subst r0. cbn. by rewrite lookup_alter_eq, Hs. }
  destruct (broadcastToSession_spec t (exitMessage code) r0 _ Hs0)
    as (_ & _ & _ & Hobs & s' & Hs' & Hsame & Hcl).
  destruct Hsame as (_ & Hp & Hb & _ & Hst & _).
  split; [intros ws; rewrite Hobs; reflexivity|]. split.
  - unfold getSessionStatus. rewrite Hs', Hp. reflexivity.
  - exists s'. split; [done|]. rewrite Hp, Hst, Hb. split_and!; try done.
    exact (bufferOutput_buffer (detach s) (exitMessage code)).
Qed.

Lemma exit_is_recorded_and_announced_witness :
  sessions busyRegistry !! "T1" = Some busySession
  ∧ observed (onExit "T1" 0 busyRegistry) 7 = observed busyRegistry 7 ++ [exitMessage 0]
  ∧ ss_running (getSessionStatus "T1" busyRegistry) = true
  ∧ ss_running (getSessionStatus "T1" (onExit "T1" 0 busyRegistry)) = false.
Proof.
  assert (sessions busyRegistry !! "T1" = Some busySession) as H
    by (vm_compute; reflexivity).
  destruct (exit_is_recorded_and_announced "T1" 0 busyRegistry _ H) as (Hobs & Hrun & _).
  split; [exact H|]. split_and!.
  - rewrite Hobs. rewrite decide_True; [done|]. cbn. set_solver.
  - unfold getSessionStatus. by rewrite H.
  - exact Hrun.
Defined.

(** *** Starting a session *)

Ltac reg_simpl :=
  cbn [sessions received closed killed set_sessions set_clients set_outputBuffer
       ticketId process clients outputBuffer maxBufferLines status startedAt error
       ss_running ss_status ss_clients ss_startedAt
       fst snd fmap option_fmap option_map default from_option id] in *.

(** The session [startTerminalSession] leaves for [s]. *)
Definition started (p now : nat) (s : TerminalSession) : TerminalSession :=
  match process s, status s with
  | Some _, running => s
  | _, _ => mkSession (ticketId s) (Some p) (clients s) (outputBuffer s)
                      (maxBufferLines s) running (Some now) (error s)
  end.

Lemma startTerminalSession_lookup (t : string) (p now : nat) (r : Registry) :
  sessions (startTerminalSession t p now r) !! t
  = Some (started p now (default (newSession t) (sessions r !! t)))
  ∧ (∀ t', t' ≠ t → sessions (startTerminalSession t p now r) !! t' = sessions r !! t')
  ∧ received (startTerminalSession t p now r) = received r
  ∧ closed (startTerminalSession t p now r) = closed r
  ∧ killed (startTerminalSession t p now r) = killed r.
Proof.
  unfold startTerminalSession, getOrCreateTerminalSession, started.
  destruct (sessions r !! t) as [s|] eqn:Hs; reg_simpl.
  - destruct (process s) as [q|], (status s); reg_simpl;
      rewrite ?lookup_insert_eq, ?Hs; split_and!; try done;
      intros t' Ht'; by rewrite lookup_insert_ne.
  - unfold newSession. reg_simpl. rewrite lookup_insert_eq. split_and!; try done.
    intros t' Ht'. by rewrite !lookup_insert_ne.
Qed.

Lemma started_running (p now : nat) (s : TerminalSession) :
  ∃ q, process (started p now s) = Some q ∧ status (started p now s) = running.
Proof.
  unfold started. destruct (process s) as [q|] eqn:Hp, (status s) eqn:Hst; reg_simpl; eauto.
Qed.

Lemma startTerminalSession_running (t : string) (p now : nat) (r : Registry) (s : TerminalSession)
    (q : Pid) :
  sessions r !! t = Some s → process s = Some q → status s = running →
  startTerminalSession t p now r = r.
Proof.
  intros Hs Hp Hst. unfold startTerminalSession, getOrCreateTerminalSession.
  by rewrite Hs, Hp, Hst.
Qed.

(** X9: after [startTerminalSession] has returned the session runs a
    process, and a further call changes nothing: the process it would
    attach is not attached.  Starting keeps the lines buffered so far and
    the observers, touches no other session, sends nothing and kills
    nothing. *)
Theorem a_second_start_changes_nothing (t : string) (p now : nat) (r : Registry) :
  ss_running (getSessionStatus t (startTerminalSession t p now r)) = true
  ∧ (∀ p' now', startTerminalSession t p' now' (startTerminalSession t p now r)
                = startTerminalSession t p now r)
  ∧ outputBuffer <$> sessions (startTerminalSession t p now r) !! t
    = Some (default [] (outputBuffer <$> sessions r !! t))
  ∧ clients <$> sessions (startTerminalSession t p now r) !! t
    = Some (default ∅ (clients <$> sessions r !! t))
  ∧ (∀ t', t' ≠ t → sessions (startTerminalSession t p now r) !! t' = sessions r !! t')
  ∧ received (startTerminalSession t p now r) = received r
  ∧ killed (startTerminalSession t p now r) = killed r.
Proof.
  destruct (startTerminalSession_lookup t p now r) as (Hs & Hot & Hrec & _ & Hk).
  destruct (started_running p now (default (newSession t) (sessions r !! t))) as (q & Hq & Hst).
  split_and!; try done.
  - unfold getSessionStatus. rewrite Hs. reg_simpl. by rewrite Hq, Hst.
  - intros p' now'. by eapply startTerminalSession_running.
  - rewrite Hs. reg_simpl. f_equal. unfold started.
    destruct (sessions r !! t) as [s|]; reg_simpl; [|done].
    by destruct (process s), (status s).
  - rewrite Hs. reg_simpl. f_equal. unfold started.
    destruct (sessions r !! t) as [s|]; reg_simpl; [|done].
    by destruct (process s), (status s).
Qed.
(** *** What holds of every session at any time *)

(** Every session is stored under its own ticket, keeps the bound it was
    created with, and holds no more lines than that. *)
Definition sessionOk (t : string) (s : TerminalSession) : Prop :=
  ticketId s = t ∧ maxBufferLines s = 1000 ∧ length (outputBuffer s) ≤ 1000.

Definition registryOk (r : Registry) : Prop :=
  ∀ t s, sessions r !! t = Some s → sessionOk t s.

Lemma sessionOk_sameButClients t s s' : sameButClients s s' → sessionOk t s → sessionOk t s'.
Proof. unfold sameButClients, sessionOk. intros (-> & _ & -> & -> & _). done. Qed.

Lemma sessionOk_bufferOutput t s data : sessionOk t s → sessionOk t (bufferOutput s data).
Proof.
  intros (Ht & Hm & Hl). unfold sessionOk.
  rewrite bufferOutput_buffer, length_lastn, bufferOutput_max, Hm.
  split; [done|]. split; [done|lia].
Qed.

Lemma registryOk_alter (f : TerminalSession → TerminalSession) t r :
  (∀ s, sessionOk t s → sessionOk t (f s)) →
  registryOk r → registryOk (set_sessions (alter f t) r).
Proof.
  intros Hf Hr t' s'. cbn. destruct (decide (t' = t)) as [->|Hne].
  - rewrite lookup_alter_eq. destruct (sessions r !! t) as [s|] eqn:Hs; [|done].
    intros [= <-]. apply Hf. by apply Hr.
  - rewrite lookup_alter_ne by done. apply Hr.
Qed.

Lemma registryOk_insert s t r :
  sessionOk t s → registryOk r → registryOk (set_sessions (insert t s) r).
Proof.
  intros Hs Hr t' s'. cbn. destruct (decide (t' = t)) as [->|Hne].
  - rewrite lookup_insert_eq. by intros [= <-].
  - rewrite lookup_insert_ne by done. apply Hr.
Qed.

Lemma registryOk_sessions r r' : sessions r' = sessions r → registryOk r → registryOk r'.
Proof. unfold registryOk. by intros ->. Qed.

Lemma registryOk_broadcastToSession t data r :
  registryOk r → registryOk (broadcastToSession t data r).
Proof.
  intros Hr. destruct (sessions r !! t) as [s|] eqn:Hs.
  - destruct (broadcastToSession_spec t data r s Hs) as (_ & _ & Hot & _ & s' & Hs' & Hsame & _).
    intros t' s0. destruct (decide (t' = t)) as [->|Hne].
    + rewrite Hs'. intros [= <-]. eapply sessionOk_sameButClients; [done|]. by apply Hr.
    + rewrite Hot by done. apply Hr.
  - unfold broadcastToSession. by rewrite Hs.
Qed.

Lemma registryOk_getOrCreate t r :
  registryOk r →
  registryOk (snd (getOrCreateTerminalSession t r))
  ∧ sessions (snd (getOrCreateTerminalSession t r)) !! t = Some (fst (getOrCreateTerminalSession t r))
  ∧ sessionOk t (fst (getOrCreateTerminalSession t r)).
Proof.
  intros Hr. unfold getOrCreateTerminalSession.
  destruct (sessions r !! t) as [s|] eqn:Hs; cbn [fst snd].
  - split; [done|]. split; [done|]. by apply Hr.
  - assert (sessionOk t (newSession t)) as Hnew by (unfold sessionOk; cbn; split_and!; [done|done|lia]).
    split; [by apply registryOk_insert|]. split; [|done].
    cbn. by rewrite lookup_insert_eq.
Qed.

Lemma apply_registryOk (r : Registry) (o : Op) : registryOk r → registryOk (apply r o).
Proof.
  intros Hr. destruct o as [t ws|t ws|t proc now|t text|t code|t|ws]; cbn [apply].
  - unfold addClientToSession.
    destruct (registryOk_getOrCreate t r Hr) as (Hr1 & _ & _).
    destruct (getOrCreateTerminalSession t r) as [s r1]. cbn [fst snd] in *.
    assert (registryOk (set_sessions (alter (set_clients (λ cs, cs ∪ {[ws]})) t) r1)) as Hr2.
    { apply registryOk_alter; [|done]. intros s0. apply sessionOk_sameButClients, sameButClients_set. }
    destruct (outputBuffer s); [done|].
    destruct (send ws _ _) as [r3|] eqn:Hsend; [|done].
    destruct (observed_send ws _ _ _ _ Hsend) as (_ & Hs3 & _).
    by eapply registryOk_sessions.
  - unfold removeClientFromSession. destruct (sessions r !! t); [|done].
    apply registryOk_alter; [|done]. intros s0. apply sessionOk_sameButClients, sameButClients_set.
  - unfold startTerminalSession.
    destruct (registryOk_getOrCreate t r Hr) as (Hr1 & _ & Hs).
    destruct (getOrCreateTerminalSession t r) as [s r1]. cbn [fst snd] in *.
    destruct (process s), (status s); try done; by apply registryOk_insert.
  - unfold onStdout. apply registryOk_broadcastToSession, registryOk_alter; [|done].
    intros s0. apply sessionOk_bufferOutput.
  - unfold onExit. apply registryOk_broadcastToSession, registryOk_alter; [|done].
    intros s0 Hs0. apply sessionOk_bufferOutput. exact Hs0.
  - unfold killTerminalSession. destruct (sessions r !! t) as [s|] eqn:Hs; [|done].
    destruct (process s); [|done].
    intros t' s'. cbn. destruct (decide (t' = t)) as [->|Hne].
    + rewrite lookup_insert_eq. intros [= <-]. exact (Hr t s Hs).
    + rewrite lookup_insert_ne by done. apply Hr.
  - done.
Qed.

(** X7: whatever is called in whatever order, with whatever sockets going
    away in between, every session in the registry is the one of the
    ticket it is stored under, has the bound of 1000 lines it was created
    with and holds no more lines than that. *)
Theorem sessions_stay_within_their_bound (ops : list Op) (ws : gset Client) (t : string)
    (s : TerminalSession) :
  sessions (applyAll (mkRegistry ∅ ∅ ws ∅) ops) !! t = Some s →
  ticketId s = t ∧ maxBufferLines s = 1000 ∧ length (outputBuffer s) ≤ 1000.
Proof.
  assert (∀ r, registryOk r → registryOk (applyAll r ops)) as H.
  { unfold applyAll. induction ops as [|o ops IH]; intros r Hr; [done|].
    cbn [foldl]. by apply IH, apply_registryOk. }
  apply (H (mkRegistry ∅ ∅ ws ∅)). intros t' s'. cbn. by rewrite lookup_empty.
Qed.
Lemma sessions_stay_within_their_bound_witness :
  ∃ s, sessions (applyAll (mkRegistry ∅ ∅ ∅ ∅)
                   [AddClient "T1" 7; StartSession "T1" 42 1000; Stdout "T1" manyLines;
                    Exited "T1" 0]) !! "T1" = Some s
       ∧ ticketId s = "T1" ∧ maxBufferLines s = 1000 ∧ length (outputBuffer s) ≤ 1000.
Proof.
  assert (is_Some (sessions (applyAll (mkRegistry ∅ ∅ ∅ ∅)
                     [AddClient "T1" 7; StartSession "T1" 42 1000; Stdout "T1" manyLines;
                      Exited "T1" 0]) !! "T1")) as [s Hs].
  { vm_compute. by eexists. }
  exists s. split; [exact Hs|].
  exact (sessions_stay_within_their_bound _ ∅ "T1" s Hs).
Defined.

(** *** Whose sockets observe a session *)

Section Own.
Variable own : Client → string → Prop.

(** Every observer of a session is a socket of the session's ticket,
    and only such sockets have been sent anything. *)
Definition ownedBy (r : Registry) : Prop :=
  (∀ t sess ws, sessions r !! t = Some sess → ws ∈ clients sess → own ws t)
  ∧ (∀ ws, received r !! ws ≠ None → ∃ t, own ws t).

Lemma ownedBy_alter (f : TerminalSession → TerminalSession) t r :
  (∀ s ws, ws ∈ clients (f s) → ws ∈ clients s) →
  ownedBy r → ownedBy (set_sessions (alter f t) r).
Proof.
  intros Hf [Hs Hr]. split; [|done]. intros t' sess ws. cbn.
  destruct (decide (t' = t)) as [->|Hne].
  - rewrite lookup_alter_eq. destruct (sessions r !! t) as [s0|] eqn:H0; [|done].
    intros [= <-] Hin. eapply Hs; [done|]. by apply Hf.
  - rewrite lookup_alter_ne by done. apply Hs.
Qed.

Lemma ownedBy_send ws data r r' :
  send ws data r = Some r' → (∃ t, own ws t) → ownedBy r → ownedBy r'.
Proof.
  unfold send. case_decide; [done|]. intros [= <-] Hown [Hs Hr]. split; [done|].
  intros ws'. cbn. destruct (decide (ws' = ws)) as [->|Hne]; [done|].
  rewrite lookup_insert_ne by done. apply Hr.
Qed.

Lemma ownedBy_broadcastTo t data r ws :
  (∃ t, own ws t) → ownedBy r → ownedBy (broadcastTo t data r ws).
Proof.
  intros Hown Hr. unfold broadcastTo. destruct (send ws data r) as [r'|] eqn:Hsend.
  - by eapply ownedBy_send.
  - apply ownedBy_alter; [|done]. intros s c. cbn. set_solver.
Qed.

Lemma ownedBy_broadcastToSession t data r : ownedBy r → ownedBy (broadcastToSession t data r).
Proof.
  intros Hr. unfold broadcastToSession. destruct (sessions r !! t) as [s|] eqn:Hs; [|done].
  assert (∀ ws, ws ∈ elements (clients s) → ∃ t, own ws t) as Hl.
  { intros ws Hin%elem_of_elements. exists t. by eapply (proj1 Hr). }
  clear Hs. revert r Hr. induction (elements (clients s)) as [|c l IH]; intros r Hr; [done|].
  cbn. apply IH.
  - intros ws Hin. apply Hl. by right.
  - apply ownedBy_broadcastTo; [|done]. apply Hl. by left.
Qed.

Lemma ownedBy_getOrCreate t r :
  ownedBy r → ownedBy (getOrCreateTerminalSession t r).2
  ∧ sessions (getOrCreateTerminalSession t r).2 !! t = Some (getOrCreateTerminalSession t r).1.
Proof.
  intros Hr. unfold getOrCreateTerminalSession. destruct (sessions r !! t) as [s|] eqn:Hs; [done|].
  cbn. rewrite lookup_insert_eq. split; [|done]. destruct Hr as [Hs' Hr]. split; [|done].
  intros t' sess ws. cbn. destruct (decide (t' = t)) as [->|Hne].
  - rewrite lookup_insert_eq. intros [= <-]. cbn. set_solver.
  - rewrite lookup_insert_ne by done. apply Hs'.
Qed.

Lemma ownedBy_insert t s s' r :
  sessions r !! t = Some s → (∀ ws, ws ∈ clients s' → ws ∈ clients s) →
  ownedBy r → ownedBy (set_sessions (insert t s') r).
Proof.
  intros Hs Hsub [Hs' Hr]. split; [|done]. intros t' sess ws. cbn.
  destruct (decide (t' = t)) as [->|Hne].
  - rewrite lookup_insert_eq. intros [= <-] Hin. eapply Hs'; [done|]. by apply Hsub.
  - rewrite lookup_insert_ne by done. apply Hs'.
Qed.

Lemma ownedBy_addClientToSession t ws r :
  own ws t → ownedBy r → ownedBy (addClientToSession t ws r).
Proof.
  intros Hown Hr. unfold addClientToSession.
  destruct (ownedBy_getOrCreate t r Hr) as [Hr1 Hs1].
  destruct (getOrCreateTerminalSession t r) as [s r1]. cbn [fst snd] in Hr1, Hs1.
  assert (ownedBy (set_sessions (alter (set_clients (λ cs, cs ∪ {[ws]})) t) r1)) as Hr2.
  { destruct Hr1 as [Hs' Hr']. split; [|done]. intros t' sess c. cbn.
    destruct (decide (t' = t)) as [->|Hne].
    - rewrite lookup_alter_eq, Hs1. intros [= <-]. cbn.
      intros [Hin| ->%elem_of_singleton]%elem_of_union; [|done]. by eapply Hs'.
    - rewrite lookup_alter_ne by done. apply Hs'. }
  destruct (outputBuffer s); [done|].
  destruct (send _ _ _) as [r3|] eqn:Hsend; [|done].
  eapply ownedBy_send; [done| |done]. by exists t.
Qed.

Lemma ownedBy_removeClientFromSession t ws r :
  ownedBy r → ownedBy (removeClientFromSession t ws r).
Proof.
  intros Hr. unfold removeClientFromSession. destruct (sessions r !! t); [|done].
  apply ownedBy_alter; [|done]. intros s c. cbn. set_solver.
Qed.

Lemma ownedBy_startTerminalSession t proc now r :
  ownedBy r → ownedBy (startTerminalSession t proc now r).
Proof.
  intros Hr. unfold startTerminalSession.
  destruct (ownedBy_getOrCreate t r Hr) as [Hr1 Hs1].
  destruct (getOrCreateTerminalSession t r) as [s r1]. cbn [fst snd] in Hr1, Hs1.
  assert (ownedBy (set_sessions (insert t (mkSession (ticketId s) (Some proc) (clients s)
            (outputBuffer s) (maxBufferLines s) running (Some now) (error s))) r1)) as Hr2.
  { by eapply ownedBy_insert. }
  destruct (process s), (status s); done.
Qed.

Lemma ownedBy_onStdout t text r : ownedBy r → ownedBy (onStdout t text r).
Proof.
  intros Hr. unfold onStdout. apply ownedBy_broadcastToSession, ownedBy_alter; [|done]. done.
Qed.

Lemma ownedBy_onExit t code r : ownedBy r → ownedBy (onExit t code r).
Proof.
  intros Hr. unfold onExit. apply ownedBy_broadcastToSession, ownedBy_alter; [|done]. done.
Qed.

End Own.

Lemma ownedBy_mono (own own' : Client → string → Prop) r :
  (∀ ws t, own ws t → own' ws t) → ownedBy own r → ownedBy own' r.
Proof.
  intros Hsub [Hs Hr]. split.
  - intros t sess ws H1 H2. eapply Hsub, Hs; done.
  - intros ws Hne. destruct (Hr ws Hne) as [t Ht]. exists t. by apply Hsub.
Qed.


(** *** Input *)

(** What [sendToTerminal] writes. *)
Lemma sendToTerminal_typedInto (t data : string) (r : Terminal.Registry) (i : Terminal.Inputs)
    (p : Terminal.Pid) :
  Terminal.typedInto (Terminal.sendToTerminal t data r i) p
  = Terminal.typedInto i p
    ++ if decide (Terminal.process <$> Terminal.sessions r !! t = Some (Some p)
                  ∧ p ∉ Terminal.broken i)
       then [data] else [].
Proof.
  unfold Terminal.sendToTerminal.
  destruct (Terminal.sessions r !! t) as [sess|]; cbn [fmap option_fmap option_map];
    [|rewrite decide_False by (by intros [? _]); by rewrite app_nil_r].
  destruct (Terminal.process sess) as [q|];
    [|rewrite decide_False by (by intros [? _]); by rewrite app_nil_r].
  destruct (decide (q ∈ Terminal.broken i)) as [Hq|Hq].
  - rewrite decide_False; [by rewrite app_nil_r|]. intros [[= ->] ?]. done.
  - unfold Terminal.typedInto at 1. cbn. destruct (decide (p = q)) as [->|Hne].
    + rewrite lookup_insert_eq, decide_True by done. done.
    + rewrite lookup_insert_ne by done. rewrite decide_False; [by rewrite app_nil_r|].
      intros [[= ->] ?]. done.
Qed.

(** *** Starting a session that may fail *)

Lemma startTerminalSessionM_spawned (t : string) (proc : Pid) (now : nat) (r : Registry) :
  startTerminalSessionM t (inr proc) now r = (inr (), startTerminalSession t proc now r).
Proof.
  unfold startTerminalSessionM, startTerminalSession.
  destruct (getOrCreateTerminalSession t r) as [s r1].
  by destruct (process s), (status s).
Qed.

Lemma startTerminalSessionM_running (t : string) (spawned : Js.Exn + Pid) (now : nat)
    (r : Registry) :
  ss_running (getSessionStatus t r) = true →
  startTerminalSessionM t spawned now r = (inr (), r).
Proof.
  unfold startTerminalSessionM, getSessionStatus, getOrCreateTerminalSession.
  destruct (sessions r !! t) as [s|]; [|done]. cbn.
  by destruct (process s), (status s).
Qed.

Lemma startTerminalSessionM_throws (t : string) (e : Js.Exn) (now : nat) (r : Registry) :
  ss_running (getSessionStatus t r) = false →
  ∃ r', startTerminalSessionM t (inl e) now r = (inl e, r')
        ∧ ss_running (getSessionStatus t r') = false
        ∧ ss_status (getSessionStatus t r') = "starting"
        ∧ ss_clients (getSessionStatus t r') = ss_clients (getSessionStatus t r).
Proof.
  unfold startTerminalSessionM, getSessionStatus, getOrCreateTerminalSession.
  destruct (sessions r !! t) as [s|] eqn:Hs; cbn.
  - intros Hrun.
    assert (∀ r1, ss_running (getSessionStatus t (set_sessions (insert t
              (mkSession (ticketId s) (process s) (clients s) (outputBuffer s)
                         (maxBufferLines s) starting (startedAt s) (error s))) r1)) = false
            ∧ ss_status (getSessionStatus t (set_sessions (insert t
                (mkSession (ticketId s) (process s) (clients s) (outputBuffer s)
                           (maxBufferLines s) starting (startedAt s) (error s))) r1))
              = "starting"
            ∧ ss_clients (getSessionStatus t (set_sessions (insert t
                (mkSession (ticketId s) (process s) (clients s) (outputBuffer s)
                           (maxBufferLines s) starting (startedAt s) (error s))) r1))
              = size (clients s)) as Hnew.
    { intros r1. unfold getSessionStatus. cbn. rewrite lookup_insert_eq. cbn.
      by destruct (process s). }
    revert Hrun Hnew. generalize (mkSession (ticketId s) (process s) (clients s)
      (outputBuffer s) (maxBufferLines s) starting (startedAt s) (error s)).
    intros s1 Hrun Hnew.
    destruct (process s) as [p|]; [destruct (status s)|]; try done;
      eexists; (split; [reflexivity|apply Hnew]).
  - intros _. eexists. split; [done|]. cbn. rewrite lookup_insert_eq. cbn.
    by split_and!.
Qed.


End TerminalSpec.


(** ** Properties of the workspace manager *)

Module WorktreeSpec.
Import Worktree.

(** Unfolds the monad. *)
Ltac run_monad :=
  unfold ignore_errors in *;
  unfold mbind, mret, M_bind, M_ret, try_catch, throw, get, gets, modify, zoom in *.

(** Computes projections of built records, and nothing else. *)
Ltac repo_simpl :=
  cbn [worktreesDir dirs registered branches env set_dirs set_registered set_branches
       path branch head locked ticketId negb andb orb fst snd] in *.

Definition alreadyExists (t : string) : Js.Exn :=
  Js.Error ("Worktree already exists for ticket " +:+ t).

(** What [create] does, case by case. *)
Lemma create_outcome (t base : string) (g : Repo) :
  ((worktreePathOf g t ∈ dirs g) → create t base g = (inl (alreadyExists t), g))
  ∧ match create t base g with
    | (inl e, g') => dirs g' = dirs g ∧ worktreesDir g' = worktreesDir g
    | (inr wt, g') =>
        (worktreePathOf g t ∉ dirs g)
        ∧ dirs g' = dirs g ∪ {[worktreePathOf g t]}
        ∧ registered g' = <[worktreePathOf g t := true]> (<[worktreePathOf g t := false]> (registered g))
        ∧ branches g' = branches g ∪ {[branchNameOf t]}
        ∧ worktreesDir g' = worktreesDir g
        ∧ wt = mkWorktree (worktreePathOf g t) (branchNameOf t) (head wt) true (Some t)
    end.
Proof.
  destruct g as [wd ds reg br e].
  unfold create, existsSync, rmSync, lock, getHead, gitFetch, gitWorktreeAdd,
    gitWorktreeLock, worktreePathOf.
  run_monad. repo_simpl. set (p := wd +:+ "/" +:+ "ticket-" +:+ t).
  destruct (decide (p ∈ ds)) as [Hin|Hout].
  - rewrite (bool_decide_eq_true_2 (p ∈ ds)) by done. done.
  - rewrite (bool_decide_eq_false_2 (p ∈ ds)) by done. split; [done|]. repo_simpl.
    destruct (fetchFails e base); repo_simpl.
    { rewrite (bool_decide_eq_false_2 (p ∈ ds)) by done. done. }
    destruct (decide (branchNameOf t ∈ br)); repo_simpl.
    { rewrite (bool_decide_eq_false_2 (p ∈ ds)) by done. done. }
    destruct (decide (p ∈ dom reg)); repo_simpl.
    { rewrite (bool_decide_eq_false_2 (p ∈ ds)) by done. done. }
    rewrite (decide_False (P := p ∈ ds)) by done.
    destruct (addFails e p) as [[|]|]; repo_simpl.
    + rewrite (bool_decide_eq_true_2 (p ∈ ds ∪ {[p]})) by set_solver.
      repo_simpl. split; [set_solver|done].
    + rewrite (bool_decide_eq_false_2 (p ∈ ds)) by done. done.
    + rewrite lookup_insert_eq. repo_simpl.
      destruct (logHead e p); repo_simpl.
      * done.
      * rewrite (bool_decide_eq_true_2 (p ∈ ds ∪ {[p]})) by set_solver.
        repo_simpl. split; [set_solver|done].
Qed.

(** C7: [create] refuses a ticket whose workspace directory is on disk,
    with the already-exists error and without touching anything; when it
    fails for any other reason the directories on disk are those from
    before the call, so nothing of the new workspace is left; and when it
    succeeds there was no workspace before, the directory now exists, and
    the workspace is locked, in the returned record and in git. *)
Theorem create_exclusive_clean_and_locked (t base : string) (g : Repo) :
  ((worktreePathOf g t ∈ dirs g) → create t base g = (inl (alreadyExists t), g))
  ∧ match create t base g with
    | (inl e, g') => dirs g' = dirs g
    | (inr wt, g') =>
        (worktreePathOf g t ∉ dirs g)
        ∧ (worktreePathOf g t ∈ dirs g')
        ∧ path wt = worktreePathOf g t
        ∧ ticketId wt = Some t
        ∧ locked wt = true
        ∧ registered g' !! worktreePathOf g t = Some true
    end.
Proof.
  destruct (create_outcome t base g) as [Hex Hout]. split; [done|].
  destruct (create t base g) as [[e|wt] g']; [by destruct Hout|].
  destruct Hout as (Hnew & Hd & Hr & _ & _ & ->). repo_simpl.
  rewrite Hd, Hr, lookup_insert_eq. split_and!; try done. set_solver.
Qed.

(** A workspace directory for T7 is on disk. *)
Definition repoTaken : Repo :=
  mkRepo "/srv/worktrees" {["/srv/worktrees/ticket-T7"]}
         {["/srv/worktrees/ticket-T7" := true]} {["ticket/T7"]}
         (mkGitEnv (λ _, false) (λ _, None) (λ _, Some "4f2a9c1") ∅ ∅).

Lemma create_exclusive_clean_and_locked_witness :
  (worktreePathOf repoTaken "T7" ∈ dirs repoTaken)
  ∧ create "T7" "main" repoTaken = (inl (alreadyExists "T7"), repoTaken).
Proof.
  assert (worktreePathOf repoTaken "T7" ∈ dirs repoTaken) as H
    by (vm_compute; set_solver).
  split; [exact H|].
  exact (proj1 (create_exclusive_clean_and_locked "T7" "main" repoTaken) H).
Defined.

(** *** Lock release and removal *)

Lemma unlock_spec (t : string) (g : Repo) :
  dirs (snd (unlock t g)) = dirs g
  ∧ branches (snd (unlock t g)) = branches g
  ∧ dom (registered (snd (unlock t g))) = dom (registered g)
  ∧ worktreesDir (snd (unlock t g)) = worktreesDir g
  ∧ env (snd (unlock t g)) = env g
  ∧ registered (snd (unlock t g)) !! worktreePathOf g t
    = (λ _, false) <$> registered g !! worktreePathOf g t.
Proof.
  unfold unlock, gitWorktreeUnlock. run_monad.
  destruct (registered g !! worktreePathOf g t) as [[|]|] eqn:E; repo_simpl;
    rewrite ?lookup_insert_eq; repeat split; try done.
  apply dom_insert_lookup_L. by rewrite E.
Qed.

Lemma remove_dirs_subset (t : string) (force : bool) (g : Repo) :
  dirs (snd (remove t force g)) ⊆ dirs g.
Proof.
  unfold remove. run_monad.
  pose proof (unlock_spec t g) as (Hd & _).
  destruct (unlock t g) as [[?|[]] g1]; repo_simpl;
    unfold gitWorktreeRemove;
    (destruct (registered g1 !! worktreePathOf g t) as [[|]|]; repo_simpl;
       [by rewrite Hd| |by rewrite Hd]);
    (destruct (negb force && bool_decide (worktreePathOf g t ∈ dirty (env g1))); repo_simpl;
       [by rewrite Hd|]);
    unfold deleteLocalBranch; repeat case_decide; repeat case_match; repo_simpl;
    simplify_eq; repo_simpl; set_solver.
Qed.

(** A forced removal of a registered worktree takes its directory off
    the disk. *)
Lemma remove_forced_registered (t : string) (g : Repo) :
  worktreePathOf g t ∈ dom (registered g) →
  worktreePathOf g t ∉ dirs (snd (remove t true g)).
Proof.
  intros [l Hl]%elem_of_dom. unfold remove. run_monad.
  pose proof (unlock_spec t g) as (Hd & _ & _ & _ & _ & Hr). rewrite Hl in Hr.
  destruct (unlock t g) as [[?|[]] g1] eqn:Hu; repo_simpl;
    unfold gitWorktreeRemove; rewrite Hr; repo_simpl;
    unfold deleteLocalBranch; repeat case_decide; repeat case_match; repo_simpl;
    simplify_eq; repo_simpl; set_solver.
Qed.

(** *** Creation and removal together *)

(** What a successful [create] found and what it left. *)
Lemma create_fresh (t base : string) (g g' : Repo) (wt : Worktree) :
  create t base g = (inr wt, g') →
  (worktreePathOf g t ∉ dirs g)
  ∧ (worktreePathOf g t ∉ dom (registered g))
  ∧ (branchNameOf t ∉ branches g)
  ∧ g' = mkRepo (worktreesDir g) (dirs g ∪ {[worktreePathOf g t]})
                (<[worktreePathOf g t := true]> (<[worktreePathOf g t := false]> (registered g)))
                (branches g ∪ {[branchNameOf t]}) (env g).
Proof.
  destruct g as [wd ds reg br e].
  unfold create, existsSync, rmSync, lock, getHead, gitFetch, gitWorktreeAdd,
    gitWorktreeLock, worktreePathOf.
  run_monad. repo_simpl. set (p := wd +:+ "/" +:+ "ticket-" +:+ t).
  destruct (decide (p ∈ ds)) as [Hin|Hout].
  - rewrite (bool_decide_eq_true_2 (p ∈ ds)) by done. done.
  - rewrite (bool_decide_eq_false_2 (p ∈ ds)) by done. repo_simpl.
    destruct (fetchFails e base); repo_simpl.
    { rewrite (bool_decide_eq_false_2 (p ∈ ds)) by done. done. }
    destruct (decide (branchNameOf t ∈ br)); repo_simpl.
    { rewrite (bool_decide_eq_false_2 (p ∈ ds)) by done. done. }
    destruct (decide (p ∈ dom reg)); repo_simpl.
    { rewrite (bool_decide_eq_false_2 (p ∈ ds)) by done. done. }
    rewrite (decide_False (P := p ∈ ds)) by done.
    destruct (addFails e p) as [[|]|]; repo_simpl.
    + rewrite (bool_decide_eq_true_2 (p ∈ ds ∪ {[p]})) by set_solver. done.
    + rewrite (bool_decide_eq_false_2 (p ∈ ds)) by done. done.
    + rewrite lookup_insert_eq. repo_simpl.
      destruct (logHead e p); repo_simpl.
      * intros [= <- <-]. done.
      * rewrite (bool_decide_eq_true_2 (p ∈ ds ∪ {[p]})) by set_solver. done.
Qed.

(** A forced removal of a registered worktree goes through, locked or
    not, with or without its branch. *)
Lemma remove_forced (t : string) (g : Repo) :
  worktreePathOf g t ∈ dom (registered g) →
  remove t true g
  = (inr (), mkRepo (worktreesDir g) (dirs g ∖ {[worktreePathOf g t]})
                    (delete (worktreePathOf g t) (registered g))
                    (branches g ∖ {[branchNameOf t]}) (env g)).
Proof.
  intros [l Hl]%elem_of_dom. destruct g as [wd ds reg br e].
  unfold worktreePathOf in *. repo_simpl. set (p := wd +:+ "/" +:+ "ticket-" +:+ t) in *.
  unfold remove, unlock, gitWorktreeUnlock, gitWorktreeRemove, deleteLocalBranch, worktreePathOf.
  run_monad. repo_simpl. fold p. rewrite Hl.
  destruct l; repo_simpl; rewrite ?lookup_insert_eq, ?Hl; repo_simpl;
    unfold set_branches, set_registered, set_dirs; repo_simpl;
    (destruct (decide (branchNameOf t ∈ br)) as [Hb|Hb]; repo_simpl;
     f_equal; f_equal; rewrite ?delete_insert_eq; try done;
     apply leibniz_equiv; set_solver).
Qed.

(** X1: a workspace that [create] has made is taken away again by a
    forced [remove], lock and branch included: disk, worktree registry
    and branches are exactly what they were before the creation, so that
    the workspace of that ticket can be created anew. *)
Theorem forced_removal_undoes_create (t base : string) (g g' : Repo) (wt : Worktree) :
  create t base g = (inr wt, g') →
  remove t true g' = (inr (), g).
Proof.
  intros Hcr. apply create_fresh in Hcr as (Hd & Hr & Hb & ->).
  destruct g as [wd ds reg br e]. unfold worktreePathOf in *. repo_simpl.
  set (p := wd +:+ "/" +:+ "ticket-" +:+ t) in *.
  unfold remove, unlock, gitWorktreeUnlock, gitWorktreeRemove, deleteLocalBranch, worktreePathOf.
  run_monad. repo_simpl. fold p.
  rewrite lookup_insert_eq. repo_simpl. rewrite lookup_insert_eq. repo_simpl.
  rewrite (decide_True (P := branchNameOf t ∈ br ∪ {[branchNameOf t]})) by set_solver.
  unfold set_branches, set_registered, set_dirs. repo_simpl. f_equal. f_equal.
  - apply leibniz_equiv. set_solver.
  - rewrite !insert_insert_eq, delete_insert_eq. apply delete_id. by apply not_elem_of_dom.
  - apply leibniz_equiv. set_solver.
Qed.
Definition repoFresh : Repo :=
  mkRepo "/srv/worktrees" ∅ ∅ ∅
         (mkGitEnv (λ _, false) (λ _, None) (λ _, Some "4f2a9c1") ∅ ∅).

Lemma forced_removal_undoes_create_witness :
  fst (create "T1" "main" repoFresh)
  = inr (mkWorktree "/srv/worktrees/ticket-T1" "ticket/T1" "4f2a9c1" true (Some "T1"))
  ∧ remove "T1" true (snd (create "T1" "main" repoFresh)) = (inr (), repoFresh).
Proof.
  assert (fst (create "T1" "main" repoFresh)
          = inr (mkWorktree "/srv/worktrees/ticket-T1" "ticket/T1" "4f2a9c1" true (Some "T1")))
    as H by (vm_compute; reflexivity).
  split; [exact H|].
  apply (forced_removal_undoes_create "T1" "main" repoFresh _
           (mkWorktree "/srv/worktrees/ticket-T1" "ticket/T1" "4f2a9c1" true (Some "T1"))).
  destruct (create "T1" "main" repoFresh) as [r g]. cbn [fst snd] in *. by subst.
Defined.

(** X2: a forced [remove] of a workspace git knows goes through whether
    the workspace is locked or not and whether its branch exists or not;
    afterwards the directory, the registration and the branch are gone
    and nothing else has changed. *)
Theorem forced_removal_always_works (t : string) (g : Repo) :
  worktreePathOf g t ∈ dom (registered g) →
  remove t true g
  = (inr (), mkRepo (worktreesDir g) (dirs g ∖ {[worktreePathOf g t]})
                    (delete (worktreePathOf g t) (registered g))
                    (branches g ∖ {[branchNameOf t]}) (env g))
  ∧ (worktreePathOf g t ∉ dirs (snd (remove t true g)))
  ∧ (worktreePathOf g t ∉ dom (registered (snd (remove t true g))))
  ∧ (branchNameOf t ∉ branches (snd (remove t true g))).
Proof.
  intros Hreg. rewrite (remove_forced t g Hreg). repo_simpl.
  split_and!; [done|set_solver| |set_solver].
  rewrite dom_delete_L. set_solver.
Qed.

Lemma forced_removal_always_works_witness :
  (worktreePathOf repoTaken "T7" ∈ dom (registered repoTaken))
  ∧ (worktreePathOf repoTaken "T7" ∉ dirs (snd (remove "T7" true repoTaken)))
  ∧ (branchNameOf "T7" ∉ branches (snd (remove "T7" true repoTaken))).
Proof.
  assert (worktreePathOf repoTaken "T7" ∈ dom (registered repoTaken)) as H.
  { apply elem_of_dom. by eexists. }
  pose proof (forced_removal_always_works "T7" repoTaken H) as (_ & Hd & _ & Hb).
  by split_and!.
Defined.

(** X3: an unforced [remove] of a workspace that holds changes is
    refused, but not before the lock has been released: the workspace,
    its directory and its branch stay, and the workspace is unlocked from
    then on. *)
Theorem refused_removal_leaves_the_workspace_unlocked (t : string) (g : Repo) :
  worktreePathOf g t ∈ dom (registered g) →
  worktreePathOf g t ∈ dirty (env g) →
  ∃ e, remove t false g
       = (inl e, set_registered (insert (worktreePathOf g t) false) g).
Proof.
  intros [l Hl]%elem_of_dom Hdirty. destruct g as [wd ds reg br e].
  unfold worktreePathOf in *. repo_simpl. set (p := wd +:+ "/" +:+ "ticket-" +:+ t) in *.
  unfold remove, unlock, gitWorktreeUnlock, gitWorktreeRemove, deleteLocalBranch, worktreePathOf.
  run_monad. repo_simpl. fold p. rewrite Hl.
  destruct l; repo_simpl; rewrite ?lookup_insert_eq, ?Hl; repo_simpl;
    rewrite (bool_decide_eq_true_2 (p ∈ dirty e)) by done; repo_simpl;
    eexists; f_equal; unfold set_registered; repo_simpl; f_equal.
  symmetry. by apply insert_id.
Qed.

(** The workspace of T7 holds changes that are not committed. *)
Definition repoDirty : Repo :=
  mkRepo "/srv/worktrees" {["/srv/worktrees/ticket-T7"]}
         {["/srv/worktrees/ticket-T7" := true]} {["ticket/T7"]}
         (mkGitEnv (λ _, false) (λ _, None) (λ _, Some "4f2a9c1")
                   {["/srv/worktrees/ticket-T7"]} ∅).

Lemma refused_removal_leaves_the_workspace_unlocked_witness :
  (worktreePathOf repoDirty "T7" ∈ dom (registered repoDirty))
  ∧ (worktreePathOf repoDirty "T7" ∈ dirty (env repoDirty))
  ∧ registered repoDirty !! worktreePathOf repoDirty "T7" = Some true
  ∧ ∃ e, remove "T7" false repoDirty
         = (inl e, set_registered (insert (worktreePathOf repoDirty "T7") false) repoDirty).
Proof.
  assert (worktreePathOf repoDirty "T7" ∈ dom (registered repoDirty)) as H.
  { apply elem_of_dom. by eexists. }
  assert (worktreePathOf repoDirty "T7" ∈ dirty (env repoDirty)) as Hd.
  { cbn. set_solver. }
  split; [exact H|]. split; [exact Hd|]. split; [reflexivity|].
  exact (refused_removal_leaves_the_workspace_unlocked "T7" repoDirty H Hd).
Defined.

(** A [remove] for a ticket without a registered workspace throws and
    changes nothing; a branch left over from that ticket stays. *)
Lemma remove_unknown (t : string) (force : bool) (g : Repo) :
  worktreePathOf g t ∉ dom (registered g) →
  ∃ e, remove t force g = (inl e, g).
Proof.
  intros Hl%not_elem_of_dom. destruct g as [wd ds reg br e].
  unfold worktreePathOf in *. repo_simpl. set (p := wd +:+ "/" +:+ "ticket-" +:+ t) in *.
  unfold remove, unlock, gitWorktreeUnlock, gitWorktreeRemove, deleteLocalBranch, worktreePathOf.
  run_monad. repo_simpl. fold p. rewrite Hl. repo_simpl. rewrite Hl. by eexists.
Qed.

(** *** Reading the listing *)

Lemma noSlash_app_slash (s rest : string) : noSlash (s +:+ String "/" rest) = false.
Proof.
  induction s as [|c s IH]; [done|].
  change (String c s +:+ String "/" rest) with (String c (s +:+ String "/" rest)).
  cbn [noSlash]. by rewrite IH, andb_false_r.
Qed.

(** Where a word without a slash begins in front of a slash, what follows
    the word still holds the slash. *)
Lemma prefix_before_slash (lit : string) : ∀ s rest,
  noSlash lit = true →
  String.prefix lit (s +:+ String "/" rest) = true →
  noSlash (Js.drop (String.length lit) (s +:+ String "/" rest)) = false.
Proof.
  induction lit as [|a lit IH]; intros s rest Hlit Hpre.
  - apply noSlash_app_slash.
  - cbn [noSlash] in Hlit. apply andb_true_iff in Hlit as [Ha Hlit].
    destruct s as [|b s].
    + change ("" +:+ String "/" rest) with (String "/" rest) in *.
      cbn [String.prefix] in Hpre.
      destruct (Ascii.ascii_dec a "/") as [->|]; [done|done].
    + change (String b s +:+ String "/" rest) with (String b (s +:+ String "/" rest)) in *.
      cbn [String.prefix] in Hpre.
      destruct (Ascii.ascii_dec a b) as [->|]; [|done].
      cbn [String.length Js.drop]. by apply IH.
Qed.

Lemma ticketIdOf_eq (path : string) :
  ticketIdOf path
  = match (if String.prefix "ticket-" path
           then match Js.drop 7 path with
                | String c rest => if noSlash (String c rest) then Some (String c rest) else None
                | EmptyString => None
                end
           else None) with
    | Some id => Some id
    | None => match path with
              | String _ rest => ticketIdOf rest
              | EmptyString => None
              end
    end.
Proof. by destruct path. Qed.

Lemma ticketIdOf_under (dir id : string) :
  id ≠ "" → noSlash id = true →
  ticketIdOf (dir +:+ String "/" ("ticket-" +:+ id)) = Some id.
Proof.
  intros Hne Hid. induction dir as [|c dir IH].
  - destruct id as [|c id]; [done|].
    change ("" +:+ String "/" ("ticket-" +:+ String c id))
      with (String "/" ("ticket-" +:+ String c id)).
    rewrite ticketIdOf_eq.
    change (String.prefix "ticket-" (String "/" ("ticket-" +:+ String c id))) with false.
    cbv iota. rewrite ticketIdOf_eq.
    change (String.prefix "ticket-" ("ticket-" +:+ String c id)) with true.
    change (Js.drop 7 ("ticket-" +:+ String c id)) with (String c id).
    cbv iota. by rewrite Hid.
  - change (String c dir +:+ String "/" ("ticket-" +:+ id))
      with (String c (dir +:+ String "/" ("ticket-" +:+ id))).
    rewrite ticketIdOf_eq.
    destruct (String.prefix "ticket-" (String c (dir +:+ String "/" ("ticket-" +:+ id)))) eqn:Hpre.
    + pose proof (prefix_before_slash "ticket-" (String c dir) ("ticket-" +:+ id) eq_refl Hpre)
        as Hno.
      change (String.length "ticket-") with 7 in Hno.
      change (String c dir +:+ String "/" ("ticket-" +:+ id))
        with (String c (dir +:+ String "/" ("ticket-" +:+ id))) in Hno.
      destruct (Js.drop 7 (String c (dir +:+ String "/" ("ticket-" +:+ id)))) as [|c' r'] eqn:Hd.
      * exact IH.
      * rewrite Hno. exact IH.
    + exact IH.
Qed.

Lemma worktreePath_includes (g : Repo) (id : string) :
  Js.includes (worktreePathOf g id) "ticket-" = true.
Proof.
  unfold worktreePathOf.
  rewrite <- JsFacts.append_assoc. apply JsFacts.includes_intro.
Qed.

(** One block of the output of [git worktree list --porcelain]: the lock
    line is absent, bare, or carries the reason of the lock. *)
Inductive LockLine := unlocked | lockedBare | lockedBecause (reason : string).

Record Block := mkBlock {
  b_path : string;
  b_head : string;
  b_branch : string;
  b_lock : LockLine
}.

Definition blockLines (b : Block) : list string :=
  ["worktree " +:+ b_path b; "HEAD " +:+ b_head b; "branch refs/heads/" +:+ b_branch b]
  ++ match b_lock b with
     | unlocked => []
     | lockedBare => ["locked"]
     | lockedBecause reason => ["locked " +:+ reason]
     end
  ++ [""].

Definition porcelain (bs : list Block) : string :=
  String.concat (String Js.nl "") (concat (map blockLines bs)).

Definition oneLine (s : string) : Prop := Js.free Js.nl s = true.

Record wellFormed (b : Block) : Prop := mkWellFormed {
  wf_path : b_path b ≠ "";
  wf_path_line : oneLine (b_path b);
  wf_head_line : oneLine (b_head b);
  wf_branch_line : oneLine (b_branch b);
  wf_reason_line : ∀ reason, b_lock b = lockedBecause reason → oneLine reason
}.

(** What [list()] makes of a block. *)
Definition entryOf (b : Block) : Partial :=
  mkPartial (Some (b_path b)) (Some (b_head b)) (Some (b_branch b))
            (Some (match b_lock b with lockedBare => true | _ => false end)).

Lemma blockLines_free (b : Block) :
  wellFormed b → Forall (λ l, Js.free Js.nl l = true) (blockLines b).
Proof.
  intros [Hne Hp Hh Hb Hr]. unfold blockLines, oneLine in *.
  repeat apply Forall_cons_2; rewrite ?JsFacts.free_app, ?Hp, ?Hh, ?Hb; try done.
  apply Forall_app. split; [|by repeat constructor].
  destruct (b_lock b) as [| |reason]; repeat constructor.
  rewrite JsFacts.free_app, (Hr reason eq_refl). done.
Qed.

Lemma readLine_worktree (ws : list Partial) (cur : Partial) (p : string) :
  readLine (ws, cur) ("worktree " +:+ p)
  = (if Js.truthy (c_path cur) then ws ++ [cur] else ws,
     mkPartial (Some p) None None (Some false)).
Proof. unfold readLine, Js.startsWith. by rewrite (JsFacts.prefix_app "worktree " p). Qed.

Lemma readLine_head (ws : list Partial) (cur : Partial) (h : string) :
  readLine (ws, cur) ("HEAD " +:+ h)
  = (ws, mkPartial (c_path cur) (Some h) (c_branch cur) (c_locked cur)).
Proof.
  unfold readLine, Js.startsWith.
  change (String.prefix "worktree " ("HEAD " +:+ h)) with false.
  by rewrite (JsFacts.prefix_app "HEAD " h).
Qed.

Lemma replaceFirst_prefix (needle s : string) : Js.replaceFirst needle "" (needle +:+ s) = s.
Proof.
  assert (∀ x, Js.replaceFirst needle "" x
               = if String.prefix needle x then "" +:+ Js.drop (String.length needle) x
                 else match x with
                      | EmptyString => EmptyString
                      | String c x' => String c (Js.replaceFirst needle "" x')
                      end) as Heq by (by intros []).
  rewrite Heq, JsFacts.prefix_app, JsFacts.append_nil_l. clear Heq.
  induction needle as [|a needle IH]; [by rewrite JsFacts.append_nil_l|].
  rewrite JsFacts.append_cons. cbn [String.length Js.drop]. exact IH.
Qed.

Lemma readLine_branch (ws : list Partial) (cur : Partial) (b : string) :
  readLine (ws, cur) ("branch refs/heads/" +:+ b)
  = (ws, mkPartial (c_path cur) (c_head cur) (Some b) (c_locked cur)).
Proof.
  unfold readLine, Js.startsWith.
  change (String.prefix "worktree " ("branch refs/heads/" +:+ b)) with false.
  change (String.prefix "HEAD " ("branch refs/heads/" +:+ b)) with false.
  change (String.prefix "branch " ("branch refs/heads/" +:+ b)) with true.
  change (Js.drop 7 ("branch refs/heads/" +:+ b)) with ("refs/heads/" +:+ b).
  by rewrite replaceFirst_prefix.
Qed.

Lemma readLine_locked (ws : list Partial) (cur : Partial) :
  readLine (ws, cur) "locked"
  = (ws, mkPartial (c_path cur) (c_head cur) (c_branch cur) (Some true)).
Proof. done. Qed.

(** A lock line that goes on after the word is not the line [list()]
    looks for. *)
Lemma readLine_locked_because (acc : list Partial * Partial) (reason : string) :
  readLine acc ("locked " +:+ reason) = acc.
Proof. by destruct acc. Qed.

Lemma readLine_blank (acc : list Partial * Partial) : readLine acc "" = acc.
Proof. by destruct acc. Qed.

Lemma readLine_block (b : Block) (ws : list Partial) (cur : Partial) :
  foldl readLine (ws, cur) (blockLines b)
  = (if Js.truthy (c_path cur) then ws ++ [cur] else ws, entryOf b).
Proof.
  unfold blockLines. rewrite !foldl_app. cbn [foldl app].
  rewrite readLine_worktree, readLine_head, readLine_branch.
  cbn [c_path c_head c_branch c_locked]. unfold entryOf.
  destruct (b_lock b) as [| |reason]; cbn [foldl];
    rewrite ?readLine_locked, ?readLine_locked_because, ?readLine_blank; done.
Qed.

Lemma readLine_blocks (bs : list Block) : ∀ (ws : list Partial) (cur : Partial),
  Forall (λ b, b_path b ≠ "") bs →
  let '(ws', cur') := foldl readLine (ws, cur) (concat (map blockLines bs)) in
  (if Js.truthy (c_path cur') then ws' ++ [cur'] else ws')
  = (if Js.truthy (c_path cur) then ws ++ [cur] else ws) ++ map entryOf bs.
Proof.
  induction bs as [|b bs IH]; intros ws cur Hne.
  - cbn. by rewrite app_nil_r.
  - apply Forall_cons in Hne as [Hb Hne].
    cbn [map concat]. rewrite foldl_app, readLine_block.
    specialize (IH (if Js.truthy (c_path cur) then ws ++ [cur] else ws) (entryOf b) Hne).
    destruct (foldl readLine _ (concat (map blockLines bs))) as [ws' cur'].
    rewrite IH. cbn [entryOf c_path]. destruct (b_path b) as [|c p] eqn:Hp; [done|].
    cbn [Js.truthy]. by rewrite <- app_assoc.
Qed.

Lemma foldl_readLine_porcelain (bs : list Block) (acc : list Partial * Partial) :
  Forall wellFormed bs →
  foldl readLine acc (Js.split Js.nl (porcelain bs))
  = foldl readLine acc (concat (map blockLines bs)).
Proof.
  intros Hwf. unfold porcelain.
  destruct (concat (map blockLines bs)) as [|l ls] eqn:Hls.
  - cbn. apply readLine_blank.
  - rewrite JsFacts.split_concat; [done|done|]. rewrite <- Hls.
    apply Forall_concat, Forall_fmap. eapply Forall_impl; [exact Hwf|].
    intros b Hb. by apply blockLines_free.
Qed.

Lemma parseWorktrees_porcelain (bs : list Block) :
  Forall wellFormed bs →
  parseWorktrees (porcelain bs) = map entryOf bs.
Proof.
  intros Hwf. unfold parseWorktrees. rewrite foldl_readLine_porcelain by done.
  pose proof (readLine_blocks bs [] (mkPartial None None None None)) as H.
  destruct (foldl readLine _ _) as [ws' cur']. apply H.
  eapply Forall_impl; [exact Hwf|]. by intros b [].
Qed.

Lemma filter_map_comm {A B} (f : A → B) (P : B → Prop) `{∀ x, Decision (P x)} (l : list A) :
  filter P (map f l) = map f (filter (λ x, P (f x)) l).
Proof.
  induction l as [|x l IH]; [done|]. cbn [map]. rewrite !filter_cons, IH.
  by destruct (decide (P (f x))).
Qed.

Lemma listWorktrees_porcelain (bs : list Block) :
  Forall wellFormed bs →
  listWorktrees (porcelain bs)
  = map (λ b, mkListed (entryOf b) (ticketIdOf (b_path b)))
        (filter (λ b, Js.includes (b_path b) "ticket-" = true) bs).
Proof.
  intros Hwf. unfold listWorktrees. rewrite parseWorktrees_porcelain by done.
  rewrite (filter_map_comm entryOf (λ w, Js.includes (pathOf w) "ticket-" = true)).
  by rewrite map_map.
Qed.

(** X5: [list()] turns the blocks of a well-formed listing into one entry
    each, in their order, with the path, the commit and the branch
    without its [refs/heads/] prefix; it keeps the entries whose path holds
    [ticket-] and reads the ticket id off the path.  An entry is reported
    as locked for a bare [locked] line only: a lock line that goes on with
    the reason of the lock leaves the flag off. *)
Theorem list_reads_the_listing_block_by_block (bs : list Block) :
  Forall wellFormed bs →
  listWorktrees (porcelain bs)
  = map (λ b, mkListed (mkPartial (Some (b_path b)) (Some (b_head b)) (Some (b_branch b))
                                  (Some (match b_lock b with lockedBare => true | _ => false end)))
                       (ticketIdOf (b_path b)))
        (filter (λ b, Js.includes (b_path b) "ticket-" = true) bs).
Proof. apply listWorktrees_porcelain. Qed.

(** The repository itself, the workspace of T1, locked with a reason as
    [create] locks it, and the workspace of T2, not locked. *)
Definition threeBlocks : list Block :=
  [ mkBlock "/srv/repo" "9d1c0aa" "main" unlocked;
    mkBlock "/srv/worktrees/ticket-T1" "4f2a9c1" "ticket/T1"
            (lockedBecause "Agent working on ticket T1");
    mkBlock "/srv/worktrees/ticket-T2" "77b3e10" "ticket/T2" lockedBare ].

Lemma threeBlocks_wellFormed : Forall wellFormed threeBlocks.
Proof.
  repeat apply Forall_cons_2; try apply Forall_nil_2;
    (split; [done|reflexivity|reflexivity|reflexivity|]);
    intros reason; cbn; intros H; try done.
  by injection H as <-.
Qed.

Lemma list_reads_the_listing_block_by_block_witness :
  Forall wellFormed threeBlocks
  ∧ listWorktrees (porcelain threeBlocks)
    = [ mkListed (mkPartial (Some "/srv/worktrees/ticket-T1") (Some "4f2a9c1")
                            (Some "ticket/T1") (Some false)) (Some "T1");
        mkListed (mkPartial (Some "/srv/worktrees/ticket-T2") (Some "77b3e10")
                            (Some "ticket/T2") (Some true)) (Some "T2") ].
Proof.
  split; [exact threeBlocks_wellFormed|].
  rewrite (list_reads_the_listing_block_by_block threeBlocks threeBlocks_wellFormed).
  reflexivity.
Defined.

Lemma find_elem {A} (f : A → bool) (l : list A) (x : A) :
  x ∈ l → f x = true → ∃ y, List.find f l = Some y ∧ f y = true ∧ y ∈ l.
Proof.
  intros Hin Hx. destruct (List.find f l) as [y|] eqn:Hf.
  - apply find_some in Hf as [Hy Hfy]. exists y. split; [done|]. split; [done|].
    by apply list_elem_of_In.
  - apply list_elem_of_In in Hin. pose proof (find_none f l Hf x Hin). congruence.
Qed.

(** X4: the ticket id is read back from the path [create] gives a
    workspace, for an id that is not empty and holds no slash: the path
    passes the filter of [list()], the id found in it is the ticket's, and
    [get] finds an entry of that ticket in every well-formed listing with
    a block for that path. *)
Theorem ticket_id_is_read_back_from_the_workspace_path (g : Repo) (id : string) :
  id ≠ "" → noSlash id = true →
  ticketIdOf (worktreePathOf g id) = Some id
  ∧ Js.includes (worktreePathOf g id) "ticket-" = true
  ∧ ∀ bs b, Forall wellFormed bs → b ∈ bs → b_path b = worktreePathOf g id →
      ∃ w, getWorktree (porcelain bs) id = Some w
           ∧ l_ticketId w = Some id
           ∧ w ∈ listWorktrees (porcelain bs).
Proof.
  intros Hne Hid.
  assert (ticketIdOf (worktreePathOf g id) = Some id) as Hback by (by apply ticketIdOf_under).
  split; [done|]. split; [apply worktreePath_includes|].
  intros bs b Hwf Hb Hpath. unfold getWorktree.
  destruct (find_elem (λ w, bool_decide (l_ticketId w = Some id)) (listWorktrees (porcelain bs))
              (mkListed (entryOf b) (ticketIdOf (b_path b)))) as (w & Hw & Hid' & Hin).
  - rewrite listWorktrees_porcelain by done.
    apply (list_elem_of_fmap_2 (λ b, mkListed (entryOf b) (ticketIdOf (b_path b)))).
    apply list_elem_of_filter. split; [|done]. rewrite Hpath. apply worktreePath_includes.
  - cbn. rewrite Hpath, Hback. by apply bool_decide_eq_true.
  - exists w. split; [done|]. split; [|done]. by apply bool_decide_eq_true in Hid'.
Qed.

Lemma ticket_id_is_read_back_from_the_workspace_path_witness :
  "T1" ≠ "" ∧ noSlash "T1" = true
  ∧ ticketIdOf (worktreePathOf repoFresh "T1") = Some "T1"
  ∧ ∃ w, getWorktree (porcelain threeBlocks) "T1" = Some w ∧ l_ticketId w = Some "T1".
Proof.
  assert ("T1" ≠ "") as Hne by done.
  assert (noSlash "T1" = true) as Hid by reflexivity.
  destruct (ticket_id_is_read_back_from_the_workspace_path repoFresh "T1" Hne Hid)
    as (Hback & _ & Hget).
  destruct (Hget threeBlocks
              (mkBlock "/srv/worktrees/ticket-T1" "4f2a9c1" "ticket/T1"
                       (lockedBecause "Agent working on ticket T1"))
              threeBlocks_wellFormed) as (w & Hw & Hwid & _).
  - apply list_elem_of_further, list_elem_of_here.
  - reflexivity.
  - split_and!; try done. by exists w.
Defined.

End WorktreeSpec.


(** ** Properties of the orchestrator *)

Module OrchestratorSpec.
Import Orchestrator.

Ltac run_monad :=
  unfold ignore_errors in *;
  unfold mbind, mret, M_bind, M_ret, try_catch, throw, get, gets, modify, zoom in *.

(** Computes projections of built records, and nothing else. *)
Ltac orch_simpl :=
  cbn [config currentJob queue isProcessing db repo events spawned killedProcs nextId
       set_currentJob set_queue set_isProcessing set_db set_repo set_events set_spawned
       set_killedProcs set_nextId tickets prds agents messages set_tickets set_agents
       set_messages ticketId agentId status process iterations lastOutput
       set_iterations set_process set_lastOutput st pending
       p_ticketId p_agentId p_worktreePath p_prompt p_sessionId p_iterations p_proc
       a_ticketId a_status iterationCount a_maxIterations a_completed
       title description columnId fst snd] in *.

(** *** What a computation leaves alone *)

(** [m] never changes the component [proj] of the state, whether it
    returns or throws. *)
Definition keeps {A B} (proj : State → B) (m : M State A) : Prop :=
  ∀ s, proj (snd (m s)) = proj s.

Section Keeps.
Context {B : Type} (proj : State → B).

Lemma keeps_ret {A} (a : A) : keeps proj (mret a).
Proof. done. Qed.

Lemma keeps_throw {A} (e : Js.Exn) : keeps proj (throw (A := A) e).
Proof. done. Qed.

Lemma keeps_gets {A} (f : State → A) : keeps proj (gets f).
Proof. done. Qed.

Lemma keeps_modify (f : State → State) :
  (∀ s, proj (f s) = proj s) → keeps proj (modify f).
Proof. intros H s. apply H. Qed.

Lemma keeps_bind {A C} (m : M State A) (f : A → M State C) :
  keeps proj m → (∀ a, keeps proj (f a)) → keeps proj (m ≫= f).
Proof.
  intros Hm Hf s. rewrite MonadFacts.bind_eq. specialize (Hm s).
  destruct (m s) as [[e|a] s']; cbn in *; [done|]. by rewrite Hf.
Qed.

Lemma keeps_try_catch {A} (m : M State A) (h : Js.Exn → M State A) :
  keeps proj m → (∀ e, keeps proj (h e)) → keeps proj (try_catch m h).
Proof.
  intros Hm Hh s. rewrite MonadFacts.try_catch_eq. specialize (Hm s).
  destruct (m s) as [[e|a] s']; cbn in *; [|done]. by rewrite Hh.
Qed.

Lemma keeps_ignore_errors (m : M State ()) : keeps proj m → keeps proj (ignore_errors m).
Proof. intros Hm. apply keeps_try_catch; [done|]. intros e. apply keeps_ret. Qed.

Lemma keeps_withWorktreeManager {A} (m : M Worktree.Repo A) :
  (∀ g s, proj (set_repo g s) = proj s) → keeps proj (withWorktreeManager m).
Proof.
  intros H s. unfold withWorktreeManager, zoom. destruct (m (repo s)) as [r g]. apply H.
Qed.

Lemma keeps_updateCurrentJob (f : AgentJob → AgentJob) :
  (∀ j s, proj (set_currentJob j s) = proj s) → keeps proj (updateCurrentJob f).
Proof. intros H s. unfold updateCurrentJob. destruct (currentJob s); [apply H|done]. Qed.

End Keeps.

Lemma keeps_nanoid {B} (proj : State → B) :
  (∀ n s, proj (set_nextId n s) = proj s) → keeps proj nanoid.
Proof. intros H s. apply H. Qed.

Lemma keeps_spawn {B} (proj : State → B) args cwd :
  (∀ f s, proj (set_spawned f s) = proj s) → keeps proj (spawn args cwd).
Proof. intros H s. apply H. Qed.

Lemma keeps_broadcast {B} (proj : State → B) e :
  (∀ f s, proj (set_events f s) = proj s) → keeps proj (broadcast e).
Proof. intros H s. apply H. Qed.

Create HintDb keeps.

(** Decomposes a computation into its primitives; a method already dealt
    with is looked up among the hints. *)
Ltac keeps_step :=
  lazymatch goal with
  | |- keeps _ (mret _) => apply keeps_ret
  | |- keeps _ (throw _) => apply keeps_throw
  | |- keeps _ (gets _) => apply keeps_gets
  | |- keeps _ (_ ≫= _) => apply keeps_bind
  | |- keeps _ (try_catch _ _) => apply keeps_try_catch
  | |- keeps _ (ignore_errors _) => apply keeps_ignore_errors
  | |- keeps _ (modify _) => apply keeps_modify; reflexivity
  | |- keeps _ (withWorktreeManager _) => apply keeps_withWorktreeManager; reflexivity
  | |- keeps _ (updateCurrentJob _) => apply keeps_updateCurrentJob; reflexivity
  | |- keeps _ (broadcast _) => apply keeps_broadcast; reflexivity
  | |- keeps _ (spawn _ _) => apply keeps_spawn; reflexivity
  | |- keeps _ nanoid => apply keeps_nanoid; reflexivity
  | |- keeps _ (match _ with _ => _ end) => case_match
  | |- ∀ _, _ => intro
  | |- keeps _ _ => solve [auto with keeps]
  end.

Ltac keeps_tac := repeat keeps_step.

(** The components the job machinery never touches: the queue, the
    processing flag and the configuration. *)
Definition queueSide (s : State) : list string * bool * OrchestratorConfig :=
  (queue s, isProcessing s, config s).

Lemma queueSide_updateAgentStatus a st it : keeps queueSide (updateAgentStatus a st it).
Proof. done. Qed.

Lemma queueSide_updateTicketColumn t c : keeps queueSide (updateTicketColumn t c).
Proof. done. Qed.

Lemma queueSide_addSystemMessage t c : keeps queueSide (addSystemMessage t c).
Proof. done. Qed.

Lemma queueSide_addAgentMessage t c : keeps queueSide (addAgentMessage t c).
Proof. done. Qed.

Lemma queueSide_addHumanMessage t c : keeps queueSide (addHumanMessage t c).
Proof. done. Qed.

Lemma queueSide_blockAgent t a q : keeps queueSide (blockAgent t a q).
Proof. done. Qed.

Lemma queueSide_startFailed t e : keeps queueSide (startFailed t e).
Proof. done. Qed.

#[local] Hint Resolve queueSide_updateAgentStatus queueSide_updateTicketColumn
  queueSide_addSystemMessage queueSide_addAgentMessage queueSide_addHumanMessage
  queueSide_blockAgent queueSide_startFailed : keeps.

Lemma queueSide_completeAgent t a o : keeps queueSide (completeAgent t a o).
Proof. unfold completeAgent. keeps_tac. Qed.

Lemma queueSide_failAgent t a e : keeps queueSide (failAgent t a e).
Proof. unfold failAgent. keeps_tac. Qed.

#[local] Hint Resolve queueSide_completeAgent queueSide_failAgent : keeps.

Lemma queueSide_loopFrom left t a w pr : ∀ sid i, keeps queueSide (loopFrom left t a w pr sid i).
Proof.
  induction left as [|left IH]; intros sid i; cbn [loopFrom]; keeps_tac.
Qed.

#[local] Hint Resolve queueSide_loopFrom : keeps.

Lemma queueSide_afterOutput p res : keeps queueSide (afterOutput p res).
Proof. unfold afterOutput. keeps_tac. Qed.

#[local] Hint Resolve queueSide_afterOutput : keeps.

Lemma queueSide_startAgentResumed p res : keeps queueSide (startAgentResumed p res).
Proof. unfold startAgentResumed. keeps_tac. Qed.

Lemma queueSide_startAgent t : keeps queueSide (startAgent t).
Proof. unfold startAgent, runAgentLoop, getPRDContent. keeps_tac. Qed.

#[local] Hint Resolve queueSide_startAgentResumed queueSide_startAgent : keeps.

(** *** The queue *)

Lemma keeps_queue {A} (m : M State A) (s : State) :
  keeps queueSide m → queue (snd (m s)) = queue s.
Proof. intros H. specialize (H s). unfold queueSide in H. congruence. Qed.

Lemma keeps_isProcessing {A} (m : M State A) (s : State) :
  keeps queueSide m → isProcessing (snd (m s)) = isProcessing s.
Proof. intros H. specialize (H s). unfold queueSide in H. congruence. Qed.

Lemma keeps_config {A} (m : M State A) (s : State) :
  keeps queueSide m → config (snd (m s)) = config s.
Proof. intros H. specialize (H s). unfold queueSide in H. congruence. Qed.

Definition startOrFail (t : string) : M State (option Pending) :=
  try_catch (startAgent t) (λ error, startFailed t error;; mret None).

Lemma queueSide_startOrFail t : keeps queueSide (startOrFail t).
Proof. unfold startOrFail. keeps_tac. Qed.

(** A drain only ever takes tickets off the front of the queue. *)
Lemma processQueue_queue fuel : ∀ s,
  ∃ k, queue (fst (processQueue fuel s)) = drop k (queue s).
Proof.
  induction fuel as [|fuel IH]; intros s; cbn [processQueue].
  - by exists 0.
  - destruct (isProcessing s); [by exists 0|].
    destruct (queue s) as [|t rest] eqn:Hq; [exists 0; orch_simpl; by rewrite Hq|].
    fold (startOrFail t).
    pose proof (keeps_queue (startOrFail t) (set_queue rest (set_isProcessing true s))
                  (queueSide_startOrFail t)) as Hk.
    destruct (startOrFail t _) as [[e|[p|]] s']; orch_simpl;
      try (rewrite Hk; destruct rest as [|t' rest'];
           [by exists 1
           |destruct (IH (set_isProcessing false s')) as [k Hk'];
            exists (S k); rewrite Hk'; orch_simpl; by rewrite Hk]).
    exists 1. by rewrite Hk.
Qed.

Lemma NoDup_drop {A} k (l : list A) : NoDup l → NoDup (drop k l).
Proof. intros H. eapply sublist_NoDup; [done|apply sublist_drop]. Qed.

Lemma kickQueue_queue sys :
  ∃ k, queue (st (kickQueue sys)) = drop k (queue (st sys)).
Proof.
  unfold kickQueue.
  destruct (processQueue_queue (S (length (queue (st sys)))) (st sys)) as [k Hk].
  destruct (processQueue _ _) as [s' p']. by exists k.
Qed.

Lemma processQueueResumed_queue r t s :
  ∃ k, queue (st (processQueueResumed r t s)) = drop k (queue s).
Proof.
  unfold processQueueResumed.
  assert (∀ s0, queue s0 = queue s →
            ∃ k, queue (st (match queue (set_isProcessing false s0) with
                            | [] => mkSys (set_isProcessing false s0) None
                            | _ :: _ => kickQueue (mkSys (set_isProcessing false s0) None)
                            end)) = drop k (queue s)) as Hrest.
  { intros s0 Hs0. orch_simpl. destruct (queue s0) as [|t0 q0] eqn:Hq.
    - exists 0. orch_simpl. by rewrite Hq, <- Hs0.
    - destruct (kickQueue_queue (mkSys (set_isProcessing false s0) None)) as [k Hk].
      exists k. rewrite Hk. orch_simpl. by rewrite Hq, <- Hs0. }
  destruct r as [e|[p|]].
  - apply Hrest. apply (keeps_queue (startFailed t e)), queueSide_startFailed.
  - by exists 0.
  - by apply Hrest.
Qed.

Lemma enqueue_queue t sys :
  ∃ k, queue (st (enqueue t sys))
       = if bool_decide (t ∈ queue (st sys)) then queue (st sys)
         else drop k (queue (st sys) ++ [t]).
Proof.
  unfold enqueue. case_bool_decide; [by exists 0|].
  match goal with |- context [kickQueue ?x] => destruct (kickQueue_queue x) as [k Hk] end.
  exists k. by rewrite Hk.
Qed.

Lemma resumeAgent_queue t response sys :
  ∃ k, queue (st (snd (resumeAgent t response sys)))
       = if bool_decide (t ∈ queue (st sys)) || negb (isCurrentTicket t (st sys))
         then queue (st sys)
         else drop k (queue (st sys) ++ [t]).
Proof.
  unfold resumeAgent. destruct (isCurrentTicket t (st sys)); cbn [negb].
  - rewrite orb_false_r. cbn [snd].
    match goal with |- context [enqueue t ?x] => destruct (enqueue_queue t x) as [k Hk] end.
    exists k. rewrite Hk. orch_simpl.
    by rewrite (keeps_queue (addHumanMessage t response) _ (queueSide_addHumanMessage _ _)).
  - rewrite orb_true_r. by exists 0.
Qed.

Lemma killAgent_queue t sys : queue (st (snd (killAgent t sys))) = queue (st sys).
Proof.
  unfold killAgent. destruct (currentJob (st sys)) as [j|]; [|done].
  case_bool_decide; [|done].
  match goal with |- context [failAgent ?t ?a ?e ?s] =>
    pose proof (keeps_queue (failAgent t a e) s (queueSide_failAgent _ _ _)) as Hk;
    destruct (failAgent t a e s) as [r s'] end.
  orch_simpl. rewrite Hk. by destruct (process j).
Qed.

Lemma workerDone_queue res sys :
  ∃ k, queue (st (workerDone res sys)) = drop k (queue (st sys)).
Proof.
  unfold workerDone. destruct (pending sys) as [p|]; [|by exists 0].
  pose proof (keeps_queue (startAgentResumed p res) (st sys)
                (queueSide_startAgentResumed _ _)) as Hk.
  destruct (startAgentResumed p res (st sys)) as [r s'].
  destruct (processQueueResumed_queue r (p_ticketId p) s') as [k Hk'].
  exists k. by rewrite Hk', <- Hk.
Qed.

(** No call puts a ticket into the queue that is already there. *)
Lemma step_NoDup (sys : Sys) (c : Call) :
  NoDup (queue (st sys)) → NoDup (queue (st (step sys c))).
Proof.
  intros Hnd. destruct c as [t|t|t response|t|res]; cbn [step].
  - destruct (enqueue_queue t sys) as [k ->]. case_bool_decide; [done|].
    apply NoDup_drop, NoDup_app. split; [done|]. split; [|apply NoDup_singleton].
    intros x Hx ->%list_elem_of_singleton. done.
  - unfold dequeue. orch_simpl. by apply NoDup_filter.
  - destruct (resumeAgent_queue t response sys) as [k ->].
    destruct (bool_decide (t ∈ queue (st sys))) eqn:Hin; cbn [orb]; [done|].
    destruct (negb _); [done|].
    apply bool_decide_eq_false in Hin.
    apply NoDup_drop, NoDup_app. split; [done|]. split; [|apply NoDup_singleton].
    intros x Hx ->%list_elem_of_singleton. done.
  - by rewrite killAgent_queue.
  - destruct (workerDone_queue res sys) as [k ->]. by apply NoDup_drop.
Qed.

Lemma run_NoDup (calls : list Call) : ∀ sys,
  NoDup (queue (st sys)) → NoDup (queue (st (run sys calls))).
Proof.
  unfold run. induction calls as [|c calls IH]; intros sys Hnd; [done|].
  cbn [foldl]. by apply IH, step_NoDup.
Qed.

(** *** What a computation returns *)

(** Whenever [m] returns, what it returns satisfies [P]. *)
Definition yields {A} (P : A → Prop) (m : M State A) : Prop :=
  ∀ s r s', m s = (inr r, s') → P r.

Lemma yields_ret {A} (P : A → Prop) (a : A) : P a → yields P (mret a).
Proof. intros H s r s' [= <- _]. done. Qed.

Lemma yields_throw {A} (P : A → Prop) (e : Js.Exn) : yields P (throw e).
Proof. by intros s r s'. Qed.

Lemma yields_bind {A C} (P : C → Prop) (m : M State A) (f : A → M State C) :
  (∀ a, yields P (f a)) → yields P (m ≫= f).
Proof.
  intros Hf s r s'. rewrite MonadFacts.bind_eq.
  destruct (m s) as [[e|a] s1]; [done|]. apply Hf.
Qed.

Lemma yields_try_catch {A} (P : A → Prop) (m : M State A) (h : Js.Exn → M State A) :
  yields P m → (∀ e, yields P (h e)) → yields P (try_catch m h).
Proof.
  intros Hm Hh s r s'. rewrite MonadFacts.try_catch_eq.
  pose proof (Hm s) as Hms. destruct (m s) as [[e|a] s1].
  - apply Hh.
  - intros [= <- <-]. by eapply Hms.
Qed.

(** A waiting activation, if any, is one for ticket [t]. *)
Definition waitsFor (t : string) (r : option Pending) : Prop :=
  ∀ p, r = Some p → p_ticketId p = t.

Lemma loopFrom_waitsFor left t a w pr : ∀ sid i,
  yields (waitsFor t) (loopFrom left t a w pr sid i).
Proof.
  induction left as [|left IH]; intros sid i; cbn [loopFrom].
  - repeat (apply yields_bind; intros). by apply yields_ret.
  - repeat (apply yields_bind; intros). apply yields_try_catch.
    + repeat (apply yields_bind; intros). apply yields_ret. by intros p [= <-].
    + intros e. apply yields_bind. intros _. apply IH.
Qed.

Lemma startOrFail_waitsFor t : yields (waitsFor t) (startOrFail t).
Proof.
  unfold startOrFail, startAgent, runAgentLoop. apply yields_try_catch.
  - apply yields_bind. intros d. case_match; [|apply yields_throw].
    repeat (apply yields_bind; intros). apply yields_try_catch.
    + repeat (apply yields_bind; intros). apply loopFrom_waitsFor.
    + intros e. apply yields_bind. intros _. by apply yields_ret.
  - intros e. apply yields_bind. intros _. by apply yields_ret.
Qed.

(** The ticket a drain starts to process has left the queue. *)
Lemma processQueue_takes fuel : ∀ s s' p,
  NoDup (queue s) →
  processQueue fuel s = (s', Some p) →
  p_ticketId p ∉ queue s'.
Proof.
  induction fuel as [|fuel IH]; intros s s' p Hnd; cbn [processQueue]; [done|].
  destruct (isProcessing s); [done|].
  destruct (queue s) as [|t rest] eqn:Hq; [done|].
  fold (startOrFail t).
  pose proof (keeps_queue (startOrFail t) (set_queue rest (set_isProcessing true s))
                (queueSide_startOrFail t)) as Hk.
  pose proof (startOrFail_waitsFor t (set_queue rest (set_isProcessing true s))) as Hw.
  apply NoDup_cons in Hnd as [Hnotin Hnd].
  destruct (startOrFail t _) as [[e|[p1|]] s1]; orch_simpl.
  - destruct (queue s1) as [|t' rest'] eqn:Hq1; [done|].
    apply IH. orch_simpl. by rewrite Hq1, Hk.
  - intros [= <- <-]. rewrite Hk, (Hw (Some p1) s1 eq_refl p1 eq_refl). done.
  - destruct (queue s1) as [|t' rest'] eqn:Hq1; [done|].
    apply IH. orch_simpl. by rewrite Hq1, Hk.
Qed.

(** *** One activation at a time *)

(** Whenever a [processQueue] activation waits for a worker, the
    processing flag is up: no second activation gets past the guard. *)
Definition oneActivation (sys : Sys) : Prop :=
  is_Some (pending sys) → isProcessing (st sys) = true.

Lemma processQueue_waiting fuel : ∀ s,
  is_Some (snd (processQueue fuel s)) → isProcessing (fst (processQueue fuel s)) = true.
Proof.
  induction fuel as [|fuel IH]; intros s; cbn [processQueue].
  - by intros [? ?].
  - destruct (isProcessing s) eqn:Hp; [by intros [? ?]|].
    destruct (queue s) as [|t rest]; [by intros [? ?]|].
    fold (startOrFail t).
    pose proof (keeps_isProcessing (startOrFail t) (set_queue rest (set_isProcessing true s))
                  (queueSide_startOrFail t)) as Hk.
    destruct (startOrFail t _) as [[e|[p|]] s']; orch_simpl; try done;
      (destruct (queue s') as [|t' rest']; [by intros [? ?]|apply IH]).
Qed.

Lemma processQueue_busy fuel s : isProcessing s = true → processQueue fuel s = (s, None).
Proof. intros H. destruct fuel; cbn [processQueue]; [done|]. by rewrite H. Qed.

Lemma kickQueue_oneActivation sys : oneActivation sys → oneActivation (kickQueue sys).
Proof.
  unfold oneActivation, kickQueue. intros Hinv.
  destruct (isProcessing (st sys)) eqn:Hp.
  - rewrite processQueue_busy by done. orch_simpl. by rewrite Hp.
  - pose proof (processQueue_waiting (S (length (queue (st sys)))) (st sys)) as Hw.
    destruct (processQueue _ _) as [s' [p'|]]; orch_simpl.
    + intros _. apply Hw. by eexists.
    + intros Hpend. specialize (Hinv Hpend). congruence.
Qed.

Lemma enqueue_oneActivation t sys : oneActivation sys → oneActivation (enqueue t sys).
Proof.
  intros Hinv. unfold enqueue. case_bool_decide; [done|].
  apply kickQueue_oneActivation. exact Hinv.
Qed.

Lemma step_oneActivation (sys : Sys) (c : Call) :
  oneActivation sys → oneActivation (step sys c).
Proof.
  intros Hinv. destruct c as [t|t|t response|t|res]; cbn [step].
  - by apply enqueue_oneActivation.
  - exact Hinv.
  - unfold resumeAgent. destruct (isCurrentTicket t (st sys)); cbn [negb snd]; [|done].
    apply enqueue_oneActivation. intros Hp. unfold oneActivation in Hinv. orch_simpl.
    rewrite (keeps_isProcessing (addHumanMessage t response) _ (queueSide_addHumanMessage _ _)).
    by apply Hinv.
  - unfold killAgent. destruct (currentJob (st sys)) as [j|]; [|done].
    case_bool_decide; [|done].
    match goal with |- context [failAgent ?t ?a ?e ?s] =>
      pose proof (keeps_isProcessing (failAgent t a e) s (queueSide_failAgent _ _ _)) as Hk;
      destruct (failAgent t a e s) as [r s'] end.
    intros Hp. orch_simpl. rewrite Hk. unfold oneActivation in Hinv.
    destruct (process j); orch_simpl; by apply Hinv.
  - unfold workerDone. destruct (pending sys) as [p|] eqn:Hpend; [|done].
    pose proof (keeps_isProcessing (startAgentResumed p res) (st sys)
                  (queueSide_startAgentResumed _ _)) as Hk.
    destruct (startAgentResumed p res (st sys)) as [r s']. orch_simpl.
    assert (isProcessing s' = true) as Hp'.
    { rewrite Hk. apply Hinv. rewrite Hpend. by eexists. }
    unfold processQueueResumed.
    assert (∀ s0, oneActivation (match queue (set_isProcessing false s0) with
                                 | [] => mkSys (set_isProcessing false s0) None
                                 | _ :: _ => kickQueue (mkSys (set_isProcessing false s0) None)
                                 end)) as Hrest.
    { intros s0. destruct (queue (set_isProcessing false s0)).
      - by intros [? ?].
      - apply kickQueue_oneActivation. by intros [? ?]. }
    destruct r as [e|[p'|]]; [apply Hrest|by intros _|apply Hrest].
Qed.

(** The single-worker discipline: from the start on, at most one
    activation is under way. *)
Lemma run_oneActivation (cfg : OrchestratorConfig) (d : Db) (g : Worktree.Repo)
    (calls : list Call) :
  oneActivation (run (boot cfg d g) calls).
Proof.
  assert (∀ sys, oneActivation sys → oneActivation (run sys calls)) as H.
  { unfold run. induction calls as [|c calls IH]; intros sys Hinv; [done|].
    cbn [foldl]. by apply IH, step_oneActivation. }
  apply H. by intros [? ?].
Qed.

(** *** A running example *)

Definition gitEnv0 : Worktree.GitEnv :=
  Worktree.mkGitEnv (λ _, false) (λ _, None) (λ _, Some "4f2a9c1") ∅ ∅.

Definition repo0 : Worktree.Repo := Worktree.mkRepo "/srv/worktrees" ∅ ∅ ∅ gitEnv0.

Definition db0 : Db :=
  mkDb {[ "T1" := mkTicket "Implement X" (Some "implement X") (Some "in-progress") ]} ∅ ∅ [].

Definition cfg3 : OrchestratorConfig := mkConfig 3 (30 * 60 * 1000) "claude".

(** Ticket T1 has been enqueued and its first iteration is waiting for the
    worker. *)
Definition sysRunning : Sys := run (boot cfg3 db0 repo0) [Enqueue "T1"].

(** C1, the part the code does not keep: after a second request to start
    the ticket that is being processed, that ticket is the current job's
    ticket and is in the queue as well. *)
Lemma current_ticket_is_queued_again :
  currentTicketId (st sysRunning) = Some "T1"
  ∧ isProcessing (st sysRunning) = true
  ∧ ("T1" ∉ queue (st sysRunning))
  ∧ currentTicketId (st (enqueue "T1" sysRunning)) = Some "T1"
  ∧ queue (st (enqueue "T1" sysRunning)) = ["T1"].
Proof. vm_compute. repeat split; try done. apply not_elem_of_nil. Qed.

(** While a drain is under way, [enqueue] does no more than append. *)
Lemma enqueue_while_processing (t : string) (sys : Sys) :
  isProcessing (st sys) = true →
  queue (st (enqueue t sys))
  = if bool_decide (t ∈ queue (st sys)) then queue (st sys) else queue (st sys) ++ [t].
Proof.
  intros Hp. unfold enqueue. case_bool_decide; [done|].
  unfold kickQueue, broadcast, modify. cbn [processQueue]. orch_simpl. by rewrite Hp.
Qed.

(** C1, as the code has it: whatever is called in whatever order, the
    queue never holds a ticket twice, and a drain takes the ticket it
    starts to process out of the queue; but [enqueue] looks at the queue
    only, so that while a ticket is being processed a request for any
    ticket not yet queued, the one in process included, appends it. *)
Theorem queue_never_holds_a_ticket_twice
    (cfg : OrchestratorConfig) (d : Db) (g : Worktree.Repo) (calls : list Call) :
  NoDup (queue (st (run (boot cfg d g) calls)))
  ∧ (∀ fuel s' p,
       processQueue fuel (st (run (boot cfg d g) calls)) = (s', Some p) →
       p_ticketId p ∉ queue s')
  ∧ ∀ t : string,
      isProcessing (st (run (boot cfg d g) calls)) = true →
      queue (st (enqueue t (run (boot cfg d g) calls)))
      = if bool_decide (t ∈ queue (st (run (boot cfg d g) calls)))
        then queue (st (run (boot cfg d g) calls))
        else queue (st (run (boot cfg d g) calls)) ++ [t].
Proof.
  assert (NoDup (queue (st (run (boot cfg d g) calls)))) as Hnd.
  { apply run_NoDup. cbn. constructor. }
  split_and!.
  - exact Hnd.
  - intros fuel s' p. by apply processQueue_takes.
  - intros t. apply enqueue_while_processing.
Qed.

Lemma queue_never_holds_a_ticket_twice_witness :
  isProcessing (st (run (boot cfg3 db0 repo0) [Enqueue "T1"])) = true
  ∧ queue (st (enqueue "T1" (run (boot cfg3 db0 repo0) [Enqueue "T1"])))
    = if bool_decide ("T1" ∈ queue (st (run (boot cfg3 db0 repo0) [Enqueue "T1"])))
      then queue (st (run (boot cfg3 db0 repo0) [Enqueue "T1"]))
      else queue (st (run (boot cfg3 db0 repo0) [Enqueue "T1"])) ++ ["T1"].
Proof.
  assert (isProcessing (st (run (boot cfg3 db0 repo0) [Enqueue "T1"])) = true) as H
    by (vm_compute; reflexivity).
  split; [exact H|].
  exact (proj2 (proj2 (queue_never_holds_a_ticket_twice cfg3 db0 repo0 [Enqueue "T1"])) "T1" H).
Defined.

(** *** Ending a job *)

(** The job of ticket [t] with agent record [a] is the current job, and
    both records are in the store. *)
Record JobAt (t a : string) (s : State) : Prop := mkJobAt {
  job_current : ∃ j, currentJob s = Some j ∧ ticketId j = t ∧ agentId j = a;
  job_agent : is_Some (agents (db s) !! a);
  job_ticket : is_Some (tickets (db s) !! t)
}.

Ltac unfold_methods :=
  unfold completeAgent, blockAgent, failAgent, updateAgentStatus, updateTicketColumn,
    addSystemMessage, addAgentMessage, addHumanMessage, nanoid, broadcast, broadcastToTicket,
    withWorktreeManager, spawn in *.

Lemma completeAgent_spec (t a o : string) (s : State) :
  ∃ s', completeAgent t a o s = (inr (), s')
    ∧ currentJob s' = None
    ∧ queueSide s' = queueSide s
    ∧ spawned s' = spawned s
    ∧ repo s' = snd (Worktree.unlock t (repo s))
    ∧ agents (db s') !! a
      = (λ row, mkAgentRow (a_ticketId row) "COMPLETED" (iterationCount row)
                           (a_maxIterations row) true) <$> agents (db s) !! a
    ∧ tickets (db s') !! t
      = (λ row, mkTicket (title row) (description row) (Some "review")) <$> tickets (db s) !! t
    ∧ last (events s') = Some (agent_completed t a).
Proof.
  unfold_methods. rewrite !MonadFacts.bind_eq. run_monad. orch_simpl.
  destruct (Worktree.unlock t (repo s)) as [r g'] eqn:E.
  eexists. split; [by destruct r as [?|[]]|]. orch_simpl.
  rewrite !lookup_alter_eq, last_snoc. by repeat split.
Qed.

(** What [blockAgent] leaves behind for ticket [t] and agent record [a]
    when it posts [question], starting from [s]. *)
Record BlockedWith (t a question : string) (s s' : State) : Prop := mkBlockedWith {
  blocked_status : a_status <$> agents (db s') !! a = Some "BLOCKED";
  blocked_column : columnId <$> tickets (db s') !! t = Some (Some "blocked");
  blocked_message :
    ∃ id, last (messages (db s')) = Some (mkMessage id t question agent);
  blocked_event : last (events s') = Some (agent_blocked t a question);
  blocked_job : ∃ j, currentJob s' = Some j ∧ ticketId j = t ∧ agentId j = a;
  blocked_repo : repo s' = repo s;
  blocked_spawned : spawned s' = spawned s;
  blocked_queueSide : queueSide s' = queueSide s
}.

Lemma blockAgent_spec (t a q : string) (s : State) :
  JobAt t a s →
  ∃ s', blockAgent t a q s = (inr (), s') ∧ BlockedWith t a q s s'.
Proof.
  intros [Hj [row Hrow] [trow Htrow]].
  unfold_methods. rewrite !MonadFacts.bind_eq. run_monad. orch_simpl.
  eexists. split; [reflexivity|].
  split; orch_simpl; rewrite ?lookup_alter_eq, ?Hrow, ?Htrow, ?last_snoc; try done.
  by eexists.
Qed.

Lemma failAgent_spec (t a e : string) (s : State) :
  ∃ s', failAgent t a e s = (inr (), s')
    ∧ currentJob s' = None
    ∧ queueSide s' = queueSide s
    ∧ spawned s' = spawned s
    ∧ repo s' = snd (Worktree.remove t true (repo s))
    ∧ agents (db s') !! a
      = (λ row, mkAgentRow (a_ticketId row) "FAILED" (iterationCount row)
                           (a_maxIterations row) true) <$> agents (db s) !! a
    ∧ tickets (db s') !! t
      = (λ row, mkTicket (title row) (description row) (Some "blocked")) <$> tickets (db s) !! t
    ∧ messages (db s')
      = messages (db s) ++ [mkMessage ("id-" +:+ pretty (nextId s)) t ("Agent failed: " +:+ e) system]
    ∧ last (events s') = Some (agent_failed t a e).
Proof.
  unfold_methods. rewrite !MonadFacts.bind_eq. run_monad. orch_simpl.
  destruct (Worktree.remove t true (repo s)) as [r g'] eqn:E.
  eexists. split; [by destruct r as [?|[]]|]. orch_simpl.
  rewrite !lookup_alter_eq, last_snoc. by repeat split.
Qed.

(** *** The loop *)

(** With a job in place and iterations left, the loop spawns one worker
    and waits. *)
Lemma loopFrom_waits (left : nat) (t a w pr : string) (sid : option string) (i : nat)
    (s : State) :
  JobAt t a s →
  ∃ s', loopFrom (S left) t a w pr sid i s
        = (inr (Some (mkPending t a w pr sid (S i) (length (spawned s)))), s')
    ∧ JobAt t a s'
    ∧ queueSide s' = queueSide s
    ∧ repo s' = repo s
    ∧ spawned s' = spawned s ++ [mkSpawn (claudeArgs (config s) sid pr) w]
    ∧ messages (db s') = messages (db s).
Proof.
  intros [(j & Hj & Ht & Ha) [row Hrow] Htk].
  cbn [loopFrom]. unfold_methods. unfold updateCurrentJob.
  rewrite !MonadFacts.bind_eq. run_monad. orch_simpl. rewrite Hj. orch_simpl.
  eexists. split; [reflexivity|]. orch_simpl. repeat split; try done.
  - by eexists.
  - orch_simpl. rewrite lookup_alter_eq, Hrow. by eexists.
Qed.

(** With the budget used up, the loop blocks the job and returns. *)
Lemma loopFrom_exhausted (t a w pr : string) (sid : option string) (i : nat) (s : State) :
  JobAt t a s →
  ∃ s', loopFrom 0 t a w pr sid i s = (inr None, s')
    ∧ BlockedWith t a (maxIterationsQuestion (config s)) s s'.
Proof.
  intros HJ. cbn [loopFrom].
  destruct (blockAgent_spec t a (maxIterationsQuestion (config s)) s HJ) as (s' & Hb & HB).
  exists s'. split; [|done].
  rewrite !MonadFacts.bind_eq. unfold gets. by rewrite MonadFacts.bind_eq, Hb.
Qed.

(** A result without either sentinel. *)
Definition quiet (res : IterResult) : Prop :=
  match res with
  | Collected stdout stderr _ =>
      isTaskComplete (streamOutput stdout stderr) = false
      ∧ needsHumanInput (streamOutput stdout stderr) = false
  | Failed _ => True
  end.

(** After a quiet result the loop is back at its head, with the job still
    in place and no worker spawned in between. *)
Lemma afterOutput_quiet (p : Pending) (res : IterResult) (s : State) :
  JobAt (p_ticketId p) (p_agentId p) s →
  quiet res →
  ∃ s1 sid,
    afterOutput p res s
    = loopFrom (maxIterations (config s) - p_iterations p) (p_ticketId p) (p_agentId p)
               (p_worktreePath p) (p_prompt p) sid (p_iterations p) s1
    ∧ JobAt (p_ticketId p) (p_agentId p) s1
    ∧ queueSide s1 = queueSide s
    ∧ repo s1 = repo s
    ∧ spawned s1 = spawned s.
Proof.
  intros [(j & Hj & Ht & Ha) Hrow Htk] Hq.
  unfold afterOutput. destruct res as [out err code|e]; cbn [quiet] in Hq.
  - destruct Hq as [Hc Hn].
    unfold updateCurrentJob. rewrite !MonadFacts.bind_eq. run_monad. orch_simpl.
    rewrite Hj, Hc, Hn. orch_simpl.
    eexists _, _. split; [reflexivity|]. repeat split; try done.
    by eexists.
  - unfold_methods. rewrite !MonadFacts.bind_eq. run_monad. orch_simpl.
    eexists _, _. split; [reflexivity|]. repeat split; try done.
    by eexists.
Qed.

Lemma startAgentResumed_returns (p : Pending) (res : IterResult) (s s' : State)
    (r : option Pending) :
  afterOutput p res s = (inr r, s') → startAgentResumed p res s = (inr r, s').
Proof. intros H. unfold startAgentResumed. by rewrite MonadFacts.try_catch_eq, H. Qed.

(** A quiet result below the budget: the next iteration starts. *)
Lemma quiet_iteration (p : Pending) (res : IterResult) (s : State) :
  JobAt (p_ticketId p) (p_agentId p) s →
  quiet res →
  p_iterations p < maxIterations (config s) →
  ∃ p' s',
    startAgentResumed p res s = (inr (Some p'), s')
    ∧ JobAt (p_ticketId p) (p_agentId p) s'
    ∧ p_ticketId p' = p_ticketId p ∧ p_agentId p' = p_agentId p
    ∧ p_iterations p' = S (p_iterations p)
    ∧ queueSide s' = queueSide s
    ∧ repo s' = repo s
    ∧ length (spawned s') = S (length (spawned s)).
Proof.
  intros HJ Hq Hlt.
  destruct (afterOutput_quiet p res s HJ Hq) as (s1 & sid & Heq & HJ1 & Hqs1 & Hr1 & Hsp1).
  destruct (maxIterations (config s) - p_iterations p) as [|left] eqn:Hleft; [lia|].
  destruct (loopFrom_waits left (p_ticketId p) (p_agentId p) (p_worktreePath p) (p_prompt p)
              sid (p_iterations p) s1 HJ1) as (s' & Hl & HJ' & Hqs' & Hr' & Hsp' & _).
  eexists _, s'. split.
  { apply startAgentResumed_returns. rewrite Heq. exact Hl. }
  split_and!; try done; try congruence.
  rewrite Hsp', length_app, Hsp1. cbn. lia.
Qed.

(** A quiet result at the budget: the job is blocked with the question
    about the limit, and the loop returns. *)
Lemma quiet_last_iteration (p : Pending) (res : IterResult) (s : State) :
  JobAt (p_ticketId p) (p_agentId p) s →
  quiet res →
  maxIterations (config s) ≤ p_iterations p →
  ∃ s',
    startAgentResumed p res s = (inr None, s')
    ∧ BlockedWith (p_ticketId p) (p_agentId p) (maxIterationsQuestion (config s)) s s'.
Proof.
  intros HJ Hq Hle.
  destruct (afterOutput_quiet p res s HJ Hq) as (s1 & sid & Heq & HJ1 & Hqs1 & Hr1 & Hsp1).
  replace (maxIterations (config s) - p_iterations p) with 0 in Heq by lia.
  destruct (loopFrom_exhausted (p_ticketId p) (p_agentId p) (p_worktreePath p) (p_prompt p)
              sid (p_iterations p) s1 HJ1) as (s' & Hl & HB).
  exists s'. split.
  { apply startAgentResumed_returns. rewrite Heq. exact Hl. }
  assert (config s1 = config s) as Hcfg by (unfold queueSide in Hqs1; congruence).
  rewrite Hcfg in HB. destruct HB. split; try done; congruence.
Qed.

Lemma feed_app (rs1 rs2 : list IterResult) : ∀ r s,
  feed (rs1 ++ rs2) r s = feed rs2 (fst (feed rs1 r s)) (snd (feed rs1 r s)).
Proof.
  induction rs1 as [|res rs1 IH]; intros r s; cbn [app feed].
  - by destruct r as [e|[p|]], rs2.
  - destruct r as [e|[p|]]; cbn [feed fst snd].
    + by destruct rs2.
    + destruct (startAgentResumed p res s) as [r' s']. apply IH.
    + by destruct rs2.
Qed.

(** Quiet results below the budget leave the loop waiting, one iteration
    and one worker further for each. *)
Lemma feed_quiet_waits (rs : list IterResult) : ∀ (p : Pending) (s : State),
  JobAt (p_ticketId p) (p_agentId p) s →
  Forall quiet rs →
  p_iterations p + length rs ≤ maxIterations (config s) →
  ∃ p' s',
    feed rs (inr (Some p)) s = (inr (Some p'), s')
    ∧ JobAt (p_ticketId p) (p_agentId p) s'
    ∧ p_ticketId p' = p_ticketId p ∧ p_agentId p' = p_agentId p
    ∧ p_iterations p' = p_iterations p + length rs
    ∧ queueSide s' = queueSide s
    ∧ repo s' = repo s
    ∧ length (spawned s') = length (spawned s) + length rs.
Proof.
  induction rs as [|res rs IH]; intros p s HJ Hq Hlen.
  - exists p, s. cbn. split_and!; try done; lia.
  - apply Forall_cons in Hq as [Hq Hqs]. cbn [length] in Hlen.
    destruct (quiet_iteration p res s HJ Hq) as (p1 & s1 & Hs1 & HJ1 & Ht & Ha & Hi & Hqs1 & Hr & Hsp);
      [lia|].
    assert (config s1 = config s) as Hcfg by (unfold queueSide in Hqs1; congruence).
    rewrite <- Ht, <- Ha in HJ1.
    destruct (IH p1 s1 HJ1 Hqs) as (p' & s' & Hf & HJ' & Ht' & Ha' & Hi' & Hqs' & Hr' & Hsp').
    { rewrite Hi, Hcfg. lia. }
    exists p', s'. cbn [feed]. rewrite Hs1, Hf. cbn [length].
    rewrite Ht, Ha in HJ'. split_and!; try done; try congruence; lia.
Qed.

(** The [catch] around the loop in [startAgent]. *)
Definition failOnError (t a : string) : Js.Exn → M State (option Pending) :=
  λ error, failAgent t a (Js.String_ error);; mret None.

(** [startAgent] for a ticket that is in the store and whose workspace can
    be created: the job is set up and the loop entered. *)
Lemma startAgent_created (t : string) (s : State) (ticket : TicketRow)
    (wt : Worktree.Worktree) (g' : Worktree.Repo) :
  tickets (db s) !! t = Some ticket →
  Worktree.create t "main" (repo s) = (inr wt, g') →
  ∃ s1 pr,
    startAgent t s
    = try_catch (loopFrom (maxIterations (config s)) t ("id-" +:+ pretty (nextId s))
                          (Worktree.path wt) pr None 0)
                (failOnError t ("id-" +:+ pretty (nextId s))) s1
    ∧ JobAt t ("id-" +:+ pretty (nextId s)) s1
    ∧ queueSide s1 = queueSide s
    ∧ repo s1 = g'
    ∧ spawned s1 = spawned s.
Proof.
  intros Htk Hcr. set (a := "id-" +:+ pretty (nextId s)).
  unfold startAgent, runAgentLoop, getPRDContent. unfold_methods.
  rewrite !MonadFacts.bind_eq. run_monad. orch_simpl. rewrite Htk. orch_simpl.
  rewrite Hcr. orch_simpl. rewrite Htk. fold a.
  destruct (prds (db s) !! t) as [[|c rest]|]; orch_simpl; rewrite Nat.sub_0_r;
    (eexists _, _; split; [reflexivity|]; split_and!; try done;
     split; orch_simpl; [by eexists|by rewrite lookup_insert_eq|by rewrite Htk]).
Qed.

(** The first iteration output with the completion sentinel ends the job
    as completed. *)
Lemma completion_ends_the_job (p : Pending) (stdout : list string) (stderr : string)
    (code : nat) (s : State) :
  JobAt (p_ticketId p) (p_agentId p) s →
  isTaskComplete (streamOutput stdout stderr) = true →
  ∃ s',
    startAgentResumed p (Collected stdout stderr code) s = (inr None, s')
    ∧ currentJob s' = None
    ∧ queueSide s' = queueSide s
    ∧ spawned s' = spawned s
    ∧ repo s' = snd (Worktree.unlock (p_ticketId p) (repo s))
    ∧ a_status <$> agents (db s') !! p_agentId p = Some "COMPLETED"
    ∧ columnId <$> tickets (db s') !! p_ticketId p = Some (Some "review")
    ∧ last (events s') = Some (agent_completed (p_ticketId p) (p_agentId p)).
Proof.
  intros [(j & Hj & Ht & Ha) [row Hrow] [trow Htrow]] Hc.
  set (o := streamOutput stdout stderr) in *.
  destruct (completeAgent_spec (p_ticketId p) (p_agentId p) o
              (set_currentJob (Some (set_lastOutput o j)) s))
    as (s' & Hs' & Hcur & Hqs & Hsp & Hrepo & Hag & Htk & Hev).
  exists s'. split.
  { apply startAgentResumed_returns. unfold afterOutput, updateCurrentJob.
    run_monad. orch_simpl. rewrite Hj. fold o. rewrite Hc, Hs'. done. }
  orch_simpl. rewrite Hag, Htk, Hrow, Htrow. by split_and!.
Qed.

(** An iteration output with the need-input marker and without the
    completion sentinel blocks the job with the extracted question. *)
Lemma need_input_blocks_the_job (p : Pending) (stdout : list string) (stderr : string)
    (code : nat) (s : State) :
  JobAt (p_ticketId p) (p_agentId p) s →
  isTaskComplete (streamOutput stdout stderr) = false →
  needsHumanInput (streamOutput stdout stderr) = true →
  ∃ s',
    startAgentResumed p (Collected stdout stderr code) s = (inr None, s')
    ∧ BlockedWith (p_ticketId p) (p_agentId p)
                  (extractQuestion (streamOutput stdout stderr)) s s'.
Proof.
  intros HJ Hc Hn. pose proof HJ as [(j & Hj & Ht & Ha) Hrow Htrow].
  set (o := streamOutput stdout stderr) in *.
  assert (JobAt (p_ticketId p) (p_agentId p) (set_currentJob (Some (set_lastOutput o j)) s))
    as HJ0 by (split; orch_simpl; [by eexists|done|done]).
  destruct (blockAgent_spec (p_ticketId p) (p_agentId p) (extractQuestion o) _ HJ0)
    as (s' & Hs' & HB).
  exists s'. split.
  { apply startAgentResumed_returns. unfold afterOutput, updateCurrentJob.
    run_monad. orch_simpl. rewrite Hj. fold o. rewrite Hc, Hn, Hs'. done. }
  destruct HB. by split.
Qed.

(** *** The question of a blocked job *)

(** The text behind the first occurrence of [needle] in [s]. *)
Fixpoint afterFirst (needle s : string) : option string :=
  if String.prefix needle s then Some (Js.drop (String.length needle) s)
  else match s with
       | String _ s' => afterFirst needle s'
       | EmptyString => None
       end.

Lemma prefix_split (p s : string) :
  String.prefix p s = true → s = p +:+ Js.drop (String.length p) s.
Proof.
  revert s. induction p as [|a p IH]; intros s H; [done|].
  destruct s as [|b s]; [done|]. cbn in H.
  destruct (Ascii.ascii_dec a b) as [->|]; [|done].
  cbn [String.length Js.drop]. rewrite JsFacts.append_cons. f_equal. by apply IH.
Qed.

Lemma includes_afterFirst (s needle : string) :
  Js.includes s needle = true ↔ is_Some (afterFirst needle s).
Proof.
  induction s as [|c s IH]; cbn [Js.includes afterFirst].
  - destruct (String.prefix needle ""); [by split; eauto|]. split; [done|by intros [? ?]].
  - destruct (String.prefix needle (String c s)); [by split; eauto|]. done.
Qed.

Lemma trimStart_blank (s : string) : Js.all_whitespace s = true → Js.trimStart s = "".
Proof.
  induction s as [|c s IH]; [done|]. cbn. intros [Hc Hs]%andb_true_iff. rewrite Hc. by apply IH.
Qed.

Lemma lastChar_blank (s : string) (c : ascii) :
  Js.all_whitespace s = true → lastChar s = Some c → Js.isWhitespace c = true.
Proof.
  induction s as [|c0 s IH]; [done|]. cbn [Js.all_whitespace lastChar].
  intros [Hc Hs]%andb_true_iff. destruct s as [|c1 s]; [congruence|]. by apply IH.
Qed.

Lemma lastChar_None (s : string) : lastChar s = None → s = "".
Proof.
  induction s as [|c0 s IH]; [done|]. cbn [lastChar]. destruct s as [|c1 s]; [done|].
  intros H. by specialize (IH H).
Qed.

Lemma matchQuestion_eq (o : string) :
  matchQuestion o
  = match (if String.prefix needInputMarker o
           then questionGroup (Js.drop (String.length needInputMarker) o)
           else None) with
    | Some group => Some group
    | None => match o with
              | String _ rest => matchQuestion rest
              | EmptyString => None
              end
    end.
Proof. by destruct o. Qed.

Lemma afterFirst_eq (needle o : string) :
  afterFirst needle o
  = if String.prefix needle o then Some (Js.drop (String.length needle) o)
    else match o with
         | String _ rest => afterFirst needle rest
         | EmptyString => None
         end.
Proof. by destruct o. Qed.

(** When nothing but white space follows the first marker, the question
    is the fixed one. *)
Lemma extractQuestion_blank (o rest : string) :
  afterFirst needInputMarker o = Some rest →
  Js.all_whitespace rest = true →
  extractQuestion o = "Agent needs human input".
Proof.
  intros Hafter Hblank. unfold extractQuestion.
  induction o as [|c o IH].
  - by vm_compute in Hafter.
  - rewrite matchQuestion_eq. rewrite afterFirst_eq in Hafter.
    destruct (String.prefix needInputMarker (String c o)) eqn:Hpre.
    + assert (Js.drop (String.length needInputMarker) (String c o) = rest) as Hrest
        by congruence.
      rewrite Hrest. unfold questionGroup. rewrite (trimStart_blank rest Hblank).
      destruct (lastChar rest) as [l|] eqn:Hlast.
      * pose proof (lastChar_blank rest l Hblank Hlast) as Hl.
        unfold Js.trim. cbn. by rewrite Hl.
      * apply lastChar_None in Hlast. subst rest.
        apply prefix_split in Hpre. rewrite Hlast, JsFacts.append_nil_r in Hpre.
        injection Hpre as -> ->. by vm_compute.
    + by apply IH.
Qed.

(** *** The readers of the worker's output, on examples *)

Example question_after_the_marker :
  extractQuestion ("I looked at the schema. NEED_HUMAN_INPUT: Which database?" +:+ lf)
  = "Which database?".
Proof. reflexivity. Qed.

Example question_from_the_first_marker :
  extractQuestion "NEED_HUMAN_INPUT: a or b? NEED_HUMAN_INPUT:" = "a or b? NEED_HUMAN_INPUT:".
Proof. reflexivity. Qed.

Example no_question_without_marker : extractQuestion "nothing to ask" = "Agent needs human input".
Proof. reflexivity. Qed.

Example sentinel_across_chunks : isTaskComplete (streamOutput ["TASK_COM"; "PLETE"] "") = true.
Proof. reflexivity. Qed.

Example sentinel_on_stderr : isTaskComplete (streamOutput ["working"] "TASK_COMPLETE") = true.
Proof. reflexivity. Qed.

Example session_id_in_json :
  extractSessionId ("{" +:+ dq +:+ "type" +:+ dq +:+ ":" +:+ dq +:+ "system" +:+ dq +:+ ","
                    +:+ dq +:+ "session_id" +:+ dq +:+ ":" +:+ dq +:+ "0b6f-42" +:+ dq +:+ "}")
  = Some "0b6f-42".
Proof. reflexivity. Qed.

Example session_id_any_case : extractSessionId "Session-ID: abc_def" = Some "abc".
Proof. reflexivity. Qed.

Example session_id_needs_a_separator : extractSessionId "sessionid42" = None.
Proof. reflexivity. Qed.

(** *** One job from start to end *)

(** [startAgent] for ticket [t] in state [s], followed by the results the
    worker delivers, one per iteration. *)
Definition jobAfter (t : string) (s : State) (results : list IterResult)
    : (Js.Exn + option Pending) * State :=
  feed results (fst (startAgent t s)) (snd (startAgent t s)).

Section OneJob.

Context (t : string) (s : State) (ticket : TicketRow).
Context (wt : Worktree.Worktree) (g' : Worktree.Repo).
Hypothesis ticket_known : tickets (db s) !! t = Some ticket.
Hypothesis workspace_created : Worktree.create t "main" (repo s) = (inr wt, g').

Let a : string := "id-" +:+ pretty (nextId s).
Let workspace : string := Worktree.worktreePathOf (repo s) t.

(** With no budget at all the job is blocked before any worker runs. *)
Lemma job_without_budget :
  maxIterations (config s) = 0 →
  ∃ s1 s', startAgent t s = (inr None, s')
    ∧ BlockedWith t a (maxIterationsQuestion (config s)) s1 s'
    ∧ spawned s1 = spawned s ∧ repo s1 = g'.
Proof.
  intros Hmax.
  destruct (startAgent_created t s ticket wt g' ticket_known workspace_created)
    as (s1 & pr & Heq & HJ & Hqs & Hr & Hsp).
  fold a in Heq, HJ. rewrite Hmax in Heq.
  destruct (loopFrom_exhausted t a (Worktree.path wt) pr None 0 s1 HJ) as (s' & Hl & HB).
  assert (config s1 = config s) as Hcfg by (unfold queueSide in Hqs; congruence).
  rewrite Hcfg in HB.
  exists s1, s'. rewrite Heq, MonadFacts.try_catch_eq, Hl. done.
Qed.

(** Quiet results below the budget leave the job waiting for the worker
    of the next iteration. *)
Lemma job_waits (rs : list IterResult) :
  Forall quiet rs →
  length rs < maxIterations (config s) →
  ∃ p s',
    jobAfter t s rs = (inr (Some p), s')
    ∧ JobAt t a s'
    ∧ p_ticketId p = t ∧ p_agentId p = a
    ∧ p_iterations p = S (length rs)
    ∧ queueSide s' = queueSide s
    ∧ repo s' = g'
    ∧ length (spawned s') = length (spawned s) + S (length rs).
Proof.
  intros Hq Hlen. unfold jobAfter.
  destruct (startAgent_created t s ticket wt g' ticket_known workspace_created)
    as (s1 & pr & Heq & HJ & Hqs & Hr & Hsp).
  fold a in Heq, HJ.
  destruct (maxIterations (config s)) as [|left] eqn:Hmax; [lia|].
  destruct (loopFrom_waits left t a (Worktree.path wt) pr None 0 s1 HJ)
    as (s2 & Hl & HJ2 & Hqs2 & Hr2 & Hsp2 & _).
  rewrite Heq, MonadFacts.try_catch_eq, Hl. cbn [fst snd].
  set (p1 := mkPending t a (Worktree.path wt) pr None 1 (length (spawned s1))).
  assert (config s2 = config s) as Hcfg by (unfold queueSide in *; congruence).
  destruct (feed_quiet_waits rs p1 s2) as (p & s' & Hf & HJ' & Ht & Ha & Hi & Hqs' & Hr' & Hsp');
    [done|done|rewrite Hcfg, Hmax; cbn; lia|].
  exists p, s'. cbn in *. split_and!; try done; try congruence.
  rewrite Hsp', Hsp2, length_app, Hsp. cbn. lia.
Qed.

(** C4: when no iteration's output holds a sentinel, the loop runs
    [maxIterations] iterations, no fewer (after fewer results it is still
    waiting for a worker) and no more (that many workers are spawned), and
    then blocks the job: the agent record is BLOCKED, the ticket is in the
    blocked column, the last message is the worker-attributed question
    about the limit, the blocked event is emitted, and the job stays the
    current job. *)
Theorem budget_exhaustion_blocks_the_job (rs : list IterResult) :
  Forall quiet rs →
  length rs = maxIterations (config s) →
  ∃ s',
    jobAfter t s rs = (inr None, s')
    ∧ (∀ k, k < maxIterations (config s) →
         ∃ p, fst (jobAfter t s (take k rs)) = inr (Some p) ∧ p_iterations p = S k)
    ∧ length (spawned s') = length (spawned s) + maxIterations (config s)
    ∧ a_status <$> agents (db s') !! a = Some "BLOCKED"
    ∧ columnId <$> tickets (db s') !! t = Some (Some "blocked")
    ∧ (∃ id, last (messages (db s'))
             = Some (mkMessage id t (maxIterationsQuestion (config s)) agent))
    ∧ last (events s') = Some (agent_blocked t a (maxIterationsQuestion (config s)))
    ∧ (∃ j, currentJob s' = Some j ∧ ticketId j = t ∧ agentId j = a)
    ∧ repo s' = g'.
Proof.
  intros Hq Hlen.
  assert (∀ k, k < maxIterations (config s) →
            ∃ p, fst (jobAfter t s (take k rs)) = inr (Some p) ∧ p_iterations p = S k)
    as Hprefix.
  { intros k Hk.
    destruct (job_waits (take k rs)) as (p & s' & Hj & _ & _ & _ & Hi & _).
    - by apply Forall_take.
    - rewrite length_take. lia.
    - exists p. rewrite Hj. split; [done|]. rewrite Hi, length_take. f_equal. lia. }
  destruct rs as [|r0 rs0] using rev_ind.
  - cbn [length] in Hlen. symmetry in Hlen.
    destruct (job_without_budget Hlen) as (s1 & s' & Hs' & HB & Hsp & Hr).
    exists s'. unfold jobAfter. rewrite Hs'. cbn [feed fst snd]. destruct HB.
    split_and!; try done; try congruence.
    + intros k Hk. lia.
    + rewrite blocked_spawned0, Hsp, Hlen. lia.
  - clear IHrs0. rewrite length_app in Hlen. cbn [length] in Hlen.
    apply Forall_app in Hq as [Hq0 Hqr]. apply Forall_inv in Hqr.
    destruct (job_waits rs0 Hq0) as (p & s1 & Hj & HJ & Ht & Ha & Hi & Hqs & Hr & Hsp); [lia|].
    assert (config s1 = config s) as Hcfg by (unfold queueSide in Hqs; congruence).
    rewrite <- Ht, <- Ha in HJ.
    destruct (quiet_last_iteration p r0 s1 HJ Hqr) as (s' & Hs' & HB); [rewrite Hcfg; lia|].
    rewrite Ht, Ha, Hcfg in HB. destruct HB.
    exists s'. unfold jobAfter in *. rewrite feed_app, Hj. cbn [feed fst snd]. rewrite Hs'.
    split_and!; try done; try congruence. rewrite blocked_spawned0, Hsp. lia.
Qed.

(** C5: the first completion sentinel, in whatever iteration within the
    budget, ends the job: the agent record is COMPLETED, the ticket is in
    the review column, the workspace is unlocked and still there with its
    branch, the completion event is emitted, no job is current, and no
    worker is spawned beyond the ones of the iterations so far, whatever
    results might still arrive. *)
Theorem completion_sentinel_completes_the_job
    (rs : list IterResult) (stdout : list string) (stderr : string) (code : nat) :
  Forall quiet rs →
  length rs < maxIterations (config s) →
  isTaskComplete (streamOutput stdout stderr) = true →
  ∃ s',
    jobAfter t s (rs ++ [Collected stdout stderr code]) = (inr None, s')
    ∧ a_status <$> agents (db s') !! a = Some "COMPLETED"
    ∧ columnId <$> tickets (db s') !! t = Some (Some "review")
    ∧ Worktree.registered (repo s') !! workspace = Some false
    ∧ (workspace ∈ Worktree.dirs (repo s'))
    ∧ (Worktree.branchNameOf t ∈ Worktree.branches (repo s'))
    ∧ last (events s') = Some (agent_completed t a)
    ∧ currentJob s' = None
    ∧ length (spawned s') = length (spawned s) + S (length rs)
    ∧ ∀ more, jobAfter t s (rs ++ [Collected stdout stderr code] ++ more) = (inr None, s').
Proof.
  intros Hq Hlen Hc.
  destruct (job_waits rs Hq Hlen) as (p & s1 & Hj & HJ & Ht & Ha & Hi & Hqs & Hr & Hsp).
  rewrite <- Ht, <- Ha in HJ.
  destruct (completion_ends_the_job p stdout stderr code s1 HJ Hc)
    as (s' & Hs' & Hcur & Hqs' & Hsp' & Hrepo & Hst & Hcol & Hev).
  rewrite Ht, Ha in *.
  pose proof (WorktreeSpec.create_outcome t "main" (repo s)) as [_ Hout].
  rewrite workspace_created in Hout. destruct Hout as (Hnew & Hd & Hreg & Hbr & Hwd & _).
  pose proof (WorktreeSpec.unlock_spec t g') as (Hud & Hub & _ & _ & _ & Hur).
  assert (Worktree.worktreePathOf g' t = workspace) as Hpath
    by (unfold workspace, Worktree.worktreePathOf; by rewrite Hwd).
  rewrite Hpath in Hur. rewrite Hreg, lookup_insert_eq in Hur. cbn in Hur.
  exists s'. assert (jobAfter t s (rs ++ [Collected stdout stderr code]) = (inr None, s')) as Hend.
  { unfold jobAfter in *. rewrite feed_app, Hj. cbn [feed fst snd]. by rewrite Hs'. }
  split_and!; try done.
  - by rewrite Hrepo, Hr.
  - rewrite Hrepo, Hr, Hud, Hd. set_solver.
  - rewrite Hrepo, Hr, Hub, Hbr. set_solver.
  - by rewrite Hsp'.
  - intros more. unfold jobAfter in *. rewrite app_assoc, feed_app, Hend. cbn. by destruct more.
Qed.

(** C10, with the precedence of the completion sentinel spelt out: an
    output without the completion sentinel in which nothing but white
    space follows the first need-input marker blocks the job, and the
    question posted in the worker's name is the fixed text. *)
Theorem blank_question_falls_back
    (rs : list IterResult) (stdout : list string) (stderr : string) (code : nat)
    (rest : string) :
  Forall quiet rs →
  length rs < maxIterations (config s) →
  isTaskComplete (streamOutput stdout stderr) = false →
  afterFirst needInputMarker (streamOutput stdout stderr) = Some rest →
  Js.all_whitespace rest = true →
  ∃ s',
    jobAfter t s (rs ++ [Collected stdout stderr code]) = (inr None, s')
    ∧ a_status <$> agents (db s') !! a = Some "BLOCKED"
    ∧ columnId <$> tickets (db s') !! t = Some (Some "blocked")
    ∧ (∃ id, last (messages (db s'))
             = Some (mkMessage id t "Agent needs human input" agent))
    ∧ last (events s') = Some (agent_blocked t a "Agent needs human input")
    ∧ (∃ j, currentJob s' = Some j ∧ ticketId j = t ∧ agentId j = a).
Proof.
  intros Hq Hlen Hc Hafter Hblank.
  destruct (job_waits rs Hq Hlen) as (p & s1 & Hj & HJ & Ht & Ha & Hi & Hqs & Hr & Hsp).
  rewrite <- Ht, <- Ha in HJ.
  assert (needsHumanInput (streamOutput stdout stderr) = true) as Hn.
  { apply includes_afterFirst. by rewrite Hafter. }
  destruct (need_input_blocks_the_job p stdout stderr code s1 HJ Hc Hn) as (s' & Hs' & HB).
  rewrite (extractQuestion_blank _ rest Hafter Hblank), Ht, Ha in HB. destruct HB.
  exists s'. unfold jobAfter in *. rewrite feed_app, Hj. cbn [feed fst snd]. rewrite Hs'.
  by split_and!.
Qed.

End OneJob.

(** *** The running example, continued *)

Definition s0 : State := initOrchestrator cfg3 db0 repo0.

Definition ticket1 : TicketRow :=
  mkTicket "Implement X" (Some "implement X") (Some "in-progress").

Definition workspace1 : string := "/srv/worktrees/ticket-T1".

Definition wt1 : Worktree.Worktree :=
  Worktree.mkWorktree workspace1 "ticket/T1" "4f2a9c1" true (Some "T1").

(** Three iterations without a sentinel: some output, a worker that could
    not be run, some more output with a warning on standard error. *)
Definition quiet3 : list IterResult :=
  [ Collected ["Reading the code"; " base"] "" 0;
    Failed (Js.Error "spawn claude ENOENT");
    Collected ["Still working"] "warning: slow" 1 ].

Lemma quiet3_quiet : Forall quiet quiet3.
Proof. repeat constructor. Qed.

Lemma ticket1_known : tickets (db s0) !! "T1" = Some ticket1.
Proof. vm_compute. reflexivity. Qed.

Lemma workspace1_created :
  Worktree.create "T1" "main" (repo s0)
  = (inr wt1, snd (Worktree.create "T1" "main" (repo s0))).
Proof.
  assert (fst (Worktree.create "T1" "main" (repo s0)) = inr wt1) as H
    by (vm_compute; reflexivity).
  destruct (Worktree.create "T1" "main" (repo s0)) as [r g]. cbn in *. by subst.
Qed.

Lemma budget_exhaustion_blocks_the_job_witness :
  tickets (db s0) !! "T1" = Some ticket1
  ∧ Forall quiet quiet3
  ∧ length quiet3 = maxIterations (config s0)
  ∧ ∃ s', jobAfter "T1" s0 quiet3 = (inr None, s')
          ∧ length (spawned s') = length (spawned s0) + maxIterations (config s0)
          ∧ a_status <$> agents (db s') !! ("id-" +:+ pretty (nextId s0)) = Some "BLOCKED".
Proof.
  split; [exact ticket1_known|]. split; [exact quiet3_quiet|]. split; [reflexivity|].
  destruct (budget_exhaustion_blocks_the_job "T1" s0 ticket1 wt1 _
              ticket1_known workspace1_created quiet3 quiet3_quiet eq_refl)
    as (s' & Hend & _ & Hsp & Hst & _).
  exists s'. by split_and!.
Defined.

Lemma completion_sentinel_completes_the_job_witness :
  tickets (db s0) !! "T1" = Some ticket1
  ∧ Forall quiet (take 2 quiet3)
  ∧ length (take 2 quiet3) < maxIterations (config s0)
  ∧ isTaskComplete (streamOutput ["All done. TASK_"; "COMPLETE"] "") = true
  ∧ ∃ s', jobAfter "T1" s0 (take 2 quiet3 ++ [Collected ["All done. TASK_"; "COMPLETE"] "" 0])
          = (inr None, s')
          ∧ Worktree.registered (repo s') !! Worktree.worktreePathOf (repo s0) "T1" = Some false
          ∧ currentJob s' = None.
Proof.
  assert (Forall quiet (take 2 quiet3)) as Hq by (repeat constructor).
  assert (length (take 2 quiet3) < maxIterations (config s0)) as Hlen by (cbn; lia).
  assert (isTaskComplete (streamOutput ["All done. TASK_"; "COMPLETE"] "") = true) as Hc
    by reflexivity.
  split; [exact ticket1_known|]. split; [exact Hq|]. split; [exact Hlen|]. split; [exact Hc|].
  destruct (completion_sentinel_completes_the_job "T1" s0 ticket1 wt1 _
              ticket1_known workspace1_created (take 2 quiet3)
              ["All done. TASK_"; "COMPLETE"] "" 0 Hq Hlen Hc)
    as (s' & Hend & _ & _ & Hreg & _ & _ & _ & Hcur & _).
  exists s'. by split_and!.
Defined.

(** The marker with a line feed and blanks behind it, and nothing else. *)
Definition blankQuestion : list string := ["I am stuck. NEED_HUMAN_INPUT:"; lf +:+ "   "].

Lemma blank_question_falls_back_witness :
  tickets (db s0) !! "T1" = Some ticket1
  ∧ Forall quiet (take 1 quiet3)
  ∧ length (take 1 quiet3) < maxIterations (config s0)
  ∧ isTaskComplete (streamOutput blankQuestion "") = false
  ∧ afterFirst needInputMarker (streamOutput blankQuestion "") = Some (lf +:+ "   ")
  ∧ Js.all_whitespace (lf +:+ "   ") = true
  ∧ ∃ s', jobAfter "T1" s0 (take 1 quiet3 ++ [Collected blankQuestion "" 0]) = (inr None, s')
          ∧ ∃ id, last (messages (db s'))
                  = Some (mkMessage id "T1" "Agent needs human input" agent).
Proof.
  assert (Forall quiet (take 1 quiet3)) as Hq by (repeat constructor).
  assert (length (take 1 quiet3) < maxIterations (config s0)) as Hlen by (cbn; lia).
  assert (isTaskComplete (streamOutput blankQuestion "") = false) as Hc by reflexivity.
  assert (afterFirst needInputMarker (streamOutput blankQuestion "") = Some (lf +:+ "   "))
    as Hafter by reflexivity.
  assert (Js.all_whitespace (lf +:+ "   ") = true) as Hblank by reflexivity.
  split_and!; try done.
  destruct (blank_question_falls_back "T1" s0 ticket1 wt1 _
              ticket1_known workspace1_created (take 1 quiet3) blankQuestion "" 0 _
              Hq Hlen Hc Hafter Hblank)
    as (s' & Hend & _ & _ & Hmsg & _).
  exists s'. by split.
Defined.

(** C10 as stated fails when the completion sentinel is in the output as
    well: the marker is there with nothing behind it, and yet the job is
    completed, the ticket goes to review and no message is posted in the
    worker's name. *)
Lemma completion_sentinel_outranks_the_marker :
  needsHumanInput (streamOutput ["TASK_COMPLETE "; "NEED_HUMAN_INPUT:"] "") = true
  ∧ afterFirst needInputMarker (streamOutput ["TASK_COMPLETE "; "NEED_HUMAN_INPUT:"] "")
    = Some ""
  ∧ fst (jobAfter "T1" s0 [Collected ["TASK_COMPLETE "; "NEED_HUMAN_INPUT:"] "" 0]) = inr None
  ∧ a_status <$> agents (db (snd (jobAfter "T1" s0
        [Collected ["TASK_COMPLETE "; "NEED_HUMAN_INPUT:"] "" 0]))) !! "id-0"
    = Some "COMPLETED"
  ∧ columnId <$> tickets (db (snd (jobAfter "T1" s0
        [Collected ["TASK_COMPLETE "; "NEED_HUMAN_INPUT:"] "" 0]))) !! "T1"
    = Some (Some "review")
  ∧ map senderType (messages (db (snd (jobAfter "T1" s0
        [Collected ["TASK_COMPLETE "; "NEED_HUMAN_INPUT:"] "" 0]))))
    = [system; system].
Proof. vm_compute. by split_and!. Qed.

(** *** A job whose workspace cannot be created *)

(** [startAgent] for a ticket in the store whose workspace creation
    fails: the job is set up and then failed, with the error as text. *)
Lemma startAgent_not_created (t : string) (s : State) (ticket : TicketRow)
    (e : Js.Exn) (g' : Worktree.Repo) :
  tickets (db s) !! t = Some ticket →
  Worktree.create t "main" (repo s) = (inl e, g') →
  ∃ s1,
    startAgent t s = failOnError t ("id-" +:+ pretty (nextId s)) e s1
    ∧ is_Some (agents (db s1) !! ("id-" +:+ pretty (nextId s)))
    ∧ tickets (db s1) !! t = Some ticket
    ∧ queueSide s1 = queueSide s
    ∧ repo s1 = g'
    ∧ spawned s1 = spawned s.
Proof.
  intros Htk Hcr.
  unfold startAgent, failOnError, nanoid, broadcast, withWorktreeManager.
  run_monad. orch_simpl. rewrite Htk. orch_simpl.
  rewrite Hcr. orch_simpl.
  eexists. split; [reflexivity|]. orch_simpl. rewrite lookup_insert_eq. by split_and!.
Qed.

(** C9, with the condition under which the forced removal can work: when
    the creation of the workspace fails, the agent record is FAILED, the
    error is the last message of the ticket, the ticket is in the blocked
    column, no worker is spawned and nothing waits for one, the forced
    removal is run with its errors ignored, and no job is current; the
    workspace directory is not on disk afterwards provided that, if it
    was there before the start, it was a registered worktree. *)
Theorem failed_creation_fails_the_job (t : string) (s : State) (ticket : TicketRow)
    (e : Js.Exn) (g' : Worktree.Repo) :
  tickets (db s) !! t = Some ticket →
  Worktree.create t "main" (repo s) = (inl e, g') →
  (Worktree.worktreePathOf (repo s) t ∈ Worktree.dirs (repo s) →
   Worktree.worktreePathOf (repo s) t ∈ dom (Worktree.registered (repo s))) →
  ∃ s',
    startAgent t s = (inr None, s')
    ∧ a_status <$> agents (db s') !! ("id-" +:+ pretty (nextId s)) = Some "FAILED"
    ∧ (∃ id, last (messages (db s'))
             = Some (mkMessage id t ("Agent failed: " +:+ Js.String_ e) system))
    ∧ columnId <$> tickets (db s') !! t = Some (Some "blocked")
    ∧ spawned s' = spawned s
    ∧ repo s' = snd (Worktree.remove t true g')
    ∧ (Worktree.worktreePathOf (repo s) t ∉ Worktree.dirs (repo s'))
    ∧ currentJob s' = None
    ∧ last (events s')
      = Some (agent_failed t ("id-" +:+ pretty (nextId s)) (Js.String_ e)).
Proof.
  intros Htk Hcr Hreg.
  destruct (startAgent_not_created t s ticket e g' Htk Hcr)
    as (s1 & Heq & [row Hrow] & Htk1 & Hqs & Hr & Hsp).
  destruct (failAgent_spec t ("id-" +:+ pretty (nextId s)) (Js.String_ e) s1)
    as (s' & Hf & Hcur & Hqs' & Hsp' & Hrepo & Hag & Htk' & Hmsg & Hev).
  exists s'. split.
  { rewrite Heq. unfold failOnError. by rewrite MonadFacts.bind_eq, Hf. }
  rewrite Hag, Htk', Hrow, Htk1, Hmsg, last_snoc, Hrepo, Hr. split_and!; try done.
  - by eexists.
  - congruence.
  - pose proof (WorktreeSpec.create_outcome t "main" (repo s)) as [Hex Hout].
    rewrite Hcr in Hout. destruct Hout as [Hd Hwd].
    assert (Worktree.worktreePathOf g' t = Worktree.worktreePathOf (repo s) t) as Hpath
      by (unfold Worktree.worktreePathOf; by rewrite Hwd).
    destruct (decide (Worktree.worktreePathOf (repo s) t ∈ Worktree.dirs (repo s)))
      as [Hin|Hout].
    + rewrite (Hex Hin) in Hcr. injection Hcr as _ <-.
      by apply WorktreeSpec.remove_forced_registered, Hreg.
    + intros Hin'. apply (WorktreeSpec.remove_dirs_subset t true g') in Hin'.
      rewrite Hd in Hin'. done.
Qed.

(** The branch of T1 exists already, left over from an earlier job. *)
Definition repoBranchTaken : Worktree.Repo :=
  Worktree.mkRepo "/srv/worktrees" ∅ ∅ {["ticket/T1"]} gitEnv0.

Definition sBranchTaken : State := initOrchestrator cfg3 db0 repoBranchTaken.

Definition branchTaken : Js.Exn :=
  Worktree.GitError "fatal: a branch named 'ticket/T1' already exists".

Lemma failed_creation_fails_the_job_witness :
  tickets (db sBranchTaken) !! "T1" = Some ticket1
  ∧ fst (Worktree.create "T1" "main" (repo sBranchTaken)) = inl branchTaken
  ∧ ∃ s', startAgent "T1" sBranchTaken = (inr None, s')
          ∧ a_status <$> agents (db s') !! ("id-" +:+ pretty (nextId sBranchTaken))
            = Some "FAILED"
          ∧ (Worktree.worktreePathOf (repo sBranchTaken) "T1" ∉ Worktree.dirs (repo s'))
          ∧ currentJob s' = None.
Proof.
  assert (tickets (db sBranchTaken) !! "T1" = Some ticket1) as Htk
    by (vm_compute; reflexivity).
  assert (fst (Worktree.create "T1" "main" (repo sBranchTaken)) = inl branchTaken) as Hcr
    by (vm_compute; reflexivity).
  assert (Worktree.create "T1" "main" (repo sBranchTaken)
          = (inl branchTaken, snd (Worktree.create "T1" "main" (repo sBranchTaken)))) as Hcr'.
  { destruct (Worktree.create "T1" "main" (repo sBranchTaken)) as [r g]. cbn in *. by subst. }
  assert (Worktree.worktreePathOf (repo sBranchTaken) "T1" ∈ Worktree.dirs (repo sBranchTaken) →
          Worktree.worktreePathOf (repo sBranchTaken) "T1"
            ∈ dom (Worktree.registered (repo sBranchTaken))) as Hreg.
  { cbn. intros H. by apply elem_of_empty in H. }
  split; [exact Htk|]. split; [exact Hcr|].
  destruct (failed_creation_fails_the_job "T1" sBranchTaken ticket1 branchTaken _ Htk Hcr' Hreg)
    as (s' & Hend & Hst & _ & _ & _ & _ & Hgone & Hcur & _).
  exists s'. by split_and!.
Defined.

(** A directory sits where the workspace of T1 goes, and git knows of no
    worktree there. *)
Definition repoOrphan : Worktree.Repo :=
  Worktree.mkRepo "/srv/worktrees" {[workspace1]} ∅ ∅ gitEnv0.

Definition sOrphan : State := initOrchestrator cfg3 db0 repoOrphan.

(** C9 as stated fails there: creation fails, the job is failed, and the
    directory is still on disk, because git refuses to remove what is not
    a worktree and the error is ignored. *)
Lemma orphan_directory_outlives_the_failed_job :
  fst (Worktree.create "T1" "main" (repo sOrphan)) = inl (WorktreeSpec.alreadyExists "T1")
  ∧ fst (startAgent "T1" sOrphan) = inr None
  ∧ a_status <$> agents (db (snd (startAgent "T1" sOrphan))) !! "id-0" = Some "FAILED"
  ∧ fst (Worktree.remove "T1" true (repo sOrphan))
    = inl (Worktree.GitError "fatal: '/srv/worktrees/ticket-T1' is not a working tree")
  ∧ Worktree.worktreePathOf (repo sOrphan) "T1" = workspace1
  ∧ bool_decide (workspace1 ∈ Worktree.dirs (repo (snd (startAgent "T1" sOrphan)))) = true.
Proof. vm_compute. by split_and!. Qed.

(** *** Resuming *)

(** Without a current job for the ticket, [resumeAgent] throws and leaves
    everything as it was, and the route answers 400. *)
Lemma resumeAgent_without_job (t response : string) (sys : Sys) :
  isCurrentTicket t (st sys) = false →
  resumeAgent t response sys
  = (inl (Js.Error ("No blocked agent found for ticket " +:+ t)), sys)
  ∧ snd (postResume t response sys) = sys
  ∧ httpStatus (fst (postResume t response sys)) = 400.
Proof.
  intros H. unfold postResume, resumeAgent. rewrite H. cbn. by destruct response.
Qed.

(** C6 is not what the code does for a job that is running: T1 is in its
    first iteration, its agent record says RUNNING, and the request to
    resume it is accepted; the answer is recorded as a human message, the
    current job is dropped while its worker is still running, and the
    ticket is put into the queue. *)
Theorem resume_accepts_a_running_job :
  a_status <$> agents (db (st sysRunning)) !! "id-0" = Some "RUNNING"
  ∧ p_iterations <$> pending sysRunning = Some 1
  ∧ currentTicketId (st sysRunning) = Some "T1"
  ∧ fst (resumeAgent "T1" "Use PostgreSQL" sysRunning) = inr ()
  ∧ fst (postResume "T1" "Use PostgreSQL" sysRunning) = mkResponse 200 "Agent resumed"
  ∧ currentJob (st (snd (resumeAgent "T1" "Use PostgreSQL" sysRunning))) = None
  ∧ queue (st (snd (resumeAgent "T1" "Use PostgreSQL" sysRunning))) = ["T1"]
  ∧ last (messages (db (st (snd (resumeAgent "T1" "Use PostgreSQL" sysRunning)))))
    = Some (mkMessage "id-2" "T1" "Use PostgreSQL" human)
  ∧ p_iterations <$> pending (snd (resumeAgent "T1" "Use PostgreSQL" sysRunning)) = Some 1.
Proof. vm_compute. by split_and!. Qed.

(** *** The queue, once more *)

(** When no drain is under way, nothing is left in the queue. *)
Definition idleMeansDrained (sys : Sys) : Prop :=
  isProcessing (st sys) = false → queue (st sys) = [].

Lemma processQueue_drains fuel : ∀ s,
  length (queue s) < fuel →
  isProcessing (fst (processQueue fuel s)) = false →
  queue (fst (processQueue fuel s)) = [].
Proof.
  induction fuel as [|fuel IH]; intros s Hfuel; [lia|]. cbn [processQueue].
  destruct (isProcessing s) eqn:Hp; [cbn [fst]; congruence|].
  destruct (queue s) as [|t rest] eqn:Hq; [done|].
  fold (startOrFail t).
  pose proof (keeps_queue (startOrFail t) (set_queue rest (set_isProcessing true s))
                (queueSide_startOrFail t)) as Hk.
  pose proof (keeps_isProcessing (startOrFail t) (set_queue rest (set_isProcessing true s))
                (queueSide_startOrFail t)) as Hk'.
  cbn [length] in Hfuel.
  destruct (startOrFail t _) as [[e|[p|]] s']; orch_simpl.
  - destruct (queue s') as [|t' rest'] eqn:Hq'; [done|].
    apply IH. orch_simpl. rewrite Hq', Hk. lia.
  - congruence.
  - destruct (queue s') as [|t' rest'] eqn:Hq'; [done|].
    apply IH. orch_simpl. rewrite Hq', Hk. lia.
Qed.

Lemma kickQueue_idleMeansDrained sys : idleMeansDrained (kickQueue sys).
Proof.
  unfold idleMeansDrained, kickQueue.
  pose proof (processQueue_drains (S (length (queue (st sys)))) (st sys)) as H.
  destruct (processQueue _ _) as [s' p']. orch_simpl. apply H. lia.
Qed.

Lemma step_idleMeansDrained (sys : Sys) (c : Call) :
  oneActivation sys → idleMeansDrained sys → idleMeansDrained (step sys c).
Proof.
  intros Hone Hinv. destruct c as [t|t|t response|t|res]; cbn [step].
  - unfold enqueue. case_bool_decide; [done|]. apply kickQueue_idleMeansDrained.
  - unfold idleMeansDrained, dequeue in *. orch_simpl. intros Hp. by rewrite (Hinv Hp).
  - unfold resumeAgent. destruct (isCurrentTicket t (st sys)); cbn [negb snd]; [|done].
    unfold enqueue. case_bool_decide as Hin; [|apply kickQueue_idleMeansDrained].
    unfold idleMeansDrained in *. orch_simpl.
    rewrite (keeps_isProcessing (addHumanMessage t response) _ (queueSide_addHumanMessage _ _)).
    rewrite (keeps_queue (addHumanMessage t response) _ (queueSide_addHumanMessage _ _)).
    done.
  - unfold idleMeansDrained in *. rewrite killAgent_queue.
    unfold killAgent. destruct (currentJob (st sys)) as [j|]; [|done].
    case_bool_decide; [|done].
    match goal with |- context [failAgent ?t ?a ?e ?s] =>
      pose proof (keeps_isProcessing (failAgent t a e) s (queueSide_failAgent _ _ _)) as Hk;
      destruct (failAgent t a e s) as [r s'] end.
    orch_simpl. rewrite Hk. by destruct (process j).
  - unfold workerDone. destruct (pending sys) as [p|] eqn:Hpend; [|done].
    pose proof (keeps_isProcessing (startAgentResumed p res) (st sys)
                  (queueSide_startAgentResumed _ _)) as Hk.
    destruct (startAgentResumed p res (st sys)) as [r s']. orch_simpl.
    assert (isProcessing s' = true) as Hp'.
    { rewrite Hk. apply Hone. rewrite Hpend. by eexists. }
    unfold processQueueResumed.
    assert (∀ s0, idleMeansDrained (match queue (set_isProcessing false s0) with
                                    | [] => mkSys (set_isProcessing false s0) None
                                    | _ :: _ => kickQueue (mkSys (set_isProcessing false s0) None)
                                    end)) as Hrest.
    { intros s0. destruct (queue (set_isProcessing false s0)) eqn:Hq.
      - by intros _.
      - apply kickQueue_idleMeansDrained. }
    destruct r as [e|[p'|]]; [apply Hrest| |apply Hrest].
    unfold idleMeansDrained. orch_simpl. congruence.
Qed.

(** X10: whatever is called in whatever order, an orchestrator that is
    not processing has an empty queue and waits for no worker: no ticket
    is left in the queue without a drain under way. *)
Theorem idle_orchestrator_has_an_empty_queue
    (cfg : OrchestratorConfig) (d : Db) (g : Worktree.Repo) (calls : list Call) :
  isProcessing (st (run (boot cfg d g) calls)) = false →
  queue (st (run (boot cfg d g) calls)) = []
  ∧ pending (run (boot cfg d g) calls) = None.
Proof.
  assert (∀ sys, oneActivation sys ∧ idleMeansDrained sys →
                 oneActivation (run sys calls) ∧ idleMeansDrained (run sys calls)) as H.
  { unfold run. induction calls as [|c calls IH]; intros sys [Hone Hinv]; [done|].
    cbn [foldl]. apply IH. split; [by apply step_oneActivation|by apply step_idleMeansDrained]. }
  destruct (H (boot cfg d g)) as [Hone Hinv].
  { split; [by intros [? ?]|by intros _]. }
  intros Hidle. split; [by apply Hinv|].
  destruct (pending _) as [p|] eqn:Hp; [|done].
  unfold oneActivation in Hone. rewrite Hp in Hone. specialize (Hone (ltac:(by eexists))). congruence.
Qed.

Lemma idle_orchestrator_has_an_empty_queue_witness :
  isProcessing (st (run (boot cfg3 db0 repo0)
                      [Enqueue "T1"; WorkerDone (Collected ["TASK_COMPLETE"] "" 0)])) = false
  ∧ queue (st (run (boot cfg3 db0 repo0)
                 [Enqueue "T1"; WorkerDone (Collected ["TASK_COMPLETE"] "" 0)])) = []
  ∧ pending (run (boot cfg3 db0 repo0)
               [Enqueue "T1"; WorkerDone (Collected ["TASK_COMPLETE"] "" 0)]) = None.
Proof.
  assert (isProcessing (st (run (boot cfg3 db0 repo0)
                              [Enqueue "T1"; WorkerDone (Collected ["TASK_COMPLETE"] "" 0)]))
          = false) as H by (vm_compute; reflexivity).
  split; [exact H|].
  exact (idle_orchestrator_has_an_empty_queue cfg3 db0 repo0 _ H).
Defined.

(** *** Starting a job *)

(** The requirements text [getPRDContent] finds for a ticket in the
    store. *)
Definition prdOf (d : Db) (t : string) (ticket : TicketRow) : string :=
  match prds d !! t with
  | Some (String c rest) => String c rest
  | _ => "# " +:+ title ticket +:+ lf +:+ lf +:+
         match description ticket with
         | Some (String c rest) => String c rest
         | _ => "No description provided"
         end
  end.

Lemma buildAgentPrompt_includes (prd : string) : Js.includes (buildAgentPrompt prd) prd = true.
Proof.
  unfold buildAgentPrompt. rewrite !JsFacts.join_cons.
  do 5 apply JsFacts.includes_app_r. apply JsFacts.includes_app_l, JsFacts.includes_refl.
Qed.

(** [startAgent] for a ticket in the store whose workspace can be
    created, with iterations to go: the first worker is spawned in the
    workspace with the prompt built from the requirements. *)
Lemma startAgent_spawns (t : string) (s : State) (ticket : TicketRow)
    (wt : Worktree.Worktree) (g' : Worktree.Repo) :
  tickets (db s) !! t = Some ticket →
  Worktree.create t "main" (repo s) = (inr wt, g') →
  0 < maxIterations (config s) →
  ∃ s',
    startAgent t s
    = (inr (Some (mkPending t ("id-" +:+ pretty (nextId s)) (Worktree.path wt)
                            (buildAgentPrompt (prdOf (db s) t ticket)) None 1
                            (length (spawned s)))), s')
    ∧ queueSide s' = queueSide s
    ∧ repo s' = g'
    ∧ spawned s'
      = spawned s ++ [mkSpawn (claudeArgs (config s) None
                                 (buildAgentPrompt (prdOf (db s) t ticket)))
                              (Worktree.path wt)]
    ∧ currentJob s'
      = Some (mkJob t ("id-" +:+ pretty (nextId s)) starting (Some (length (spawned s))) 1 None)
    ∧ agents (db s') !! ("id-" +:+ pretty (nextId s))
      = Some (mkAgentRow t "RUNNING" 1 (maxIterations (config s)) false)
    ∧ tickets (db s') = tickets (db s)
    ∧ messages (db s')
      = messages (db s)
        ++ [mkMessage ("id-" +:+ pretty (S (nextId s))) t
              ("Agent started. Working in branch: " +:+ Worktree.branch wt) system].
Proof.
  intros Htk Hcr Hmax.
  destruct (maxIterations (config s)) as [|left] eqn:Hleft; [lia|].
  unfold startAgent, runAgentLoop, getPRDContent, prdOf. unfold_methods.
  rewrite !MonadFacts.bind_eq. run_monad. orch_simpl. rewrite Htk. orch_simpl.
  rewrite Hcr. orch_simpl. rewrite Htk, Hleft.
  destruct (prds (db s) !! t) as [[|c rest]|]; orch_simpl;
    rewrite ?Nat.sub_0_r, ?Hleft; cbn [loopFrom];
    unfold_methods; unfold updateCurrentJob; run_monad; orch_simpl;
    (eexists; split; [reflexivity|]; orch_simpl;
     rewrite lookup_alter_eq, lookup_insert_eq; by split_and!).
Qed.

(** X12: a request to start a ticket that is in the store, made to an
    idle orchestrator when the workspace can be created and the budget is
    not zero, is answered with 200 and leaves the first worker running:
    spawned in the workspace of the ticket, without a session to resume,
    with the prompt built from the requirements of the ticket, which the
    prompt holds word for word.  The ticket is in progress, its job is the
    current job, and its agent record is RUNNING in iteration 1. *)
Theorem start_request_launches_the_first_worker (t : string) (sys : Sys) (ticket : TicketRow)
    (wt : Worktree.Worktree) (g' : Worktree.Repo) :
  tickets (db (st sys)) !! t = Some ticket →
  isProcessing (st sys) = false →
  queue (st sys) = [] →
  Worktree.create t "main" (repo (st sys)) = (inr wt, g') →
  0 < maxIterations (config (st sys)) →
  ∃ sys',
    postStart t sys = (mkResponse 200 "Agent queued", sys')
    ∧ pending sys'
      = Some (mkPending t ("id-" +:+ pretty (nextId (st sys))) (Worktree.path wt)
                        (buildAgentPrompt (prdOf (db (st sys)) t ticket)) None 1
                        (length (spawned (st sys))))
    ∧ spawned (st sys')
      = spawned (st sys)
        ++ [mkSpawn [claudePath (config (st sys)); "--print"; "--output-format"; "stream-json";
                     "--max-turns"; "1"; "--prompt";
                     buildAgentPrompt (prdOf (db (st sys)) t ticket)]
                    (Worktree.path wt)]
    ∧ Js.includes (buildAgentPrompt (prdOf (db (st sys)) t ticket))
                  (prdOf (db (st sys)) t ticket) = true
    ∧ isProcessing (st sys') = true
    ∧ queue (st sys') = []
    ∧ currentTicketId (st sys') = Some t
    ∧ agents (db (st sys')) !! ("id-" +:+ pretty (nextId (st sys)))
      = Some (mkAgentRow t "RUNNING" 1 (maxIterations (config (st sys))) false)
    ∧ columnId <$> tickets (db (st sys')) !! t = Some (Some "in-progress")
    ∧ repo (st sys') = g'.
Proof.
  intros Htk Hidle Hq Hcr Hmax. unfold postStart. rewrite Htk.
  unfold enqueue. orch_simpl. rewrite Hq.
  rewrite bool_decide_eq_false_2 by apply not_elem_of_nil.
  unfold kickQueue, broadcast, modify. orch_simpl. cbn [app length].
  cbn [processQueue]. orch_simpl. rewrite Hidle.
  set (s2 := set_queue [] (set_isProcessing true _)).
  destruct (startAgent_spawns t s2 (mkTicket (title ticket) (description ticket) (Some "in-progress"))
              wt g') as (s' & Hstart & Hqs & Hr & Hsp & Hjob & Hag & Htk' & _).
  { subst s2. orch_simpl. by rewrite lookup_alter_eq, Htk. }
  { done. }
  { done. }
  rewrite MonadFacts.try_catch_eq, Hstart.
  unfold queueSide in Hqs. injection Hqs as Hq' Hp' Hc'.
  eexists. split; [reflexivity|]. orch_simpl.
  split_and!; try done.
  - apply buildAgentPrompt_includes.
  - unfold currentTicketId. by rewrite Hjob.
  - rewrite Htk'. subst s2. orch_simpl. by rewrite lookup_alter_eq, Htk.
Qed.
Lemma start_request_launches_the_first_worker_witness :
  tickets (db (st (boot cfg3 db0 repo0))) !! "T1"
  = Some (mkTicket "Implement X" (Some "implement X") (Some "in-progress"))
  ∧ ∃ sys',
      postStart "T1" (boot cfg3 db0 repo0) = (mkResponse 200 "Agent queued", sys')
      ∧ spawned (st sys')
        = [mkSpawn ["claude"; "--print"; "--output-format"; "stream-json"; "--max-turns"; "1";
                    "--prompt";
                    buildAgentPrompt ("# Implement X" +:+ lf +:+ lf +:+ "implement X")]
                   "/srv/worktrees/ticket-T1"]
      ∧ isProcessing (st sys') = true.
Proof.
  assert (tickets (db (st (boot cfg3 db0 repo0))) !! "T1"
          = Some (mkTicket "Implement X" (Some "implement X") (Some "in-progress"))) as Htk
    by (vm_compute; reflexivity).
  assert (0 < maxIterations (config (st (boot cfg3 db0 repo0)))) as Hmax by (cbn; lia).
  split; [exact Htk|].
  destruct (start_request_launches_the_first_worker "T1" (boot cfg3 db0 repo0) _ wt1 _
              Htk eq_refl eq_refl workspace1_created Hmax)
    as (sys' & Hpost & _ & Hsp & _ & Hp & _).
  exists sys'. by split_and!.
Defined.

(** *** The session of a job *)

Lemma span_allChars (p : ascii → bool) (s : string) : Js.allChars p (fst (span p s)) = true.
Proof.
  induction s as [|c s IH]; [done|]. cbn [span].
  destruct (p c) eqn:Hc; [|done]. destruct (span p s) as [a b]. cbn in *. by rewrite Hc, IH.
Qed.

Lemma sessionIdAt_shape (s id : string) :
  sessionIdAt s = Some id → id ≠ "" ∧ Js.allChars isIdChar id = true.
Proof.
  unfold sessionIdAt. destruct (stripPrefixCI "session" s) as [rest|]; [|done].
  cbn [mbind option_bind].
  match goal with |- context [stripPrefixCI "id" ?r] =>
    destruct (stripPrefixCI "id" r) as [rest'|] end; [|done].
  cbn [mbind option_bind].
  destruct (span isIdSeparator rest') as [[|c0 seps] rest'']; [done|].
  pose proof (span_allChars isIdChar rest'') as Hall.
  destruct (span isIdChar rest'') as [[|c i] b]; [done|]. intros [= <-]. done.
Qed.

Lemma extractSessionId_shape (output id : string) :
  extractSessionId output = Some id → id ≠ "" ∧ Js.allChars isIdChar id = true.
Proof.
  induction output as [|c o IH]; cbn [extractSessionId].
  - destruct (sessionIdAt "") eqn:H; [|done]. intros [= <-]. by apply (sessionIdAt_shape "").
  - destruct (sessionIdAt (String c o)) eqn:H; [|done].
    intros [= <-]. by apply (sessionIdAt_shape (String c o)).
Qed.

(** X14: a session id found in the output is never empty and consists
    of letters, digits and hyphens only. *)
Theorem session_id_is_a_plain_word (output id : string) :
  extractSessionId output = Some id → id ≠ "" ∧ Js.allChars isIdChar id = true.
Proof. apply extractSessionId_shape. Qed.

Lemma session_id_is_a_plain_word_witness :
  extractSessionId ("{" +:+ dq +:+ "session_id" +:+ dq +:+ ":" +:+ dq +:+ "0b6f-42" +:+ dq +:+ "}")
  = Some "0b6f-42"
  ∧ "0b6f-42" ≠ "" ∧ Js.allChars isIdChar "0b6f-42" = true.
Proof.
  assert (extractSessionId ("{" +:+ dq +:+ "session_id" +:+ dq +:+ ":" +:+ dq +:+ "0b6f-42"
                            +:+ dq +:+ "}") = Some "0b6f-42") as H by reflexivity.
  split; [exact H|]. exact (session_id_is_a_plain_word _ _ H).
Defined.

(** The session id the loop goes on with after a result. *)
Definition sessionAfter (p : Pending) (res : IterResult) : option string :=
  match res with
  | Collected stdout stderr _ =>
      match extractSessionId (streamOutput stdout stderr) with
      | Some newSessionId => Some newSessionId
      | None => p_sessionId p
      end
  | Failed _ => p_sessionId p
  end.

Lemma afterOutput_quiet_session (p : Pending) (res : IterResult) (s : State) :
  JobAt (p_ticketId p) (p_agentId p) s →
  quiet res →
  ∃ s1,
    afterOutput p res s
    = loopFrom (maxIterations (config s) - p_iterations p) (p_ticketId p) (p_agentId p)
               (p_worktreePath p) (p_prompt p) (sessionAfter p res) (p_iterations p) s1
    ∧ JobAt (p_ticketId p) (p_agentId p) s1
    ∧ queueSide s1 = queueSide s
    ∧ repo s1 = repo s
    ∧ spawned s1 = spawned s
    ∧ match res with
      | Collected stdout stderr _ =>
          lastOutput <$> currentJob s1 = Some (Some (streamOutput stdout stderr))
          ∧ messages (db s1) = messages (db s)
      | Failed e =>
          messages (db s1)
          = messages (db s)
            ++ [mkMessage ("id-" +:+ pretty (nextId s)) (p_ticketId p)
                          (iterationError (p_iterations p) e) system]
      end.
Proof.
  intros [(j & Hj & Ht & Ha) Hrow Htk] Hq.
  unfold afterOutput. destruct res as [out err code|e]; cbn [quiet sessionAfter] in *.
  - destruct Hq as [Hc Hn].
    unfold updateCurrentJob. rewrite !MonadFacts.bind_eq. run_monad. orch_simpl.
    rewrite Hj, Hc, Hn. orch_simpl.
    eexists. split; [reflexivity|]. orch_simpl. repeat split; try done.
    by eexists.
  - unfold_methods. rewrite !MonadFacts.bind_eq. run_monad. orch_simpl.
    eexists. split; [reflexivity|]. orch_simpl. repeat split; try done.
    by eexists.
Qed.

(** X13: after a result without a sentinel and with iterations to go, the
    next worker is spawned in the same workspace.  A session id found in
    the output is the session from then on, otherwise the one in use
    stays; with a session the worker is told to resume it and gets the
    continuation prompt, without one it gets the prompt of the job again.
    The agent record is RUNNING with the new iteration count. *)
Theorem next_worker_continues_the_session (p : Pending) (res : IterResult) (s : State) :
  JobAt (p_ticketId p) (p_agentId p) s →
  quiet res →
  p_iterations p < maxIterations (config s) →
  ∃ s',
    startAgentResumed p res s
    = (inr (Some (mkPending (p_ticketId p) (p_agentId p) (p_worktreePath p) (p_prompt p)
                            (sessionAfter p res) (S (p_iterations p)) (length (spawned s)))),
       s')
    ∧ spawned s'
      = spawned s ++ [mkSpawn (claudeArgs (config s) (sessionAfter p res) (p_prompt p))
                              (p_worktreePath p)]
    ∧ (∀ id, sessionAfter p res = Some id →
         id ≠ "" →
         claudeArgs (config s) (sessionAfter p res) (p_prompt p)
         = [claudePath (config s); "--print"; "--output-format"; "stream-json";
            "--max-turns"; "1"; "--resume"; id; "--prompt"; continuePrompt])
    ∧ (sessionAfter p res = None →
       claudeArgs (config s) (sessionAfter p res) (p_prompt p)
       = [claudePath (config s); "--print"; "--output-format"; "stream-json";
          "--max-turns"; "1"; "--prompt"; p_prompt p])
    ∧ (∀ stdout stderr code id,
         res = Collected stdout stderr code →
         extractSessionId (streamOutput stdout stderr) = Some id →
         sessionAfter p res = Some id ∧ id ≠ "")
    ∧ a_status <$> agents (db s') !! p_agentId p = Some "RUNNING"
    ∧ iterationCount <$> agents (db s') !! p_agentId p = Some (S (p_iterations p))
    ∧ repo s' = repo s.
Proof.
  intros HJ Hq Hlt.
  destruct (afterOutput_quiet_session p res s HJ Hq) as (s1 & Heq & HJ1 & Hqs1 & Hr1 & Hsp1 & _).
  destruct (maxIterations (config s) - p_iterations p) as [|left] eqn:Hleft; [lia|].
  assert (config s1 = config s) as Hcfg by (unfold queueSide in Hqs1; congruence).
  pose proof HJ1 as [(j & Hj & Ht & Ha) [row Hrow] Htk].
  assert (∃ s', loopFrom (S left) (p_ticketId p) (p_agentId p) (p_worktreePath p) (p_prompt p)
                  (sessionAfter p res) (p_iterations p) s1
                = (inr (Some (mkPending (p_ticketId p) (p_agentId p) (p_worktreePath p)
                                (p_prompt p) (sessionAfter p res) (S (p_iterations p))
                                (length (spawned s1)))), s')
              ∧ spawned s'
                = spawned s1 ++ [mkSpawn (claudeArgs (config s1) (sessionAfter p res) (p_prompt p))
                                         (p_worktreePath p)]
              ∧ a_status <$> agents (db s') !! p_agentId p = Some "RUNNING"
              ∧ iterationCount <$> agents (db s') !! p_agentId p = Some (S (p_iterations p))
              ∧ repo s' = repo s1) as (s' & Hl & Hsp' & Hst & Hit & Hr').
  { cbn [loopFrom]. unfold_methods. unfold updateCurrentJob.
    rewrite !MonadFacts.bind_eq. run_monad. orch_simpl. rewrite Hj. orch_simpl.
    eexists. split; [reflexivity|]. orch_simpl. rewrite lookup_alter_eq, Hrow. done. }
  exists s'. rewrite Hsp1, Hcfg in *. split_and!; try done.
  - apply startAgentResumed_returns. by rewrite Heq.
  - intros id Hid Hne. rewrite Hid. unfold claudeArgs. by destruct id.
  - intros Hnone. rewrite Hnone. done.
  - intros stdout stderr code id -> Hid. cbn [sessionAfter]. rewrite Hid. split; [done|].
    by destruct (extractSessionId_shape _ _ Hid).
  - congruence.
Qed.
(** The first iteration of T1 is under way. *)
Definition pendingT1 : Pending :=
  mkPending "T1" "id-0" workspace1
            (buildAgentPrompt ("# Implement X" +:+ lf +:+ lf +:+ "implement X")) None 1 0.

Lemma pendingT1_waits : pending sysRunning = Some pendingT1.
Proof. vm_compute. reflexivity. Qed.

Lemma jobT1_running : JobAt "T1" "id-0" (st sysRunning).
Proof.
  split.
  - assert (is_Some (currentJob (st sysRunning))) as [j Hj] by (vm_compute; by eexists).
    exists j. split; [done|].
    assert (ticketId <$> currentJob (st sysRunning) = Some "T1") as Ht by (vm_compute; reflexivity).
    assert (agentId <$> currentJob (st sysRunning) = Some "id-0") as Ha by (vm_compute; reflexivity).
    rewrite Hj in Ht, Ha. cbn in Ht, Ha. split; congruence.
  - vm_compute. by eexists.
  - vm_compute. by eexists.
Qed.

(** Output that names the session and holds no sentinel. *)
Definition sessionOutput : IterResult :=
  Collected ["{" +:+ dq +:+ "session_id" +:+ dq +:+ ":" +:+ dq +:+ "0b6f-42" +:+ dq +:+ "}"] "" 0.

Lemma next_worker_continues_the_session_witness :
  quiet sessionOutput
  ∧ p_iterations pendingT1 < maxIterations (config (st sysRunning))
  ∧ sessionAfter pendingT1 sessionOutput = Some "0b6f-42"
  ∧ ∃ s',
      startAgentResumed pendingT1 sessionOutput (st sysRunning)
      = (inr (Some (mkPending "T1" "id-0" workspace1 (p_prompt pendingT1) (Some "0b6f-42") 2 1)),
         s')
      ∧ spawned s'
        = spawned (st sysRunning)
          ++ [mkSpawn ["claude"; "--print"; "--output-format"; "stream-json"; "--max-turns"; "1";
                       "--resume"; "0b6f-42"; "--prompt"; continuePrompt] workspace1].
Proof.
  assert (quiet sessionOutput) as Hq by (split; reflexivity).
  assert (p_iterations pendingT1 < maxIterations (config (st sysRunning))) as Hlt
    by (vm_compute; lia).
  assert (sessionAfter pendingT1 sessionOutput = Some "0b6f-42") as Hsid by reflexivity.
  destruct (next_worker_continues_the_session pendingT1 sessionOutput (st sysRunning)
              jobT1_running Hq Hlt) as (s' & Hres & Hsp & Hargs & _).
  split_and!; try done. exists s'. split.
  - rewrite Hres. by rewrite Hsid.
  - rewrite Hsp, (Hargs "0b6f-42" Hsid) by done. vm_compute. reflexivity.
Defined.

(** *** Sentinels in the output *)

Lemma join_includes (chunks : list string) (c needle : string) :
  c ∈ chunks → Js.includes c needle = true → Js.includes (Js.join chunks) needle = true.
Proof.
  intros Hin Hc. induction chunks as [|c0 chunks IH]; [by apply elem_of_nil in Hin|].
  rewrite JsFacts.join_cons. apply elem_of_cons in Hin as [<-|Hin].
  - by apply JsFacts.includes_app_l.
  - by apply JsFacts.includes_app_r, IH.
Qed.

Lemma streamOutput_includes (stdout : list string) (stderr needle : string) :
  needle ≠ "" →
  (∃ c, c ∈ stdout ∧ Js.includes c needle = true) ∨ Js.includes stderr needle = true →
  Js.includes (streamOutput stdout stderr) needle = true.
Proof.
  intros Hne [(c & Hin & Hc)|Herr]; unfold streamOutput.
  - by eapply JsFacts.includes_app_l, join_includes.
  - apply JsFacts.includes_app_r. destruct stderr as [|e stderr].
    + rewrite JsFacts.includes_eq in Herr. destruct needle; done.
    + do 3 apply JsFacts.includes_app_r. exact Herr.
Qed.

(** X15: a sentinel counts wherever it is in what the worker has put
    out: inside any chunk of its standard output, in its standard error,
    or spread over the chunks of its standard output. *)
Theorem a_sentinel_counts_wherever_it_is (stdout : list string) (stderr : string) :
  ((∃ c, c ∈ stdout ∧ Js.includes c "TASK_COMPLETE" = true)
   ∨ Js.includes stderr "TASK_COMPLETE" = true →
   isTaskComplete (streamOutput stdout stderr) = true)
  ∧ ((∃ c, c ∈ stdout ∧ Js.includes c "NEED_HUMAN_INPUT:" = true)
     ∨ Js.includes stderr "NEED_HUMAN_INPUT:" = true →
     needsHumanInput (streamOutput stdout stderr) = true)
  ∧ (∀ a b, Js.join stdout = a +:+ "TASK_COMPLETE" +:+ b →
            isTaskComplete (streamOutput stdout stderr) = true).
Proof.
  split_and!.
  - by apply streamOutput_includes.
  - by apply streamOutput_includes.
  - intros a b Hj. unfold isTaskComplete, streamOutput. rewrite Hj.
    apply JsFacts.includes_app_l, JsFacts.includes_intro.
Qed.
(** *** Resuming, once more *)

(** The records [startAgent] has written when the creation of the
    workspace fails. *)
Lemma startAgent_fails_with (t : string) (s : State) (ticket : TicketRow)
    (e : Js.Exn) (g' : Worktree.Repo) :
  tickets (db s) !! t = Some ticket →
  Worktree.create t "main" (repo s) = (inl e, g') →
  ∃ s',
    startAgent t s = (inr None, s')
    ∧ currentJob s' = None
    ∧ queueSide s' = queueSide s
    ∧ spawned s' = spawned s
    ∧ killedProcs s' = killedProcs s
    ∧ repo s' = snd (Worktree.remove t true g')
    ∧ agents (db s')
      = <["id-" +:+ pretty (nextId s)
          := mkAgentRow t "FAILED" 0 (maxIterations (config s)) true]> (agents (db s))
    ∧ tickets (db s')
      = <[t := mkTicket (title ticket) (description ticket) (Some "blocked")]> (tickets (db s))
    ∧ messages (db s')
      = messages (db s)
        ++ [mkMessage ("id-" +:+ pretty (S (nextId s))) t
                      ("Agent failed: " +:+ Js.String_ e) system]
    ∧ events s'
      = events s
        ++ [agent_started t ("id-" +:+ pretty (nextId s));
            ticket_updated t "blocked";
            message_created t ("Agent failed: " +:+ Js.String_ e) system;
            agent_failed t ("id-" +:+ pretty (nextId s)) (Js.String_ e)].
Proof.
  intros Htk Hcr.
  unfold startAgent. unfold_methods.
  rewrite !MonadFacts.bind_eq. run_monad. orch_simpl. rewrite Htk. orch_simpl.
  rewrite Hcr. orch_simpl.
  destruct (Worktree.remove t true g') as [r g''] eqn:Hrm.
  eexists. split; [by destruct r as [?|[]]|]. orch_simpl.
  split_and!; try done.
  - apply map_eq. intros a. destruct (decide (a = "id-" +:+ pretty (nextId s))) as [->|Hne].
    + by rewrite lookup_alter_eq, !lookup_insert_eq.
    + by rewrite lookup_alter_ne, !lookup_insert_ne.
  - apply map_eq. intros t'. destruct (decide (t' = t)) as [->|Hne].
    + by rewrite lookup_alter_eq, lookup_insert_eq, Htk.
    + by rewrite lookup_alter_ne, lookup_insert_ne.
  - by rewrite <- !app_assoc.
Qed.



(** A request for a ticket whose workspace is on disk already, made to an
    idle orchestrator: the start fails at the creation of the workspace. *)
Lemma enqueue_fails_on_existing_workspace (t : string) (sys : Sys) (ticket : TicketRow) :
  isProcessing (st sys) = false →
  queue (st sys) = [] →
  tickets (db (st sys)) !! t = Some ticket →
  Worktree.worktreePathOf (repo (st sys)) t ∈ Worktree.dirs (repo (st sys)) →
  ∃ s',
    enqueue t sys = mkSys s' (pending sys)
    ∧ currentJob s' = None
    ∧ isProcessing s' = false
    ∧ queue s' = []
    ∧ spawned s' = spawned (st sys)
    ∧ repo s' = snd (Worktree.remove t true (repo (st sys)))
    ∧ agents (db s')
      = <["id-" +:+ pretty (nextId (st sys))
          := mkAgentRow t "FAILED" 0 (maxIterations (config (st sys))) true]>
          (agents (db (st sys)))
    ∧ tickets (db s')
      = <[t := mkTicket (title ticket) (description ticket) (Some "blocked")]>
          (tickets (db (st sys)))
    ∧ messages (db s')
      = messages (db (st sys))
        ++ [mkMessage ("id-" +:+ pretty (S (nextId (st sys)))) t
              ("Agent failed: " +:+ Js.String_ (WorktreeSpec.alreadyExists t)) system].
Proof.
  intros Hidle Hq Htk Hdir. unfold enqueue. rewrite Hq.
  rewrite bool_decide_eq_false_2 by apply not_elem_of_nil.
  unfold kickQueue, broadcast, modify. orch_simpl. cbn [app length].
  cbn [processQueue]. orch_simpl. rewrite Hidle.
  set (s2 := set_queue [] (set_isProcessing true _)).
  pose proof (WorktreeSpec.create_outcome t "main" (repo (st sys))) as [Hex _].
  specialize (Hex Hdir).
  destruct (startAgent_fails_with t s2 ticket _ _ Htk Hex)
    as (s' & Hstart & Hcur' & Hqs' & Hsp' & _ & Hrepo' & Hag' & Htk' & Hmsg' & _).
  rewrite MonadFacts.try_catch_eq, Hstart.
  unfold queueSide in Hqs'. injection Hqs' as Hq' Hp' Hc'. orch_simpl. rewrite Hq'.
  exists (set_isProcessing false s'). split; [reflexivity|]. orch_simpl.
  by split_and!.
Qed.

(** X16: a request to resume the job of a ticket whose workspace is still
    on disk, made while nothing else is processed, is accepted and
    answered with 200, and the job is not continued: the answer is
    recorded, the ticket is started from scratch with a new agent record,
    the creation of the workspace fails because it exists already, and
    the new agent is failed at once.  No worker is spawned, the ticket
    stays in the blocked column, no job is current afterwards, and the
    forced cleanup takes the workspace off the disk and deletes its branch
    when the workspace is one git knows. *)
Theorem resume_starts_over_and_fails_on_the_workspace
    (t response : string) (sys : Sys) (ticket : TicketRow) :
  isCurrentTicket t (st sys) = true →
  isProcessing (st sys) = false →
  queue (st sys) = [] →
  tickets (db (st sys)) !! t = Some ticket →
  Worktree.worktreePathOf (repo (st sys)) t ∈ Worktree.dirs (repo (st sys)) →
  ∃ sys',
    resumeAgent t response sys = (inr (), sys')
    ∧ (response ≠ "" → fst (postResume t response sys) = mkResponse 200 "Agent resumed")
    ∧ currentJob (st sys') = None
    ∧ isProcessing (st sys') = false
    ∧ queue (st sys') = []
    ∧ pending sys' = pending sys
    ∧ spawned (st sys') = spawned (st sys)
    ∧ messages (db (st sys'))
      = messages (db (st sys))
        ++ [mkMessage ("id-" +:+ pretty (nextId (st sys))) t response human;
            mkMessage ("id-" +:+ pretty (S (S (nextId (st sys))))) t
              ("Agent failed: Error: Worktree already exists for ticket " +:+ t) system]
    ∧ a_status <$> agents (db (st sys')) !! ("id-" +:+ pretty (S (nextId (st sys))))
      = Some "FAILED"
    ∧ columnId <$> tickets (db (st sys')) !! t = Some (Some "blocked")
    ∧ repo (st sys') = snd (Worktree.remove t true (repo (st sys)))
    ∧ (Worktree.worktreePathOf (repo (st sys)) t ∈ dom (Worktree.registered (repo (st sys))) →
       (Worktree.worktreePathOf (repo (st sys)) t ∉ Worktree.dirs (repo (st sys')))
       ∧ (Worktree.branchNameOf t ∉ Worktree.branches (repo (st sys')))).
Proof.
  intros Hcur Hidle Hq Htk Hdir.
  set (s1 := set_currentJob None (snd (addHumanMessage t response (st sys)))).
  assert (resumeAgent t response sys = (inr (), enqueue t (mkSys s1 (pending sys)))) as Hres.
  { unfold resumeAgent. by rewrite Hcur. }
  assert (queue s1 = [] ∧ isProcessing s1 = false ∧ tickets (db s1) = tickets (db (st sys))
          ∧ repo s1 = repo (st sys) ∧ nextId s1 = S (nextId (st sys))
          ∧ spawned s1 = spawned (st sys)
          ∧ messages (db s1)
            = messages (db (st sys))
              ++ [mkMessage ("id-" +:+ pretty (nextId (st sys))) t response human])
    as (Hq1 & Hp1 & Htk1 & Hr1 & Hn1 & Hsp1 & Hm1).
  { subst s1. unfold_methods. run_monad. orch_simpl. by split_and!. }
  destruct (enqueue_fails_on_existing_workspace t (mkSys s1 (pending sys)) ticket)
    as (s' & Henq & Hcur' & Hp' & Hq' & Hsp' & Hrepo' & Hag' & Htk' & Hmsg');
    orch_simpl; try done; try congruence.
  rewrite Hn1, Hm1, Hr1, Hsp1 in *.
  exists (mkSys s' (pending sys)). rewrite Hres, Henq. orch_simpl.
  split_and!; try done.
  - intros Hne. unfold postResume. rewrite Hres. by destruct response.
  - by rewrite Hmsg', <- app_assoc.
  - by rewrite Hag', lookup_insert_eq.
  - by rewrite Htk', lookup_insert_eq.
  - intros Hreg. rewrite Hrepo', WorktreeSpec.remove_forced by done. cbn. set_solver.
Qed.
(** T1 has asked a question and waits for the answer; nothing else is
    queued. *)
Definition sysBlocked : Sys :=
  run (boot cfg3 db0 repo0)
      [Enqueue "T1"; WorkerDone (Collected ["NEED_HUMAN_INPUT: Which database?"] "" 0)].

Lemma resume_starts_over_and_fails_on_the_workspace_witness :
  a_status <$> agents (db (st sysBlocked)) !! "id-0" = Some "BLOCKED"
  ∧ Worktree.registered (repo (st sysBlocked)) !! workspace1 = Some true
  ∧ ∃ sys',
      resumeAgent "T1" "PostgreSQL" sysBlocked = (inr (), sys')
      ∧ fst (postResume "T1" "PostgreSQL" sysBlocked) = mkResponse 200 "Agent resumed"
      ∧ currentJob (st sys') = None
      ∧ spawned (st sys') = spawned (st sysBlocked)
      ∧ (Worktree.worktreePathOf (repo (st sysBlocked)) "T1" ∉ Worktree.dirs (repo (st sys')))
      ∧ (Worktree.branchNameOf "T1" ∉ Worktree.branches (repo (st sys'))).
Proof.
  assert (isCurrentTicket "T1" (st sysBlocked) = true) as Hcur by (vm_compute; reflexivity).
  assert (isProcessing (st sysBlocked) = false) as Hidle by (vm_compute; reflexivity).
  assert (queue (st sysBlocked) = []) as Hq by (vm_compute; reflexivity).
  assert (tickets (db (st sysBlocked)) !! "T1"
          = Some (mkTicket "Implement X" (Some "implement X") (Some "blocked"))) as Htk
    by (vm_compute; reflexivity).
  assert (Worktree.registered (repo (st sysBlocked)) !! workspace1 = Some true) as Hreg
    by (vm_compute; reflexivity).
  assert (Worktree.worktreePathOf (repo (st sysBlocked)) "T1"
            ∈ Worktree.dirs (repo (st sysBlocked))) as Hdir.
  { apply (bool_decide_unpack _). vm_compute. exact I. }
  assert (Worktree.worktreePathOf (repo (st sysBlocked)) "T1"
            ∈ dom (Worktree.registered (repo (st sysBlocked)))) as Hdom.
  { apply elem_of_dom. exists true. exact Hreg. }
  split; [vm_compute; reflexivity|]. split; [exact Hreg|].
  destruct (resume_starts_over_and_fails_on_the_workspace "T1" "PostgreSQL" sysBlocked _
              Hcur Hidle Hq Htk Hdir)
    as (sys' & Hres & Hpost & Hnone & _ & _ & _ & Hsp & _ & _ & _ & _ & Hgone).
  exists sys'. destruct (Hgone Hdom) as [Hd Hb].
  split_and!; first [done | by apply Hpost].
Defined.

(** *** Whose job the current job is *)

Lemma currentTicketId_updateCurrentJob (f : AgentJob → AgentJob) :
  (∀ j, ticketId (f j) = ticketId j) → keeps currentTicketId (updateCurrentJob f).
Proof.
  intros Hf s. unfold updateCurrentJob, currentTicketId.
  destruct (currentJob s) as [j|] eqn:Hj; orch_simpl; rewrite ?Hj; [|done].
  cbn. by rewrite Hf.
Qed.

Lemma currentTicketId_blockAgent t a q : keeps currentTicketId (blockAgent t a q).
Proof. done. Qed.

Lemma currentTicketId_addSystemMessage t c : keeps currentTicketId (addSystemMessage t c).
Proof. done. Qed.

Lemma currentTicketId_updateAgentStatus a st it :
  keeps currentTicketId (updateAgentStatus a st it).
Proof. done. Qed.

Lemma currentTicketId_startFailed t e : keeps currentTicketId (startFailed t e).
Proof. done. Qed.

Lemma currentTicketId_loopFrom left t a w pr : ∀ sid i,
  keeps currentTicketId (loopFrom left t a w pr sid i).
Proof.
  induction left as [|left IH]; intros sid i; cbn [loopFrom].
  - apply keeps_bind; [apply keeps_gets|]. intros cfg.
    apply keeps_bind; [apply currentTicketId_blockAgent|]. intros _. apply keeps_ret.
  - apply keeps_bind; [apply keeps_gets|]. intros cfg.
    apply keeps_bind; [by apply currentTicketId_updateCurrentJob|]. intros _.
    apply keeps_bind; [apply currentTicketId_updateAgentStatus|]. intros _.
    apply keeps_bind; [by apply keeps_broadcast|]. intros _.
    apply keeps_try_catch.
    + apply keeps_bind; [by apply keeps_spawn|]. intros proc.
      apply keeps_bind; [by apply currentTicketId_updateCurrentJob|]. intros _.
      apply keeps_ret.
    + intros e. apply keeps_bind; [apply currentTicketId_addSystemMessage|]. intros _. apply IH.
Qed.

(** The current job, if any, is for a ticket among [Q]. *)
Definition jobAmong (Q : list string) (s : State) : Prop :=
  ∀ t, currentTicketId s = Some t → t ∈ Q.

Lemma failAgent_currentTicketId t a e s : currentTicketId (snd (failAgent t a e s)) = None.
Proof.
  destruct (failAgent_spec t a e s) as (s' & Hf & Hcur & _). rewrite Hf. cbn [snd].
  unfold currentTicketId. by rewrite Hcur.
Qed.

(** A ticket that is not in the store leaves the current job alone. *)
Lemma startOrFail_unknown (t : string) (s : State) :
  tickets (db s) !! t = None →
  currentTicketId (snd (startOrFail t s)) = currentTicketId s.
Proof.
  intros Htk. unfold startOrFail, startAgent.
  rewrite MonadFacts.try_catch_eq, MonadFacts.bind_eq. unfold gets at 1. rewrite Htk.
  unfold throw. rewrite MonadFacts.bind_eq.
  pose proof (currentTicketId_startFailed t (Js.Error ("Ticket " +:+ t +:+ " not found")) s) as Hk.
  destruct (startFailed _ _ s) as [[?|[]] s']; cbn [snd] in *; done.
Qed.

(** The state in which [startAgent] enters its [try]. *)
Definition jobSetUp (t : string) (s : State) : State :=
  let a := "id-" +:+ pretty (nextId s) in
  set_events (λ l, l ++ [agent_started t a])
    (set_currentJob (Some (mkJob t a starting None 0 None))
       (set_db (set_agents (insert a (mkAgentRow t "STARTING" 0 (maxIterations (config s)) false)))
          (set_nextId (S (nextId s)) s))).

(** The [try] of [startAgent]. *)
Definition jobBody (t a : string) : M State (option Pending) :=
  worktree ← withWorktreeManager (Worktree.create t "main");
  addSystemMessage t ("Agent started. Working in branch: " +:+ Worktree.branch worktree);;
  runAgentLoop t a (Worktree.path worktree).

Lemma startAgent_known (t : string) (s : State) (ticket : TicketRow) :
  tickets (db s) !! t = Some ticket →
  startAgent t s
  = try_catch (jobBody t ("id-" +:+ pretty (nextId s)))
              (failOnError t ("id-" +:+ pretty (nextId s))) (jobSetUp t s).
Proof.
  intros Htk. unfold startAgent, jobBody, jobSetUp, failOnError, nanoid, broadcast.
  run_monad. orch_simpl. by rewrite Htk.
Qed.

Lemma currentTicketId_jobBody (t a : string) : keeps currentTicketId (jobBody t a).
Proof.
  unfold jobBody. apply keeps_bind; [by apply keeps_withWorktreeManager|]. intros wt.
  apply keeps_bind; [apply currentTicketId_addSystemMessage|]. intros _.
  unfold runAgentLoop, getPRDContent.
  apply keeps_bind.
  { apply keeps_bind; [apply keeps_gets|]. intros d. repeat case_match; apply keeps_ret. }
  intros prd. apply keeps_bind; [apply keeps_gets|]. intros cfg.
  apply currentTicketId_loopFrom.
Qed.

(** Once started, a job is the current job until it is failed. *)
Lemma startOrFail_known (t : string) (s : State) :
  is_Some (tickets (db s) !! t) →
  currentTicketId (snd (startOrFail t s)) = Some t
  ∨ currentTicketId (snd (startOrFail t s)) = None.
Proof.
  intros [ticket Htk]. unfold startOrFail.
  rewrite MonadFacts.try_catch_eq, (startAgent_known t s ticket Htk), MonadFacts.try_catch_eq.
  pose proof (currentTicketId_jobBody t ("id-" +:+ pretty (nextId s)) (jobSetUp t s)) as Hbody.
  destruct (jobBody _ _ _) as [[e|r] s2]; cbn [snd] in *.
  - right. unfold failOnError. rewrite MonadFacts.bind_eq.
    pose proof (failAgent_currentTicketId t ("id-" +:+ pretty (nextId s)) (Js.String_ e) s2) as Hf.
    destruct (failAgent _ _ _ s2) as [[?|[]] s3]; cbn [snd] in *; done.
  - left. by rewrite Hbody.
Qed.

Lemma startOrFail_jobAmong (Q : list string) (t : string) (s : State) :
  (t ∈ Q) → jobAmong Q s ∨ is_Some (tickets (db s) !! t) →
  jobAmong Q (snd (startOrFail t s)).
Proof.
  intros Ht Hs u Hu. destruct (tickets (db s) !! t) as [ticket|] eqn:Htk.
  - destruct (startOrFail_known t s) as [H|H]; [by rewrite Htk|..]; congruence.
  - rewrite startOrFail_unknown in Hu by done.
    destruct Hs as [Hs|[? ?]]; [by apply Hs|done].
Qed.

(** A drain leaves a job of one of the tickets it took, or none, provided
    that was so before or the first ticket is in the store. *)
Lemma processQueue_jobAmong (Q : list string) fuel : ∀ s,
  (∀ x, x ∈ queue s → x ∈ Q) →
  jobAmong Q s ∨ (isProcessing s = false ∧ fuel ≠ 0
                  ∧ ∃ t rest, queue s = t :: rest ∧ is_Some (tickets (db s) !! t)) →
  jobAmong Q (fst (processQueue fuel s)).
Proof.
  induction fuel as [|fuel IH]; intros s HQ Hs; cbn [processQueue].
  - destruct Hs as [Hs|(_ & ? & _)]; done.
  - destruct (isProcessing s) eqn:Hp.
    { destruct Hs as [Hs|(? & _)]; [done|congruence]. }
    destruct (queue s) as [|t rest] eqn:Hq.
    { destruct Hs as [Hs|(_ & _ & ? & ? & ? & _)]; done. }
    fold (startOrFail t).
    set (s1 := set_queue rest (set_isProcessing true s)).
    assert (jobAmong Q (snd (startOrFail t s1))) as H1.
    { apply startOrFail_jobAmong; [apply HQ; set_solver|].
      destruct Hs as [Hs|(_ & _ & t' & rest' & Heq & Htk)]; [by left|].
      injection Heq as <- <-. by right. }
    pose proof (keeps_queue (startOrFail t) s1 (queueSide_startOrFail t)) as Hk.
    change (queue s1) with rest in Hk.
    assert (∀ s0, jobAmong Q s0 → queue s0 = rest →
              jobAmong Q (fst (match queue (set_isProcessing false s0) with
                               | [] => (set_isProcessing false s0, None)
                               | _ :: _ => processQueue fuel (set_isProcessing false s0)
                               end))) as Hrest.
    { intros s0 H0 Hq0. orch_simpl. rewrite Hq0. destruct rest as [|t' rest']; [done|].
      apply IH; [|by left]. orch_simpl. rewrite Hq0. intros x Hx. apply HQ. set_solver. }
    destruct (startOrFail t s1) as [[e|[p|]] s']; cbn [fst snd] in *; try done;
      by apply Hrest.
Qed.

Lemma isCurrentTicket_currentTicketId (t : string) (s : State) :
  isCurrentTicket t s = true ↔ currentTicketId s = Some t.
Proof.
  unfold isCurrentTicket, currentTicketId. destruct (currentJob s) as [j|]; cbn; [|done].
  rewrite bool_decide_eq_true. split; [by intros ->|by intros [= ->]].
Qed.

Lemma jobAmong_not_current (Q : list string) (t : string) (s : State) :
  jobAmong Q s → (t ∉ Q) → isCurrentTicket t s = false.
Proof.
  intros HQ Ht. destruct (isCurrentTicket t s) eqn:H; [|done].
  apply isCurrentTicket_currentTicketId, HQ in H. done.
Qed.

(** The state an output with the need-input marker leaves: the one
    [blockAgent] makes of the state with the output recorded. *)
Lemma need_input_blocks_from (p : Pending) (stdout : list string) (stderr : string)
    (code : nat) (s : State) (j : AgentJob) :
  currentJob s = Some j →
  isTaskComplete (streamOutput stdout stderr) = false →
  needsHumanInput (streamOutput stdout stderr) = true →
  startAgentResumed p (Collected stdout stderr code) s
  = (inr None,
     snd (blockAgent (p_ticketId p) (p_agentId p) (extractQuestion (streamOutput stdout stderr))
            (set_currentJob (Some (set_lastOutput (streamOutput stdout stderr) j)) s))).
Proof.
  intros Hj Hc Hn. apply startAgentResumed_returns.
  unfold afterOutput, updateCurrentJob. run_monad. orch_simpl. rewrite Hj, Hc, Hn.
  assert (∀ t a q x, fst (blockAgent t a q x) = inr ()) as Hret by done.
  match goal with |- context [blockAgent ?t ?a ?q ?x] =>
    specialize (Hret t a q x); destruct (blockAgent t a q x) as [r sb] end.
  cbn [fst snd] in *. by subst r.
Qed.

(** X17: the orchestrator keeps track of one job.  When a job asks for
    human input while another ticket, one that is in the store, waits in
    the queue, the question is posted and the job is blocked, and the
    drain goes on with the queue; from then on the blocked ticket is not
    the ticket of the current job, a request to resume it throws and
    changes nothing, and the route answers 400. *)
Theorem next_job_displaces_the_blocked_one
    (sys : Sys) (p : Pending) (stdout : list string) (stderr : string) (code : nat)
    (t2 : string) (rest : list string) (response : string) :
  pending sys = Some p →
  JobAt (p_ticketId p) (p_agentId p) (st sys) →
  queue (st sys) = t2 :: rest →
  (p_ticketId p ∉ t2 :: rest) →
  is_Some (tickets (db (st sys)) !! t2) →
  isTaskComplete (streamOutput stdout stderr) = false →
  needsHumanInput (streamOutput stdout stderr) = true →
  (∃ s', startAgentResumed p (Collected stdout stderr code) (st sys) = (inr None, s')
         ∧ BlockedWith (p_ticketId p) (p_agentId p)
                       (extractQuestion (streamOutput stdout stderr)) (st sys) s')
  ∧ isCurrentTicket (p_ticketId p) (st (workerDone (Collected stdout stderr code) sys)) = false
  ∧ resumeAgent (p_ticketId p) response (workerDone (Collected stdout stderr code) sys)
    = (inl (Js.Error ("No blocked agent found for ticket " +:+ p_ticketId p)),
       workerDone (Collected stdout stderr code) sys)
  ∧ httpStatus (fst (postResume (p_ticketId p) response
                       (workerDone (Collected stdout stderr code) sys))) = 400.
Proof.
  intros Hpend HJ Hq Hnotin Htk2 Hc Hn.
  destruct (need_input_blocks_the_job p stdout stderr code (st sys) HJ Hc Hn)
    as (sb & Hsb & HB).
  assert (isCurrentTicket (p_ticketId p)
            (st (workerDone (Collected stdout stderr code) sys)) = false) as Hnot.
  { unfold workerDone. rewrite Hpend, Hsb. unfold processQueueResumed.
    pose proof (blocked_queueSide _ _ _ _ _ HB) as Hside. unfold queueSide in Hside.
    injection Hside as Hqb _ _. orch_simpl. rewrite Hqb, Hq.
    unfold kickQueue. orch_simpl. rewrite Hqb, Hq.
    pose proof (processQueue_jobAmong (t2 :: rest) (S (length (t2 :: rest)))
                  (set_isProcessing false sb)) as HQ.
    destruct (processQueue _ _) as [s' p']. orch_simpl.
    eapply jobAmong_not_current; [|exact Hnotin]. apply HQ.
    - orch_simpl. by rewrite Hqb, Hq.
    - right. orch_simpl. split; [done|]. split; [done|]. exists t2, rest.
      split; [by rewrite Hqb, Hq|].
      destruct HJ as [(j & Hj & _) _ _].
      rewrite (need_input_blocks_from p stdout stderr code (st sys) j Hj Hc Hn) in Hsb.
      injection Hsb as <-. unfold_methods. run_monad. orch_simpl.
      destruct Htk2 as [tk Htk2]. destruct (decide (t2 = p_ticketId p)) as [->|Hne].
      + rewrite lookup_alter_eq, Htk2. by eexists.
      + rewrite lookup_alter_ne by done. by eexists. }
  split; [by exists sb|]. split; [done|].
  destruct (resumeAgent_without_job (p_ticketId p) response _ Hnot) as (Hr & _ & H400).
  by split.
Qed.
(** A store with two tickets. *)
Definition db2 : Db :=
  mkDb {[ "T1" := mkTicket "Implement X" (Some "implement X") (Some "in-progress");
          "T2" := mkTicket "Implement Y" None (Some "in-progress") ]} ∅ ∅ [].

(** T1 is in its first iteration and T2 waits in the queue. *)
Definition sysTwo : Sys := run (boot cfg3 db2 repo0) [Enqueue "T1"; Enqueue "T2"].

Lemma next_job_displaces_the_blocked_one_witness :
  pending sysTwo = Some pendingT1
  ∧ queue (st sysTwo) = ["T2"]
  ∧ a_status <$> agents (db (st (workerDone
        (Collected ["NEED_HUMAN_INPUT: Which database?"] "" 0) sysTwo))) !! "id-0"
    = Some "BLOCKED"
  ∧ currentTicketId (st (workerDone
        (Collected ["NEED_HUMAN_INPUT: Which database?"] "" 0) sysTwo)) = Some "T2"
  ∧ httpStatus (fst (postResume "T1" "PostgreSQL"
                       (workerDone (Collected ["NEED_HUMAN_INPUT: Which database?"] "" 0)
                                   sysTwo))) = 400.
Proof.
  assert (pending sysTwo = Some pendingT1) as Hp by (vm_compute; reflexivity).
  assert (queue (st sysTwo) = ["T2"]) as Hq by (vm_compute; reflexivity).
  assert (JobAt "T1" "id-0" (st sysTwo)) as HJ.
  { split.
    - assert (is_Some (currentJob (st sysTwo))) as [j Hj] by (vm_compute; by eexists).
      exists j. split; [done|].
      assert (ticketId <$> currentJob (st sysTwo) = Some "T1") as Ht by (vm_compute; reflexivity).
      assert (agentId <$> currentJob (st sysTwo) = Some "id-0") as Ha by (vm_compute; reflexivity).
      rewrite Hj in Ht, Ha. cbn in Ht, Ha. split; congruence.
    - vm_compute. by eexists.
    - vm_compute. by eexists. }
  assert (p_ticketId pendingT1 ∉ ["T2"]) as Hnotin.
  { cbn. intros H. apply list_elem_of_singleton in H. done. }
  assert (is_Some (tickets (db (st sysTwo)) !! "T2")) as Htk by (vm_compute; by eexists).
  destruct (next_job_displaces_the_blocked_one sysTwo pendingT1
              ["NEED_HUMAN_INPUT: Which database?"] "" 0 "T2" [] "PostgreSQL"
              Hp HJ Hq Hnotin Htk eq_refl eq_refl) as (_ & _ & _ & H400).
  split_and!; try done; vm_compute; reflexivity.
Defined.

(** *** Killing a job *)

(** X18: a request to kill the job of the current ticket kills the
    worker's process, if there is one, and fails the job: the agent record
    is FAILED, the ticket is in the blocked column, the reason is posted
    as a system message, the forced cleanup of the workspace is run, and
    no job is current; the queue, the processing flag and a waiting
    activation are left as they are.  A request for any other ticket
    throws, changes nothing and is answered with 400. *)
Theorem kill_fails_the_current_job (t : string) (sys : Sys) (j : AgentJob) :
  currentJob (st sys) = Some j →
  ticketId j = t →
  ∃ sys',
    killAgent t sys = (inr (), sys')
    ∧ fst (postKill t sys) = mkResponse 200 "Agent killed"
    ∧ currentJob (st sys') = None
    ∧ killedProcs (st sys')
      = killedProcs (st sys) ∪ match process j with Some proc => {[proc]} | None => ∅ end
    ∧ queue (st sys') = queue (st sys)
    ∧ isProcessing (st sys') = isProcessing (st sys)
    ∧ pending sys' = pending sys
    ∧ spawned (st sys') = spawned (st sys)
    ∧ a_status <$> agents (db (st sys')) !! agentId j
      = (λ _, "FAILED") <$> agents (db (st sys)) !! agentId j
    ∧ columnId <$> tickets (db (st sys')) !! t
      = (λ _, Some "blocked") <$> tickets (db (st sys)) !! t
    ∧ messages (db (st sys'))
      = messages (db (st sys))
        ++ [mkMessage ("id-" +:+ pretty (nextId (st sys))) t
                      "Agent failed: Agent killed by user" system]
    ∧ repo (st sys') = snd (Worktree.remove t true (repo (st sys)))
    ∧ (Worktree.worktreePathOf (repo (st sys)) t ∈ dom (Worktree.registered (repo (st sys))) →
       (Worktree.worktreePathOf (repo (st sys)) t ∉ Worktree.dirs (repo (st sys')))
       ∧ (Worktree.branchNameOf t ∉ Worktree.branches (repo (st sys'))))
    ∧ ∀ t', t' ≠ t →
        killAgent t' sys = (inl (Js.Error ("No active agent found for ticket " +:+ t')), sys)
        ∧ httpStatus (fst (postKill t' sys)) = 400.
Proof.
  intros Hj Ht.
  set (s0 := match process j with
             | Some proc => set_killedProcs (λ k, k ∪ {[proc]}) (st sys)
             | None => st sys
             end).
  destruct (failAgent_spec t (agentId j) "Agent killed by user" s0)
    as (s' & Hf & Hcur & Hqs & Hsp & Hrepo & Hag & Htk & Hmsg & _).
  assert (killAgent t sys = (inr (), mkSys s' (pending sys))) as Hkill.
  { unfold killAgent. rewrite Hj. rewrite bool_decide_eq_true_2 by done. fold s0. by rewrite Hf. }
  assert (queueSide s0 = queueSide (st sys) ∧ spawned s0 = spawned (st sys)
          ∧ repo s0 = repo (st sys) ∧ db s0 = db (st sys) ∧ nextId s0 = nextId (st sys)
          ∧ killedProcs s0
            = killedProcs (st sys) ∪ match process j with Some proc => {[proc]} | None => ∅ end)
    as (Hqs0 & Hsp0 & Hr0 & Hdb0 & Hn0 & Hk0).
  { subst s0. destruct (process j); orch_simpl; split_and!; try done.
    apply leibniz_equiv. set_solver. }
  assert (killedProcs s' = killedProcs s0) as Hk'.
  { clear -Hf. unfold failAgent in Hf.
    assert (keeps killedProcs (failAgent t (agentId j) "Agent killed by user")) as Hkeep.
    { unfold failAgent, updateAgentStatus, updateTicketColumn, addSystemMessage, broadcastToTicket.
      keeps_tac. }
    specialize (Hkeep s0). unfold failAgent in Hkeep. by rewrite Hf in Hkeep. }
  exists (mkSys s' (pending sys)). orch_simpl.
  unfold queueSide in *. rewrite Hdb0, Hn0, Hr0 in *.
  split_and!; try done; try congruence.
  - unfold postKill. by rewrite Hkill.
  - rewrite Hag. by destruct (agents (db (st sys)) !! agentId j).
  - rewrite Htk. by destruct (tickets (db (st sys)) !! t).
  - intros Hreg. rewrite Hrepo, WorktreeSpec.remove_forced by done. cbn. set_solver.
  - intros t' Hne.
    assert (killAgent t' sys = (inl (Js.Error ("No active agent found for ticket " +:+ t')), sys))
      as Hno.
    { unfold killAgent. rewrite Hj. rewrite bool_decide_eq_false_2 by congruence. done. }
    split; [done|]. unfold postKill. by rewrite Hno.
Qed.
Lemma kill_fails_the_current_job_witness :
  currentJob (st sysRunning) = Some (mkJob "T1" "id-0" starting (Some 0) 1 None)
  ∧ ∃ sys',
      killAgent "T1" sysRunning = (inr (), sys')
      ∧ currentJob (st sys') = None
      ∧ a_status <$> agents (db (st sys')) !! "id-0" = Some "FAILED"
      ∧ (Worktree.worktreePathOf (repo (st sysRunning)) "T1" ∉ Worktree.dirs (repo (st sys')))
      ∧ httpStatus (fst (postKill "T9" sysRunning)) = 400.
Proof.
  assert (currentJob (st sysRunning) = Some (mkJob "T1" "id-0" starting (Some 0) 1 None)) as Hj
    by (vm_compute; reflexivity).
  assert (Worktree.worktreePathOf (repo (st sysRunning)) "T1"
            ∈ dom (Worktree.registered (repo (st sysRunning)))) as Hdom.
  { apply elem_of_dom. exists true. vm_compute. reflexivity. }
  split; [exact Hj|].
  destruct (kill_fails_the_current_job "T1" sysRunning _ Hj eq_refl)
    as (sys' & Hkill & _ & Hnone & _ & _ & _ & _ & _ & Hst & _ & _ & _ & Hgone & Hother).
  exists sys'. destruct (Hgone Hdom) as [Hd _]. destruct (Hother "T9") as [_ H400]; [done|].
  split_and!; first [done | rewrite Hst; vm_compute; reflexivity].
Defined.

(** *** What a computation preserves *)

(** [m] leaves a state in [P] when it is run in one, whether it returns
    or throws. *)
Definition stable {A} (P : State → Prop) (m : M State A) : Prop :=
  ∀ s, P s → P (snd (m s)).

Section Stable.
Context (P : State → Prop).

Lemma stable_ret {A} (a : A) : stable P (mret a).
Proof. by intros s. Qed.

Lemma stable_throw {A} (e : Js.Exn) : stable P (throw (A := A) e).
Proof. by intros s. Qed.

Lemma stable_gets {A} (f : State → A) : stable P (gets f).
Proof. by intros s. Qed.

Lemma stable_modify (f : State → State) : (∀ s, P s → P (f s)) → stable P (modify f).
Proof. intros H s. apply H. Qed.

Lemma stable_bind {A C} (m : M State A) (f : A → M State C) :
  stable P m → (∀ a, stable P (f a)) → stable P (m ≫= f).
Proof.
  intros Hm Hf s Hs. rewrite MonadFacts.bind_eq. specialize (Hm s Hs).
  destruct (m s) as [[e|a] s']; cbn in *; [done|]. by apply Hf.
Qed.

Lemma stable_try_catch {A} (m : M State A) (h : Js.Exn → M State A) :
  stable P m → (∀ e, stable P (h e)) → stable P (try_catch m h).
Proof.
  intros Hm Hh s Hs. rewrite MonadFacts.try_catch_eq. specialize (Hm s Hs).
  destruct (m s) as [[e|a] s']; cbn in *; [|done]. by apply Hh.
Qed.

Lemma stable_ignore_errors (m : M State ()) : stable P m → stable P (ignore_errors m).
Proof. intros Hm. apply stable_try_catch; [done|]. intros e. apply stable_ret. Qed.

(** What [P] depends on is left alone. *)
Lemma stable_keeps {A B} (proj : State → B) (m : M State A) :
  (∀ s s', proj s' = proj s → P s → P s') → keeps proj m → stable P m.
Proof. intros HP Hm s Hs. apply (HP s); [apply Hm|done]. Qed.

End Stable.

(** *** A ticket that is not started *)

Section NotStarted.
Variable t : string.
Variable agents0 : gmap string AgentRow.

(** The current job is not a job of [t], and every agent record of [t]
    is a record there was in [agents0]. *)
Definition notStarted (s : State) : Prop :=
  currentTicketId s ≠ Some t
  ∧ ∀ a row, agents (db s) !! a = Some row → a_ticketId row = t →
             ∃ row0, agents0 !! a = Some row0 ∧ a_ticketId row0 = t.

(** What [notStarted] looks at. *)
Definition jobSide (s : State) : option string * gmap string AgentRow :=
  (currentTicketId s, agents (db s)).

Lemma notStarted_jobSide (s s' : State) : jobSide s' = jobSide s → notStarted s → notStarted s'.
Proof. unfold jobSide, notStarted. intros [= -> ->]. done. Qed.

Lemma stable_jobSide {A} (m : M State A) : keeps jobSide m → stable notStarted m.
Proof. apply stable_keeps, notStarted_jobSide. Qed.

Lemma notStarted_updateAgentStatus a st it : stable notStarted (updateAgentStatus a st it).
Proof.
  intros s [Hcur Hag]. split; [done|]. intros a' row. unfold updateAgentStatus, modify.
  orch_simpl. destruct (decide (a' = a)) as [->|Hne].
  - rewrite lookup_alter_eq. destruct (agents (db s) !! a) as [row1|] eqn:H1; [|done].
    cbn. intros [= <-]. cbn. by apply Hag.
  - rewrite lookup_alter_ne by done. apply Hag.
Qed.

Lemma notStarted_updateCurrentJob (f : AgentJob → AgentJob) :
  (∀ j, ticketId (f j) = ticketId j) → stable notStarted (updateCurrentJob f).
Proof.
  intros Hf. apply stable_jobSide. intros s. unfold updateCurrentJob, jobSide, currentTicketId.
  destruct (currentJob s) as [j|] eqn:Hj; orch_simpl; rewrite ?Hj; [|done].
  cbn. by rewrite Hf.
Qed.

Lemma notStarted_noJob : stable notStarted (modify (set_currentJob None)).
Proof. apply stable_modify. by intros s [_ Hag]. Qed.

Lemma notStarted_broadcast e : stable notStarted (broadcast e).
Proof. by apply stable_jobSide. Qed.

Lemma notStarted_nanoid : stable notStarted nanoid.
Proof. by apply stable_jobSide. Qed.

Lemma notStarted_spawn args cwd : stable notStarted (spawn args cwd).
Proof. by apply stable_jobSide. Qed.

Lemma notStarted_withWorktreeManager {A} (m : M Worktree.Repo A) :
  stable notStarted (withWorktreeManager m).
Proof. by apply stable_jobSide, keeps_withWorktreeManager. Qed.

Lemma notStarted_updateTicketColumn u c : stable notStarted (updateTicketColumn u c).
Proof. by apply stable_jobSide. Qed.

Lemma notStarted_addSystemMessage u c : stable notStarted (addSystemMessage u c).
Proof. by apply stable_jobSide. Qed.

Lemma notStarted_addAgentMessage u c : stable notStarted (addAgentMessage u c).
Proof. by apply stable_jobSide. Qed.

Lemma notStarted_addHumanMessage u c : stable notStarted (addHumanMessage u c).
Proof. by apply stable_jobSide. Qed.

Create HintDb stable.
#[local] Hint Resolve notStarted_updateAgentStatus notStarted_noJob notStarted_broadcast
  notStarted_nanoid notStarted_spawn notStarted_withWorktreeManager
  notStarted_updateTicketColumn notStarted_addSystemMessage notStarted_addAgentMessage
  notStarted_addHumanMessage : stable.

Ltac stable_step :=
  lazymatch goal with
  | |- stable _ (mret _) => apply stable_ret
  | |- stable _ (throw _) => apply stable_throw
  | |- stable _ (gets _) => apply stable_gets
  | |- stable _ (_ ≫= _) => apply stable_bind
  | |- stable _ (try_catch _ _) => apply stable_try_catch
  | |- stable _ (ignore_errors _) => apply stable_ignore_errors
  | |- stable _ (updateCurrentJob _) => apply notStarted_updateCurrentJob; reflexivity
  | |- stable _ (match _ with _ => _ end) => case_match
  | |- ∀ _, _ => intro
  | |- stable _ _ => solve [auto with stable]
  end.

Ltac stable_tac := repeat stable_step.

Lemma notStarted_completeAgent u a o : stable notStarted (completeAgent u a o).
Proof. unfold completeAgent. stable_tac. Qed.

Lemma notStarted_blockAgent u a q : stable notStarted (blockAgent u a q).
Proof. unfold blockAgent. stable_tac. Qed.

Lemma notStarted_failAgent u a e : stable notStarted (failAgent u a e).
Proof. unfold failAgent. stable_tac. Qed.

#[local] Hint Resolve notStarted_completeAgent notStarted_blockAgent notStarted_failAgent
  : stable.

Lemma notStarted_loopFrom left u a w pr : ∀ sid i,
  stable notStarted (loopFrom left u a w pr sid i).
Proof. induction left as [|left IH]; intros sid i; cbn [loopFrom]; stable_tac. Qed.

#[local] Hint Resolve notStarted_loopFrom : stable.

Lemma notStarted_afterOutput p res : stable notStarted (afterOutput p res).
Proof. unfold afterOutput. stable_tac. Qed.

#[local] Hint Resolve notStarted_afterOutput : stable.

(** The job of a worker that delivers goes on or ends: no job is set up. *)
Lemma notStarted_startAgentResumed p res : stable notStarted (startAgentResumed p res).
Proof. unfold startAgentResumed. stable_tac. Qed.

Lemma notStarted_startFailed u e : stable notStarted (startFailed u e).
Proof. unfold startFailed. stable_tac. Qed.

(** The job [startAgent] sets up is a job of its own ticket. *)
Lemma notStarted_startAgent u : u ≠ t → stable notStarted (startAgent u).
Proof.
  intros Hu. unfold startAgent, runAgentLoop, getPRDContent.
  apply stable_bind; [apply stable_gets|]. intros d.
  destruct (tickets d !! u) as [ticket|]; [|apply stable_throw].
  apply stable_bind; [apply notStarted_nanoid|]. intros a.
  apply stable_bind; [apply stable_gets|]. intros cfg.
  apply stable_bind.
  { apply stable_modify. intros s [Hcur Hag]. split; [done|]. intros a' row. orch_simpl.
    destruct (decide (a' = a)) as [->|Hne].
    - rewrite lookup_insert_eq. by intros [= <-].
    - rewrite lookup_insert_ne by done. apply Hag. }
  intros _. apply stable_bind.
  { apply stable_modify. intros s [Hcur Hag]. split; [|done].
    unfold currentTicketId. orch_simpl. cbn. by intros [= ->]. }
  intros _. stable_tac.
Qed.

Lemma notStarted_startOrFail u : u ≠ t → stable notStarted (startOrFail u).
Proof.
  intros Hu. unfold startOrFail. apply stable_try_catch; [by apply notStarted_startAgent|].
  intros e. apply stable_bind; [apply notStarted_startFailed|]. intros _. apply stable_ret.
Qed.

Lemma notStarted_queueSide (f : State → State) (s : State) :
  jobSide (f s) = jobSide s → notStarted s → notStarted (f s).
Proof. apply notStarted_jobSide. Qed.

(** A drain starts the tickets it finds in the queue, and no other. *)
Lemma processQueue_notStarted fuel : ∀ s,
  (t ∉ queue s) → notStarted s → notStarted (fst (processQueue fuel s)).
Proof.
  induction fuel as [|fuel IH]; intros s Hq Hs; cbn [processQueue]; [done|].
  destruct (isProcessing s); [done|].
  destruct (queue s) as [|u rest] eqn:Hqs; [done|].
  fold (startOrFail u).
  set (s1 := set_queue rest (set_isProcessing true s)).
  assert (u ≠ t ∧ t ∉ rest) as [Hu Hrest] by set_solver.
  assert (notStarted s1) as Hs1 by done.
  pose proof (notStarted_startOrFail u Hu s1 Hs1) as H1.
  pose proof (keeps_queue (startOrFail u) s1 (queueSide_startOrFail u)) as Hk.
  change (queue s1) with rest in Hk.
  destruct (startOrFail u s1) as [[e|[p|]] s']; cbn [fst snd] in *; try done.
  - orch_simpl. rewrite Hk. destruct rest as [|u' rest']; [done|].
    apply IH; [orch_simpl; by rewrite Hk|done].
  - orch_simpl. rewrite Hk. destruct rest as [|u' rest']; [done|].
    apply IH; [orch_simpl; by rewrite Hk|done].
Qed.

(** [t] is not in the queue and has not been started. *)
Definition left_out (sys : Sys) : Prop :=
  (t ∉ queue (st sys)) ∧ notStarted (st sys).

Lemma not_in_drop (k : nat) (q : list string) : (t ∉ q) → (t ∉ drop k q).
Proof. intros Hq Hin. apply Hq. by eapply subseteq_drop. Qed.

Lemma kickQueue_left_out sys : left_out sys → left_out (kickQueue sys).
Proof.
  intros [Hq Hs]. split.
  - destruct (kickQueue_queue sys) as [k ->]. by apply not_in_drop.
  - unfold kickQueue.
    pose proof (processQueue_notStarted (S (length (queue (st sys)))) (st sys) Hq Hs) as H.
    by destruct (processQueue _ _) as [s' p'].
Qed.

Lemma enqueue_left_out u sys : u ≠ t → left_out sys → left_out (enqueue u sys).
Proof.
  intros Hu [Hq Hs]. unfold enqueue. case_bool_decide; [done|].
  apply kickQueue_left_out. split; orch_simpl; [set_solver|done].
Qed.

Lemma processQueueResumed_left_out r u s :
  (t ∉ queue s) → notStarted s → left_out (processQueueResumed r u s).
Proof.
  intros Hq Hs. unfold processQueueResumed.
  assert (∀ s0, (t ∉ queue s0) → notStarted s0 →
            left_out (match queue (set_isProcessing false s0) with
                      | [] => mkSys (set_isProcessing false s0) None
                      | _ :: _ => kickQueue (mkSys (set_isProcessing false s0) None)
                      end)) as Hrest.
  { intros s0 Hq0 Hs0. destruct (queue (set_isProcessing false s0)); [done|].
    by apply kickQueue_left_out. }
  destruct r as [e|[p|]]; [|done|by apply Hrest].
  apply Hrest.
  - by rewrite (keeps_queue (startFailed u e) s (queueSide_startFailed u e)).
  - by apply notStarted_startFailed.
Qed.

(** No call but [enqueue] of [t] itself brings [t] back. *)
Lemma step_left_out (sys : Sys) (c : Call) :
  c ≠ Enqueue t → left_out sys → left_out (step sys c).
Proof.
  intros Hc [Hq Hs]. destruct c as [u|u|u response|u|res]; cbn [step].
  - apply enqueue_left_out; [|done]. by intros ->.
  - split; [|done]. unfold dequeue, broadcast, modify. orch_simpl.
    rewrite list_elem_of_filter. tauto.
  - unfold resumeAgent. destruct (isCurrentTicket u (st sys)) eqn:Hu; cbn [negb snd]; [|done].
    apply isCurrentTicket_currentTicketId in Hu.
    apply enqueue_left_out.
    + intros ->. by destruct Hs.
    + split; orch_simpl.
      * by rewrite (keeps_queue (addHumanMessage u response) _ (queueSide_addHumanMessage _ _)).
      * apply notStarted_noJob. by apply notStarted_addHumanMessage.
  - split; [by rewrite killAgent_queue|].
    unfold killAgent. destruct (currentJob (st sys)) as [j|] eqn:Hj; [|done].
    case_bool_decide; [|done].
    match goal with |- context [failAgent ?t ?a ?e ?s] =>
      pose proof (notStarted_failAgent t a e s) as Hf;
      destruct (failAgent t a e s) as [r s'] end.
    orch_simpl. apply Hf. by destruct (process j).
  - unfold workerDone. destruct (pending sys) as [p|]; [|done].
    pose proof (keeps_queue (startAgentResumed p res) (st sys)
                  (queueSide_startAgentResumed _ _)) as Hk.
    pose proof (notStarted_startAgentResumed p res (st sys) Hs) as H1.
    destruct (startAgentResumed p res (st sys)) as [r s']. cbn [snd] in *.
    apply processQueueResumed_left_out; [by rewrite Hk|done].
Qed.

Lemma run_left_out (calls : list Call) : ∀ sys,
  (Enqueue t ∉ calls) → left_out sys → left_out (run sys calls).
Proof.
  unfold run. induction calls as [|c calls IH]; intros sys Hc Hs; [done|].
  cbn [foldl]. apply IH; [set_solver|]. apply step_left_out; [|done].
  intros ->. apply Hc. by left.
Qed.

End NotStarted.

(** X11: a ticket that is taken out of the queue while it waits there is
    not started.  When the ticket is not the one of the current job,
    then after [dequeue] and whatever is called next, as long as the
    ticket is not enqueued again, the ticket is not in the queue and is
    not the ticket of the current job, and no agent record has been made
    for it: every record of the ticket is one there was before. *)
Theorem a_dequeued_ticket_is_not_started (t : string) (sys : Sys) (calls : list Call) :
  currentTicketId (st sys) ≠ Some t →
  (Enqueue t ∉ calls) →
  let sys' := run (dequeue t sys) calls in
  (t ∉ queue (st sys'))
  ∧ currentTicketId (st sys') ≠ Some t
  ∧ ∀ a row, agents (db (st sys')) !! a = Some row → a_ticketId row = t →
             ∃ row0, agents (db (st sys)) !! a = Some row0 ∧ a_ticketId row0 = t.
Proof.
  intros Hcur Hcalls sys'.
  destruct (run_left_out t (agents (db (st sys))) calls (dequeue t sys) Hcalls)
    as (Hq & Hc & Hag); [|done].
  split.
  - unfold dequeue, broadcast, modify. orch_simpl. rewrite list_elem_of_filter. tauto.
  - split; [done|]. intros a row Ha Hrow. by exists row.
Qed.

(** T2 waits behind the job of T1 and is taken out of the queue; then
    the job of T1 completes. *)
Lemma a_dequeued_ticket_is_not_started_witness :
  queue (st sysTwo) = ["T2"]
  ∧ (∀ a row, agents (db (st (run (dequeue "T2" sysTwo)
                                  [WorkerDone (Collected ["TASK_COMPLETE"] "" 0)]))) !! a
              = Some row → a_ticketId row ≠ "T2")
  ∧ a_ticketId <$> agents (db (st (run sysTwo
                                     [WorkerDone (Collected ["TASK_COMPLETE"] "" 0)]))) !! "id-3"
    = Some "T2".
Proof.
  split; [vm_compute; reflexivity|]. split; [|vm_compute; reflexivity].
  intros a row Ha Hrow.
  destruct (a_dequeued_ticket_is_not_started "T2" sysTwo
              [WorkerDone (Collected ["TASK_COMPLETE"] "" 0)])
    as (_ & _ & Hag).
  - vm_compute. congruence.
  - intros Hin%list_elem_of_singleton. discriminate Hin.
  - destruct (Hag a row Ha Hrow) as (row0 & H0 & Ht0).
    assert (agents (db (st sysTwo))
            = {[ "id-0" := mkAgentRow "T1" "RUNNING" 1 3 false ]}) as Heq
      by (vm_compute; reflexivity).
    rewrite Heq in H0. apply lookup_singleton_Some in H0 as [_ <-]. discriminate Ht0.
Defined.


End OrchestratorSpec.


(** ** Properties of the event hub *)

Module HubSpec.
Import Hub MonadFacts.

Section HubSpec.
Context {E : Type}.
Implicit Types (h : State E) (ws : Socket) (m : Message E).

Definition served (sel : Socket → bool) (m : Message E) (l : list Socket) (h : State E)
    : State E :=
  foldl (λ h ws, if sel ws then snd (send ws m h) else h) h l.

Lemma hub_send_open ws m h :
  ws ∉ closed h →
  send ws m h = (inr (), mkState (clients h) (clientIdCounter h) (data h)
                                 (<[ws := sentTo h ws ++ [m]]> (sent h)) (closed h)).
Proof. intros Hws. unfold send. by rewrite decide_False. Qed.

Lemma hub_send_closed ws m h : ws ∈ closed h → send ws m h = (inl SendError, h).
Proof. intros Hws. unfold send. by rewrite decide_True. Qed.

Lemma served_cons sel m x l h :
  served sel m (x :: l) h = served sel m l (if sel x then snd (send x m h) else h).
Proof. reflexivity. Qed.

Lemma served_fields sel m l h :
  clients (served sel m l h) = clients h ∧
  clientIdCounter (served sel m l h) = clientIdCounter h ∧
  data (served sel m l h) = data h ∧
  closed (served sel m l h) = closed h.
Proof.
  revert h. induction l as [|x l IH]; intros h; [done|].
  rewrite served_cons.
  destruct (IH (if sel x then (send x m h).2 else h)) as (-> & -> & -> & ->).
  destruct (sel x); [|done]. unfold send. by destruct (decide _).
Qed.

Lemma served_sentTo sel m l h ws :
  (∀ x, x ∈ l → sel x = true → x ∉ closed h) →
  sentTo (served sel m l h) ws =
  sentTo h ws ++ replicate (length (filter (λ x, x = ws ∧ sel x = true) l)) m.
Proof.
  revert h. induction l as [|x l IH]; intros h Hopen.
  { cbn. by rewrite app_nil_r. }
  rewrite served_cons.
  destruct (sel x) eqn:Hx.
  - rewrite hub_send_open by (apply Hopen; [left|done]). cbn [snd].
    rewrite IH by (intros y Hy Hs; apply (Hopen y); [by right|done]).
    unfold sentTo at 1. cbn [sent].
    rewrite filter_cons. destruct (decide (x = ws ∧ sel x = true)) as [[-> _]|Hn].
    + rewrite lookup_insert_eq. cbn. by rewrite <-app_assoc.
    + rewrite lookup_insert_ne by (intros ->; by apply Hn). done.
  - rewrite IH by (intros y Hy Hs; apply (Hopen y); [by right|done]).
    rewrite filter_cons, decide_False; [done|]. intros [_ ?]. congruence.
Qed.

(** The loop over the clients when every send it makes goes through. *)
Lemma forEach_served (sel : State E → Socket → bool) m l h :
  (∀ h h', data h' = data h → sel h' = sel h) →
  (∀ x, x ∈ l → sel h x = true → x ∉ closed h) →
  forEach (λ ws, h ← get; if sel h ws then send ws m else mret ()) l h
  = (inr (), served (sel h) m l h).
Proof.
  intros Hsel. revert h. induction l as [|x l IH]; intros h Hopen; [done|].
  rewrite served_cons. cbn [forEach]. rewrite bind_eq, bind_eq. unfold get at 1.
  destruct (sel h x) eqn:Hx.
  - rewrite hub_send_open by (apply Hopen; [left|done]). cbn [snd].
    set (h1 := mkState _ _ _ _ _).
    assert (sel h1 = sel h) as Hh1 by by apply Hsel.
    rewrite IH, Hh1; [done|]. intros y Hy. rewrite Hh1. intros Hs.
    apply (Hopen y); [by right|done].
  - unfold mret, M_ret. apply IH. intros y Hy Hs. apply (Hopen y); [by right|done].
Qed.

(** The loop up to a send that throws. *)
Lemma forEach_throws (sel : State E → Socket → bool) m l1 x l2 h :
  (∀ h h', data h' = data h → sel h' = sel h) →
  (∀ y, y ∈ l1 → sel h y = true → y ∉ closed h) →
  sel h x = true → x ∈ closed h →
  forEach (λ ws, h ← get; if sel h ws then send ws m else mret ()) (l1 ++ x :: l2) h
  = (inl SendError, served (sel h) m l1 h).
Proof.
  intros Hsel. revert h. induction l1 as [|y l1 IH]; intros h Hopen Hx Hc.
  { cbn [app forEach]. rewrite bind_eq, bind_eq. unfold get at 1.
    rewrite Hx, hub_send_closed by done. done. }
  rewrite served_cons. cbn [app forEach]. rewrite bind_eq, bind_eq. unfold get at 1.
  destruct (sel h y) eqn:Hy.
  - rewrite hub_send_open by (apply Hopen; [left|done]). cbn [snd].
    set (h1 := mkState _ _ _ _ _).
    assert (sel h1 = sel h) as Hh1 by by apply Hsel.
    rewrite IH, Hh1; [done| |by rewrite Hh1|done]. intros z Hz. rewrite Hh1. intros Hs.
    apply (Hopen z); [by right|done].
  - unfold mret, M_ret. apply IH; [|done|done]. intros z Hz Hs. apply (Hopen z); [by right|done].
Qed.

Lemma broadcast_as_loop (event : E) l h :
  forEach (λ ws, send ws (Json event)) l h
  = forEach (λ ws, h ← get; if (λ _ _, true) h ws then send ws (Json event) else mret ()) l h.
Proof. revert h. induction l as [|x l IH]; intros h; [done|]. cbn [forEach]. rewrite !bind_eq. cbn. destruct (send _ _ _) as [[?|?] ?]; [done|]. apply IH. Qed.

Lemma count_NoDup (P : Socket → Prop) `{∀ x, Decision (P x)} (l : list Socket) ws :
  NoDup l →
  length (filter (λ x, x = ws ∧ P x) l) = if decide (ws ∈ l ∧ P ws) then 1 else 0.
Proof.
  induction 1 as [|x l Hx Hl IH].
  { rewrite decide_False; [done|]. by intros [?%elem_of_nil _]. }
  rewrite filter_cons. destruct (decide (x = ws ∧ P x)) as [[-> HP]|Hn].
  - cbn. rewrite IH, decide_False by tauto. rewrite decide_True; [done|]. split; [left|done].
  - rewrite IH. destruct (decide (ws ∈ l ∧ P ws)) as [[? ?]|Hn'].
    + rewrite decide_True; [done|]. split; [by right|done].
    + rewrite decide_False; [done|]. intros [[->|?]%elem_of_cons ?]; tauto.
Qed.

Lemma served_once sel m l h ws :
  NoDup l → (∀ x, x ∈ l → sel x = true → x ∉ closed h) →
  sentTo (served sel m l h) ws
  = sentTo h ws ++ if decide (ws ∈ l ∧ sel ws = true) then [m] else [].
Proof.
  intros Hnd Hopen. rewrite served_sentTo by done.
  rewrite (count_NoDup (λ x, sel x = true)) by done. by destruct (decide _).
Qed.

Lemma broadcast_eq (event : E) h :
  broadcast event h
  = forEach (λ ws, h ← get; if (λ _ _, true) h ws then send ws (Json event) else mret ())
            (clients h).*2 h.
Proof. unfold broadcast. rewrite bind_eq. unfold get at 1. apply broadcast_as_loop. Qed.

Lemma subscribed_data h h' : data h' = data h → subscribed h' = subscribed h.
Proof. intros Hd. unfold subscribed. by rewrite Hd. Qed.

Lemma broadcast_once (event : E) h :
  NoDup (clients h).*2 →
  (∀ ws, ws ∈ (clients h).*2 → ws ∉ closed h) →
  ∃ h', broadcast event h = (inr (), h')
        ∧ clients h' = clients h ∧ data h' = data h
        ∧ ∀ ws, sentTo h' ws
                = sentTo h ws ++ if decide (ws ∈ (clients h).*2) then [Json event] else [].
Proof.
  intros Hnd Hopen. rewrite broadcast_eq.
  rewrite (forEach_served (λ _ _, true)); [|done|by intros x Hx _; apply Hopen].
  eexists. split; [done|].
  destruct (served_fields (λ _, true) (Json event) (clients h).*2 h) as (-> & _ & -> & _).
  split; [done|]. split; [done|]. intros ws.
  rewrite served_once; [|done|by intros x Hx _; apply Hopen].
  destruct (decide (ws ∈ (clients h).*2)).
  - by rewrite decide_True.
  - rewrite decide_False; [done|]. tauto.
Qed.

Lemma broadcastToTicket_once (ticketId : string) (event : E) h :
  NoDup (clients h).*2 →
  (∀ ws, ws ∈ (clients h).*2 → ws ∉ closed h) →
  ∃ h', broadcastToTicket ticketId event h = (inr (), h')
        ∧ clients h' = clients h ∧ data h' = data h
        ∧ ∀ ws, sentTo h' ws
                = sentTo h ws ++ if decide (ws ∈ (clients h).*2
                                            ∧ subscribed h ws ticketId = true)
                                 then [Json event] else [].
Proof.
  intros Hnd Hopen. unfold broadcastToTicket. rewrite bind_eq. unfold get at 1.
  rewrite (forEach_served (λ h ws, subscribed h ws ticketId));
    [|by intros h1 h2 Hd; rewrite (subscribed_data h1 h2)|by intros x Hx _; apply Hopen].
  eexists. split; [done|].
  destruct (served_fields (λ ws, subscribed h ws ticketId) (Json event) (clients h).*2 h)
    as (-> & _ & -> & _).
  split; [done|]. split; [done|]. intros ws.
  by rewrite served_once; [|done|by intros x Hx _; apply Hopen].
Qed.

(** X19: when no socket is in the map of the clients twice and no send
    to a client throws, [broadcast] sends the event once to every client
    in the map, and [broadcastToTicket] once to every client in the map
    that has subscribed to the ticket; no other socket is sent anything,
    and the map and the subscriptions are as before. *)
Theorem event_is_sent_once_to_each_client_it_is_for (ticketId : string) (event : E) h :
  NoDup (clients h).*2 →
  (∀ ws, ws ∈ (clients h).*2 → ws ∉ closed h) →
  (∃ h', broadcast event h = (inr (), h')
         ∧ clients h' = clients h ∧ data h' = data h
         ∧ ∀ ws, sentTo h' ws
                 = sentTo h ws ++ if decide (ws ∈ (clients h).*2) then [Json event] else [])
  ∧ (∃ h', broadcastToTicket ticketId event h = (inr (), h')
           ∧ clients h' = clients h ∧ data h' = data h
           ∧ ∀ ws, sentTo h' ws
                   = sentTo h ws ++ if decide (ws ∈ (clients h).*2
                                               ∧ subscribed h ws ticketId = true)
                                    then [Json event] else []).
Proof.
  intros Hnd Hopen. split; [by apply broadcast_once|by apply broadcastToTicket_once].
Qed.

(** X20: when the send to a client throws, [broadcast] throws: the
    clients that come before it in the map have been sent the event, and
    the clients that come after it are sent nothing. *)
Theorem a_send_that_throws_ends_the_broadcast (event : E) h (l1 l2 : list Socket) (ws : Socket) :
  (clients h).*2 = l1 ++ ws :: l2 →
  NoDup (clients h).*2 →
  (∀ x, x ∈ l1 → x ∉ closed h) →
  ws ∈ closed h →
  ∃ h', broadcast event h = (inl SendError, h')
        ∧ (∀ x, x ∈ l1 → sentTo h' x = sentTo h x ++ [Json event])
        ∧ (∀ x, x ∉ l1 → sentTo h' x = sentTo h x).
Proof.
  intros Hl Hnd Hopen Hws. rewrite broadcast_eq, Hl.
  rewrite (forEach_throws (λ _ _, true)); [|done|by intros y Hy _; apply Hopen|done|done].
  eexists. split; [done|].
  rewrite Hl in Hnd. apply NoDup_app in Hnd as (Hnd1 & _ & _).
  split; intros x Hx; (rewrite served_once; [|done|by intros y Hy _; apply Hopen]).
  - by rewrite decide_True.
  - rewrite decide_False by tauto. by rewrite app_nil_r.
Qed.

(** X21: a client in the map that asks to subscribe to a ticket is sent
    the next event of that ticket, and one that asks to unsubscribe is
    not; the request itself sends nothing. *)
Theorem a_subscriber_gets_the_events_of_its_ticket
    (ws : Socket) (d : WebSocketData) (c : ascii) (t : string) (event : E) h :
  NoDup (clients h).*2 →
  (∀ x, x ∈ (clients h).*2 → x ∉ closed h) →
  ws ∈ (clients h).*2 →
  data h !! ws = Some d →
  let ticketId := String c t in
  let subscribe := message ws (Request "subscribe" (Some ticketId)) h in
  let unsubscribe := message ws (Request "unsubscribe" (Some ticketId)) h in
  sentTo subscribe ws = sentTo h ws
  ∧ sentTo unsubscribe ws = sentTo h ws
  ∧ sentTo (snd (broadcastToTicket ticketId event subscribe)) ws = sentTo h ws ++ [Json event]
  ∧ sentTo (snd (broadcastToTicket ticketId event unsubscribe)) ws = sentTo h ws.
Proof.
  intros Hnd Hopen Hin Hd ticketId subscribe unsubscribe.
  split; [done|]. split; [done|].
  destruct (broadcastToTicket_once ticketId event subscribe)
    as (h1 & -> & _ & _ & ->); [done..|].
  destruct (broadcastToTicket_once ticketId event unsubscribe)
    as (h2 & -> & _ & _ & ->); [done..|].
  cbn [snd]. split.
  - rewrite decide_True; [done|]. split; [done|].
    unfold subscribed, subscribe. cbn. rewrite lookup_alter_eq, Hd. cbn.
    apply bool_decide_eq_true. set_solver.
  - rewrite decide_False; [by rewrite app_nil_r|]. intros [_ Hs]. revert Hs.
    unfold subscribed, unsubscribe. cbn. rewrite lookup_alter_eq, Hd. cbn.
    rewrite bool_decide_eq_true. set_solver.
Qed.

End HubSpec.

(** Sockets 1, 2 and 3 are in the map; socket 2 has subscribed to T1. *)
Definition threeClients : State string :=
  mkState [("a", 1); ("b", 2); ("c", 3)] 3
          {[1 := mkData "a" ∅; 2 := mkData "b" {["T1"]}; 3 := mkData "c" ∅]} ∅ ∅.

Lemma threeClients_NoDup : NoDup (clients threeClients).*2.
Proof. apply (bool_decide_unpack _). vm_compute. reflexivity. Qed.

Lemma threeClients_open (ws : Socket) : ws ∈ (clients threeClients).*2 → ws ∉ closed threeClients.
Proof. intros _. cbn. set_solver. Qed.

Lemma event_is_sent_once_to_each_client_it_is_for_witness :
  ∃ h1 h2, broadcast "e" threeClients = (inr (), h1)
           ∧ sentTo h1 1 = [Json "e"] ∧ sentTo h1 2 = [Json "e"] ∧ sentTo h1 3 = [Json "e"]
           ∧ sentTo h1 4 = []
           ∧ broadcastToTicket "T1" "e" threeClients = (inr (), h2)
           ∧ sentTo h2 1 = [] ∧ sentTo h2 2 = [Json "e"] ∧ sentTo h2 3 = [].
Proof.
  destruct (event_is_sent_once_to_each_client_it_is_for "T1" "e" threeClients
              threeClients_NoDup threeClients_open)
    as [(h1 & H1 & _ & _ & S1) (h2 & H2 & _ & _ & S2)].
  exists h1, h2. rewrite !S1, !S2. split_and!; try done.
Defined.

(** The same, when socket 2 has gone away. *)
Definition secondGone : State string :=
  mkState (clients threeClients) 3 (data threeClients) ∅ {[2]}.

Lemma a_send_that_throws_ends_the_broadcast_witness :
  ∃ h', broadcast "e" secondGone = (inl SendError, h')
        ∧ sentTo h' 1 = [Json "e"] ∧ sentTo h' 2 = [] ∧ sentTo h' 3 = [].
Proof.
  destruct (a_send_that_throws_ends_the_broadcast "e" secondGone [1] [3] 2)
    as (h' & H & Hin & Hout).
  - reflexivity.
  - exact threeClients_NoDup.
  - intros x ->%list_elem_of_singleton. cbn. set_solver.
  - cbn. set_solver.
  - exists h'. split; [exact H|]. split_and!.
    + apply Hin. set_solver.
    + apply Hout. set_solver.
    + apply Hout. set_solver.
Defined.

Lemma a_subscriber_gets_the_events_of_its_ticket_witness :
  sentTo (snd (broadcastToTicket "T2" "e"
                 (message 1 (Request "subscribe" (Some "T2")) threeClients))) 1 = [Json "e"]
  ∧ sentTo (snd (broadcastToTicket "T1" "e"
                   (message 2 (Request "unsubscribe" (Some "T1")) threeClients))) 2 = [].
Proof.
  split.
  - apply (a_subscriber_gets_the_events_of_its_ticket 1 (mkData "a" ∅) "T" "2" "e" threeClients
             threeClients_NoDup threeClients_open).
    + cbn. set_solver.
    + reflexivity.
  - apply (a_subscriber_gets_the_events_of_its_ticket 2 (mkData "b" {["T1"]}) "T" "1" "e"
             threeClients threeClients_NoDup threeClients_open).
    + cbn. set_solver.
    + reflexivity.
Defined.

End HubSpec.


(** ** Properties of the socket server *)

Module ServerSpec.
Import Server MonadFacts JsFacts.

Section ServerSpec.
Context {E : Type}.
Implicit Types (s : State E) (ws : Hub.Socket) (h : Hub.State E).

(** *** What a walk over the clients changes *)

(** From [h] to [h'] nothing has changed but what the sockets in [A]
    have been sent. *)
Definition hubStep (A : Hub.Socket → Prop) h h' : Prop :=
  Hub.clients h' = Hub.clients h ∧ Hub.clientIdCounter h' = Hub.clientIdCounter h
  ∧ Hub.data h' = Hub.data h ∧ Hub.closed h' = Hub.closed h
  ∧ ∀ ws, ¬ A ws → Hub.sent h' !! ws = Hub.sent h !! ws.

Lemma hubStep_refl A h : hubStep A h h.
Proof. by repeat split. Qed.

Lemma hubStep_trans A h1 h2 h3 : hubStep A h1 h2 → hubStep A h2 h3 → hubStep A h1 h3.
Proof.
  intros (a1 & b1 & c1 & d1 & e1) (a2 & b2 & c2 & d2 & e2).
  repeat split; try congruence. intros ws Hws. by rewrite e2, e1.
Qed.

Lemma hubStep_send (A : Hub.Socket → Prop) ws (m : Hub.Message E) h :
  A ws → hubStep A h (snd (Hub.send ws m h)).
Proof.
  intros HA. unfold Hub.send. destruct (decide _); [apply hubStep_refl|].
  repeat split; try done. intros ws' Hws'. cbn. rewrite lookup_insert_ne; [done|].
  by intros ->.
Qed.

Lemma hubStep_forEach (A : Hub.Socket → Prop) (f : Hub.Socket → M (Hub.State E) ()) l h :
  (∀ x h, x ∈ l → hubStep A h (snd (f x h))) →
  hubStep A h (snd (Hub.forEach f l h)).
Proof.
  revert h. induction l as [|x l IH]; intros h Hf; [apply hubStep_refl|].
  cbn [Hub.forEach]. rewrite bind_eq.
  pose proof (Hf x h ltac:(left)) as Hx.
  destruct (f x h) as [[e|[]] h1]; [done|]. cbn [snd] in Hx.
  eapply hubStep_trans; [done|]. apply IH. intros y h' Hy. apply Hf. by right.
Qed.

Lemma hubStep_broadcast (event : E) h :
  hubStep (λ ws, ws ∈ (Hub.clients h).*2) h (snd (Hub.broadcast event h)).
Proof.
  unfold Hub.broadcast. rewrite bind_eq. unfold get at 1.
  apply hubStep_forEach. intros x h' Hx. by apply hubStep_send.
Qed.

Lemma hubStep_broadcastToTicket t (event : E) h :
  hubStep (λ ws, ws ∈ (Hub.clients h).*2) h (snd (Hub.broadcastToTicket t event h)).
Proof.
  unfold Hub.broadcastToTicket. rewrite bind_eq. unfold get at 1.
  apply hubStep_forEach. intros x h' Hx. rewrite bind_eq. unfold get at 1.
  destruct (Hub.subscribed h' x t); [by apply hubStep_send|apply hubStep_refl].
Qed.

(** *** The map of the clients *)

Lemma elem_of_mapSet key value (m : list (string * Hub.Socket)) kv :
  kv ∈ Hub.mapSet key value m → kv ∈ m ∨ kv = (key, value).
Proof.
  induction m as [|[k v] m IH]; cbn.
  - intros ->%list_elem_of_singleton. by right.
  - destruct (decide (k = key)) as [->|Hne].
    + intros [->|Hin]%elem_of_cons; [by right|]. left. by right.
    + intros [->|Hin]%elem_of_cons; [left; by left|].
      destruct (IH Hin) as [?|?]; [left; by right|by right].
Qed.

Lemma mapSet_keys key value (m : list (string * Hub.Socket)) k :
  k ∈ (Hub.mapSet key value m).*1 ↔ k ∈ m.*1 ∨ k = key.
Proof.
  induction m as [|[k' v] m IH]; cbn.
  - rewrite list_elem_of_singleton, elem_of_nil. tauto.
  - destruct (decide (k' = key)) as [->|Hne]; cbn; rewrite !elem_of_cons.
    + tauto.
    + rewrite IH. tauto.
Qed.

Lemma mapSet_NoDup key value (m : list (string * Hub.Socket)) :
  NoDup m.*1 → NoDup (Hub.mapSet key value m).*1.
Proof.
  induction m as [|[k v] m IH]; cbn.
  - intros _. apply NoDup_singleton.
  - intros [Hk Hm]%NoDup_cons. destruct (decide (k = key)) as [->|Hne]; cbn.
    + by apply NoDup_cons.
    + apply NoDup_cons. split; [|by apply IH]. rewrite mapSet_keys. tauto.
Qed.

Lemma mapSet_elem key value (m : list (string * Hub.Socket)) :
  (key, value) ∈ Hub.mapSet key value m.
Proof.
  induction m as [|[k v] m IH]; cbn; [by left|].
  destruct (decide (k = key)); [by left|by right].
Qed.

Lemma mapSet_other key value (m : list (string * Hub.Socket)) k v :
  k ≠ key → (k, v) ∈ m → (k, v) ∈ Hub.mapSet key value m.
Proof.
  intros Hne. induction m as [|[k' v'] m IH]; cbn; [by intros ?%elem_of_nil|].
  intros [[= <- <-]|Hin]%elem_of_cons.
  - rewrite decide_False by done. by left.
  - destruct (decide (k' = key)); right; [done|by apply IH].
Qed.

Lemma mapDelete_NoDup key (m : list (string * Hub.Socket)) :
  NoDup m.*1 → NoDup (Hub.mapDelete key m).*1.
Proof.
  intros Hm. eapply sublist_NoDup; [done|]. apply fmap_sublist, sublist_filter.
Qed.

Lemma elem_of_mapDelete key (m : list (string * Hub.Socket)) kv :
  kv ∈ Hub.mapDelete key m ↔ kv.1 ≠ key ∧ kv ∈ m.
Proof. unfold Hub.mapDelete. by rewrite list_elem_of_filter. Qed.

(** *** Paths *)

Lemma last_Forall {A} (P : A → Prop) (l : list A) d : l ≠ [] → Forall P l → P (List.last l d).
Proof.
  induction l as [|x l IH]; [done|]. intros _ [Hx Hl]%Forall_cons.
  destruct l as [|y l]; [done|]. by apply IH.
Qed.

Lemma lastSegment_free (p : string) : Js.free "/" (lastSegment p) = true.
Proof.
  unfold lastSegment. apply (last_Forall (λ l, Js.free "/" l = true)).
  - destruct p; cbn; [done|]. by repeat case_match.
  - apply split_pieces_free.
Qed.

(** *** What holds of the server at any time *)

Definition mkId (now counter : nat) : string :=
  "client-" +:+ pretty now +:+ "-" +:+ pretty counter.

Lemma clientId_inj (now now' c c' : nat) :
  "client-" +:+ pretty now +:+ "-" +:+ pretty c = "client-" +:+ pretty now' +:+ "-" +:+ pretty c' →
  now = now' ∧ c = c'.
Proof.
  intros Heq. cbn in Heq. injection Heq as Heq.
  apply app_sep_inj in Heq as [Hn Hc]; [|apply pretty_free..].
  split; by apply (inj pretty).
Qed.

(** [ws.data.clientId] *)
Definition idOf s ws : option string := Hub.clientId <$> Hub.data (hub s) !! ws.

Definition terminalOf s (ws : Terminal.Client) (t : string) : Prop :=
  kinds s !! ws = Some (terminal t).

Record inv (s : State E) : Prop := mkInv {
  inv_kinds : ∀ ws t, kinds s !! ws = Some (terminal t) → t ≠ "" ∧ Js.free "/" t = true;
  inv_data : ∀ ws, is_Some (idOf s ws) ↔ is_Some (kinds s !! ws);
  inv_ids : ∀ ws id, idOf s ws = Some id →
            ∃ now c, id = mkId now c ∧ c ≤ Hub.clientIdCounter (hub s);
  inv_inj : ∀ ws ws' id, idOf s ws = Some id → idOf s ws' = Some id → ws = ws';
  inv_clients : ∀ id ws, (id, ws) ∈ Hub.clients (hub s) →
                kinds s !! ws = Some general ∧ idOf s ws = Some id;
  inv_keys : NoDup (Hub.clients (hub s)).*1;
  inv_sent : ∀ ws, is_Some (Hub.sent (hub s) !! ws) → kinds s !! ws = Some general;
  inv_reg : TerminalSpec.ownedBy (terminalOf s) (registry s)
}.

Lemma inv_init : inv init.
Proof.
  split; cbn; try done.
  - intros ws. unfold idOf. cbn. rewrite !lookup_empty. cbn. done.
  - intros id ws []%elem_of_nil.
  - apply NoDup_nil_2.
  - intros ws. rewrite lookup_empty. by intros [? ?].
Qed.

Lemma terminalTicket_Some s ws t :
  terminalTicket s ws = Some t → kinds s !! ws = Some (terminal t).
Proof.
  unfold terminalTicket. destruct (kinds s !! ws) as [[|[|c t']]|]; try done. by intros [= <-].
Qed.

Lemma terminalTicket_None s ws :
  inv s → is_Some (kinds s !! ws) → terminalTicket s ws = None → kinds s !! ws = Some general.
Proof.
  intros Hinv [k Hk]. unfold terminalTicket. rewrite Hk. destruct k as [|[|c t]]; try done.
  by destruct (inv_kinds s Hinv ws "" Hk).
Qed.

(** A change of the hub that leaves the kinds and the identifiers as
    they are. *)
Lemma inv_set_hub s h' :
  inv s →
  Hub.clientIdCounter (hub s) ≤ Hub.clientIdCounter h' →
  (∀ ws, Hub.clientId <$> Hub.data h' !! ws = idOf s ws) →
  (∀ id ws, (id, ws) ∈ Hub.clients h' →
            (id, ws) ∈ Hub.clients (hub s) ∨ (kinds s !! ws = Some general ∧ idOf s ws = Some id)) →
  NoDup (Hub.clients h').*1 →
  (∀ ws, is_Some (Hub.sent h' !! ws) →
         is_Some (Hub.sent (hub s) !! ws) ∨ kinds s !! ws = Some general) →
  inv (mkState h' (registry s) (inputs s) (kinds s)).
Proof.
  intros [] Hc Hid Hcl Hk Hs. split; cbn; unfold idOf; cbn; try done.
  - intros ws. by rewrite Hid.
  - intros ws id. rewrite Hid. intros (now & c & -> & Hle)%inv_ids0. exists now, c. split; [done|lia].
  - intros ws ws' id. rewrite !Hid. apply inv_inj0.
  - intros id ws [Hin|Hnew]%Hcl; rewrite Hid; [by apply inv_clients0|done].
  - intros ws [Hin|Hg]%Hs; [by apply inv_sent0|done].
Qed.

Lemma inv_set_registry s r' :
  inv s → TerminalSpec.ownedBy (terminalOf s) r' → inv (mkState (hub s) r' (inputs s) (kinds s)).
Proof. intros [] Hr. by split. Qed.

Lemma inv_set_inputs s i' : inv s → inv (mkState (hub s) (registry s) i' (kinds s)).
Proof. intros []. by split. Qed.

Lemma inv_counter s n :
  inv s → Hub.clientIdCounter (hub s) ≤ n →
  inv (set_hub (λ _, Hub.mkState (Hub.clients (hub s)) n (Hub.data (hub s))
                                 (Hub.sent (hub s)) (Hub.closed (hub s))) s).
Proof.
  intros Hinv Hn. apply (inv_set_hub s); cbn; try done.
  - intros id ws Hin. by left.
  - apply Hinv.
  - intros ws Hws. by left.
Qed.

Lemma known_ne s w ws k : kinds s !! w = Some k → kinds s !! ws = None → w ≠ ws.
Proof. intros H1 H2 ->. rewrite H2 in H1. done. Qed.

Lemma inv_upgrade s ws now kind :
  inv s → kinds s !! ws = None →
  (∀ t, kind = terminal t → t ≠ "" ∧ Js.free "/" t = true) →
  inv (upgrade ws (mkId now (S (Hub.clientIdCounter (hub s)))) kind
         (set_hub (λ _, Hub.mkState (Hub.clients (hub s)) (S (Hub.clientIdCounter (hub s)))
                                    (Hub.data (hub s)) (Hub.sent (hub s)) (Hub.closed (hub s))) s)).
Proof.
  intros Hinv Hnew Hkind.
  assert (idOf s ws = None) as Hid.
  { apply eq_None_not_Some. rewrite (inv_data s Hinv). by rewrite Hnew; intros [? ?]. }
  destruct Hinv. split; unfold idOf; cbn.
  - intros ws' t. destruct (decide (ws' = ws)) as [->|Hne].
    + rewrite lookup_insert_eq. intros [= ->]. by apply Hkind.
    + rewrite lookup_insert_ne by done. apply inv_kinds0.
  - intros ws'. destruct (decide (ws' = ws)) as [->|Hne].
    + rewrite !lookup_insert_eq. cbn. split; by eexists.
    + rewrite !lookup_insert_ne by done. apply inv_data0.
  - intros ws' id. destruct (decide (ws' = ws)) as [->|Hne].
    + rewrite lookup_insert_eq. cbn. intros [= <-]. by eexists _, _.
    + rewrite lookup_insert_ne by done. intros (n & c & -> & Hle)%inv_ids0.
      exists n, c. split; [done|lia].
  - assert (∀ w id, w ≠ ws → idOf s w = Some id →
                    id ≠ mkId now (S (Hub.clientIdCounter (hub s)))) as Hfresh.
    { intros w id Hne (n & c & -> & Hle)%inv_ids0 Heq.
      apply clientId_inj in Heq as [_ ->]. lia. }
    intros w w' id.
    destruct (decide (w = ws)) as [->|Hne], (decide (w' = ws)) as [->|Hne'];
      rewrite ?lookup_insert_eq, ?lookup_insert_ne by done; cbn; try done.
    + intros [= <-] Hw'. by destruct (Hfresh w' _ Hne' Hw').
    + intros Hw [= <-]. by destruct (Hfresh w _ Hne Hw).
    + apply inv_inj0.
  - intros id w Hin. destruct (inv_clients0 id w Hin) as [Hk Hi].
    assert (w ≠ ws) by by eapply known_ne.
    by rewrite !lookup_insert_ne.
  - done.
  - intros w Hw. pose proof (inv_sent0 w Hw) as Hk.
    assert (w ≠ ws) by by eapply known_ne. by rewrite lookup_insert_ne.
  - eapply TerminalSpec.ownedBy_mono; [|done]. intros w t. unfold terminalOf. cbn. intros Hk.
    assert (w ≠ ws) by by eapply known_ne. by rewrite lookup_insert_ne.
Qed.

Lemma inv_fetch s pathname ws now accepted :
  inv s → kinds s !! ws = None → inv (snd (fetch pathname ws now accepted s)).
Proof.
  intros Hinv Hnew. unfold fetch, Hub.generateClientId.
  destruct (Js.startsWith pathname "/ws/terminal/").
  - destruct (lastSegment pathname) as [|c t] eqn:Hseg; [done|].
    destruct accepted; cbn [snd].
    + apply inv_upgrade; [done..|]. intros t' [= <-]. split; [done|].
      rewrite <-Hseg. apply lastSegment_free.
    + apply inv_counter; [done|lia].
  - destruct (String.eqb pathname "/ws"); [|done].
    destruct accepted; cbn [snd].
    + by apply inv_upgrade.
    + apply inv_counter; [done|lia].
Qed.

Lemma alter_clientId f ws (m : gmap Hub.Socket Hub.WebSocketData) ws' :
  Hub.clientId <$> alter (Hub.set_subscribed f) ws m !! ws' = Hub.clientId <$> m !! ws'.
Proof.
  destruct (decide (ws' = ws)) as [->|Hne].
  - rewrite lookup_alter_eq. by destruct (m !! ws).
  - by rewrite lookup_alter_ne.
Qed.

Lemma inv_hubStep s h' (A : Hub.Socket → Prop) :
  inv s → hubStep A (hub s) h' → (∀ ws, A ws → kinds s !! ws = Some general) →
  inv (mkState h' (registry s) (inputs s) (kinds s)).
Proof.
  intros Hinv (Hc & Hn & Hd & _ & Hs) HA. apply inv_set_hub; try done.
  - lia.
  - intros ws. by rewrite Hd.
  - intros id ws. rewrite Hc. by left.
  - rewrite Hc. apply Hinv.
  - intros ws Hws. destruct (kinds s !! ws) as [[|t]|] eqn:Hk; [by right|left..].
    + rewrite <-Hs; [done|]. intros HAws%HA. congruence.
    + rewrite <-Hs; [done|]. intros HAws%HA. congruence.
Qed.

Lemma clients_general s ws :
  inv s → ws ∈ (Hub.clients (hub s)).*2 → kinds s !! ws = Some general.
Proof.
  intros Hinv ([id w] & -> & Hin)%list_elem_of_fmap. by apply (inv_clients s Hinv id).
Qed.

Lemma apply_inv s (o : @Op E) : inv s → inv (apply s o).
Proof.
  intros Hinv.
  destruct o as [p ws now acc|ws proc now|ws g t|ws|e|t e|t text|t code|ws|proc]; cbn.
  - destruct (kinds s !! ws) eqn:Hk; [done|]. by apply inv_fetch.
  - destruct (kinds s !! ws) eqn:Hk; [|done]. unfold open.
    destruct (terminalTicket s ws) as [t|] eqn:Ht.
    + apply inv_set_registry; [done|].
      apply TerminalSpec.ownedBy_startTerminalSession, TerminalSpec.ownedBy_addClientToSession; [|apply Hinv].
      by apply terminalTicket_Some.
    + apply (terminalTicket_None s ws Hinv) in Ht; [|by eexists].
      unfold set_hub, Hub.open. destruct (Hub.data (hub s) !! ws) as [d|] eqn:Hd; [|by destruct s].
      apply inv_set_hub; cbn; try done.
      * intros id w [Hin|[= -> ->]]%elem_of_mapSet; [by left|]. right. split; [done|].
        unfold idOf. by rewrite Hd.
      * apply mapSet_NoDup, Hinv.
      * intros w Hw. by left.
  - destruct (kinds s !! ws) eqn:Hk; [|done]. unfold message.
    destruct (terminalTicket s ws) as [t'|] eqn:Ht.
    + unfold terminalMessage. destruct t as [[|c d]|text|]; try done; by apply inv_set_inputs.
    + apply (terminalTicket_None s ws Hinv) in Ht; [|by eexists].
      unfold set_hub, Hub.message. destruct g as [|type tk]; [by destruct s|].
      destruct (String.eqb type "subscribe").
      { destruct tk as [[|c tk]|]; [by destruct s| |by destruct s].
        apply inv_set_hub; cbn; try done.
        - intros w. apply alter_clientId.
        - intros id w Hin. by left.
        - apply Hinv.
        - intros w Hw. by left. }
      destruct (String.eqb type "unsubscribe").
      { destruct tk as [[|c tk]|]; [by destruct s| |by destruct s].
        apply inv_set_hub; cbn; try done.
        - intros w. apply alter_clientId.
        - intros id w Hin. by left.
        - apply Hinv.
        - intros w Hw. by left. }
      destruct (String.eqb type "ping"); [|by destruct s].
      rewrite ignore_errors_eq. cbn [snd].
      apply (inv_hubStep s _ (λ w, w = ws)); [done| |by intros w ->].
      by apply hubStep_send.
  - destruct (kinds s !! ws) eqn:Hk; [|done]. unfold close.
    destruct (terminalTicket s ws) as [t|] eqn:Ht.
    + apply inv_set_registry; [done|]. apply TerminalSpec.ownedBy_removeClientFromSession, Hinv.
    + unfold set_hub, Hub.close. destruct (Hub.data (hub s) !! ws) as [d|] eqn:Hd; [|by destruct s].
      apply inv_set_hub; cbn; try done.
      * intros id w [_ Hin]%elem_of_mapDelete. by left.
      * apply mapDelete_NoDup, Hinv.
      * intros w Hw. by left.
  - eapply inv_hubStep; [done|apply hubStep_broadcast|]. intros ws. by apply clients_general.
  - eapply inv_hubStep; [done|apply hubStep_broadcastToTicket|]. intros ws. by apply clients_general.
  - apply inv_set_registry; [done|]. apply TerminalSpec.ownedBy_onStdout, Hinv.
  - apply inv_set_registry; [done|]. apply TerminalSpec.ownedBy_onExit, Hinv.
  - destruct (kinds s !! ws) eqn:Hk; [|done]. unfold gone.
    destruct Hinv. split; try done.
  - by apply inv_set_inputs.
Qed.

Lemma applyAll_inv s ops : inv s → inv (applyAll s ops).
Proof.
  unfold applyAll. revert s. induction ops as [|o ops IH]; intros s Hs; [done|].
  cbn. by apply IH, apply_inv.
Qed.

Lemma reachable_inv (ops : list (@Op E)) : inv (applyAll init ops).
Proof. apply applyAll_inv, inv_init. Qed.

Lemma sentTo_nil s ws : kinds s !! ws ≠ Some general → inv s → Hub.sentTo (hub s) ws = [].
Proof.
  intros Hk Hinv. unfold Hub.sentTo.
  destruct (Hub.sent (hub s) !! ws) eqn:Hs; [|done].
  destruct Hk. apply (inv_sent s Hinv). by eexists.
Qed.

Lemma observed_nil s ws :
  (∀ t, kinds s !! ws ≠ Some (terminal t)) → inv s → Terminal.observed (registry s) ws = [].
Proof.
  intros Hk Hinv. unfold Terminal.observed.
  destruct (Terminal.received _ !! _) eqn:Hs; [|done].
  destruct (proj2 (inv_reg s Hinv) ws) as [t Ht]; [by rewrite Hs|]. by destruct (Hk t).
Qed.

Lemma not_client s ws : kinds s !! ws ≠ Some general → inv s → (ws ∉ (Hub.clients (hub s)).*2).
Proof. intros Hk Hinv Hin. by apply Hk, clients_general. Qed.

(** X22: at any time a socket is served through the channel of its own
    kind only.  A general socket observes no terminal session and has
    been sent no terminal output; a terminal socket is not in the map of
    the hub and has been sent no event, it observes no session but the
    one of the ticket in its path, and that ticket is not empty and holds
    no slash; a socket that no upgrade has made is nowhere. *)
Theorem a_socket_is_served_through_its_own_channel_only (ops : list (@Op E)) (ws : Hub.Socket) :
  let s := applyAll init ops in
  let observes t := ∃ sess, Terminal.sessions (registry s) !! t = Some sess
                            ∧ ws ∈ Terminal.clients sess in
  match kinds s !! ws with
  | Some general =>
      Terminal.observed (registry s) ws = [] ∧ ∀ t, ¬ (observes t)
  | Some (terminal ticketId) =>
      ticketId ≠ "" ∧ Js.free "/" ticketId = true
      ∧ Hub.sentTo (hub s) ws = [] ∧ (ws ∉ (Hub.clients (hub s)).*2)
      ∧ ∀ t, observes t → t = ticketId
  | None =>
      Hub.sentTo (hub s) ws = [] ∧ (ws ∉ (Hub.clients (hub s)).*2)
      ∧ Terminal.observed (registry s) ws = [] ∧ ∀ t, ¬ (observes t)
  end.
Proof.
  intros s observes. pose proof (reachable_inv ops) as Hinv. fold s in Hinv.
  assert (∀ t, observes t → kinds s !! ws = Some (terminal t)) as Hobs.
  { intros t (sess & Hs & Hin). by apply (proj1 (inv_reg s Hinv) t sess ws). }
  destruct (kinds s !! ws) as [[|ticketId]|] eqn:Hk.
  - split; [apply observed_nil; [by rewrite Hk|done]|]. intros t Ht%Hobs. done.
  - destruct (inv_kinds s Hinv ws ticketId Hk) as [Hne Hfree].
    split_and!; [done|done|apply sentTo_nil; [by rewrite Hk|done]
                |apply not_client; [by rewrite Hk|done]|].
    intros t Ht%Hobs. congruence.
  - split_and!; [apply sentTo_nil; [by rewrite Hk|done]|apply not_client; [by rewrite Hk|done]
                |apply observed_nil; [by rewrite Hk|done]|].
    intros t Ht%Hobs. done.
Qed.

Lemma clients_values_NoDup s : inv s → NoDup (Hub.clients (hub s)).*2.
Proof.
  intros Hinv. apply NoDup_fmap_2_strong; [|eapply NoDup_fmap_1, (inv_keys s Hinv)].
  intros [id w] [id' w'] Hin Hin'. cbn. intros <-.
  destruct (inv_clients s Hinv _ _ Hin) as [_ H1].
  destruct (inv_clients s Hinv _ _ Hin') as [_ H2]. congruence.
Qed.

(** X23: at any time no two sockets carry the same client id, every
    entry of the map of the clients is stored under the id its socket
    carries, and no id and no socket is in the map twice. *)
Theorem every_socket_has_a_client_id_of_its_own (ops : list (@Op E)) :
  let s := applyAll init ops in
  (∀ ws ws' id, idOf s ws = Some id → idOf s ws' = Some id → ws = ws')
  ∧ (∀ id ws, (id, ws) ∈ Hub.clients (hub s) → idOf s ws = Some id)
  ∧ NoDup (Hub.clients (hub s)).*1
  ∧ NoDup (Hub.clients (hub s)).*2.
Proof.
  intros s. pose proof (reachable_inv ops) as Hinv. fold s in Hinv. split_and!.
  - apply (inv_inj s Hinv).
  - intros id ws Hin. by apply (inv_clients s Hinv).
  - apply (inv_keys s Hinv).
  - by apply clients_values_NoDup.
Qed.

Lemma mapSet_values s ws id w :
  inv s → idOf s ws = Some id →
  w ∈ (Hub.mapSet id ws (Hub.clients (hub s))).*2 ↔ w ∈ (Hub.clients (hub s)).*2 ∨ w = ws.
Proof.
  intros Hinv Hid. rewrite !list_elem_of_fmap. split.
  - intros ([k v] & -> & [Hin|[= -> ->]]%elem_of_mapSet); [|by right].
    left. by exists (k, v).
  - intros [([k v] & -> & Hin)| ->].
    + destruct (decide (k = id)) as [->|Hne].
      * destruct (inv_clients s Hinv _ _ Hin) as [_ Hv]. cbn.
        rewrite (inv_inj s Hinv v ws id Hv Hid). exists (id, ws). split; [done|].
        apply mapSet_elem.
      * exists (k, v). split; [done|]. by apply mapSet_other.
    + exists (id, ws). split; [done|]. apply mapSet_elem.
Qed.

Lemma mapDelete_values s ws id w :
  inv s → idOf s ws = Some id →
  w ∈ (Hub.mapDelete id (Hub.clients (hub s))).*2 ↔ w ∈ (Hub.clients (hub s)).*2 ∧ w ≠ ws.
Proof.
  intros Hinv Hid. rewrite !list_elem_of_fmap. split.
  - intros ([k v] & -> & [Hne Hin]%elem_of_mapDelete). cbn in *. split; [by exists (k, v)|].
    intros ->. destruct (inv_clients s Hinv _ _ Hin) as [_ Hv]. congruence.
  - intros [([k v] & -> & Hin) Hne]. exists (k, v). split; [done|].
    apply elem_of_mapDelete. split; [|done]. cbn. intros ->. apply Hne.
    destruct (inv_clients s Hinv _ _ Hin) as [_ Hv]. by apply (inv_inj s Hinv v ws id).
Qed.

Lemma idOf_general s ws : inv s → kinds s !! ws = Some general → is_Some (idOf s ws).
Proof. intros Hinv Hk. apply (inv_data s Hinv). by eexists. Qed.

(** X24: at any time the map of the clients follows the sockets: the
    open of a general socket puts it into the map, its close takes it out
    and takes no other socket out, and nothing else that happens changes
    which sockets are in the map. *)
Theorem the_map_of_the_clients_follows_open_and_close
    (ops : list (@Op E)) (o : @Op E) (w : Hub.Socket) :
  let s := applyAll init ops in
  let registered s := w ∈ (Hub.clients (hub s)).*2 in
  registered (apply s o)
  ↔ match o with
    | Open ws _ _ => registered s ∨ (w = ws ∧ kinds s !! ws = Some general)
    | Close ws => registered s ∧ w ≠ ws
    | _ => registered s
    end.
Proof.
  intros s registered. pose proof (reachable_inv ops) as Hinv. fold s in Hinv.
  unfold registered.
  destruct o as [p ws now acc|ws proc now|ws g t|ws|e|t e|t text|t code|ws|proc];
    cbn [apply].
  - destruct (kinds s !! ws); [done|]. unfold fetch, Hub.generateClientId.
    destruct (Js.startsWith _ _); [destruct (lastSegment p); [done|]; by destruct acc|].
    destruct (String.eqb _ _); [by destruct acc|done].
  - destruct (kinds s !! ws) as [k|] eqn:Hk; [|naive_solver]. unfold open.
    destruct (terminalTicket s ws) as [t|] eqn:Ht.
    + apply terminalTicket_Some in Ht. cbn. naive_solver.
    + apply (terminalTicket_None s ws Hinv) in Ht; [|by eexists].
      destruct (idOf_general s ws Hinv Ht) as [id Hid].
      unfold set_hub, Hub.open. unfold idOf in Hid.
      destruct (Hub.data (hub s) !! ws) as [d|] eqn:Hd; [|done]. cbn in Hid. cbn.
      injection Hid as Hid. rewrite Hid, mapSet_values; [|done|by unfold idOf; rewrite Hd, <-Hid].
      naive_solver.
  - destruct (kinds s !! ws) as [k|] eqn:Hk; [|done]. unfold message.
    destruct (terminalTicket s ws) as [t'|] eqn:Ht.
    + unfold terminalMessage. by destruct t as [[|c d]|text|].
    + unfold set_hub, Hub.message. destruct g as [|type tk]; [done|].
      destruct (String.eqb type "subscribe"); [by destruct tk as [[|c tk]|]|].
      destruct (String.eqb type "unsubscribe"); [by destruct tk as [[|c tk]|]|].
      destruct (String.eqb type "ping"); [|done].
      rewrite ignore_errors_eq. cbn [snd hub].
      by destruct (hubStep_send (λ x, x = ws) ws Hub.Pong (hub s) eq_refl) as (-> & _).
  - destruct (kinds s !! ws) as [k|] eqn:Hk.
    2:{ split; [|tauto]. intros Hin. split; [done|]. intros ->.
        apply clients_general in Hin; [|done]. congruence. }
    unfold close. destruct (terminalTicket s ws) as [t|] eqn:Ht.
    + apply terminalTicket_Some in Ht. cbn. split; [|tauto]. intros Hin. split; [done|].
      intros ->. apply clients_general in Hin; [|done]. congruence.
    + apply (terminalTicket_None s ws Hinv) in Ht; [|by eexists].
      destruct (idOf_general s ws Hinv Ht) as [id Hid].
      unfold set_hub, Hub.close. unfold idOf in Hid.
      destruct (Hub.data (hub s) !! ws) as [d|] eqn:Hd; [|done]. cbn in Hid. cbn.
      injection Hid as Hid. rewrite Hid. apply mapDelete_values; [done|].
      by unfold idOf; rewrite Hd, <-Hid.
  - cbn. by destruct (hubStep_broadcast e (hub s)) as (-> & _).
  - cbn. by destruct (hubStep_broadcastToTicket t e (hub s)) as (-> & _).
  - done.
  - done.
  - by destruct (kinds s !! ws).
  - done.
Qed.

(** What a message on a terminal socket hands to [sendToTerminal]. *)
Definition payload (m : TerminalIncoming) : option string :=
  match m with
  | Input (String c data) => Some (String c data)
  | Raw text => Some text
  | _ => None
  end.

(** X25: at any time, nothing writes to a terminal process but a message
    on a terminal socket, and what such a message carries is written once,
    to the process of the session of the ticket in the path of the socket;
    it is written nowhere when that session is not there or has no
    process, or when the write throws. *)
Theorem input_goes_to_the_process_of_the_ticket_of_its_socket
    (ops : list (@Op E)) (o : @Op E) (p : Terminal.Pid) :
  let s := applyAll init ops in
  Terminal.typedInto (inputs (apply s o)) p
  = Terminal.typedInto (inputs s) p
    ++ match o with
       | Message ws _ m =>
           match kinds s !! ws, payload m with
           | Some (terminal t), Some data =>
               if decide (Terminal.process <$> Terminal.sessions (registry s) !! t = Some (Some p)
                          ∧ p ∉ Terminal.broken (inputs s))
               then [data] else []
           | _, _ => []
           end
       | _ => []
       end.
Proof.
  intros s. pose proof (reachable_inv ops) as Hinv. fold s in Hinv.
  destruct o as [pa ws now acc|ws proc now|ws g m|ws|e|t e|t text|t code|ws|proc];
    cbn [apply]; rewrite ?app_nil_r.
  - destruct (kinds s !! ws); [done|]. unfold fetch, Hub.generateClientId.
    destruct (Js.startsWith _ _); [destruct (lastSegment pa); [done|]; by destruct acc|].
    destruct (String.eqb _ _); [by destruct acc|done].
  - destruct (kinds s !! ws); [|done]. unfold open. by destruct (terminalTicket s ws).
  - destruct (kinds s !! ws) as [[|t]|] eqn:Hk; rewrite ?app_nil_r; [| |done].
    + unfold message, terminalTicket. by rewrite Hk.
    + destruct (inv_kinds s Hinv ws t Hk) as [Hne _].
      unfold message, terminalTicket. rewrite Hk. destruct t as [|c t]; [done|].
      unfold terminalMessage. destruct m as [[|c' d]|text|]; cbn [payload set_inputs inputs];
        rewrite ?app_nil_r; try done; apply TerminalSpec.sendToTerminal_typedInto.
  - destruct (kinds s !! ws); [|done]. unfold close. by destruct (terminalTicket s ws).
  - done.
  - done.
  - done.
  - done.
  - by destruct (kinds s !! ws).
  - done.
Qed.

(** *** The path of an upgrade *)

Lemma lastSegment_app (front t : string) :
  Js.free "/" t = true → lastSegment (front +:+ String "/" t) = t.
Proof.
  intros Hfree. unfold lastSegment.
  destruct (split_app_sep "/" front t) as (l & ls & ->).
  rewrite JsFacts.split_free by done.
  change (l :: ls ++ [t]) with ((l :: ls) ++ [t]). apply last_last.
Qed.

(** X26: a request for a terminal socket names its ticket by the last
    segment of the path: when the upgrade is accepted the new socket is a
    terminal socket of that ticket, with a client id made of the time and
    the next count and with no subscription; when the path ends in a
    slash the answer is 400 and nothing has changed. *)
Theorem the_last_segment_of_the_path_is_the_ticket
    (front t : string) (ws : Hub.Socket) (now : nat) (s : State E) :
  Js.startsWith (front +:+ "/" +:+ t) "/ws/terminal/" = true →
  Js.free "/" t = true →
  match t with
  | "" => fetch (front +:+ "/" +:+ t) ws now true s = (Status 400, s)
  | _ => ∃ s', fetch (front +:+ "/" +:+ t) ws now true s = (Upgraded, s')
               ∧ kinds s' !! ws = Some (terminal t)
               ∧ Hub.data (hub s') !! ws
                 = Some (Hub.mkData (mkId now (S (Hub.clientIdCounter (hub s)))) ∅)
               ∧ Hub.clientIdCounter (hub s') = S (Hub.clientIdCounter (hub s))
  end.
Proof.
  intros Hpre Hfree. unfold fetch. rewrite Hpre.
  change ("/" +:+ t) with (String "/" t). rewrite lastSegment_app by done.
  destruct t as [|c t]; [done|]. cbn. eexists. split; [done|].
  unfold upgrade. cbn. by rewrite !lookup_insert_eq.
Qed.

End ServerSpec.

(** A general socket 1 and a terminal socket 2 of T1: both are opened,
    the terminal puts out a chunk, socket 1 subscribes to T1 and an event
    of T1 is handed to the hub. *)
Definition twoSockets : list (@Op string) :=
  [ Fetch "/ws" 1 100 true; Open 1 0 100;
    Fetch "/ws/terminal/T1" 2 100 true; Open 2 42 101;
    Stdout "T1" "hi";
    Message 1 (Hub.Request "subscribe" (Some "T1")) Other;
    BroadcastToTicket "T1" "e" ].

Lemma a_socket_is_served_through_its_own_channel_only_witness :
  (kinds (applyAll init twoSockets) !! 1 = Some general
   ∧ Hub.sentTo (hub (applyAll init twoSockets)) 1 = [Hub.Json "e"]
   ∧ Terminal.observed (registry (applyAll init twoSockets)) 1 = [])
  ∧ (kinds (applyAll init twoSockets) !! 2 = Some (terminal "T1")
     ∧ Terminal.observed (registry (applyAll init twoSockets)) 2 = ["hi"]
     ∧ Hub.sentTo (hub (applyAll init twoSockets)) 2 = []).
Proof.
  assert (kinds (applyAll init twoSockets) !! (1 : Hub.Socket) = Some general) as K1
    by (vm_compute; reflexivity).
  assert (kinds (applyAll init twoSockets) !! (2 : Hub.Socket) = Some (terminal "T1")) as K2
    by (vm_compute; reflexivity).
  pose proof (a_socket_is_served_through_its_own_channel_only twoSockets 1) as H1.
  pose proof (a_socket_is_served_through_its_own_channel_only twoSockets 2) as H2.
  cbv zeta in H1, H2. rewrite K1 in H1. rewrite K2 in H2.
  destruct H1 as [O1 _]. destruct H2 as (_ & _ & S2 & _).
  split; (split; [assumption|]); split; try assumption; vm_compute; reflexivity.
Defined.

Lemma input_goes_to_the_process_of_the_ticket_of_its_socket_witness :
  Terminal.typedInto
    (inputs (apply (applyAll init twoSockets) (Message 2 Hub.Malformed (Input "ls")))) 42
  = ["ls"]
  ∧ Terminal.typedInto
      (inputs (apply (applyAll init twoSockets) (Message 1 Hub.Malformed (Input "ls")))) 42
    = [].
Proof.
  split.
  - rewrite (input_goes_to_the_process_of_the_ticket_of_its_socket twoSockets).
    vm_compute. reflexivity.
  - rewrite (input_goes_to_the_process_of_the_ticket_of_its_socket twoSockets).
    vm_compute. reflexivity.
Defined.

Lemma the_last_segment_of_the_path_is_the_ticket_witness :
  (∃ s', fetch "/ws/terminal/T1" 7 100 true (applyAll init twoSockets) = (Upgraded, s')
         ∧ kinds s' !! 7 = Some (terminal "T1")
         ∧ Hub.data (hub s') !! 7 = Some (Hub.mkData "client-100-3" ∅)
         ∧ Hub.clientIdCounter (hub s') = 3)
  ∧ (∃ s', fetch "/ws/terminal/a/T1" 7 100 true (applyAll init twoSockets) = (Upgraded, s')
           ∧ kinds s' !! 7 = Some (terminal "T1")
           ∧ Hub.data (hub s') !! 7 = Some (Hub.mkData "client-100-3" ∅)
           ∧ Hub.clientIdCounter (hub s') = 3)
  ∧ fetch "/ws/terminal/T1/" 7 100 true (applyAll init twoSockets)
    = (Status 400, applyAll init twoSockets).
Proof.
  split_and!.
  - apply (the_last_segment_of_the_path_is_the_ticket "/ws/terminal" "T1" 7 100
             (applyAll init twoSockets)); reflexivity.
  - apply (the_last_segment_of_the_path_is_the_ticket "/ws/terminal/a" "T1" 7 100
             (applyAll init twoSockets)); reflexivity.
  - apply (the_last_segment_of_the_path_is_the_ticket "/ws/terminal/T1" "" 7 100
             (applyAll init twoSockets)); reflexivity.
Defined.

End ServerSpec.


(** ** Properties of the routes on the terminal *)

Module RoutesSpec.
Import Routes MonadFacts.

(** The registry when the chat route has made sure of a process. *)
Definition ensured (ticketId : string) (proc : Terminal.Pid) (now : nat)
    (registry : Terminal.Registry) : Terminal.Registry :=
  match Terminal.sessions registry !! ticketId ≫= Terminal.process with
  | Some _ => registry
  | None => Terminal.startTerminalSession ticketId proc now registry
  end.

Lemma postChat_known (ticketId content : string) (proc : Terminal.Pid) (now : nat) (s : State)
    (tk : Orchestrator.TicketRow) :
  Orchestrator.tickets (Orchestrator.db (orch s)) !! ticketId = Some tk →
  let userMsgId := "id-" +:+ pretty (Orchestrator.nextId (orch s)) in
  let event := Orchestrator.message_created ticketId content Orchestrator.human in
  let registry := ensured ticketId proc now (Server.registry (server s)) in
  let sent := Hub.broadcastToTicket ticketId event (Server.hub (server s)) in
  postChat ticketId content proc now s
  = (match fst sent with inl e => inl e | inr _ => inr (ChatSent userMsgId) end,
     mkState
       (Orchestrator.set_db (Orchestrator.set_messages (λ l,
          l ++ [Orchestrator.mkMessage userMsgId ticketId content Orchestrator.human]))
          (Orchestrator.set_nextId (S (Orchestrator.nextId (orch s))) (orch s)))
       (Server.mkState (snd sent) registry
          (Terminal.sendToTerminal ticketId (content +:+ String Js.nl "") registry
                                   (Server.inputs (server s)))
          (Server.kinds (server s)))).
Proof.
  intros Htk userMsgId event registry sent.
  unfold postChat. rewrite bind_eq. unfold gets at 1. rewrite Htk.
  rewrite bind_eq. unfold zoom at 1, Orchestrator.nanoid at 1. cbn [orch].
  rewrite bind_eq. unfold modify at 1.
  rewrite bind_eq. unfold gets at 1. cbn [server set_orch Terminal.getTerminalSession].
  rewrite bind_eq.
  assert (∀ s0,
    match Terminal.sessions (Server.registry (server s)) !! ticketId ≫= Terminal.process with
    | Some _ => mret ()
    | None => modify (set_server (Server.set_registry
                        (Terminal.startTerminalSession ticketId proc now)))
    end s0
    = (inr (), match Terminal.sessions (Server.registry (server s)) !! ticketId
                     ≫= Terminal.process with
               | Some _ => s0
               | None => set_server (Server.set_registry
                           (Terminal.startTerminalSession ticketId proc now)) s0
               end)) as ->.
  { intros s0. by destruct (_ ≫= _). }
  rewrite bind_eq. unfold modify at 1. rewrite bind_eq.
  unfold withHub, zoom. subst sent registry. unfold ensured.
  destruct (Terminal.sessions (Server.registry (server s)) !! ticketId ≫= Terminal.process);
    cbn; by destruct (Hub.broadcastToTicket _ _ _) as [[e|[]] h'].
Qed.

Lemma ensured_process (ticketId : string) (proc : Terminal.Pid) (now : nat)
    (registry : Terminal.Registry) :
  Terminal.process <$> Terminal.sessions (ensured ticketId proc now registry) !! ticketId
  = Some (Some (default proc (Terminal.sessions registry !! ticketId ≫= Terminal.process))).
Proof.
  unfold ensured. destruct (Terminal.sessions registry !! ticketId) as [sess|] eqn:Hs; cbn.
  - destruct (Terminal.process sess) as [q|] eqn:Hq; cbn; [by rewrite Hs; cbn; rewrite Hq|].
    destruct (TerminalSpec.startTerminalSession_lookup ticketId proc now registry) as [-> _].
    rewrite Hs. cbn. unfold TerminalSpec.started. by rewrite Hq.
  - destruct (TerminalSpec.startTerminalSession_lookup ticketId proc now registry) as [-> _].
    by rewrite Hs.
Qed.

(** X27: the chat route answers 404 for a ticket that is not in the
    store, and nothing has changed.  For a ticket that is, the message is
    stored as a human message; the session of the ticket runs a process,
    the one it had or else a new one; the message and a line feed are
    written once to that process, unless the write throws, and to no
    other; and the event is handed to the hub for the subscribers of the
    ticket, whose exception, if any, is the route's. *)
Theorem chat_is_typed_into_the_terminal_of_its_ticket
    (ticketId content : string) (proc : Terminal.Pid) (now : nat) (s : State) :
  let result := postChat ticketId content proc now s in
  let s' := snd result in
  let userMsgId := "id-" +:+ pretty (Orchestrator.nextId (orch s)) in
  let event := Orchestrator.message_created ticketId content Orchestrator.human in
  let p := default proc (Terminal.sessions (Server.registry (server s)) !! ticketId
                         ≫= Terminal.process) in
  match Orchestrator.tickets (Orchestrator.db (orch s)) !! ticketId with
  | None => result = (inr ChatNotFound, s)
  | Some _ =>
      Orchestrator.messages (Orchestrator.db (orch s'))
      = Orchestrator.messages (Orchestrator.db (orch s))
        ++ [Orchestrator.mkMessage userMsgId ticketId content Orchestrator.human]
      ∧ Terminal.process <$> Terminal.sessions (Server.registry (server s')) !! ticketId
        = Some (Some p)
      ∧ (∀ q, Terminal.typedInto (Server.inputs (server s')) q
              = Terminal.typedInto (Server.inputs (server s)) q
                ++ if decide (q = p ∧ p ∉ Terminal.broken (Server.inputs (server s)))
                   then [content +:+ String Js.nl ""] else [])
      ∧ Server.hub (server s') = snd (Hub.broadcastToTicket ticketId event (Server.hub (server s)))
      ∧ fst result = match fst (Hub.broadcastToTicket ticketId event (Server.hub (server s))) with
                     | inl e => inl e
                     | inr _ => inr (ChatSent userMsgId)
                     end
  end.
Proof.
  intros result s' userMsgId event p.
  destruct (Orchestrator.tickets (Orchestrator.db (orch s)) !! ticketId) as [tk|] eqn:Htk.
  2:{ subst result. unfold postChat. rewrite bind_eq. unfold gets at 1. by rewrite Htk. }
  subst s' result. rewrite (postChat_known _ _ _ _ _ tk Htk). cbn [fst snd orch server].
  pose proof (ensured_process ticketId proc now (Server.registry (server s))) as Hp.
  fold p in Hp. split_and!; try done.
  intros q. cbn. rewrite TerminalSpec.sendToTerminal_typedInto, Hp. f_equal.
  destruct (decide (q = p ∧ _)) as [[-> ?]|Hn].
  - by rewrite decide_True.
  - rewrite decide_False; [done|]. intros [[= ->] ?]. by apply Hn.
Qed.

(** The start route when the ticket is in the store. *)
Lemma postTerminalStart_known (ticketId : string) (spawned : Js.Exn + Terminal.Pid) (now : nat)
    (s : State) (tk : Orchestrator.TicketRow) :
  Orchestrator.tickets (Orchestrator.db (orch s)) !! ticketId = Some tk →
  postTerminalStart ticketId spawned now s
  = let '(r, registry) := Terminal.startTerminalSessionM ticketId spawned now
                            (Server.registry (server s)) in
    (inr (match r with
          | inl e => StartFailed (Js.String_ e)
          | inr _ => Started (Terminal.getSessionStatus ticketId registry)
          end),
     mkState (orch s) (Server.mkState (Server.hub (server s)) registry
                                      (Server.inputs (server s)) (Server.kinds (server s)))).
Proof.
  intros Htk. unfold postTerminalStart. rewrite bind_eq. unfold gets at 1. rewrite Htk.
  rewrite try_catch_eq, bind_eq. unfold withRegistry, zoom.
  by destruct (Terminal.startTerminalSessionM _ _ _ _) as [[e|[]] registry].
Qed.

(** X28: the route that starts a terminal answers 404 for a ticket that
    is not in the store, and nothing has changed.  For a ticket that is,
    the record store is left alone.  When the session already runs a
    process, or the process is spawned, the answer is the status of the
    session, which says that it runs, and a second request, whatever
    would come of its spawn, gives the same answer and changes nothing.
    When the session runs no process and the spawn throws, the answer is
    500 with the error as a string, and the session is left ['starting']
    without a running process and with the observers it had. *)
Theorem start_route_reports_the_session_or_the_failure
    (ticketId : string) (spawned again : Js.Exn + Terminal.Pid) (now now' : nat) (s : State) :
  let before := Terminal.getSessionStatus ticketId (Server.registry (server s)) in
  let result := postTerminalStart ticketId spawned now s in
  let after := Terminal.getSessionStatus ticketId (Server.registry (server (snd result))) in
  match Orchestrator.tickets (Orchestrator.db (orch s)) !! ticketId with
  | None => result = (inr StartNotFound, s)
  | Some _ =>
      orch (snd result) = orch s
      ∧ match spawned, Terminal.ss_running before with
        | inl e, false =>
            fst result = inr (StartFailed (Js.String_ e))
            ∧ Terminal.ss_running after = false
            ∧ Terminal.ss_status after = "starting"
            ∧ Terminal.ss_clients after = Terminal.ss_clients before
        | _, _ =>
            fst result = inr (Started after)
            ∧ Terminal.ss_running after = true
            ∧ Terminal.ss_status after = "running"
            ∧ postTerminalStart ticketId again now' (snd result)
              = (inr (Started after), snd result)
        end
  end.
Proof.
  intros before result after. subst before result after.
  destruct (Orchestrator.tickets (Orchestrator.db (orch s)) !! ticketId) as [tk|] eqn:Htk.
  2:{ unfold postTerminalStart. rewrite bind_eq. unfold gets at 1. by rewrite Htk. }
  set (r := Server.registry (server s)).
  assert (∀ r', Terminal.startTerminalSessionM ticketId spawned now r = (inr (), r') →
            Terminal.ss_running (Terminal.getSessionStatus ticketId r') = true →
            Terminal.ss_status (Terminal.getSessionStatus ticketId r') = "running" →
            let result := postTerminalStart ticketId spawned now s in
            let after := Terminal.getSessionStatus ticketId
                           (Server.registry (server (snd result))) in
            orch (snd result) = orch s
            ∧ fst result = inr (Started after)
            ∧ Terminal.ss_running after = true
            ∧ Terminal.ss_status after = "running"
            ∧ postTerminalStart ticketId again now' (snd result)
              = (inr (Started after), snd result)) as Hruns.
  { intros r' Hstart Hrun Hst result after. subst result after.
    rewrite (postTerminalStart_known _ _ _ _ tk Htk). fold r. rewrite Hstart.
    cbn [fst snd orch server Server.registry].
    split_and!; try done.
    rewrite (postTerminalStart_known ticketId again now' (mkState (orch s) _) tk Htk).
    cbn [fst snd orch server Server.registry Server.hub Server.inputs Server.kinds].
    by rewrite (TerminalSpec.startTerminalSessionM_running _ _ _ _ Hrun). }
  assert (Terminal.ss_running (Terminal.getSessionStatus ticketId r) = true →
          Terminal.ss_status (Terminal.getSessionStatus ticketId r) = "running") as Hstatus.
  { unfold Terminal.getSessionStatus. destruct (Terminal.sessions r !! ticketId) as [sess|]; [|done].
    cbn. by destruct (Terminal.process sess), (Terminal.status sess). }
  destruct spawned as [e|proc].
  - destruct (Terminal.ss_running (Terminal.getSessionStatus ticketId r)) eqn:Hrun.
    + destruct (Hruns r (TerminalSpec.startTerminalSessionM_running _ _ _ _ Hrun) Hrun (Hstatus eq_refl))
        as (? & ?). by split.
    + destruct (TerminalSpec.startTerminalSessionM_throws ticketId e now r Hrun)
        as (r' & Hstart & H1 & H2 & H3).
      rewrite (postTerminalStart_known _ _ _ _ tk Htk). fold r. rewrite Hstart.
      cbn [fst snd orch server Server.registry]. by split_and!.
  - pose proof (TerminalSpec.startTerminalSessionM_spawned ticketId proc now r) as Hstart.
    destruct (TerminalSpec.startTerminalSession_lookup ticketId proc now r) as (Hs & _).
    destruct (TerminalSpec.started_running proc now
                (default (Terminal.newSession ticketId) (Terminal.sessions r !! ticketId)))
      as (q & Hq & Hst).
    assert (Terminal.ss_running (Terminal.getSessionStatus ticketId
              (Terminal.startTerminalSession ticketId proc now r)) = true
            ∧ Terminal.ss_status (Terminal.getSessionStatus ticketId
                (Terminal.startTerminalSession ticketId proc now r)) = "running") as [H1 H2].
    { unfold Terminal.getSessionStatus. rewrite Hs. cbn. by rewrite Hq, Hst. }
    destruct (Hruns _ Hstart H1 H2) as (? & ?).
    split; [done|]. by destruct (Terminal.ss_running _).
Qed.

End RoutesSpec.

